(** * Extended linear scan over vasm virtual registers (vasm-xls.cpp)

    A shallow embedding of the lifetime-interval data structures, the
    interval builder, the spill-slot bookkeeping of the allocator and the
    split resolution of [hphp/runtime/vm/jit/vasm-xls.cpp], followed by the
    properties proved about them.

    Conventions.
    - [unsigned] positions are integers in [0, 2^32); arithmetic that can
      leave that range is wrapped with [wrap].
    - A [jit::vector] is a list in index order ([back] is the last element).
    - Heap-allocated [Interval]s live in a store keyed by address; [parent]
      and [next] are optional addresses.
    - [PUNT], a failed [always_assert]/[assertx] and an access the C++
      leaves undefined are the three ways a computation can stop; they are
      the [Failure] values carried by [result]. *)

From Stdlib Require Import ZArith Lia Bool.
From stdpp Require Import base option list gmap.

Local Open Scope Z_scope.

(** ** Positions *)

Definition kMaxPos : Z := 4294967295.

Definition wrap (z : Z) : Z := z mod 4294967296.

Definition is_pos (z : Z) : Prop := 0 <= z <= kMaxPos.

(** ** Failure exits *)

Inductive PuntTag := LinearScan_TooManySpills | RegSpill.

Inductive Failure :=
| Punt (tag : PuntTag)
| AssertFailed
| Undefined.

Inductive result (A : Type) : Type :=
| Ok (a : A)
| Fail (f : Failure).

Arguments Ok {A} a.
Arguments Fail {A} f.

#[global] Instance result_ret : MRet result := fun A a => Ok a.
#[global] Instance result_bind : MBind result := fun A B k m =>
  match m with
  | Ok a => k a
  | Fail f => Fail f
  end.

Definition assertx (b : bool) : result unit :=
  if b then Ok tt else Fail AssertFailed.

Definition deref {A} (o : option A) : result A :=
  match o with
  | Some a => Ok a
  | None => Fail Undefined
  end.

(** ** Registers *)

(** Modelled from the spec: [vasm-reg.h] is not part of the sources. A
    virtual register is either a numbered virtual register, a physical
    register exposed as a [Vreg], or the invalid register [Vreg{}]. *)
Inductive Vreg :=
| Virt (n : nat)
| Phys (r : nat)
| InvalidVreg.

Inductive PhysReg :=
| Reg (n : nat)
| InvalidReg.

#[global] Instance Vreg_eq_dec : EqDecision Vreg.
Proof. solve_decision. Defined.

#[global] Instance PhysReg_eq_dec : EqDecision PhysReg.
Proof. solve_decision. Defined.

#[global] Instance Vreg_countable : Countable Vreg.
Proof.
  refine (inj_countable'
    (fun v => match v with
              | Virt n => inl n
              | Phys r => inr (Some r)
              | InvalidVreg => inr None
              end)
    (fun s => match s with
              | inl n => Virt n
              | inr (Some r) => Phys r
              | inr None => InvalidVreg
              end) _).
  intros []; reflexivity.
Defined.

#[global] Instance PhysReg_countable : Countable PhysReg.
Proof.
  refine (inj_countable'
    (fun r => match r with Reg n => Some n | InvalidReg => None end)
    (fun o => match o with Some n => Reg n | None => InvalidReg end) _).
  intros []; reflexivity.
Defined.

Definition isPhys (v : Vreg) : bool :=
  match v with Phys _ => true | _ => false end.

Definition isValid (v : Vreg) : bool :=
  match v with InvalidVreg => false | _ => true end.

(** ** Vreg discriminator *)

Inductive Constraint := Any | CopySrc | Gpr | Simd | Sf.

#[global] Instance Constraint_eq_dec : EqDecision Constraint.
Proof. solve_decision. Defined.

(** A Use refers to the position where an interval is used or defined. *)
Record Use := mkUse {
  kind : Constraint;
  pos : Z;
  hint : Vreg
}.

(** ** LiveRange: the closed-open range [start, end) *)

Module LiveRange.

Record t := mk {
  start : Z;
  end_ : Z
}.

Definition contains (r : t) (p : Z) : bool :=
  (start r <=? p) && (p <? end_ r).

Definition intersects (r q : t) : bool :=
  (start q <? end_ r) && (start r <? end_ q).

Definition contains_range (r q : t) : bool :=
  (start r <=? start q) && (end_ q <=? end_ r).

End LiveRange.

Abbreviation LiveRange := LiveRange.t.

Definition kInvalidSpillSlot : Z := -1.

Definition addr := nat.

(** Payload of a constant; its layout plays no role in allocation. *)
Definition Vconst := Z.

(** ** Interval *)

Module Interval.

Record t := mk {
  parent : option addr;
  next : option addr;
  ranges : list LiveRange;
  uses : list Use;
  vreg : Vreg;
  def_pos : Z;
  slot : Z;
  wide : bool;
  reg : PhysReg;
  constant : bool;
  val : Vconst
}.

(** [explicit Interval(Vreg r)] *)
Definition make (r : Vreg) : t :=
  {| parent := None; next := None; ranges := []; uses := []; vreg := r;
     def_pos := 0; slot := kInvalidSpillSlot; wide := false;
     reg := InvalidReg; constant := false; val := 0 |}.

(** [explicit Interval(Interval* parent)]; [p] is the record at [pa]. *)
Definition make_child (pa : addr) (p : t) : t :=
  {| parent := Some pa; next := None; ranges := []; uses := [];
     vreg := vreg p; def_pos := 0; slot := kInvalidSpillSlot;
     wide := wide p; reg := InvalidReg; constant := constant p;
     val := val p |}.

(** [front()] and [back()] of an empty vector are undefined; every
    interval the allocator sees has at least one range, and the properties
    below assume it. *)
Definition start (i : t) : Z :=
  match ranges i with
  | r :: _ => LiveRange.start r
  | [] => 0
  end.

Definition end_ (i : t) : Z :=
  match last (ranges i) with
  | Some r => LiveRange.end_ r
  | None => 0
  end.

Definition fixed (i : t) : bool := isPhys (vreg i).

Definition spilled (i : t) : bool :=
  bool_decide (reg i = InvalidReg) && (0 <=? slot i).

(** Binary searches. [fuel] bounds the number of iterations; [hi - lo]
    halves each time so [length] of the vector is enough. *)
Fixpoint findRange_loop (fuel : nat) (rs : list LiveRange) (p : Z)
    (lo hi : nat) : nat :=
  match fuel with
  | O => lo
  | S fuel' =>
    if (lo <? hi)%nat then
      let mid := ((lo + hi) / 2)%nat in
      match rs !! mid with
      | Some r =>
        if p <? LiveRange.start r then findRange_loop fuel' rs p lo mid
        else if LiveRange.end_ r <=? p then
          findRange_loop fuel' rs p (mid + 1)%nat hi
        else mid
      | None => lo
      end
    else lo
  end.

Definition findRange (i : t) (p : Z) : nat :=
  findRange_loop (length (ranges i)) (ranges i) p 0 (length (ranges i)).

Fixpoint findUse_loop (fuel : nat) (us : list Use) (p : Z)
    (lo hi : nat) : nat :=
  match fuel with
  | O => lo
  | S fuel' =>
    if (lo <? hi)%nat then
      let mid := ((lo + hi) / 2)%nat in
      match us !! mid with
      | Some u =>
        if p <? pos u then findUse_loop fuel' us p lo mid
        else if pos u <? p then findUse_loop fuel' us p (mid + 1)%nat hi
        else mid
      | None => lo
      end
    else lo
  end.

Definition findUse (i : t) (p : Z) : nat :=
  findUse_loop (length (uses i)) (uses i) p 0 (length (uses i)).

Definition covers (i : t) (p : Z) : bool :=
  if (p <? start i) || (end_ i <=? p) then false
  else match ranges i !! findRange i p with
       | Some r => LiveRange.contains r p
       | None => false
       end.

Definition usedAt (i : t) (p : Z) : bool :=
  if (p <? start i) || (end_ i <? p) then false
  else match uses i !! findUse i p with
       | Some u => p =? pos u
       | None => false
       end.

Fixpoint firstUseAfter_loop (us : list Use) (p : Z) : Z :=
  match us with
  | [] => kMaxPos
  | u :: us' =>
    if bool_decide (kind u = CopySrc) then firstUseAfter_loop us' p
    else if p <=? pos u then pos u
    else firstUseAfter_loop us' p
  end.

Definition firstUseAfter (i : t) (p : Z) : Z := firstUseAfter_loop (uses i) p.

Fixpoint lastUseBefore_loop (us : list Use) (p prev : Z) : Z :=
  match us with
  | [] => prev
  | u :: us' =>
    if bool_decide (kind u = CopySrc) then lastUseBefore_loop us' p prev
    else if p <? pos u then prev
    else lastUseBefore_loop us' p (pos u)
  end.

Definition lastUseBefore (i : t) (p : Z) : Z :=
  lastUseBefore_loop (uses i) p 0.

Fixpoint firstUse_loop (us : list Use) : Z :=
  match us with
  | [] => kMaxPos
  | u :: us' =>
    if bool_decide (kind u = CopySrc) then firstUse_loop us' else pos u
  end.

Definition firstUse (i : t) : Z := firstUse_loop (uses i).

End Interval.

Abbreviation Interval := Interval.t.

(** The store of heap-allocated intervals. *)
Abbreviation Heap := (gmap addr Interval).

Module IntervalOps.

Import Interval.

Definition set_ranges (rs : list LiveRange) (i : Interval) : Interval :=
  mk (parent i) (next i) rs (uses i) (vreg i) (def_pos i) (slot i)
     (wide i) (reg i) (constant i) (val i).

Definition set_uses (us : list Use) (i : Interval) : Interval :=
  mk (parent i) (next i) (ranges i) us (vreg i) (def_pos i) (slot i)
     (wide i) (reg i) (constant i) (val i).

Definition set_next (n : option addr) (i : Interval) : Interval :=
  mk (parent i) n (ranges i) (uses i) (vreg i) (def_pos i) (slot i)
     (wide i) (reg i) (constant i) (val i).

Definition set_slot (s : Z) (i : Interval) : Interval :=
  mk (parent i) (next i) (ranges i) (uses i) (vreg i) (def_pos i) s
     (wide i) (reg i) (constant i) (val i).

Definition set_reg (r : PhysReg) (i : Interval) : Interval :=
  mk (parent i) (next i) (ranges i) (uses i) (vreg i) (def_pos i) (slot i)
     (wide i) r (constant i) (val i).

Definition set_def_pos (p : Z) (i : Interval) : Interval :=
  mk (parent i) (next i) (ranges i) (uses i) (vreg i) p (slot i)
     (wide i) (reg i) (constant i) (val i).

Definition set_wide (w : bool) (i : Interval) : Interval :=
  mk (parent i) (next i) (ranges i) (uses i) (vreg i) (def_pos i) (slot i)
     w (reg i) (constant i) (val i).

Definition set_constant (c : bool) (v : Vconst) (i : Interval) : Interval :=
  mk (parent i) (next i) (ranges i) (uses i) (vreg i) (def_pos i) (slot i)
     (wide i) (reg i) c v.

End IntervalOps.

Import IntervalOps.

(** [Interval* leader() { return parent ? parent : this; }] *)
Definition leader (self : addr) (i : Interval) : addr :=
  default self (Interval.parent i).

(** ** Interval::childAt *)

(** [for (auto ivl = this; ivl; ivl = ivl->next)]. The fuel bounds the
    length of the chain. *)
Fixpoint childAt_loop (fuel : nat) (h : Heap) (ivl : option addr) (p : Z)
    : result (option addr) :=
  match ivl with
  | None => Ok None
  | Some a =>
    match fuel with
    | O => Fail Undefined
    | S fuel' =>
      i ← deref (h !! a);
      if p <? Interval.start i then Ok None
      else if Interval.usedAt i p then Ok (Some a)
      else childAt_loop fuel' h (Interval.next i) p
    end
  end.

(** Return the child interval which has a use at [pos], else nullptr;
    it requires [leader() == this], which [assertx(!parent)] checks. A
    chain visits every stored interval at most once, so the size of the
    store bounds the walk. *)
Definition childAt (h : Heap) (root : addr) (p : Z) : result (option addr) :=
  this ← deref (h !! root);
  _ ← assertx (negb (bool_decide (is_Some (Interval.parent this))));
  childAt_loop (S (size h)) h (Some root) p.

(** ** nextIntersect *)

(** The two-finger search of [nextIntersect]: [l1] is [r1..e1], [l2] is
    [r2..e2]. Either finger on its end iterator at a dereference is
    undefined. *)
Fixpoint nextIntersect_loop (l1 : list LiveRange)
    : list LiveRange -> result Z :=
  match l1 with
  | [] => fun _ => Fail Undefined
  | r1 :: t1 =>
    fix inner (l2 : list LiveRange) : result Z :=
      match l2 with
      | [] => Fail Undefined
      | r2 :: t2 =>
        if LiveRange.start r1 <? LiveRange.start r2 then
          if LiveRange.start r2 <? LiveRange.end_ r1
          then Ok (LiveRange.start r2)
          else match t1 with
               | [] => Ok kMaxPos
               | _ => nextIntersect_loop t1 l2
               end
        else
          if LiveRange.start r1 <? LiveRange.end_ r2
          then Ok (LiveRange.start r1)
          else match t2 with
               | [] => Ok kMaxPos
               | _ => inner t2
               end
      end
  end.

Definition nextIntersect (current other : Interval) : result Z :=
  _ ← assertx (negb (Interval.fixed current));
  if negb (bool_decide (is_Some (Interval.parent current)))
     && negb (bool_decide (is_Some (Interval.parent other)))
     && negb (Interval.fixed other)
  then Ok kMaxPos
  else if Interval.end_ current <=? Interval.start other then Ok kMaxPos
  else
    nextIntersect_loop
      (Interval.ranges current)
      (drop (Interval.findRange other (Interval.start current))
            (Interval.ranges other)).

(** ** Interval::split *)

(** The ranges kept by [this] and those moved to the child, given the
    index [i] returned by [findRange(pos)]. *)
Definition split_ranges (rs : list LiveRange) (i : nat) (p : Z)
    : result (list LiveRange * list LiveRange) :=
  r1 ← deref (rs !! i);
  if LiveRange.start r1 <? p then
    Ok (take i rs ++ [LiveRange.mk (LiveRange.start r1) p],
        LiveRange.mk p (LiveRange.end_ r1) :: drop (S i) rs)
  else Ok (take i rs, drop i rs).

(** [while (u1 != u2 && f(u1->pos)) u1++], counted from [u1]. *)
Fixpoint advance (f : Z -> bool) (us : list Use) : nat :=
  match us with
  | [] => O
  | u :: us' => if f (pos u) then S (advance f us') else O
  end.

Definition split (h : Heap) (self : addr) (p : Z) (keep_uses : bool)
    : result (Heap * addr) :=
  this ← deref (h !! self);
  _ ← assertx ((Interval.start this <? p) && (p <? Interval.end_ this));
  let la := leader self this in
  ldr ← deref (h !! la);
  let c := fresh (dom h) in
  '(rs1, rs2) ← split_ranges (Interval.ranges this)
                              (Interval.findRange this p) p;
  let this1 := set_ranges rs1 this in
  let child1 := set_ranges rs2
                  (set_next (Interval.next this)
                     (Interval.make_child la ldr)) in
  let u0 := Interval.findUse this1 (Interval.end_ this1) in
  let f :=
    if keep_uses then (fun q => q <=? Interval.end_ this1)
    else (fun q => q <? Interval.start child1) in
  let u1 := (u0 + advance f (drop u0 (Interval.uses this1)))%nat in
  let child := set_uses (drop u1 (Interval.uses this1)) child1 in
  let this' :=
    set_uses (take u1 (Interval.uses this1))
      (set_next (Some c) this1) in
  Ok (<[c := child]> (<[self := this']> h), c).

(** ** The sack of inputs of the main algorithm *)

Definition Vlabel := nat.

(** Bitset of Vreg numbers. *)
Abbreviation LiveSet := (gset Vreg).

(** The register sets of the ABI are consulted only by [constrain] and by
    the effects table, neither of which is modelled; [tmp] is used only
    when copies are materialised. A default-constructed (size 0) bitset
    in [livein] is [None]. *)
Record VxlsContext := mkContext {
  sp : PhysReg;
  blocks : list Vlabel;
  block_ranges : list LiveRange;
  spill_offsets : list Z;
  livein : list (option LiveSet)
}.

(** The ID of the block enclosing [pos]. *)
Fixpoint blockFor_loop (fuel : nat) (ctx : VxlsContext) (p : Z)
    (lo hi : nat) : result Vlabel :=
  match fuel with
  | O => Fail AssertFailed
  | S fuel' =>
    if (lo <? hi)%nat then
      let mid := ((lo + hi) / 2)%nat in
      b ← deref (blocks ctx !! mid);
      r ← deref (block_ranges ctx !! b);
      if p <? LiveRange.start r then blockFor_loop fuel' ctx p lo mid
      else if LiveRange.end_ r <=? p then
        blockFor_loop fuel' ctx p (mid + 1)%nat hi
      else Ok b
    else Fail AssertFailed
  end.

Definition blockFor (ctx : VxlsContext) (p : Z) : result Vlabel :=
  blockFor_loop (S (length (blocks ctx))) ctx p 0 (length (blocks ctx)).

(** Return the closest split position on or before [pos]. *)
Definition nearestSplitBefore (ctx : VxlsContext) (p : Z) : result Z :=
  b ← blockFor ctx p;
  range ← deref (block_ranges ctx !! b);
  if p =? LiveRange.start range then Ok p
  else Ok (Z.lor (wrap (p - 1)) 1).

(** ** Register allocation: the state of [Vxls] *)

(** Information about spills generated by register allocation. *)
Record SpillInfo := mkSpillInfo {
  num_spills : Z;
  used_spill_slots : nat
}.

(** The intermediate data of the allocation phase. [spill_slots] has
    [kMaxSpillSlots] entries (the constant is declared outside this file;
    it is the length of the list and is assumed positive): the last
    position each spill slot was owned, [kMaxPos] meaning currently used.
    [pending] is the priority queue, kept as the bag of its elements. *)
Record Vxls := mkVxls {
  heap : Heap;
  pending : list addr;
  active : list addr;
  inactive : list addr;
  spill_slots : list Z;
  spill_info : SpillInfo
}.

Module VxlsOps.

Definition set_heap (h : Heap) (st : Vxls) : Vxls :=
  mkVxls h (pending st) (active st) (inactive st) (spill_slots st)
         (spill_info st).

Definition set_pending (l : list addr) (st : Vxls) : Vxls :=
  mkVxls (heap st) l (active st) (inactive st) (spill_slots st)
         (spill_info st).

Definition set_active (l : list addr) (st : Vxls) : Vxls :=
  mkVxls (heap st) (pending st) l (inactive st) (spill_slots st)
         (spill_info st).

Definition set_inactive (l : list addr) (st : Vxls) : Vxls :=
  mkVxls (heap st) (pending st) (active st) l (spill_slots st)
         (spill_info st).

Definition set_spill_slots (l : list Z) (st : Vxls) : Vxls :=
  mkVxls (heap st) (pending st) (active st) (inactive st) l
         (spill_info st).

Definition set_spill_info (s : SpillInfo) (st : Vxls) : Vxls :=
  mkVxls (heap st) (pending st) (active st) (inactive st) (spill_slots st)
         s.

End VxlsOps.

Import VxlsOps.

(** The scan for a reusable slot: the first [slot] whose high water mark
    the leader's start has reached. *)
Fixpoint find_slot (ss : list Z) (leader_start : Z) (slot : nat)
    : option nat :=
  match ss with
  | [] => None
  | w :: ss' =>
    if w <=? leader_start then Some slot
    else find_slot ss' leader_start (S slot)
  end.

(** The same for a wide interval: [slot] advances by two and both [slot]
    and [slot + 1] must be reusable. *)
Fixpoint find_wide_slot (ss : list Z) (leader_start : Z) (slot : nat)
    : option nat :=
  match ss with
  | w0 :: w1 :: ss' =>
    if (w0 <=? leader_start) && (w1 <=? leader_start) then Some slot
    else find_wide_slot ss' leader_start (S (S slot))
  | _ => None
  end.

(** The [assign_slot] lambda of [assignSpill]. *)
Definition assign_slot (st : Vxls) (ivl la : addr) (i ldr : Interval)
    (slot : nat) : Vxls :=
  let h := <[ivl := set_slot (Z.of_nat slot) i]>
             (<[la := set_slot (Z.of_nat slot) ldr]> (heap st)) in
  let info := spill_info st in
  let ss := <[slot := kMaxPos]> (spill_slots st) in
  if negb (Interval.wide i) then
    set_spill_info
      (mkSpillInfo (num_spills info + 1)
                   (Nat.max (used_spill_slots info) (slot + 1)))
      (set_spill_slots ss (set_heap h st))
  else
    set_spill_info
      (mkSpillInfo (num_spills info + 1)
                   (Nat.max (used_spill_slots info) (slot + 2)))
      (set_spill_slots (<[S slot := kMaxPos]> ss) (set_heap h st)).

(** Assign the next available spill slot to [ivl]. *)
Definition assignSpill (st : Vxls) (ivl : addr) : result Vxls :=
  i ← deref (heap st !! ivl);
  _ ← assertx (negb (Interval.fixed i)
               && bool_decide (is_Some (Interval.parent i)));
  la ← deref (Interval.parent i);
  ldr ← deref (heap st !! la);
  if negb (Interval.slot ldr =? kInvalidSpillSlot) then
    Ok (set_heap (<[ivl := set_slot (Interval.slot ldr) i]> (heap st)) st)
  else
    let found :=
      if negb (Interval.wide i)
      then find_slot (spill_slots st) (Interval.start ldr) 0
      else find_wide_slot (spill_slots st) (Interval.start ldr) 0 in
    match found with
    | Some slot => Ok (assign_slot st ivl la i ldr slot)
    | None => Fail (Punt LinearScan_TooManySpills)
    end.

(** Assign [r] to [ivl]. *)
Definition assignReg (st : Vxls) (ivl : addr) (r : PhysReg) : result Vxls :=
  i ← deref (heap st !! ivl);
  if negb (Interval.fixed i) && bool_decide (Interval.uses i = []) then
    let st1 := set_heap (<[ivl := set_reg InvalidReg i]> (heap st)) st in
    if negb (Interval.constant i) then assignSpill st1 ivl else Ok st1
  else
    Ok (set_active (active st ++ [ivl])
          (set_heap (<[ivl := set_reg r i]> (heap st)) st)).

(** Spill [ivl] from its start until its first register use. *)
Definition spill (ctx : VxlsContext) (st : Vxls) (ivl : addr)
    : result Vxls :=
  i ← deref (heap st !! ivl);
  let first_use := Interval.firstUse i in
  st1 ← (if first_use <=? Interval.end_ i then
           split_pos ← nearestSplitBefore ctx first_use;
           if split_pos <=? Interval.start i then Fail (Punt RegSpill)
           else
             '(h', c) ← split (heap st) ivl split_pos false;
             Ok (set_pending (c :: pending st) (set_heap h' st))
         else Ok st);
  i1 ← deref (heap st1 !! ivl);
  let st2 := set_heap (<[ivl := set_reg InvalidReg i1]> (heap st1)) st1 in
  if negb (Interval.constant i1) then assignSpill st2 ivl else Ok st2.

(** An [int] slot used as an array index. *)
Definition slot_index (s : Z) : result nat :=
  if 0 <=? s then Ok (Z.to_nat s) else Fail Undefined.

(** [spill_slots[k] = e], preceded by [assertx(spill_slots[k])]. *)
Definition release_slot (ss : list Z) (k : nat) (e : Z) : result (list Z) :=
  w ← deref (ss !! k);
  _ ← assertx (negb (w =? 0));
  Ok (<[k := e]> ss).

(** The [free_spill_slot] lambda of [update]. *)
Definition free_spill_slot (st : Vxls) (ivl : addr) : result Vxls :=
  i ← deref (heap st !! ivl);
  _ ← assertx (negb (bool_decide (is_Some (Interval.next i))));
  ldr ← deref (heap st !! leader ivl i);
  let slot := Interval.slot ldr in
  if negb (slot =? kInvalidSpillSlot) then
    k ← slot_index slot;
    ss1 ← (if Interval.wide i
           then release_slot (spill_slots st) (S k) (Interval.end_ i)
           else Ok (spill_slots st));
    ss2 ← release_slot ss1 k (Interval.end_ i);
    Ok (set_spill_slots ss2 st)
  else Ok st.

(** [*i = *--end]: the window [i, end) after the element at [i] has been
    overwritten by the last one; [w] is the window without its head. *)
Definition swap_remove (w : list addr) : list addr :=
  match last w with
  | Some y => y :: removelast w
  | None => []
  end.

(** The [update_list] lambda of [update]. [done] is the part of [target]
    before the iterator, [window] the part from the iterator to [end].
    The intervals moved to [other] are appended to [moved]. *)
Fixpoint update_list (fuel : nat) (p : Z) (is_active : bool) (st : Vxls)
    (done window moved : list addr)
    : result (Vxls * list addr * list addr) :=
  match fuel with
  | O => Ok (st, done, moved)
  | S fuel' =>
    match window with
    | [] => Ok (st, done, moved)
    | ivl :: w =>
      i ← deref (heap st !! ivl);
      if Interval.end_ i <=? p then
        st' ← (if negb (bool_decide (is_Some (Interval.next i)))
               then free_spill_slot st ivl else Ok st);
        update_list fuel' p is_active st' done (swap_remove w) moved
      else if (if is_active then negb (Interval.covers i p)
               else Interval.covers i p) then
        update_list fuel' p is_active st done (swap_remove w)
                    (moved ++ [ivl])
      else update_list fuel' p is_active st (done ++ [ivl]) w moved
    end
  end.

(** Update the active and inactive lists for the start of [current]. *)
Definition update (st : Vxls) (current : addr) : result Vxls :=
  cur ← deref (heap st !! current);
  let p := Interval.start cur in
  '(st1, act, moved1) ←
    update_list (length (active st)) p true st [] (active st) [];
  let inact0 := inactive st1 ++ moved1 in
  '(st2, inact, moved2) ←
    update_list (length inact0) p false st1 [] inact0 [];
  Ok (set_inactive inact (set_active (act ++ moved2) st2)).

(** ** Instructions *)

(** Modelled from the spec: the instruction set, [visitOperands] and the
    effects table ([getEffects]) are declared outside this file. An
    instruction is its opcode (with the fields [spEffect] reads), the
    operand visits that [visitOperands] makes, in order, and the three
    implicit register sets of [getEffects]. An operand of type [VregSF]
    is listed with kind [Sf]; the tuple and register-set overloads are
    listed element by element. *)
Module Vinstr.

Inductive Opcode :=
| push
| pop
| addqi (s0 : Z) (s1 d : Vreg)
| subqi (s0 : Z) (s1 d : Vreg)
| lea (base index : Vreg) (disp : Z) (d : Vreg)
| copy
| copy2
| copyargs
| phijmp
| phijcc
| phidef
| nop
| other.

Inductive Operand :=
| ODef (r : Vreg) (k : Constraint) (h : Vreg) (w : bool)
| OUse (r : Vreg) (k : Constraint) (h : Vreg)
| OAcross (r : Vreg) (k : Constraint).

Record t := mk {
  op : Opcode;
  operands : list Operand;
  implicit_uses : list Vreg;
  implicit_across : list Vreg;
  implicit_defs : list Vreg
}.

End Vinstr.

Abbreviation Vinstr := Vinstr.t.

Record Vblock := mkBlock {
  code : list Vinstr;
  succs : list Vlabel
}.

Record Vunit := mkUnit {
  unit_blocks : list Vblock;
  constToReg : list (Vconst * Vreg);
  entry : Vlabel
}.

(** [Vreg64(sp)] *)
Definition Vreg_of (r : PhysReg) : Vreg :=
  match r with
  | Reg n => Phys n
  | InvalidReg => InvalidVreg
  end.

(** This is a debug build: [assertx] is compiled in. *)
Definition debug : bool := true.

(** Two's complement [int]. *)
Definition wrap_int (z : Z) : Z := (z + 2147483648) mod 4294967296 - 2147483648.

Definition is_int (z : Z) : Prop := -2147483648 <= z <= 2147483647.

(** The registers handed to the callback of [visitDefs]. *)
Definition visitDefs (inst : Vinstr) : list Vreg :=
  omap (fun o => match o with
                 | Vinstr.ODef r _ _ _ => Some r
                 | _ => None
                 end) (Vinstr.operands inst).

(** Return the effect this instruction has on the value of [sp]. *)
Definition spEffect (inst : Vinstr) (sp : PhysReg) : result Z :=
  match Vinstr.op inst with
  | Vinstr.push => Ok (-8)
  | Vinstr.pop => Ok 8
  | Vinstr.addqi s0 s1 d =>
    if bool_decide (d = Vreg_of sp) then
      _ ← assertx (bool_decide (s1 = Vreg_of sp));
      Ok s0
    else Ok 0
  | Vinstr.subqi s0 s1 d =>
    if bool_decide (d = Vreg_of sp) then
      _ ← assertx (bool_decide (s1 = Vreg_of sp));
      Ok (wrap_int (- s0))
    else Ok 0
  | Vinstr.lea base index disp d =>
    if bool_decide (d = Vreg_of sp) then
      _ ← assertx (bool_decide (base = d) && negb (isValid index));
      Ok disp
    else Ok 0
  | _ =>
    _ ← (if debug
         then assertx (forallb (fun r => negb (bool_decide (r = Vreg_of sp)))
                               (visitDefs inst))
         else Ok tt);
    Ok 0
  end.

(** ** Lifetime continuity resolution *)

(** The keys are the dests; the values are the sources. *)
Abbreviation CopyPlan := (gmap PhysReg addr).

Record ResolutionPlan := mkPlan {
  copies : gmap Z CopyPlan;
  spills : gmap Z CopyPlan;
  edge_copies : gmap (Vlabel * nat) CopyPlan
}.

(** [plans[pos][r] = ivl]; a [PhysReg::Map] has no entry for
    [InvalidReg]. *)
Definition record_at (plans : gmap Z CopyPlan) (p : Z) (r : PhysReg)
    (ivl : addr) : result (gmap Z CopyPlan) :=
  match r with
  | InvalidReg => Fail Undefined
  | Reg _ => Ok (<[p := <[r := ivl]> (default ∅ (plans !! p))]> plans)
  end.

(** Insert a spill after the def-position in [ivl]. *)
Definition insertSpill (ctx : VxlsContext) (h : Heap)
    (resolution : ResolutionPlan) (ivl : addr) : result ResolutionPlan :=
  i ← deref (h !! ivl);
  let p := wrap (Interval.def_pos i + 1) in
  _ ← (if debug then
         _ ← assertx (p mod 2 =? 1);
         b ← blockFor ctx p;
         range ← deref (block_ranges ctx !! b);
         assertx ((LiveRange.start range <=? wrap (p - 1))
                  && (wrap (p + 1) <? LiveRange.end_ range))
       else Ok tt);
  sp' ← record_at (spills resolution) p (Interval.reg i) ivl;
  Ok (mkPlan (copies resolution) sp' (edge_copies resolution)).

(** The inner loop of [resolveSplits]:
    [for (auto i2 = i1->next; i2; i1 = i2, i2 = i2->next)]. The fuel
    bounds the length of the chain. *)
Fixpoint resolve_chain (fuel : nat) (ctx : VxlsContext) (h : Heap)
    (resolution : ResolutionPlan) (i1 : addr) (i2o : option addr)
    : result ResolutionPlan :=
  match i2o with
  | None => Ok resolution
  | Some i2 =>
    match fuel with
    | O => Fail Undefined
    | S fuel' =>
      a ← deref (h !! i1);
      b ← deref (h !! i2);
      let p := Interval.start b in
      let continue_ r := resolve_chain fuel' ctx h r i2 (Interval.next b) in
      if negb (Interval.end_ a =? p) then continue_ resolution
      else if bool_decide (Interval.reg b = InvalidReg)
      then continue_ resolution
      else if bool_decide (Interval.reg b = Interval.reg a)
      then continue_ resolution
      else
        blk ← blockFor ctx p;
        range ← deref (block_ranges ctx !! blk);
        if p mod 2 =? 0 then
          _ ← assertx (LiveRange.start range =? p);
          continue_ resolution
        else
          _ ← assertx (LiveRange.start range <? p);
          if wrap (p + 1) =? LiveRange.end_ range
          then continue_ resolution
          else
            cp ← record_at (copies resolution) p (Interval.reg b) i1;
            continue_ (mkPlan cp (spills resolution)
                              (edge_copies resolution))
    end
  end.

(** Insert spills and copies that connect sub-intervals that were split
    between instructions. [intervals] holds the parent intervals, null
    if unused. *)
Fixpoint resolveSplits (ctx : VxlsContext) (h : Heap)
    (intervals : list (option addr)) (resolution : ResolutionPlan)
    : result ResolutionPlan :=
  match intervals with
  | [] => Ok resolution
  | None :: rest => resolveSplits ctx h rest resolution
  | Some i1 :: rest =>
    a ← deref (h !! i1);
    r1 ← (if 0 <=? Interval.slot a
          then insertSpill ctx h resolution i1
          else Ok resolution);
    r2 ← resolve_chain (size h) ctx h r1 i1 (Interval.next a);
    resolveSplits ctx h rest r2
  end.

(** ** Lifetime intervals *)

(** Vector operations at the back. *)
Definition set_back {A} (v : list A) (x : A) : list A :=
  match v with
  | [] => []
  | _ => removelast v ++ [x]
  end.

(** [while (!ranges.empty() && r.contains(ranges.back())) pop_back()] *)
Fixpoint pop_enclosed (fuel : nat) (r : LiveRange) (v : list LiveRange)
    : list LiveRange :=
  match fuel with
  | O => v
  | S fuel' =>
    match last v with
    | Some b =>
      if LiveRange.contains_range r b
      then pop_enclosed fuel' r (removelast v)
      else v
    | None => v
    end
  end.

(** Add [r] to the ranges of an interval; the ranges are in reverse
    order, and [r] precedes or overlaps with the last of them. *)
Definition addRange_ranges (v : list LiveRange) (r : LiveRange)
    : list LiveRange :=
  let v1 := pop_enclosed (length v) r v in
  match last v1 with
  | None => v1 ++ [r]
  | Some first =>
    if LiveRange.contains_range first r then v1
    else if LiveRange.start first <=? LiveRange.end_ r then
      set_back v1 (LiveRange.mk (LiveRange.start r) (LiveRange.end_ first))
    else v1 ++ [r]
  end.

Definition addRange (ivl : Interval) (r : LiveRange) : Interval :=
  set_ranges (addRange_ranges (Interval.ranges ivl) r) ivl.

(** The intervals under construction (indexed by Vreg, absent if null)
    and the live set. *)
Abbreviation Intervals := (gmap Vreg Interval).

Definition BuildState : Type := Intervals * LiveSet.

(** The flags register [RegSF{0}] that every [VregSF] is renamed to; its
    number is fixed by the register file, which is declared elsewhere. *)
Definition rename_sf (sf0 : Vreg) (r : Vreg) (k : Constraint) : Vreg :=
  if bool_decide (k = Sf) then sf0 else r.

(** [DefVisitor::def(Vreg r, Constraint kind, Vreg hint, bool wide)] *)
Definition def_ (m_pos : Z) (st : BuildState) (r : Vreg) (k : Constraint)
    (h : Vreg) (w : bool) : result BuildState :=
  let '(ivs, live) := st in
  '(ivl, live') ←
    (if bool_decide (r ∈ live) then
       ivl ← deref (ivs !! r);
       b ← deref (last (Interval.ranges ivl));
       Ok (set_ranges
             (set_back (Interval.ranges ivl)
                       (LiveRange.mk m_pos (LiveRange.end_ b))) ivl,
           live ∖ {[r]})
     else
       let ivl := default (Interval.make r) (ivs !! r) in
       Ok (addRange ivl (LiveRange.mk m_pos (wrap (m_pos + 1))), live));
  let ivl' :=
    if negb (Interval.fixed ivl) then
      set_def_pos m_pos
        (set_wide (Interval.wide ivl || w)
           (set_uses (Interval.uses ivl ++ [mkUse k m_pos h]) ivl))
    else ivl in
  Ok (<[r := ivl']> ivs, live').

Definition is_copy_like (o : Vinstr.Opcode) (k : Constraint) : bool :=
  match o with
  | Vinstr.copyargs | Vinstr.copy2 | Vinstr.copy | Vinstr.phijmp => true
  | Vinstr.phijcc => negb (bool_decide (k = Sf))
  | _ => false
  end.

(** [UseVisitor::use(Vreg r, Constraint kind, unsigned end, Vreg hint)] *)
Definition use_ (m_inst : Vinstr) (m_range : LiveRange) (st : BuildState)
    (r : Vreg) (k : Constraint) (e : Z) (h : Vreg) : BuildState :=
  let '(ivs, live) := st in
  let ivl := default (Interval.make r) (ivs !! r) in
  let ivl1 := addRange ivl (LiveRange.mk (LiveRange.start m_range) e) in
  let ivl2 :=
    if negb (Interval.fixed ivl1) then
      let k' := if is_copy_like (Vinstr.op m_inst) k then CopySrc else k in
      set_uses (Interval.uses ivl1
                  ++ [mkUse k' (LiveRange.end_ m_range) h]) ivl1
    else ivl1 in
  (<[r := ivl2]> ivs, live ∪ {[r]}).

Fixpoint foldM {A B} (f : A -> B -> result A) (a : A) (l : list B)
    : result A :=
  match l with
  | [] => Ok a
  | x :: l' => a' ← f a x; foldM f a' l'
  end.

(** [visitOperands(inst, dv); dv.def(implicit_defs)] *)
Definition visit_defs (sf0 : Vreg) (inst : Vinstr) (m_pos : Z)
    (st : BuildState) : result BuildState :=
  st1 ← foldM (fun st o =>
                 match o with
                 | Vinstr.ODef r k h w => def_ m_pos st (rename_sf sf0 r k) k h w
                 | _ => Ok st
                 end) st (Vinstr.operands inst);
  foldM (fun st r => def_ m_pos st r Any InvalidVreg false)
        st1 (Vinstr.implicit_defs inst).

(** [visitOperands(inst, uv); uv.use(implicit_uses);
    uv.across(implicit_across)] *)
Definition visit_uses (sf0 : Vreg) (inst : Vinstr) (m_range : LiveRange)
    (st : BuildState) : BuildState :=
  let e := LiveRange.end_ m_range in
  let st1 :=
    foldl (fun st o =>
             match o with
             | Vinstr.OUse r k h =>
               use_ inst m_range st (rename_sf sf0 r k) k e h
             | Vinstr.OAcross r k =>
               use_ inst m_range st r k (wrap (e + 1)) InvalidVreg
             | _ => st
             end) st (Vinstr.operands inst) in
  let st2 :=
    foldl (fun st r => use_ inst m_range st r Any e InvalidVreg)
          st1 (Vinstr.implicit_uses inst) in
  foldl (fun st r => use_ inst m_range st r Any (wrap (e + 1)) InvalidVreg)
        st2 (Vinstr.implicit_across inst).

(** One instruction of the bottom-up walk; [p] is the position of the
    instruction below. *)
Definition build_inst (sf0 : Vreg) (block_range : LiveRange)
    (acc : BuildState * Z) (inst : Vinstr) : result (BuildState * Z) :=
  let '(st, p0) := acc in
  let p := wrap (p0 - 2) in
  st1 ← visit_defs sf0 inst p st;
  Ok (visit_uses sf0 inst (LiveRange.mk (LiveRange.start block_range) p) st1,
      p).

(** The initial live set of a block is the union of its successors'
    live sets. *)
Definition live_out (ctx : VxlsContext) (ss : list Vlabel) : result LiveSet :=
  foldM (fun live s =>
           l ← deref (livein ctx !! s);
           match l with
           | None => Fail AssertFailed
           | Some ls => Ok (live ∪ ls)
           end) ∅ ss.

(** The body of the loop over the blocks. *)
Definition build_block (sf0 : Vreg) (vunit : Vunit) (ctx : VxlsContext)
    (ivs : Intervals) (b : Vlabel) : result Intervals :=
  block ← deref (unit_blocks vunit !! b);
  live ← live_out ctx (succs block);
  block_range ← deref (block_ranges ctx !! b);
  let ivs1 :=
    set_fold (fun r (m : Intervals) =>
                <[r := addRange (default (Interval.make r) (m !! r))
                                block_range]> m) ivs live in
  '(ivs2, live2, _) ←
    foldM (build_inst sf0 block_range)
          (ivs1, live, LiveRange.end_ block_range) (rev (code block));
  lin ← deref (livein ctx !! b);
  _ ← assertx (bool_decide (lin = Some live2));
  Ok ivs2.

(** Finish processing live ranges for constants. *)
Definition finish_constant (ivs : Intervals) (c : Vconst * Vreg)
    : result Intervals :=
  match ivs !! c.2 with
  | None => Ok ivs
  | Some ivl =>
    b ← deref (last (Interval.ranges ivl));
    Ok (<[c.2 := set_constant true c.1
                   (set_ranges
                      (set_back (Interval.ranges ivl)
                                (LiveRange.mk 0 (LiveRange.end_ b))) ivl)]>
          ivs)
  end.

(** Ranges and uses were generated in reverse order. *)
Definition unreverse (ivl : Interval) : Interval :=
  set_ranges (rev (Interval.ranges ivl))
    (set_uses (rev (Interval.uses ivl)) ivl).

(** The checks of the debug build on the finished intervals. *)
Fixpoint uses_monotonic (us : list Use) : bool :=
  match us with
  | u :: ((u' :: _) as rest) => (pos u <=? pos u') && uses_monotonic rest
  | _ => true
  end.

Fixpoint ranges_checked (rs : list LiveRange) : bool :=
  match rs with
  | r :: ((r' :: _) as rest) =>
    (LiveRange.start r' <? LiveRange.end_ r')
    && (LiveRange.end_ r <? LiveRange.start r')
    && ranges_checked rest
  | _ => true
  end.

Definition check_intervals (vunit : Vunit) (ctx : VxlsContext)
    (ivs : Intervals) : result unit :=
  lin ← deref (livein ctx !! entry vunit);
  _ ← foldM (fun _ r =>
               ivl ← deref (ivs !! r);
               assertx (Interval.constant ivl || Interval.fixed ivl))
            tt (elements (default ∅ lin));
  assertx
    (bool_decide
       (map_Forall
          (fun _ ivl =>
             uses_monotonic (Interval.uses ivl)
             && ranges_checked (Interval.ranges ivl) = true) ivs)).

(** Compute lifetime intervals and use positions of all Vregs by walking
    the code bottom-up once. *)
Definition buildIntervals (sf0 : Vreg) (vunit : Vunit) (ctx : VxlsContext)
    : result Intervals :=
  ivs1 ← foldM (build_block sf0 vunit ctx) ∅ (rev (blocks ctx));
  ivs2 ← foldM finish_constant ivs1 (constToReg vunit);
  _ ← assertx
        (bool_decide
           (map_Forall (fun _ ivl => Interval.ranges ivl ≠ []) ivs2));
  let ivs3 := unreverse <$> ivs2 in
  _ ← (if debug then check_intervals vunit ctx ivs3 else Ok tt);
  Ok ivs3.

(** ** Well-formedness of the data *)

(** Ranges are ascending, each is non-empty and starts strictly after the
    end of the one before. *)
Fixpoint ranges_wf (rs : list LiveRange) : bool :=
  match rs with
  | [] => true
  | r :: rest =>
    (LiveRange.start r <? LiveRange.end_ r)
    && match rest with
       | [] => true
       | r' :: _ => LiveRange.end_ r <? LiveRange.start r'
       end
    && ranges_wf rest
  end.

(** [p] is covered by one of the ranges. *)
Definition covered (rs : list LiveRange) (p : Z) : bool :=
  existsb (fun r => LiveRange.contains r p) rs.

(** [p] lies in one of the ranges or at the open end of one of them. *)
Definition within_or_at_end (rs : list LiveRange) (p : Z) : bool :=
  existsb (fun r => (LiveRange.start r <=? p) && (p <=? LiveRange.end_ r)) rs.

(** [p] lies in one of the ranges or at the end of the last one. *)
Definition within_or_at_final_end (rs : list LiveRange) (p : Z) : bool :=
  covered rs p
  || match last rs with
     | Some r => p =? LiveRange.end_ r
     | None => false
     end.

Definition unsigned_range (r : LiveRange) : bool :=
  (0 <=? LiveRange.start r) && (LiveRange.end_ r <=? kMaxPos).

(** The block ranges hold [unsigned] positions. *)
Definition unsigned_blocks (ctx : VxlsContext) : bool :=
  forallb unsigned_range (block_ranges ctx).

(** ** Postconditions of the binary searches *)

(** [k] holds a use at [p], or no use is at [p] and [k] is the index of
    the first use above [p]. *)
Definition use_search_post (us : list Use) (p : Z) (k : nat) : Prop :=
  (k <= length us)%nat
  /\ ((exists u, us !! k = Some u /\ pos u = p)
      \/ ((forall j u, (j < k)%nat -> us !! j = Some u -> pos u < p)
          /\ (forall j u, (k <= j)%nat -> us !! j = Some u -> p < pos u))).

(** The ranges before [k] end at or before [p], those after [k] start
    after [p], and the range at [k], if any, ends after [p]. *)
Definition range_search_post (rs : list LiveRange) (p : Z) (k : nat) : Prop :=
  (k <= length rs)%nat
  /\ (forall j r, (j < k)%nat -> rs !! j = Some r -> LiveRange.end_ r <= p)
  /\ (forall j r, (k < j)%nat -> rs !! j = Some r -> p < LiveRange.start r)
  /\ (forall r, rs !! k = Some r -> p < LiveRange.end_ r).

(** ** Reading of instructions *)

(** [inst] has [r] among its definitions. *)
Definition defines (inst : Vinstr) (r : Vreg) : bool :=
  existsb (fun d => bool_decide (d = r)) (visitDefs inst).

(** ** Outcome of the intersection search *)

(** The outcome of the two-finger search, stated on the positions the
    two range lists cover. *)
Definition first_common (l1 l2 : list LiveRange) (res : result Z) : Prop :=
  (exists p, res = Ok p
             /\ covered l1 p = true /\ covered l2 p = true
             /\ forall q, covered l1 q = true -> covered l2 q = true -> p <= q)
  \/ (res = Ok kMaxPos
      /\ forall q, covered l1 q = true -> covered l2 q = true -> False).

(** ** The two parts of a split *)

(** The portion of the ranges below [p]: a range straddling [p] is cut
    down to [old_start, p). *)
Definition ranges_below (p : Z) (rs : list LiveRange) : list LiveRange :=
  omap (fun r =>
          if p <=? LiveRange.start r then None
          else Some (LiveRange.mk (LiveRange.start r)
                                  (Z.min (LiveRange.end_ r) p))) rs.

(** The portion of the ranges from [p] on: a range straddling [p] is cut
    down to [p, old_end). *)
Definition ranges_from (p : Z) (rs : list LiveRange) : list LiveRange :=
  omap (fun r =>
          if LiveRange.end_ r <=? p then None
          else Some (LiveRange.mk (Z.max (LiveRange.start r) p)
                                  (LiveRange.end_ r))) rs.

(** The number of uses recorded at position [p]. *)
Definition uses_at (us : list Use) (p : Z) : nat :=
  length (List.filter (fun u => pos u =? p) us).

(** ** The spill stores of a resolution *)



(** Where a store is kept in the plan. *)
Definition store_key (s : Z * PhysReg * addr) : Z * PhysReg := s.1.

Definition record_store (plans : gmap Z CopyPlan) (s : Z * PhysReg * addr)
    : gmap Z CopyPlan :=
  <[s.1.1 := <[s.1.2 := s.2]> (default ∅ (plans !! s.1.1))]> plans.

(** The source recorded for register [r] at position [p]. *)
Definition plan_at (plans : gmap Z CopyPlan) (p : Z) (r : PhysReg)
    : option addr :=
  cp ← plans !! p; cp !! r.

(** ** The spill-slot table *)

(** The scan of [assignSpill]. *)
Definition find_free (ss : list Z) (leader_start : Z) (wide : bool)
    : option nat :=
  if negb wide then find_slot ss leader_start 0
  else find_wide_slot ss leader_start 0.

(** The writes of [assign_slot] to the table. *)
Definition own_slots (ss : list Z) (slot : nat) (wide : bool) : list Z :=
  if negb wide then <[slot := kMaxPos]> ss
  else <[S slot := kMaxPos]> (<[slot := kMaxPos]> ss).

(** The writes of [free_spill_slot] to the table. *)
Definition release_slots (ss : list Z) (k : nat) (wide : bool) (e : Z)
    : result (list Z) :=
  ss1 ← (if wide then release_slot ss (S k) e else Ok ss);
  release_slot ss1 k e.

(** Slot [j] is one of the slots of a chain placed at [k]. *)
Definition occupies (k : nat) (wide : bool) (j : nat) : Prop :=
  j = k \/ (wide = true /\ j = S k).

(** ** Interval well-formedness *)

(** The well-formedness of a finished interval: at least one range,
    ranges ascending, non-empty and strictly separated, use positions
    non-decreasing, and every use within a range or at the open end of
    one. *)
Definition interval_wf (i : Interval) : bool :=
  negb (bool_decide (Interval.ranges i = []))
  && ranges_wf (Interval.ranges i)
  && uses_monotonic (Interval.uses i)
  && forallb (fun u => within_or_at_end (Interval.ranges i) (pos u))
             (Interval.uses i).

(** The same with every use within a range or at the end of the final
    range. *)
Definition interval_wf_final (i : Interval) : bool :=
  negb (bool_decide (Interval.ranges i = []))
  && ranges_wf (Interval.ranges i)
  && uses_monotonic (Interval.uses i)
  && forallb (fun u => within_or_at_final_end (Interval.ranges i) (pos u))
             (Interval.uses i).

(** ** The layout made by [computePositions] *)

(** The first instruction of a block has no use, neither among its
    operands nor among its implicit uses. [computePositions] puts a [nop]
    in front of a first instruction that has a use among its operands;
    it does not look at the implicit uses, which come from [getEffects],
    so that part is a condition on the unit. *)
Definition no_use (inst : Vinstr) : bool :=
  forallb (fun o => match o with
                    | Vinstr.OUse _ _ _ => false
                    | _ => true
                    end) (Vinstr.operands inst)
  && bool_decide (Vinstr.implicit_uses inst = []).

Definition no_front_use (blk : Vblock) : bool :=
  match code blk with
  | inst :: _ => no_use inst
  | [] => false
  end.

(** The blocks in order occupy consecutive ranges, two positions per
    instruction, from [cur] on; the result is the first position after
    the last block. *)
Fixpoint layout_end (vunit : Vunit) (ctx : VxlsContext) (cur : Z)
    (bs : list Vlabel) : option Z :=
  match bs with
  | [] => Some cur
  | b :: rest =>
    blk ← unit_blocks vunit !! b;
    r ← block_ranges ctx !! b;
    if (LiveRange.start r =? cur)
       && (LiveRange.end_ r =? cur + 2 * Z.of_nat (length (code blk)))
       && no_front_use blk
    then layout_end vunit ctx (LiveRange.end_ r) rest
    else None
  end.

Definition layout_ok (vunit : Vunit) (ctx : VxlsContext) : bool :=
  match layout_end vunit ctx 0 (blocks ctx) with
  | Some e => e <? kMaxPos
  | None => false
  end.

(** ** Ranges under construction, seen from the back *)

(** The vectors of an interval under construction are in reverse order
    and are only touched at the back. Reversed, a vector is a stack
    whose head is the back, and it is in the ascending order of the
    finished interval. [addRange_stack] is [addRange] on that stack. *)
Fixpoint pop_stack (r : LiveRange) (s : list LiveRange) : list LiveRange :=
  match s with
  | b :: s' => if LiveRange.contains_range r b then pop_stack r s' else s
  | [] => []
  end.

Definition addRange_stack (s : list LiveRange) (r : LiveRange)
    : list LiveRange :=
  match pop_stack r s with
  | [] => [r]
  | first :: rest =>
    if LiveRange.contains_range first r then first :: rest
    else if LiveRange.start first <=? LiveRange.end_ r then
      LiveRange.mk (LiveRange.start r) (LiveRange.end_ first) :: rest
    else r :: first :: rest
  end.

(** ** Invariants of the bottom-up walk *)

(** An interval under construction whose positions are all at or after
    [lo]: on the reversed vectors the ranges are well-formed, the uses
    are sorted, and every use is within a range or at the end of one. *)
Definition pre_ok (lo : Z) (ivl : Interval) : Prop :=
  ranges_wf (rev (Interval.ranges ivl)) = true
  /\ (forall f, head (rev (Interval.ranges ivl)) = Some f ->
                lo <= LiveRange.start f)
  /\ uses_monotonic (rev (Interval.uses ivl)) = true
  /\ (forall u, u ∈ Interval.uses ivl ->
                lo <= pos u
                /\ within_or_at_end (rev (Interval.ranges ivl)) (pos u)
                   = true).

Definition building_ok (lo : Z) (ivl : Interval) : Prop :=
  Interval.ranges ivl <> [] /\ pre_ok lo ivl.

(** The state of the walk inside the block that starts at [bs], when
    the instructions at positions [>= p] have been visited: a live
    register has a lowest range that starts with the block and reaches
    [p] (goes beyond [p] while the definitions at [p] are visited, when
    [strict]); the lowest range of another register starts at or after
    [p]. *)
Definition walk_inv (bs p : Z) (strict : bool) (st : BuildState) : Prop :=
  (forall r, r ∈ st.2 -> is_Some (st.1 !! r))
  /\ forall r ivl,
      st.1 !! r = Some ivl ->
      building_ok bs ivl
      /\ (forall u, u ∈ Interval.uses ivl -> p <= pos u)
      /\ forall f, head (rev (Interval.ranges ivl)) = Some f ->
           if bool_decide (r ∈ st.2)
           then LiveRange.start f = bs
                /\ (if strict then p < LiveRange.end_ f
                    else p <= LiveRange.end_ f)
           else p <= LiveRange.start f.

Definition all_ok (lo : Z) (ivs : Intervals) : Prop :=
  forall r ivl, ivs !! r = Some ivl -> building_ok lo ivl.

(** The blocks of the layout each have a range, and the ranges follow
    each other in the order of [blocks]. *)
Definition blocks_sorted (ctx : VxlsContext) : Prop :=
  (forall i bi, blocks ctx !! i = Some bi ->
     exists ri, block_ranges ctx !! bi = Some ri
                /\ LiveRange.start ri <= LiveRange.end_ ri)
  /\ forall i j bi bj ri rj,
       (i < j)%nat ->
       blocks ctx !! i = Some bi -> blocks ctx !! j = Some bj ->
       block_ranges ctx !! bi = Some ri -> block_ranges ctx !! bj = Some rj ->
       LiveRange.end_ ri <= LiveRange.start rj.

(** ** The chain of a split interval *)

(** [l] lists the addresses met from [o] along the [next] links, up to
    the null link. *)
Fixpoint is_chain (h : Heap) (o : option addr) (l : list addr) : Prop :=
  match l with
  | [] => o = None
  | a :: l' =>
    o = Some a
    /\ exists i, h !! a = Some i /\ is_chain h (Interval.next i) l'
  end.

(** The members of the chain are sorted by start. *)
Definition chain_sorted (h : Heap) (l : list addr) : Prop :=
  forall j k a b ia ib,
    (j < k)%nat -> l !! j = Some a -> l !! k = Some b ->
    h !! a = Some ia -> h !! b = Some ib ->
    Interval.start ia <= Interval.start ib.

(** ** The copies of a resolution *)

(** A copy into [r] at [p] from the interval at [a] that connects [a]
    with its successor in the chain: the two touch at [p], the successor
    holds [r] and [a] holds another register, and [p] is an odd position
    inside its block that is not the last position of the block. *)
Definition split_copy (ctx : VxlsContext) (h : Heap) (p : Z) (r : PhysReg)
    (a : addr) : Prop :=
  exists i1 b i2 blk range,
    h !! a = Some i1 /\ Interval.next i1 = Some b /\ h !! b = Some i2
    /\ Interval.end_ i1 = p /\ Interval.start i2 = p
    /\ Interval.reg i2 = r /\ r <> InvalidReg /\ r <> Interval.reg i1
    /\ p mod 2 = 1
    /\ blockFor ctx p = Ok blk /\ block_ranges ctx !! blk = Some range
    /\ LiveRange.start range < p /\ wrap (p + 1) <> LiveRange.end_ range.

(** ** Intervals as the allocator receives them *)

(** A parent interval for [r] that has not been allocated: it is not
    linked to other intervals and has neither a register nor a spill
    slot; the interval of a physical register has no uses. *)
Definition fresh_interval (r : Vreg) (i : Interval) : Prop :=
  Interval.vreg i = r
  /\ Interval.parent i = None /\ Interval.next i = None
  /\ Interval.slot i = kInvalidSpillSlot /\ Interval.reg i = InvalidReg
  /\ (isPhys r = true -> Interval.uses i = []).

(** The state of the walk: every interval is fresh and not yet marked
    as a constant. *)
Definition built_ok (ivs : Intervals) : Prop :=
  forall r i, ivs !! r = Some i ->
              fresh_interval r i /\ Interval.constant i = false.

(** The state after the constants have been marked. *)
Definition consts_ok (all done : list (Vconst * Vreg)) (ivs : Intervals)
    : Prop :=
  forall r i, ivs !! r = Some i ->
    fresh_interval r i
    /\ (Interval.constant i = true -> exists c, (c, r) ∈ all)
    /\ ((exists c, (c, r) ∈ done) ->
        Interval.constant i = true
        /\ exists f, last (Interval.ranges i) = Some f
                     /\ LiveRange.start f = 0).

(** ** Register sets and positions per register *)

(** Modelled from their use in this file: [RegSet], [PhysReg::Map] and
    [Abi] are declared elsewhere. A [RegSet] is a set of physical
    registers. A [PhysReg::Map<unsigned>] has one entry per physical
    register, visited in register order; entry [n] belongs to [Reg n],
    and indexing it with a register it has no entry for is undefined. *)
Abbreviation RegSet := (gset PhysReg).

Abbreviation PosVec := (list Z).

Definition posvec_get (v : PosVec) (r : PhysReg) : result Z :=
  match r with
  | Reg n => deref (v !! n)
  | InvalidReg => Fail Undefined
  end.

Definition posvec_set (v : PosVec) (r : PhysReg) (x : Z) : result PosVec :=
  match r with
  | Reg n => if (n <? length v)%nat then Ok (<[n := x]> v)
             else Fail Undefined
  | InvalidReg => Fail Undefined
  end.

(** The register sets of the ABI that the allocator reads. *)
Record Abi := mkAbi {
  unreserved : RegSet;
  gpUnreserved : RegSet;
  simdUnreserved : RegSet;
  sf : RegSet
}.

(** Find the PhysReg with the highest position in [posns]: [n] is the
    number of the register the iteration is at. *)
Fixpoint find_farthest_loop (posns : list Z) (n : nat) (max : Z)
    (r1 : PhysReg) : PhysReg :=
  match posns with
  | [] => r1
  | x :: rest =>
    if max <? x then find_farthest_loop rest (S n) x (Reg n)
    else find_farthest_loop rest (S n) max r1
  end.

Definition find_farthest (posns : PosVec) : result PhysReg :=
  match posns with
  | [] => Fail Undefined
  | _ => Ok (find_farthest_loop posns 0 0 (Reg 0))
  end.

(** The registers that satisfy a use of kind [k]. *)
Definition need (abi : Abi) (k : Constraint) : RegSet :=
  match k with
  | Simd => simdUnreserved abi
  | Gpr => gpUnreserved abi
  | Sf => sf abi
  | _ => unreserved abi ∖ sf abi
  end.

Fixpoint constrain_loop (abi : Abi) (allow : RegSet) (us : list Use)
    : Z * RegSet :=
  match us with
  | [] => (kMaxPos, allow)
  | u :: us' =>
    if bool_decide (allow ∩ need abi (kind u) = ∅)
    then (wrap (pos u - 1), allow)
    else constrain_loop abi (allow ∩ need abi (kind u)) us'
  end.

(** Constrain the allowable registers for [ivl] by inspecting uses; the
    result is the returned position and the set left in [allow]. *)
Definition constrain (abi : Abi) (ivl : Interval) : Z * RegSet :=
  constrain_loop abi (unreserved abi) (Interval.uses ivl).

(** The first part of [allocate]: the map from each register to the
    first position at which it is not available to [current]. [nregs]
    is the number of physical registers. *)
Definition mark_inactive (h : Heap) (current : Interval)
    (free_until : PosVec) (a : addr) : result PosVec :=
  ivl ← deref (h !! a);
  let r := Interval.reg ivl in
  x ← posvec_get free_until r;
  if x =? 0 then Ok free_until
  else
    until ← nextIntersect current ivl;
    posvec_set free_until r (Z.min until x).

Definition free_until_of (abi : Abi) (nregs : nat) (st : Vxls)
    (current : Interval) : result (PosVec * Z * RegSet) :=
  let '(conflict, allow) := constrain abi current in
  fu1 ← foldM (fun fu r => posvec_set fu r conflict)
              (replicate nregs 0) (elements allow);
  fu2 ← foldM (fun fu a =>
                 ivl ← deref (heap st !! a);
                 posvec_set fu (Interval.reg ivl) 0)
              fu1 (active st);
  fu3 ← foldM (mark_inactive (heap st) current) fu2 (inactive st);
  Ok (fu3, conflict, allow).

(** ** The offset from [sp] to the spill area *)

(** [offset -= spEffect(unit, inst, sp)] over the code of a block, in
    [int] arithmetic. *)
Definition sp_offset_after (sp : PhysReg) (offset : Z) (code : list Vinstr)
    : result Z :=
  foldM (fun off inst => e ← spEffect inst sp; Ok (wrap_int (off - e)))
        offset code.

(** One successor of the block: [visited] is the bitset, [spill_offsets]
    the vector under construction; both have one entry per block of the
    unit. *)
Definition analyzeSP_succ (offset : Z) (acc : gset Vlabel * list Z)
    (s : Vlabel) : result (gset Vlabel * list Z) :=
  let '(visited, spill_offsets) := acc in
  if bool_decide (s ∈ visited) then
    cur ← deref (spill_offsets !! s);
    _ ← (if debug then assertx (offset =? cur) else Ok tt);
    Ok acc
  else if (s <? length spill_offsets)%nat then
    Ok (visited ∪ {[s]}, <[s := offset]> spill_offsets)
  else Fail Undefined.

Definition analyzeSP_block (vunit : Vunit) (sp : PhysReg)
    (acc : gset Vlabel * list Z) (b : Vlabel)
    : result (gset Vlabel * list Z) :=
  offset0 ← (if bool_decide (b ∈ acc.1) then deref (acc.2 !! b) else Ok 0);
  blk ← deref (unit_blocks vunit !! b);
  offset ← sp_offset_after sp offset0 (code blk);
  foldM (analyzeSP_succ offset) acc (succs blk).

(** Compute the offset from [sp] to the spill area at each block
    start. *)
Definition analyzeSP (vunit : Vunit) (blocks : list Vlabel) (sp : PhysReg)
    : result (list Z) :=
  acc ← foldM (analyzeSP_block vunit sp)
              (∅, replicate (length (unit_blocks vunit)) 0) blocks;
  Ok acc.2.

(** The successors of the blocks [bs]. *)
Definition targets (vunit : Vunit) (bs : list Vlabel) : gset Vlabel :=
  ⋃ (map (fun b => match unit_blocks vunit !! b with
                   | Some blk => list_to_set (succs blk)
                   | None => ∅
                   end) bs).

(** ** Liveness *)

(** [LiveDefVisitor] over one instruction: [visitOperands(inst, dv);
    dv.def(implicit_defs)]. *)
Definition live_defs (sf0 : Vreg) (inst : Vinstr) (live : LiveSet)
    : LiveSet :=
  let live1 :=
    foldl (fun l o =>
             match o with
             | Vinstr.ODef r k _ _ => l ∖ {[rename_sf sf0 r k]}
             | _ => l
             end) live (Vinstr.operands inst) in
  foldl (fun l r => l ∖ {[r]}) live1 (Vinstr.implicit_defs inst).

(** [LiveUseVisitor] over one instruction: [visitOperands(inst, uv);
    uv.use(implicit_uses); uv.across(implicit_across)]. *)
Definition live_uses (sf0 : Vreg) (inst : Vinstr) (live : LiveSet)
    : LiveSet :=
  let live1 :=
    foldl (fun l o =>
             match o with
             | Vinstr.OUse r k _ => l ∪ {[rename_sf sf0 r k]}
             | Vinstr.OAcross r _ => l ∪ {[r]}
             | _ => l
             end) live (Vinstr.operands inst) in
  let live2 := foldl (fun l r => l ∪ {[r]}) live1 (Vinstr.implicit_uses inst) in
  foldl (fun l r => l ∪ {[r]}) live2 (Vinstr.implicit_across inst).

Definition liveness_inst (sf0 : Vreg) (live : LiveSet) (inst : Vinstr)
    : LiveSet :=
  live_uses sf0 inst (live_defs sf0 inst live).

(** The body of the worklist loop of [computeLiveness] for block [b], up
    to the comparison with [livein[b]]: the union of the live-in sets of
    the successors that have one, walked through the instructions of
    the block in reverse order. *)
Definition liveness_block (sf0 : Vreg) (vunit : Vunit)
    (livein : list (option LiveSet)) (b : Vlabel) : result LiveSet :=
  block ← deref (unit_blocks vunit !! b);
  live ← foldM (fun live s =>
                  l ← deref (livein !! s);
                  Ok (match l with
                      | Some ls => live ∪ ls
                      | None => live
                      end)) ∅ (succs block);
  Ok (foldl (liveness_inst sf0) live (rev (code block))).

(** ** Spill space allocation *)

(** The registers handed to the callback of [visitUses]: as for
    [visitDefs], the operands that [visitOperands] reports as uses or as
    uses across the instruction. *)
Definition visitUses (inst : Vinstr) : list Vreg :=
  omap (fun o => match o with
                 | Vinstr.OUse r _ _ => Some r
                 | Vinstr.OAcross r _ => Some r
                 | _ => None
                 end) (Vinstr.operands inst).

(** The state of the spill space as a whole. The order of the
    constructors is the order of the enum. *)
Inductive SpillState := Uninit | NoSpill | NeedSpill.

#[global] Instance SpillState_eq_dec : EqDecision SpillState.
Proof. solve_decision. Defined.

Definition spill_rank (s : SpillState) : nat :=
  match s with
  | Uninit => 0
  | NoSpill => 1
  | NeedSpill => 2
  end.

Definition spill_max (a b : SpillState) : SpillState :=
  if (spill_rank a <? spill_rank b)%nat then b else a.

(** Whether spill space must be allocated before execution of this
    instruction. *)
Definition instrNeedsSpill (inst : Vinstr) (sp : PhysReg) : bool :=
  match Vinstr.op inst with
  | Vinstr.push | Vinstr.pop => true
  | _ =>
    if existsb (fun r => bool_decide (r = Vreg_of sp)) (visitDefs inst)
    then true
    else existsb (fun r => bool_decide (r = Vreg_of sp)) (visitUses inst)
  end.

(** The required SpillState coming into [inst]. *)
Definition instrInState (inst : Vinstr) (prevState : SpillState)
    (sp : PhysReg) : result SpillState :=
  match prevState with
  | Uninit => Fail AssertFailed
  | NoSpill => if instrNeedsSpill inst sp then Ok NeedSpill else Ok NoSpill
  | NeedSpill => Ok NeedSpill
  end.

(** The walk over a block in the analysis pass of
    [allocateSpillSpace]:
    [for (auto& inst : block.code) { state = instrInState(...);
    if (state == NeedSpill) break; }]. *)
Fixpoint spill_walk (sp : PhysReg) (state : SpillState) (code : list Vinstr)
    : result SpillState :=
  match code with
  | [] => Ok state
  | inst :: rest =>
    s ← instrInState inst state sp;
    if bool_decide (s = NeedSpill) then Ok s else spill_walk sp s rest
  end.

(** The out-state of a block with in-state [state]. *)
Definition block_out_state (sp : PhysReg) (state : SpillState)
    (code : list Vinstr) : result SpillState :=
  if (spill_rank state <? spill_rank NeedSpill)%nat
  then spill_walk sp state code
  else Ok state.

(** Merge [src] into [dst]; the result is whether [dst] was changed, and
    the new [dst]. *)
Definition mergeSpillStates (dst src : SpillState)
    : result (bool * SpillState) :=
  _ ← assertx (negb (bool_decide (src = Uninit)));
  if bool_decide (dst = src) then Ok (false, dst)
  else
    let oldDst := dst in
    let dst' := spill_max dst src in
    Ok (negb (bool_decide (dst' = oldDst)), dst').

(** The walk of the mutation pass over a block with a [NoSpill] in-state
    and a [NeedSpill] out-state: [alloc] is inserted before the first
    instruction that takes the state to [NeedSpill]. *)
Fixpoint insert_alloc (sp : PhysReg) (alloc : Vinstr) (state : SpillState)
    (code : list Vinstr) : result (list Vinstr) :=
  match code with
  | [] => Ok []
  | inst :: rest =>
    s ← instrInState inst state sp;
    if bool_decide (s = NeedSpill) then Ok (alloc :: inst :: rest)
    else
      rest' ← insert_alloc sp alloc s rest;
      Ok (inst :: rest')
  end.

(** ** Positions *)

Definition nop_inst : Vinstr := Vinstr.mk Vinstr.nop [] [] [] [].

Definition set_code (c : list Vinstr) (blk : Vblock) : Vblock :=
  mkBlock c (succs blk).

Definition set_unit_blocks (bs : list Vblock) (u : Vunit) : Vunit :=
  mkUnit bs (constToReg u) (entry u).

(** [visitUses(unit, code.front(), ...)] found a use. *)
Definition front_uses (inst : Vinstr) : bool :=
  negb (bool_decide (visitUses inst = [])).

(** The code of a block as [computePositions] leaves it. *)
Definition positioned_code (c : list Vinstr) (front : Vinstr)
    : list Vinstr :=
  if front_uses front then nop_inst :: c else c.

(** One block of [computePositions]: [pos] is the running position. The
    [pos] member of an instruction is the start of its block plus twice
    its index; the instruction record here does not carry it. *)
Definition computePositions_block (acc : Vunit * list LiveRange * Z)
    (b : Vlabel) : result (Vunit * list LiveRange * Z) :=
  let '(vunit, block_ranges, pos) := acc in
  blk ← deref (unit_blocks vunit !! b);
  front ← deref (head (code blk));
  let code' := positioned_code (code blk) front in
  let pos' := wrap (pos + 2 * Z.of_nat (length code')) in
  Ok (set_unit_blocks (<[b := set_code code' blk]> (unit_blocks vunit)) vunit,
      <[b := LiveRange.mk pos pos']> block_ranges,
      pos').

(** Compute the linear position range of each block. *)
Definition computePositions (vunit : Vunit) (blocks : list Vlabel)
    : result (Vunit * list LiveRange) :=
  acc ← foldM computePositions_block
              (vunit,
               replicate (length (unit_blocks vunit)) (LiveRange.mk 0 0),
               0)
              blocks;
  Ok (acc.1.1, acc.1.2).

(** The number of instructions of the blocks [bs]. *)
Definition code_total (vunit : Vunit) (bs : list Vlabel) : nat :=
  sum_list (map (fun b => match unit_blocks vunit !! b with
                          | Some blk => length (code blk)
                          | None => O
                          end) bs).

(** The blocks [bs] of [u'] are those of [u] with a [nop] in front where
    the first instruction has a use, and their ranges in [rs] follow
    each other from [cur] to [e], two positions per instruction. *)
Fixpoint positioned (u u' : Vunit) (rs : list LiveRange) (cur : Z)
    (bs : list Vlabel) (e : Z) : Prop :=
  match bs with
  | [] => e = cur
  | b :: rest =>
    exists blk front,
      unit_blocks u !! b = Some blk /\ head (code blk) = Some front
      /\ unit_blocks u' !! b
         = Some (set_code (positioned_code (code blk) front) blk)
      /\ rs !! b
         = Some (LiveRange.mk cur
                   (cur + 2 * Z.of_nat
                            (length (positioned_code (code blk) front))))
      /\ positioned u u' rs
           (cur + 2 * Z.of_nat (length (positioned_code (code blk) front)))
           rest e
  end.

(** ** Register allocation: the choice of a register *)

(** The [search] lambda of [findHint]: the register of the first member
    of the chain from [o] that ends at [p] and has a register. The fuel
    bounds the length of the chain. *)
Fixpoint hint_search (fuel : nat) (h : Heap) (o : option addr) (p : Z)
    : result PhysReg :=
  match o with
  | None => Ok InvalidReg
  | Some a =>
    match fuel with
    | O => Fail Undefined
    | S fuel' =>
      ivl ← deref (h !! a);
      if (p =? Interval.end_ ivl)
         && negb (bool_decide (Interval.reg ivl = InvalidReg))
      then Ok (Interval.reg ivl)
      else hint_search fuel' h (Interval.next ivl) p
    end
  end.

(** The hint that the use [u] of [current] gives; [intervals] holds the
    parent interval of each Vreg. A [PhysReg] that is declared and not
    assigned is [InvalidReg]. *)
Definition hint_candidate (h : Heap) (intervals : gmap Vreg addr)
    (current : Interval) (u : Use) : result PhysReg :=
  a ← deref (intervals !! hint u);
  hint_ivl ← deref (h !! a);
  if Interval.fixed hint_ivl then Ok (Interval.reg hint_ivl)
  else if pos u =? Interval.def_pos current
  then hint_search (S (size h)) h (Some a) (pos u)
  else Ok InvalidReg.

Fixpoint findHint_loop (h : Heap) (intervals : gmap Vreg addr)
    (current : Interval) (free_until : PosVec) (allow : RegSet)
    (ret : PhysReg) (us : list Use) : result PhysReg :=
  match us with
  | [] => Ok ret
  | u :: us' =>
    if negb (isValid (hint u))
    then findHint_loop h intervals current free_until allow ret us'
    else
      hn ← hint_candidate h intervals current u;
      if bool_decide (hn = InvalidReg)
      then findHint_loop h intervals current free_until allow ret us'
      else if negb (bool_decide (hn ∈ allow))
      then findHint_loop h intervals current free_until allow ret us'
      else
        x ← posvec_get free_until hn;
        if Interval.end_ current <=? x then Ok hn
        else
          ret' ← (if bool_decide (ret = InvalidReg) then Ok hn
                  else y ← posvec_get free_until ret;
                       Ok (if y <? x then hn else ret));
          findHint_loop h intervals current free_until allow ret' us'
  end.

(** Return the first hint from all the uses in this interval that is
    available for the lifetime of [current], else the hint which is
    available furthest into the future. [precoloring] and [coalescing]
    are the two runtime options. *)
Definition findHint (precoloring coalescing : bool) (h : Heap)
    (intervals : gmap Vreg addr) (current : Interval)
    (free_until : PosVec) (allow : RegSet) : result PhysReg :=
  if negb precoloring && negb coalescing then Ok InvalidReg
  else findHint_loop h intervals current free_until allow InvalidReg
                     (Interval.uses current).

(** The [spill_after] lambda of [spillOthers]. *)
Definition spill_after (ctx : VxlsContext) (cur_start : Z) (st : Vxls)
    (ivl : addr) : result Vxls :=
  split_pos ← nearestSplitBefore ctx cur_start;
  i ← deref (heap st !! ivl);
  if split_pos <=? Interval.start i then spill ctx st ivl
  else
    '(h', tail) ← split (heap st) ivl split_pos false;
    spill ctx (set_heap h' st) tail.

(** The loop of [spillOthers] over the active list. [done] is the part
    of the vector before the iterator, [window] the part from the
    iterator to [end]. *)
Fixpoint spill_others_active (fuel : nat) (ctx : VxlsContext)
    (cur_start : Z) (r : PhysReg) (st : Vxls) (done window : list addr)
    : result (Vxls * list addr) :=
  match fuel with
  | O => Ok (st, done)
  | S fuel' =>
    match window with
    | [] => Ok (st, done)
    | a :: w =>
      other ← deref (heap st !! a);
      if Interval.fixed other
         || negb (bool_decide (r = Interval.reg other))
      then spill_others_active fuel' ctx cur_start r st (done ++ [a]) w
      else
        st' ← spill_after ctx cur_start st a;
        spill_others_active fuel' ctx cur_start r st' done (swap_remove w)
    end
  end.

(** The loop of [spillOthers] over the inactive list. *)
Fixpoint spill_others_inactive (fuel : nat) (ctx : VxlsContext)
    (current : addr) (cur_start : Z) (r : PhysReg) (st : Vxls)
    (done window : list addr) : result (Vxls * list addr) :=
  match fuel with
  | O => Ok (st, done)
  | S fuel' =>
    match window with
    | [] => Ok (st, done)
    | a :: w =>
      other ← deref (heap st !! a);
      if Interval.fixed other
         || negb (bool_decide (r = Interval.reg other))
      then spill_others_inactive fuel' ctx current cur_start r st
                                 (done ++ [a]) w
      else
        cur ← deref (heap st !! current);
        intersect ← nextIntersect cur other;
        if Interval.end_ cur <=? intersect
        then spill_others_inactive fuel' ctx current cur_start r st
                                   (done ++ [a]) w
        else
          st' ← spill_after ctx cur_start st a;
          spill_others_inactive fuel' ctx current cur_start r st' done
                                (swap_remove w)
    end
  end.

(** Split and spill other intervals that conflict with [current] for
    register [r], at [current->start()]. *)
Definition spillOthers (ctx : VxlsContext) (st : Vxls) (current : addr)
    (r : PhysReg) : result Vxls :=
  cur ← deref (heap st !! current);
  let cur_start := Interval.start cur in
  '(st1, act) ←
    spill_others_active (length (active st)) ctx cur_start r st []
                        (active st);
  let st1' := set_active act st1 in
  '(st2, inact) ←
    spill_others_inactive (length (inactive st1')) ctx current cur_start r
                          st1' [] (inactive st1');
  Ok (set_inactive inact st2).

(** The two loops of [allocBlocked] that fill [used] and [blocked]. *)
Definition blocked_active (cur_start : Z) (h : Heap)
    (acc : PosVec * PosVec) (a : addr) : result (PosVec * PosVec) :=
  let '(used, blocked) := acc in
  ivl ← deref (h !! a);
  if Interval.fixed ivl then
    used' ← posvec_set used (Interval.reg ivl) 0;
    blocked' ← posvec_set blocked (Interval.reg ivl) 0;
    Ok (used', blocked')
  else
    let use_pos := Interval.firstUseAfter ivl cur_start in
    x ← posvec_get used (Interval.reg ivl);
    used' ← posvec_set used (Interval.reg ivl) (Z.min use_pos x);
    Ok (used', blocked).

Definition blocked_inactive (cur_start : Z) (h : Heap) (current : Interval)
    (acc : PosVec * PosVec) (a : addr) : result (PosVec * PosVec) :=
  let '(used, blocked) := acc in
  ivl ← deref (h !! a);
  let r := Interval.reg ivl in
  b ← posvec_get blocked r;
  if b =? 0 then Ok acc
  else
    intersect_pos ← nextIntersect current ivl;
    if intersect_pos =? kMaxPos then Ok acc
    else if Interval.fixed ivl then
      blocked' ← posvec_set blocked r (Z.min intersect_pos b);
      u ← posvec_get used r;
      used' ← posvec_set used r (Z.min (Z.min intersect_pos b) u);
      Ok (used', blocked')
    else
      let use_pos := Interval.firstUseAfter ivl cur_start in
      u ← posvec_get used r;
      used' ← posvec_set used r (Z.min use_pos u);
      Ok (used', blocked).

(** When all registers are in use, find a good interval (possibly
    [current]) to split and spill. *)
Definition allocBlocked (ctx : VxlsContext) (abi : Abi) (nregs : nat)
    (st : Vxls) (current : addr) : result Vxls :=
  cur ← deref (heap st !! current);
  let cur_start := Interval.start cur in
  let '(conflict, allow) := constrain abi cur in
  init ← foldM (fun fu r => posvec_set fu r conflict)
               (replicate nregs 0) (elements allow);
  acc1 ← foldM (blocked_active cur_start (heap st)) (init, init)
               (active st);
  acc2 ← foldM (blocked_inactive cur_start (heap st) cur) acc1
               (inactive st);
  let '(used, blocked) := acc2 in
  r ← find_farthest used;
  ur ← posvec_get used r;
  if ur <? Interval.firstUse cur then spill ctx st current
  else
    block_pos ← posvec_get blocked r;
    st1 ← (if block_pos <? Interval.end_ cur then
             let prev_use := Interval.lastUseBefore cur block_pos in
             _ ← (if debug then
                    let min_split := Z.max prev_use (wrap (cur_start + 1)) in
                    assertx ((cur_start <? min_split)
                             && (min_split <=? block_pos))
                  else Ok tt);
             split_pos ← nearestSplitBefore ctx block_pos;
             if Interval.start cur <? split_pos then
               '(h', second) ← split (heap st) current split_pos true;
               Ok (set_pending (second :: pending st) (set_heap h' st))
             else Ok st
           else Ok st);
    st2 ← spillOthers ctx st1 current r;
    assignReg st2 current r.

(** The split position of [allocate] moved back to the start of the
    range after the previous use, when that lies before it. *)
Definition earlier_split (cur : Interval) (prev_use split_pos : Z)
    : result Z :=
  if negb (prev_use =? 0) && (prev_use <? split_pos) then
    let idx := Interval.findRange cur prev_use in
    pr ← deref (Interval.ranges cur !! idx);
    let idx' :=
      if (LiveRange.start pr <=? prev_use)
         && (LiveRange.end_ pr <? split_pos)
      then S idx else idx in
    pr' ← deref (Interval.ranges cur !! idx');
    if (prev_use <? LiveRange.start pr')
       && (LiveRange.start pr' <? split_pos)
    then Ok (LiveRange.start pr')
    else Ok split_pos
  else Ok split_pos.

(** [hint != InvalidReg && free_until[hint] >= current->end()] *)
Definition hint_free (free_until : PosVec) (hn : PhysReg) (cur : Interval)
    : result bool :=
  if bool_decide (hn = InvalidReg) then Ok false
  else
    x ← posvec_get free_until hn;
    Ok (Interval.end_ cur <=? x).

(** The part of [allocate] that comes after the map of free positions
    has been filled and [current] has been cut at the end of its first
    block. *)
Definition allocate_choose (ctx : VxlsContext) (abi : Abi) (nregs : nat)
    (intervals : gmap Vreg addr) (precoloring coalescing : bool)
    (free_until : PosVec) (allow : RegSet) (st : Vxls) (current : addr)
    : result Vxls :=
  cur ← deref (heap st !! current);
  hn ← findHint precoloring coalescing (heap st) intervals cur free_until
                allow;
  hf ← hint_free free_until hn cur;
  if (hf : bool) then assignReg st current hn
  else
    r ← find_farthest free_until;
    p ← posvec_get free_until r;
    if Interval.end_ cur <=? p then assignReg st current r
    else
      split_here ←
        (if Interval.start cur <? p then
           let prev_use := Interval.lastUseBefore cur p in
           _ ← (if debug then
                  assertx (Z.max prev_use (wrap (Interval.start cur + 1))
                           <=? p)
                else Ok tt);
           split_pos ← nearestSplitBefore ctx p;
           if Interval.start cur <? split_pos then
             sp' ← earlier_split cur prev_use split_pos;
             Ok (Some sp')
           else Ok None
         else Ok None);
      match split_here with
      | Some split_pos =>
        '(h', second) ← split (heap st) current split_pos true;
        let st1 := set_pending (second :: pending st) (set_heap h' st) in
        cur1 ← deref (heap st1 !! current);
        hf1 ← hint_free free_until hn cur1;
        assignReg st1 current (if (hf1 : bool) then hn else r)
      | None => allocBlocked ctx abi nregs st current
      end.

Definition allocate (ctx : VxlsContext) (abi : Abi) (nregs : nat)
    (intervals : gmap Vreg addr) (precoloring coalescing : bool)
    (st : Vxls) (current : addr) : result Vxls :=
  cur ← deref (heap st !! current);
  '(free_until, conflict, allow) ← free_until_of abi nregs st cur;
  cut ←
    (if (1 <? length (Interval.ranges cur))%nat then
       b ← blockFor ctx (Interval.start cur);
       blk_range ← deref (block_ranges ctx !! b);
       r0 ← deref (Interval.ranges cur !! 0%nat);
       if LiveRange.end_ r0 <? LiveRange.end_ blk_range then
         '(h', second) ← split (heap st) current (LiveRange.end_ blk_range)
                               false;
         Ok (Some (set_pending (second :: pending st) (set_heap h' st)))
       else if Interval.constant cur
               && match Interval.uses cur with
                  | u :: _ => LiveRange.end_ blk_range <=? pos u
                  | [] => false
                  end
       then Ok None
       else Ok (Some st)
     else Ok (Some st));
  match cut with
  | None => spill ctx st current
  | Some st1 =>
    allocate_choose ctx abi nregs intervals precoloring coalescing
                    free_until allow st1 current
  end.

(** The registers of stored intervals are kept or given up. *)
Definition regs_kept (h h' : Heap) : Prop :=
  forall a i, h !! a = Some i ->
    exists i', h' !! a = Some i'
               /\ Interval.vreg i' = Interval.vreg i
               /\ (Interval.reg i' = Interval.reg i
                   \/ Interval.reg i' = InvalidReg).

(** The intervals of [l] are stored, and each is fixed or holds a
    register other than [r]. *)
Definition none_holds (h : Heap) (r : PhysReg) (l : list addr) : Prop :=
  forall a, a ∈ l ->
    exists i, h !! a = Some i
              /\ (Interval.fixed i = true \/ Interval.reg i <> r).

(** Every range of [i] lies at positions from 0 on and is not empty, and
    there is at least one. *)
Definition pos_ranges (i : Interval) : Prop :=
  Interval.ranges i <> []
  /\ Forall (fun r => 0 <= LiveRange.start r < LiveRange.end_ r)
            (Interval.ranges i).

(** The intervals of [act] are stored, and none holds a register whose
    entry of [fu] is not 0. *)
Definition free_unheld (h : Heap) (act : list addr) (fu : PosVec) : Prop :=
  forall n x, fu !! n = Some x -> x <> 0 -> none_holds h (Reg n) act.

(** What [allocate] leaves: [current] has no register, or it is in the
    active list and every other interval of the list is fixed or holds
    another register. *)
Definition exclusive (st : Vxls) (current : addr) : Prop :=
  exists cur, heap st !! current = Some cur
    /\ (Interval.reg cur = InvalidReg
        \/ (current ∈ active st
            /\ forall a, a ∈ active st -> a <> current ->
                 exists i, heap st !! a = Some i
                           /\ (Interval.fixed i = true
                               \/ Interval.reg i <> Interval.reg cur))).

(** [u] gives the register [c] as a hint that [findHint] can use. *)
Definition usable_hint (h : Heap) (intervals : gmap Vreg addr)
    (current : Interval) (allow : RegSet) (u : Use) (c : PhysReg) : Prop :=
  isValid (hint u) = true
  /\ hint_candidate h intervals current u = Ok c
  /\ c <> InvalidReg /\ c ∈ allow.

(** [ret] after the uses of [seen]: no use gave a usable hint, or [ret]
    is the usable hint with the highest position so far. *)
Definition best_hint (h : Heap) (intervals : gmap Vreg addr)
    (current : Interval) (fu : PosVec) (allow : RegSet)
    (seen : list Use) (ret : PhysReg) : Prop :=
  (ret = InvalidReg
   /\ forall u c, u ∈ seen -> ~ usable_hint h intervals current allow u c)
  \/ exists n y,
       ret = Reg n /\ fu !! n = Some y
       /\ (exists u, u ∈ seen /\ usable_hint h intervals current allow u ret)
       /\ forall u c, u ∈ seen ->
            usable_hint h intervals current allow u c ->
            exists x, posvec_get fu c = Ok x /\ x <= y.

(** ** Register allocation: the main loop *)

(** A physical Vreg as the register it names. *)
Definition physReg (v : Vreg) : PhysReg :=
  match v with
  | Phys n => Reg n
  | _ => InvalidReg
  end.

(** [pending.top()] followed by [pending.pop()] on a queue that is not
    empty: the queue orders the intervals by start, lowest first, and
    leaves the order of intervals with the same start open. [Top] is the
    choice it makes, given the first element of the bag and the others;
    it returns the interval taken and the bag that is left. *)
Definition Top := Heap -> addr -> list addr -> addr * list addr.

Definition top_least (top : Top) : Prop :=
  forall h a l,
    a :: l ≡ₚ (top h a l).1 :: (top h a l).2
    /\ forall b ia ib,
         b ∈ (top h a l).2 ->
         h !! (top h a l).1 = Some ia -> h !! b = Some ib ->
         Interval.start ia <= Interval.start ib.

(** The body of the first loop of [go]. *)
Definition go_start (ctx : VxlsContext) (st : Vxls) (ivl : addr)
    : result Vxls :=
  i ← deref (heap st !! ivl);
  if Interval.fixed i then assignReg st ivl (physReg (Interval.vreg i))
  else if Interval.constant i then spill ctx st ivl
  else Ok (set_pending (ivl :: pending st) st).

(** [while (!pending.empty())]. The result is [None] when the fuel does
    not reach the end of the loop. *)
Fixpoint go_loop (top : Top) (fuel : nat) (ctx : VxlsContext) (abi : Abi)
    (nregs : nat) (intervals : gmap Vreg addr)
    (precoloring coalescing : bool) (st : Vxls) : option (result Vxls) :=
  match pending st with
  | [] => Some (Ok st)
  | a :: l =>
    match fuel with
    | O => None
    | S fuel' =>
      let current := (top (heap st) a l).1 in
      let rest := (top (heap st) a l).2 in
      match (st1 ← update (set_pending rest st) current;
             allocate ctx abi nregs intervals precoloring coalescing st1
                      current) with
      | Ok st2 =>
        go_loop top fuel' ctx abi nregs intervals precoloring coalescing st2
      | Fail f => Some (Fail f)
      end
    end
  end.

(** [Vxls::go], with the state it leaves. The vector [intervals] is
    indexed by Vreg, and the index of a Vreg is declared outside this
    file: [ivec] is the vector as the list of its entries, null if
    unused, which [go] walks, and [intervals] the same vector as the map
    that [findHint] consults. *)
Definition go_state (top : Top) (fuel : nat) (ctx : VxlsContext) (abi : Abi)
    (nregs : nat) (ivec : list (option addr)) (intervals : gmap Vreg addr)
    (precoloring coalescing : bool) (st : Vxls) : option (result Vxls) :=
  match foldM (go_start ctx) st (omap id ivec) with
  | Ok st1 =>
    go_loop top fuel ctx abi nregs intervals precoloring coalescing st1
  | Fail f => Some (Fail f)
  end.

Definition go (top : Top) (fuel : nat) (ctx : VxlsContext) (abi : Abi)
    (nregs : nat) (ivec : list (option addr)) (intervals : gmap Vreg addr)
    (precoloring coalescing : bool) (st : Vxls)
    : option (result SpillInfo) :=
  match go_state top fuel ctx abi nregs ivec intervals precoloring
                 coalescing st with
  | Some (Ok st') => Some (Ok (spill_info st'))
  | Some (Fail f) => Some (Fail f)
  | None => None
  end.

(** ** The calls of the allocator *)

(** The parts of [allocate], [allocate_choose] and [allocBlocked] that
    come before their calls. *)
Definition allocate_cut (ctx : VxlsContext) (st : Vxls) (current : addr)
    (cur : Interval) : result (option Vxls) :=
  if (1 <? length (Interval.ranges cur))%nat then
    b ← blockFor ctx (Interval.start cur);
    blk_range ← deref (block_ranges ctx !! b);
    r0 ← deref (Interval.ranges cur !! 0%nat);
    if LiveRange.end_ r0 <? LiveRange.end_ blk_range then
      '(h', second) ← split (heap st) current (LiveRange.end_ blk_range)
                            false;
      Ok (Some (set_pending (second :: pending st) (set_heap h' st)))
    else if Interval.constant cur
            && match Interval.uses cur with
               | u :: _ => LiveRange.end_ blk_range <=? pos u
               | [] => false
               end
    then Ok None
    else Ok (Some st)
  else Ok (Some st).

Definition choose_split (ctx : VxlsContext) (cur : Interval) (p : Z)
    : result (option Z) :=
  if Interval.start cur <? p then
    let prev_use := Interval.lastUseBefore cur p in
    _ ← (if debug then
           assertx (Z.max prev_use (wrap (Interval.start cur + 1)) <=? p)
         else Ok tt);
    split_pos ← nearestSplitBefore ctx p;
    if Interval.start cur <? split_pos then
      sp' ← earlier_split cur prev_use split_pos;
      Ok (Some sp')
    else Ok None
  else Ok None.

Definition allocBlocked_scan (abi : Abi) (nregs : nat) (st : Vxls)
    (cur : Interval) : result (PosVec * PosVec) :=
  let '(conflict, allow) := constrain abi cur in
  init ← foldM (fun fu r => posvec_set fu r conflict)
               (replicate nregs 0) (elements allow);
  acc1 ← foldM (blocked_active (Interval.start cur) (heap st)) (init, init)
               (active st);
  foldM (blocked_inactive (Interval.start cur) (heap st) cur) acc1
        (inactive st).

Definition allocBlocked_split (ctx : VxlsContext) (st : Vxls)
    (current : addr) (cur : Interval) (block_pos : Z) : result Vxls :=
  if block_pos <? Interval.end_ cur then
    let prev_use := Interval.lastUseBefore cur block_pos in
    _ ← (if debug then
           let min_split :=
             Z.max prev_use (wrap (Interval.start cur + 1)) in
           assertx ((Interval.start cur <? min_split)
                    && (min_split <=? block_pos))
         else Ok tt);
    split_pos ← nearestSplitBefore ctx block_pos;
    if Interval.start cur <? split_pos then
      '(h', second) ← split (heap st) current split_pos true;
      Ok (set_pending (second :: pending st) (set_heap h' st))
    else Ok st
  else Ok st.

(** The failure of a call, if it fails. *)
Definition failure_of {A} (m : result A) : option Failure :=
  match m with
  | Fail f => Some f
  | Ok _ => None
  end.

Section Calls.

Context (top : Top) (ctx : VxlsContext) (abi : Abi) (nregs : nat)
        (intervals : gmap Vreg addr) (precoloring coalescing : bool).

(** A call of a function of the allocator, with its arguments. A loop
    is a call of its remaining iterations. *)
Inductive Call :=
| CAssignSpill (st : Vxls) (ivl : addr)
| CAssignReg (st : Vxls) (ivl : addr) (r : PhysReg)
| CSpill (st : Vxls) (ivl : addr)
| CSpillAfter (cur_start : Z) (st : Vxls) (ivl : addr)
| CSpillActive (fuel : nat) (cur_start : Z) (r : PhysReg) (st : Vxls)
               (done window : list addr)
| CSpillInactive (fuel : nat) (current : addr) (cur_start : Z)
                 (r : PhysReg) (st : Vxls) (done window : list addr)
| CSpillOthers (st : Vxls) (current : addr) (r : PhysReg)
| CAllocBlocked (st : Vxls) (current : addr)
| CChoose (fu : PosVec) (allow : RegSet) (st : Vxls) (current : addr)
| CAllocate (st : Vxls) (current : addr)
| CGoLoop (fuel : nat) (st : Vxls)
| CGoStart (st : Vxls) (l : list addr)
| CGo (fuel : nat) (ivec : list (option addr)) (st : Vxls).

(** How a call ends when it fails. *)
Definition failure (c : Call) : option Failure :=
  match c with
  | CAssignSpill st ivl => failure_of (assignSpill st ivl)
  | CAssignReg st ivl r => failure_of (assignReg st ivl r)
  | CSpill st ivl => failure_of (spill ctx st ivl)
  | CSpillAfter cs st ivl => failure_of (spill_after ctx cs st ivl)
  | CSpillActive fuel cs r st done window =>
    failure_of (spill_others_active fuel ctx cs r st done window)
  | CSpillInactive fuel current cs r st done window =>
    failure_of (spill_others_inactive fuel ctx current cs r st done window)
  | CSpillOthers st current r => failure_of (spillOthers ctx st current r)
  | CAllocBlocked st current =>
    failure_of (allocBlocked ctx abi nregs st current)
  | CChoose fu allow st current =>
    failure_of (allocate_choose ctx abi nregs intervals precoloring
                                coalescing fu allow st current)
  | CAllocate st current =>
    failure_of (allocate ctx abi nregs intervals precoloring coalescing st
                         current)
  | CGoLoop fuel st =>
    r ← go_loop top fuel ctx abi nregs intervals precoloring coalescing st;
    failure_of r
  | CGoStart st l => failure_of (foldM (go_start ctx) st l)
  | CGo fuel ivec st =>
    r ← go top fuel ctx abi nregs ivec intervals precoloring coalescing st;
    failure_of r
  end.

(** [calls c d]: the call [c], with the arguments it has, makes the call
    [d]. There is one rule for every place in the source where one of
    these functions calls another; its premises say that the caller
    gets as far as the call, and with which arguments. *)
Inductive calls : Call -> Call -> Prop :=
(* assignReg: if (!ivl->constant) assignSpill(ivl) *)
| calls_assignReg_assignSpill st ivl r i :
    heap st !! ivl = Some i ->
    Interval.fixed i = false -> Interval.uses i = [] ->
    Interval.constant i = false ->
    calls (CAssignReg st ivl r)
          (CAssignSpill
             (set_heap (<[ivl := set_reg InvalidReg i]> (heap st)) st) ivl)
(* spill: if (!ivl->constant) assignSpill(ivl), nothing split off *)
| calls_spill_assignSpill st ivl i :
    heap st !! ivl = Some i ->
    Interval.end_ i < Interval.firstUse i ->
    Interval.constant i = false ->
    calls (CSpill st ivl)
          (CAssignSpill
             (set_heap (<[ivl := set_reg InvalidReg i]> (heap st)) st) ivl)
(* spill: the same after pending.push(ivl->split(split_pos)) *)
| calls_spill_split_assignSpill st ivl i split_pos h' c i1 :
    heap st !! ivl = Some i ->
    Interval.firstUse i <= Interval.end_ i ->
    nearestSplitBefore ctx (Interval.firstUse i) = Ok split_pos ->
    Interval.start i < split_pos ->
    split (heap st) ivl split_pos false = Ok (h', c) ->
    h' !! ivl = Some i1 ->
    Interval.constant i1 = false ->
    calls (CSpill st ivl)
          (CAssignSpill
             (set_heap (<[ivl := set_reg InvalidReg i1]> h')
                (set_pending (c :: pending st) (set_heap h' st))) ivl)
(* spill_after: spill(tail), tail = ivl *)
| calls_spill_after_whole cs st ivl i split_pos :
    nearestSplitBefore ctx cs = Ok split_pos ->
    heap st !! ivl = Some i ->
    split_pos <= Interval.start i ->
    calls (CSpillAfter cs st ivl) (CSpill st ivl)
(* spill_after: spill(tail), tail = ivl->split(split_pos) *)
| calls_spill_after_tail cs st ivl i split_pos h' tail :
    nearestSplitBefore ctx cs = Ok split_pos ->
    heap st !! ivl = Some i ->
    Interval.start i < split_pos ->
    split (heap st) ivl split_pos false = Ok (h', tail) ->
    calls (CSpillAfter cs st ivl) (CSpill (set_heap h' st) tail)
(* spillOthers, first loop: i++; continue *)
| calls_active_keep fuel cs r st done a w other :
    heap st !! a = Some other ->
    Interval.fixed other = true \/ r <> Interval.reg other ->
    calls (CSpillActive (S fuel) cs r st done (a :: w))
          (CSpillActive fuel cs r st (done ++ [a]) w)
(* spillOthers, first loop: spill_after(other) *)
| calls_active_spill fuel cs r st done a w other :
    heap st !! a = Some other ->
    Interval.fixed other = false -> r = Interval.reg other ->
    calls (CSpillActive (S fuel) cs r st done (a :: w))
          (CSpillAfter cs st a)
(* spillOthers, first loop: the iterations after a spill_after *)
| calls_active_next fuel cs r st done a w other st' :
    heap st !! a = Some other ->
    Interval.fixed other = false -> r = Interval.reg other ->
    spill_after ctx cs st a = Ok st' ->
    calls (CSpillActive (S fuel) cs r st done (a :: w))
          (CSpillActive fuel cs r st' done (swap_remove w))
(* spillOthers, second loop: i++; continue *)
| calls_inactive_keep fuel current cs r st done a w other :
    heap st !! a = Some other ->
    Interval.fixed other = true \/ r <> Interval.reg other ->
    calls (CSpillInactive (S fuel) current cs r st done (a :: w))
          (CSpillInactive fuel current cs r st (done ++ [a]) w)
(* spillOthers, second loop: no intersection before the end *)
| calls_inactive_far fuel current cs r st done a w other cur x :
    heap st !! a = Some other ->
    Interval.fixed other = false -> r = Interval.reg other ->
    heap st !! current = Some cur ->
    nextIntersect cur other = Ok x -> Interval.end_ cur <= x ->
    calls (CSpillInactive (S fuel) current cs r st done (a :: w))
          (CSpillInactive fuel current cs r st (done ++ [a]) w)
(* spillOthers, second loop: spill_after(other) *)
| calls_inactive_spill fuel current cs r st done a w other cur x :
    heap st !! a = Some other ->
    Interval.fixed other = false -> r = Interval.reg other ->
    heap st !! current = Some cur ->
    nextIntersect cur other = Ok x -> x < Interval.end_ cur ->
    calls (CSpillInactive (S fuel) current cs r st done (a :: w))
          (CSpillAfter cs st a)
(* spillOthers, second loop: the iterations after a spill_after *)
| calls_inactive_next fuel current cs r st done a w other cur x st' :
    heap st !! a = Some other ->
    Interval.fixed other = false -> r = Interval.reg other ->
    heap st !! current = Some cur ->
    nextIntersect cur other = Ok x -> x < Interval.end_ cur ->
    spill_after ctx cs st a = Ok st' ->
    calls (CSpillInactive (S fuel) current cs r st done (a :: w))
          (CSpillInactive fuel current cs r st' done (swap_remove w))
(* spillOthers: the two loops *)
| calls_spillOthers_active st current r cur :
    heap st !! current = Some cur ->
    calls (CSpillOthers st current r)
          (CSpillActive (length (active st)) (Interval.start cur) r st []
                        (active st))
| calls_spillOthers_inactive st current r cur st1 act :
    heap st !! current = Some cur ->
    spill_others_active (length (active st)) ctx (Interval.start cur) r st
                        [] (active st) = Ok (st1, act) ->
    calls (CSpillOthers st current r)
          (CSpillInactive (length (inactive (set_active act st1))) current
                          (Interval.start cur) r (set_active act st1) []
                          (inactive (set_active act st1)))
(* allocBlocked: return spill(current) *)
| calls_allocBlocked_spill st current cur used blocked r ur :
    heap st !! current = Some cur ->
    allocBlocked_scan abi nregs st cur = Ok (used, blocked) ->
    find_farthest used = Ok r -> posvec_get used r = Ok ur ->
    ur < Interval.firstUse cur ->
    calls (CAllocBlocked st current) (CSpill st current)
(* allocBlocked: spillOthers(current, r) *)
| calls_allocBlocked_spillOthers st current cur used blocked r ur
                                 block_pos st1 :
    heap st !! current = Some cur ->
    allocBlocked_scan abi nregs st cur = Ok (used, blocked) ->
    find_farthest used = Ok r -> posvec_get used r = Ok ur ->
    Interval.firstUse cur <= ur ->
    posvec_get blocked r = Ok block_pos ->
    allocBlocked_split ctx st current cur block_pos = Ok st1 ->
    calls (CAllocBlocked st current) (CSpillOthers st1 current r)
(* allocBlocked: assignReg(current, r) *)
| calls_allocBlocked_assignReg st current cur used blocked r ur
                               block_pos st1 st2 :
    heap st !! current = Some cur ->
    allocBlocked_scan abi nregs st cur = Ok (used, blocked) ->
    find_farthest used = Ok r -> posvec_get used r = Ok ur ->
    Interval.firstUse cur <= ur ->
    posvec_get blocked r = Ok block_pos ->
    allocBlocked_split ctx st current cur block_pos = Ok st1 ->
    spillOthers ctx st1 current r = Ok st2 ->
    calls (CAllocBlocked st current) (CAssignReg st2 current r)
(* allocate: return assignReg(current, hint) *)
| calls_choose_hint fu allow st current cur hn :
    heap st !! current = Some cur ->
    findHint precoloring coalescing (heap st) intervals cur fu allow
      = Ok hn ->
    hint_free fu hn cur = Ok true ->
    calls (CChoose fu allow st current) (CAssignReg st current hn)
(* allocate: return assignReg(current, r), free across all of current *)
| calls_choose_farthest fu allow st current cur hn r p :
    heap st !! current = Some cur ->
    findHint precoloring coalescing (heap st) intervals cur fu allow
      = Ok hn ->
    hint_free fu hn cur = Ok false ->
    find_farthest fu = Ok r -> posvec_get fu r = Ok p ->
    Interval.end_ cur <= p ->
    calls (CChoose fu allow st current) (CAssignReg st current r)
(* allocate: return assignReg(current, r) after the split *)
| calls_choose_split fu allow st current cur hn r p split_pos h' second
                     cur1 hf1 :
    heap st !! current = Some cur ->
    findHint precoloring coalescing (heap st) intervals cur fu allow
      = Ok hn ->
    hint_free fu hn cur = Ok false ->
    find_farthest fu = Ok r -> posvec_get fu r = Ok p ->
    p < Interval.end_ cur ->
    choose_split ctx cur p = Ok (Some split_pos) ->
    split (heap st) current split_pos true = Ok (h', second) ->
    h' !! current = Some cur1 ->
    hint_free fu hn cur1 = Ok hf1 ->
    calls (CChoose fu allow st current)
          (CAssignReg (set_pending (second :: pending st) (set_heap h' st))
                      current (if hf1 then hn else r))
(* allocate: allocBlocked(current) *)
| calls_choose_blocked fu allow st current cur hn r p :
    heap st !! current = Some cur ->
    findHint precoloring coalescing (heap st) intervals cur fu allow
      = Ok hn ->
    hint_free fu hn cur = Ok false ->
    find_farthest fu = Ok r -> posvec_get fu r = Ok p ->
    p < Interval.end_ cur ->
    choose_split ctx cur p = Ok None ->
    calls (CChoose fu allow st current) (CAllocBlocked st current)
(* allocate: return spill(current) *)
| calls_allocate_spill st current cur fu conflict allow :
    heap st !! current = Some cur ->
    free_until_of abi nregs st cur = Ok (fu, conflict, allow) ->
    allocate_cut ctx st current cur = Ok None ->
    calls (CAllocate st current) (CSpill st current)
(* allocate: the rest of it *)
| calls_allocate_choose st current cur fu conflict allow st1 :
    heap st !! current = Some cur ->
    free_until_of abi nregs st cur = Ok (fu, conflict, allow) ->
    allocate_cut ctx st current cur = Ok (Some st1) ->
    calls (CAllocate st current) (CChoose fu allow st1 current)
(* go: allocate(current) *)
| calls_loop_allocate fuel st a l st1 :
    pending st = a :: l ->
    update (set_pending (top (heap st) a l).2 st) (top (heap st) a l).1
      = Ok st1 ->
    calls (CGoLoop (S fuel) st) (CAllocate st1 (top (heap st) a l).1)
(* go: the iterations after an allocate *)
| calls_loop_next fuel st a l st1 st2 :
    pending st = a :: l ->
    update (set_pending (top (heap st) a l).2 st) (top (heap st) a l).1
      = Ok st1 ->
    allocate ctx abi nregs intervals precoloring coalescing st1
             (top (heap st) a l).1 = Ok st2 ->
    calls (CGoLoop (S fuel) st) (CGoLoop fuel st2)
(* go: assignReg(ivl, ivl->vreg) *)
| calls_start_assignReg st ivl l i :
    heap st !! ivl = Some i -> Interval.fixed i = true ->
    calls (CGoStart st (ivl :: l))
          (CAssignReg st ivl (physReg (Interval.vreg i)))
(* go: spill(ivl) *)
| calls_start_spill st ivl l i :
    heap st !! ivl = Some i -> Interval.fixed i = false ->
    Interval.constant i = true ->
    calls (CGoStart st (ivl :: l)) (CSpill st ivl)
(* go: the intervals after ivl *)
| calls_start_next st ivl l st' :
    go_start ctx st ivl = Ok st' ->
    calls (CGoStart st (ivl :: l)) (CGoStart st' l)
(* go: the two loops *)
| calls_go_start fuel ivec st :
    calls (CGo fuel ivec st) (CGoStart st (omap id ivec))
| calls_go_loop fuel ivec st st1 :
    foldM (go_start ctx) st (omap id ivec) = Ok st1 ->
    calls (CGo fuel ivec st) (CGoLoop fuel st1).

End Calls.

(** ** Chains and the spill slots they hold *)

(** [l], stored at [L], is the leader of a chain. *)
Definition is_leader (h : Heap) (L : addr) (l : Interval) : Prop :=
  h !! L = Some l /\ Interval.parent l = None.

(** [xi], stored at [x], is the last member of the chain of [L]: the one
    without a next. *)
Definition is_last (h : Heap) (L x : addr) (xi : Interval) : Prop :=
  h !! x = Some xi /\ leader x xi = L /\ Interval.next xi = None.

(** The chain whose leader is [l] holds slot [j]: [j] is the slot of the
    leader, or the one after it for a wide chain. *)
Definition holds (l : Interval) (j : nat) : Prop :=
  Interval.slot l <> kInvalidSpillSlot
  /\ occupies (Z.to_nat (Interval.slot l)) (Interval.wide l) j.

(** An interval that has a spill slot has the slot of its leader. *)
Definition slots_agree (h : Heap) : Prop :=
  forall a i L l,
    h !! a = Some i -> Interval.parent i = Some L -> h !! L = Some l ->
    Interval.slot i = kInvalidSpillSlot
    \/ Interval.slot i = Interval.slot l.

(** What the allocator keeps true of the store of intervals [h], the
    table of spill slots [ss] and the intervals [D] it has still to deal
    with: those in [pending], [active] and [inactive] and the one it is
    allocating. The lifetime of a chain runs from the start of its
    leader to the end of its last member.
    - [inv_dom]: the intervals of [D] are stored, and no two are the same;
    - [inv_parent]: a parent is a leader, and as wide as its children;
    - [inv_last]: a chain has one last member, which ends at or after
      the start of the leader and below [kMaxPos];
    - [inv_slot]: the slots a chain holds are entries of the table;
    - [inv_free]: a slot whose entry is not [kMaxPos] is held only by
      chains that ended at or before the entry and whose last member has
      left [D];
    - [inv_owned]: when the last member of a chain that holds a slot is
      still in [D], the other chains that hold the slot ended at or
      before the start of that chain, and their last members have left
      [D];
    - [inv_disjoint]: two chains that hold a common slot do not overlap;
    - [inv_member]: an interval that has a slot has the slot of its
      leader. *)
Record alloc_inv (h : Heap) (ss : list Z) (D : list addr) : Prop :=
  mkAllocInv {
  inv_dom : NoDup D /\ forall a, a ∈ D -> is_Some (h !! a);
  inv_parent :
    forall a i L,
      h !! a = Some i -> Interval.parent i = Some L ->
      L <> a /\ exists l, is_leader h L l
                          /\ Interval.wide l = Interval.wide i;
  inv_last :
    forall L l,
      is_leader h L l ->
      exists x xi,
        is_last h L x xi
        /\ Interval.start l <= Interval.end_ xi
        /\ Interval.end_ xi < kMaxPos
        /\ forall y yi, is_last h L y yi -> y = x;
  inv_slot :
    forall L l j,
      is_leader h L l -> holds l j ->
      0 <= Interval.slot l /\ (j < length ss)%nat;
  inv_free :
    forall j w L l x xi,
      ss !! j = Some w -> w <> kMaxPos ->
      is_leader h L l -> holds l j -> is_last h L x xi ->
      Interval.end_ xi <= w /\ x ∉ D;
  inv_owned :
    forall j O o x xi L l y yi,
      ss !! j = Some kMaxPos ->
      is_leader h O o -> holds o j -> is_last h O x xi -> x ∈ D ->
      L <> O -> is_leader h L l -> holds l j -> is_last h L y yi ->
      Interval.end_ yi <= Interval.start o /\ y ∉ D;
  inv_disjoint :
    forall j L1 l1 x1 x1i L2 l2 x2 x2i,
      L1 <> L2 ->
      is_leader h L1 l1 -> holds l1 j -> is_last h L1 x1 x1i ->
      is_leader h L2 l2 -> holds l2 j -> is_last h L2 x2 x2i ->
      Interval.end_ x1i <= Interval.start l2
      \/ Interval.end_ x2i <= Interval.start l1;
  inv_member : slots_agree h
}.

(** The invariant on a state of [Vxls]; [E] holds the intervals being
    dealt with that are in none of the three lists. *)
Definition st_inv (st : Vxls) (E : list addr) : Prop :=
  alloc_inv (heap st) (spill_slots st)
            (pending st ++ active st ++ inactive st ++ E).

(** The state in which [go] starts: the intervals are as
    [buildIntervals] leaves them, unsplit and without a slot, each from
    a start to an end that is not before it and is below [kMaxPos]; the
    three lists are empty, and the entries of the vector are different
    intervals of the store. *)
Definition fresh_state (st : Vxls) (ivec : list (option addr)) : Prop :=
  pending st = [] /\ active st = [] /\ inactive st = []
  /\ NoDup (omap id ivec)
  /\ (forall a, a ∈ omap id ivec -> is_Some (heap st !! a))
  /\ forall a i,
       heap st !! a = Some i ->
       Interval.parent i = None /\ Interval.next i = None
       /\ Interval.slot i = kInvalidSpillSlot
       /\ Interval.start i <= Interval.end_ i
       /\ Interval.end_ i < kMaxPos.

(** What the invariant needs of the queue: [top] takes one interval out
    of the bag and leaves the others. *)
Definition top_takes (top : Top) : Prop :=
  forall h a l, a :: l ≡ₚ (top h a l).1 :: (top h a l).2.

(** The lifetime of the chain of [L]: from the start of its leader to
    the end of its last member. *)
Definition chain_lifetime (h : Heap) (L : addr) (s e : Z) : Prop :=
  exists l x xi,
    is_leader h L l /\ is_last h L x xi
    /\ s = Interval.start l /\ e = Interval.end_ xi.

(** Two records with the same links, bounds and width. *)
Definition same_links_at (i i' : Interval) : Prop :=
  Interval.parent i' = Interval.parent i
  /\ Interval.next i' = Interval.next i
  /\ Interval.start i' = Interval.start i
  /\ Interval.end_ i' = Interval.end_ i
  /\ Interval.wide i' = Interval.wide i.

(** The same, with the same slot if the record is a leader. *)
Definition same_shape (i i' : Interval) : Prop :=
  same_links_at i i'
  /\ (Interval.slot i' = Interval.slot i \/ Interval.parent i <> None).

(** Two stores with the same addresses and, at each address, records
    related by [R]. *)
Definition same_store (R : Interval -> Interval -> Prop) (h h' : Heap)
    : Prop :=
  forall a, match h !! a, h' !! a with
            | Some i, Some i' => R i i'
            | None, None => True
            | _, _ => False
            end.

Definition same_links := same_store same_links_at.
Definition same_chains := same_store same_shape.

(** * Properties *)

(** ** Split positions *)

Section NearestSplitBefore.

Lemma result_bind_Ok {A B} (m : result A) (k : A -> result B) (b : B) :
  m ≫= k = Ok b -> exists a, m = Ok a /\ k a = Ok b.
Proof. destruct m as [a|f]; simpl; [eauto | discriminate]. Qed.

Lemma deref_Ok {A} (o : option A) (a : A) : deref o = Ok a -> o = Some a.
Proof. destruct o; simpl; congruence. Qed.

Lemma assertx_Ok (b : bool) (u : unit) : assertx b = Ok u -> b = true.
Proof. destruct b; simpl; congruence. Qed.

(** [blockFor] only ever returns a block whose range contains [pos]. *)
Lemma blockFor_loop_contains (ctx : VxlsContext) (p : Z) (b : Vlabel) :
  forall fuel lo hi,
    blockFor_loop fuel ctx p lo hi = Ok b ->
    exists r, block_ranges ctx !! b = Some r /\ LiveRange.contains r p = true.
Proof.
  induction fuel as [|fuel IH]; intros lo hi H; simpl in H; [discriminate|].
  destruct (lo <? hi)%nat; [|discriminate].
  apply result_bind_Ok in H as (b' & Hb' & H).
  apply result_bind_Ok in H as (r & Hr & H).
  apply deref_Ok in Hr.
  destruct (p <? LiveRange.start r) eqn:E1; [eauto|].
  destruct (LiveRange.end_ r <=? p) eqn:E2; [eauto|].
  inversion H; subst b'. exists r. split; [exact Hr|].
  unfold LiveRange.contains. apply andb_true_intro. split; lia.
Qed.

Lemma blockFor_contains (ctx : VxlsContext) (p : Z) (b : Vlabel) :
  blockFor ctx p = Ok b ->
  exists r, block_ranges ctx !! b = Some r /\ LiveRange.contains r p = true.
Proof. apply blockFor_loop_contains. Qed.

(** Setting the lowest bit of [x] gives the odd number of the pair
    [2k, 2k+1] that [x] belongs to. *)
Lemma lor_1_odd (x : Z) : 0 <= x -> Z.lor x 1 = x + 1 - x mod 2.
Proof.
  intros Hx.
  rewrite (Z.div_mod x 2) at 1 by lia.
  assert (Hm : x mod 2 = 0 \/ x mod 2 = 1) by (pose proof (Z.mod_pos_bound x 2); lia).
  replace (x + 1 - x mod 2) with (2 * (x / 2) + 1)
    by (pose proof (Z.div_mod x 2); lia).
  apply Z.bits_inj'. intros n Hn.
  rewrite Z.lor_spec.
  destruct (Z.eq_dec n 0) as [->|Hn0].
  - rewrite Z.testbit_odd_0. simpl. apply orb_true_r.
  - replace n with (Z.succ (n - 1)) by lia.
    rewrite Z.testbit_odd_succ by lia.
    replace (Z.testbit 1 (Z.succ (n - 1))) with false.
    + rewrite orb_false_r.
      destruct Hm as [-> | ->].
      * rewrite Z.add_0_r. apply Z.testbit_even_succ. lia.
      * apply Z.testbit_odd_succ. lia.
    + symmetry. apply (Z.bits_above_log2 1); simpl; lia.
Qed.

Lemma round_down_odd (p : Z) :
  0 < p <= kMaxPos ->
  Z.lor (wrap (p - 1)) 1 = if Z.odd p then p else p - 1.
Proof.
  intros Hp. unfold wrap, kMaxPos in *.
  rewrite Z.mod_small by lia.
  rewrite lor_1_odd by lia.
  pose proof (Zmod_odd p) as Hodd.
  destruct (Z.odd p); Z.div_mod_to_equations; lia.
Qed.

(** C4. [nearestSplitBefore(pos)] returns [pos] itself when [pos] is the
    start of the block range enclosing it, and otherwise the nearest odd
    position at or below [pos]; so the result is a block start or an odd
    position, and it is never greater than [pos]. *)
Theorem nearestSplitBefore_spec (ctx : VxlsContext) (p : Z) (b : Vlabel) :
  unsigned_blocks ctx = true ->
  0 <= p <= kMaxPos ->
  blockFor ctx p = Ok b ->
  exists range q,
    block_ranges ctx !! b = Some range
    /\ LiveRange.contains range p = true
    /\ nearestSplitBefore ctx p = Ok q
    /\ q = (if p =? LiveRange.start range then p
            else if Z.odd p then p else p - 1)
    /\ (q = LiveRange.start range \/ Z.odd q = true)
    /\ q <= p.
Proof.
  intros Hu Hp Hb.
  destruct (blockFor_contains _ _ _ Hb) as (range & Hr & Hc).
  assert (Hs : 0 <= LiveRange.start range).
  { unfold unsigned_blocks in Hu. rewrite forallb_forall in Hu.
    assert (Hin : In range (block_ranges ctx)).
    { apply list_elem_of_In. eapply list_elem_of_lookup_2. exact Hr. }
    specialize (Hu _ Hin). unfold unsigned_range in Hu.
    apply andb_prop in Hu as [Hu _]. lia. }
  unfold LiveRange.contains in Hc. apply andb_prop in Hc as [Hc1 Hc2].
  assert (Hc : LiveRange.contains range p = true).
  { unfold LiveRange.contains. apply andb_true_intro; split; lia. }
  assert (Hn : nearestSplitBefore ctx p =
               Ok (if p =? LiveRange.start range then p
                   else Z.lor (wrap (p - 1)) 1)).
  { unfold nearestSplitBefore. rewrite Hb. simpl. rewrite Hr. simpl.
    destruct (p =? LiveRange.start range); reflexivity. }
  destruct (p =? LiveRange.start range) eqn:E.
  - exists range, p. rewrite E.
    split; [exact Hr|]. split; [exact Hc|]. split; [exact Hn|].
    split; [reflexivity|]. split; [left; lia | lia].
  - assert (Hp0 : 0 < p <= kMaxPos) by lia.
    rewrite (round_down_odd p Hp0) in Hn.
    exists range, (if Z.odd p then p else p - 1). rewrite E.
    split; [exact Hr|]. split; [exact Hc|]. split; [exact Hn|].
    split; [reflexivity|]. split.
    + right. destruct (Z.odd p) eqn:Ep; [exact Ep|].
      replace (p - 1) with (Z.pred p) by lia.
      rewrite Z.odd_pred, <- Z.negb_odd, Ep. reflexivity.
    + destruct (Z.odd p); lia.
Qed.

(** On a sorted layout the search finds a block for every position that
    lies in one. *)
Lemma blockFor_loop_complete (ctx : VxlsContext) (p : Z) :
  blocks_sorted ctx ->
  forall fuel lo hi,
    (hi - lo < fuel)%nat -> (hi <= length (blocks ctx))%nat ->
    (exists k b r, (lo <= k < hi)%nat /\ blocks ctx !! k = Some b
                   /\ block_ranges ctx !! b = Some r
                   /\ LiveRange.contains r p = true) ->
    exists b', blockFor_loop fuel ctx p lo hi = Ok b'.
Proof.
  intros [Hhas Hord].
  induction fuel as [|fuel IH]; intros lo hi Hfuel Hhi (k & b & r & Hk & Hb & Hr & Hc);
    [lia|].
  cbn [blockFor_loop].
  replace (lo <? hi)%nat with true by (symmetry; apply Nat.ltb_lt; lia).
  set (mid := ((lo + hi) / 2)%nat).
  assert (Hmid : (lo <= mid < hi)%nat).
  { subst mid. split; [apply Nat.div_le_lower_bound; lia
                      | apply Nat.Div0.div_lt_upper_bound; lia]. }
  destruct (lookup_lt_is_Some_2 (blocks ctx) mid) as [bm Hbm]; [lia|].
  destruct (Hhas _ _ Hbm) as (rm & Hrm & Hle).
  rewrite Hbm. cbn [deref mbind result_bind]. rewrite Hrm.
  cbn [deref mbind result_bind].
  unfold LiveRange.contains in Hc. apply andb_prop in Hc as [Hc1 Hc2].
  apply Z.leb_le in Hc1. apply Z.ltb_lt in Hc2.
  destruct (p <? LiveRange.start rm) eqn:E1.
  - apply Z.ltb_lt in E1. apply IH; [lia | lia |].
    exists k, b, r. split; [|split; [exact Hb|split; [exact Hr|]]].
    + destruct (Nat.lt_trichotomy k mid) as [Hlt|[Heq|Hgt]]; [lia| |].
      * subst k. rewrite Hbm in Hb. inversion Hb; subst bm.
        rewrite Hrm in Hr. inversion Hr; subst rm. lia.
      * pose proof (Hord _ _ _ _ _ _ Hgt Hbm Hb Hrm Hr). lia.
    + unfold LiveRange.contains. apply andb_true_intro.
      split; [apply Z.leb_le | apply Z.ltb_lt]; lia.
  - apply Z.ltb_ge in E1.
    destruct (LiveRange.end_ rm <=? p) eqn:E2.
    + apply Z.leb_le in E2. apply IH; [lia | lia |].
      exists k, b, r. split; [|split; [exact Hb|split; [exact Hr|]]].
      * destruct (Nat.lt_trichotomy k mid) as [Hlt|[Heq|Hgt]]; [| |lia].
        -- pose proof (Hord _ _ _ _ _ _ Hlt Hb Hbm Hr Hrm). lia.
        -- subst k. rewrite Hbm in Hb. inversion Hb; subst bm.
           rewrite Hrm in Hr. inversion Hr; subst rm. lia.
      * unfold LiveRange.contains. apply andb_true_intro.
        split; [apply Z.leb_le | apply Z.ltb_lt]; lia.
    + eauto.
Qed.

Lemma blockFor_complete (ctx : VxlsContext) (p : Z) (k : nat) (b : Vlabel)
    (r : LiveRange) :
  blocks_sorted ctx ->
  blocks ctx !! k = Some b -> block_ranges ctx !! b = Some r ->
  LiveRange.contains r p = true ->
  exists b', blockFor ctx p = Ok b'.
Proof.
  intros Hs Hb Hr Hc. unfold blockFor.
  apply (blockFor_loop_complete ctx p Hs); [lia | lia |].
  exists k, b, r. split; [|auto].
  apply lookup_lt_Some in Hb. lia.
Qed.

(** So [nearestSplitBefore] returns a position for every position inside
    a block of a sorted layout. *)
Lemma nearestSplitBefore_total (ctx : VxlsContext) (p : Z) (k : nat)
    (b : Vlabel) (r : LiveRange) :
  blocks_sorted ctx ->
  blocks ctx !! k = Some b -> block_ranges ctx !! b = Some r ->
  LiveRange.contains r p = true ->
  exists q, nearestSplitBefore ctx p = Ok q.
Proof.
  intros Hs Hb Hr Hc.
  destruct (blockFor_complete ctx p k b r Hs Hb Hr Hc) as (b' & Hb').
  destruct (blockFor_contains _ _ _ Hb') as (r' & Hr' & _).
  unfold nearestSplitBefore. rewrite Hb'. cbn [mbind result_bind].
  rewrite Hr'. cbn [deref mbind result_bind].
  destruct (p =? LiveRange.start r'); eauto.
Qed.

End NearestSplitBefore.

Lemma nearestSplitBefore_spec_witness :
  exists range q,
    block_ranges (mkContext (Reg 4) [0%nat; 1%nat]
                    [LiveRange.mk 0 4; LiveRange.mk 4 10] [0; 0]
                    [Some ∅; Some ∅]) !! 1%nat = Some range
    /\ LiveRange.contains range 6 = true
    /\ nearestSplitBefore
         (mkContext (Reg 4) [0%nat; 1%nat]
            [LiveRange.mk 0 4; LiveRange.mk 4 10] [0; 0]
            [Some ∅; Some ∅]) 6 = Ok q
    /\ q = (if 6 =? LiveRange.start range then 6
            else if Z.odd 6 then 6 else 6 - 1)
    /\ (q = LiveRange.start range \/ Z.odd q = true)
    /\ q <= 6.
Proof.
  apply (nearestSplitBefore_spec
           (mkContext (Reg 4) [0%nat; 1%nat]
              [LiveRange.mk 0 4; LiveRange.mk 4 10] [0; 0]
              [Some ∅; Some ∅]) 6 1%nat).
  - reflexivity.
  - unfold kMaxPos. lia.
  - reflexivity.
Defined.

(** ** Binary searches over sorted vectors *)

Section Searches.

Lemma uses_monotonic_cons (u : Use) (us : list Use) :
  uses_monotonic (u :: us) = true ->
  uses_monotonic us = true
  /\ forall j u', us !! j = Some u' -> pos u <= pos u'.
Proof.
  revert u. induction us as [|u1 us IH]; intros u H.
  - split; [reflexivity|]. intros j u' Hj. destruct j; discriminate.
  - simpl in H. apply andb_prop in H as [H1 H2].
    split; [exact H2|].
    intros j u' Hj. destruct j as [|j]; simpl in Hj.
    + inversion Hj; subst. lia.
    + destruct (IH u1 H2) as [_ IH2]. specialize (IH2 j u' Hj). lia.
Qed.

Lemma uses_monotonic_le (us : list Use) :
  uses_monotonic us = true ->
  forall i j u u', (i <= j)%nat -> us !! i = Some u -> us !! j = Some u' ->
                   pos u <= pos u'.
Proof.
  induction us as [|u0 us IH]; intros H i j u u' Hij Hi Hj.
  - destruct i; discriminate.
  - destruct (uses_monotonic_cons _ _ H) as [Hs Hall].
    destruct i as [|i], j as [|j]; simpl in Hi, Hj.
    + inversion Hi; inversion Hj; subst. lia.
    + inversion Hi; subst. eapply Hall; eauto.
    + lia.
    + eapply (IH Hs i j); eauto. lia.
Qed.

Lemma ranges_wf_cons (r : LiveRange) (rs : list LiveRange) :
  ranges_wf (r :: rs) = true ->
  LiveRange.start r < LiveRange.end_ r
  /\ ranges_wf rs = true
  /\ forall j r', rs !! j = Some r' -> LiveRange.end_ r < LiveRange.start r'.
Proof.
  revert r. induction rs as [|r1 rs IH]; intros r H.
  - simpl in H. split; [lia|]. split; [reflexivity|].
    intros j r' Hj. destruct j; discriminate.
  - cbn [ranges_wf] in H.
    apply andb_prop in H as [H H3]. apply andb_prop in H as [H1 H2].
    split; [lia|]. split; [exact H3|].
    destruct (IH r1 H3) as (Hr1 & _ & IH3).
    intros j r' Hj. destruct j as [|j]; simpl in Hj.
    + inversion Hj; subst. lia.
    + specialize (IH3 j r' Hj). lia.
Qed.

Lemma ranges_wf_nonempty (rs : list LiveRange) :
  ranges_wf rs = true ->
  forall i r, rs !! i = Some r -> LiveRange.start r < LiveRange.end_ r.
Proof.
  induction rs as [|r0 rs IH]; intros H i r Hi.
  - destruct i; discriminate.
  - destruct (ranges_wf_cons _ _ H) as (H1 & H2 & _).
    destruct i as [|i]; simpl in Hi.
    + inversion Hi; subst. exact H1.
    + eapply IH; eauto.
Qed.

Lemma ranges_wf_lt (rs : list LiveRange) :
  ranges_wf rs = true ->
  forall i j r r', (i < j)%nat -> rs !! i = Some r -> rs !! j = Some r' ->
                   LiveRange.end_ r < LiveRange.start r'.
Proof.
  induction rs as [|r0 rs IH]; intros H i j r r' Hij Hi Hj.
  - destruct i; discriminate.
  - destruct (ranges_wf_cons _ _ H) as (H1 & H2 & H3).
    destruct i as [|i], j as [|j]; simpl in Hi, Hj; try lia.
    + inversion Hi; subst. eapply H3; eauto.
    + eapply (IH H2 i j); eauto. lia.
Qed.

(** What [findUse] returns on a sorted vector: an index holding [pos] if
    there is one, else the index of the first use above [pos]. *)
Lemma findUse_loop_spec (us : list Use) (p : Z) :
  uses_monotonic us = true ->
  forall fuel lo hi,
    (lo <= hi <= length us)%nat ->
    (hi - lo <= fuel)%nat ->
    (forall j u, (j < lo)%nat -> us !! j = Some u -> pos u < p) ->
    (forall j u, (hi <= j)%nat -> us !! j = Some u -> p < pos u) ->
    use_search_post us p (Interval.findUse_loop fuel us p lo hi).
Proof.
  intros Hs. induction fuel as [|fuel IH]; intros lo hi Hb Hf Hlo Hhi.
  - cbn [Interval.findUse_loop]. assert (lo = hi) by lia. subst hi.
    split; [lia|]. right. split; assumption.
  - cbn [Interval.findUse_loop]. destruct (lo <? hi)%nat eqn:E.
    + apply Nat.ltb_lt in E.
      assert (Hmid : (lo <= (lo + hi) / 2 < hi)%nat).
      { split.
        - apply Nat.div_le_lower_bound; lia.
        - apply Nat.Div0.div_lt_upper_bound; lia. }
      destruct (us !! ((lo + hi) / 2)%nat) as [u|] eqn:Hu.
      * destruct (p <? pos u) eqn:E1.
        { apply IH; [lia | lia | assumption |].
          intros j u' Hj Hu'.
          pose proof (uses_monotonic_le us Hs _ _ _ _ Hj Hu Hu'). lia. }
        destruct (pos u <? p) eqn:E2.
        { apply IH; [lia | lia | | assumption].
          intros j u' Hj Hu'.
          assert (Hjm : (j <= (lo + hi) / 2)%nat) by lia.
          pose proof (uses_monotonic_le us Hs _ _ _ _ Hjm Hu' Hu). lia. }
        split; [lia|]. left. exists u. split; [exact Hu | lia].
      * apply lookup_ge_None in Hu. lia.
    + apply Nat.ltb_ge in E. assert (lo = hi) by lia. subst hi.
      split; [lia|]. right. split; assumption.
Qed.

Lemma findUse_spec (i : Interval) (p : Z) :
  uses_monotonic (Interval.uses i) = true ->
  use_search_post (Interval.uses i) p (Interval.findUse i p).
Proof.
  intros Hs. unfold Interval.findUse.
  apply findUse_loop_spec; [assumption | lia | lia | |].
  - intros j u Hj. lia.
  - intros j u Hj Hu. apply lookup_lt_Some in Hu. lia.
Qed.

(** What [findRange] returns on well-formed ranges: the index of the
    range containing [pos] if there is one, else the index of the first
    range above [pos]. *)
Lemma findRange_loop_spec (rs : list LiveRange) (p : Z) :
  ranges_wf rs = true ->
  forall fuel lo hi,
    (lo <= hi <= length rs)%nat ->
    (hi - lo <= fuel)%nat ->
    (forall j r, (j < lo)%nat -> rs !! j = Some r -> LiveRange.end_ r <= p) ->
    (forall j r, (hi <= j)%nat -> rs !! j = Some r -> p < LiveRange.start r) ->
    range_search_post rs p (Interval.findRange_loop fuel rs p lo hi).
Proof.
  intros Hs. induction fuel as [|fuel IH]; intros lo hi Hb Hf Hlo Hhi.
  - cbn [Interval.findRange_loop]. assert (lo = hi) by lia. subst hi.
    split; [lia|]. split; [assumption|]. split.
    + intros j r Hj. apply Hhi. lia.
    + intros r Hr. specialize (Hhi lo r (Nat.le_refl _) Hr).
      pose proof (ranges_wf_nonempty rs Hs _ _ Hr). lia.
  - cbn [Interval.findRange_loop]. destruct (lo <? hi)%nat eqn:E.
    + apply Nat.ltb_lt in E.
      assert (Hmid : (lo <= (lo + hi) / 2 < hi)%nat).
      { split.
        - apply Nat.div_le_lower_bound; lia.
        - apply Nat.Div0.div_lt_upper_bound; lia. }
      destruct (rs !! ((lo + hi) / 2)%nat) as [r|] eqn:Hr.
      * destruct (p <? LiveRange.start r) eqn:E1.
        { apply IH; [lia | lia | assumption |].
          intros j r' Hj Hr'.
          destruct (Nat.eq_dec j ((lo + hi) / 2)%nat) as [->|Hne].
          - rewrite Hr in Hr'. inversion Hr'; subst. lia.
          - assert (Hlt : ((lo + hi) / 2 < j)%nat) by lia.
            pose proof (ranges_wf_lt rs Hs _ _ _ _ Hlt Hr Hr').
            pose proof (ranges_wf_nonempty rs Hs _ _ Hr). lia. }
        destruct (LiveRange.end_ r <=? p) eqn:E2.
        { apply IH; [lia | lia | | assumption].
          intros j r' Hj Hr'.
          destruct (Nat.eq_dec j ((lo + hi) / 2)%nat) as [->|Hne].
          - rewrite Hr in Hr'. inversion Hr'; subst. lia.
          - assert (Hlt : (j < (lo + hi) / 2)%nat) by lia.
            pose proof (ranges_wf_lt rs Hs _ _ _ _ Hlt Hr' Hr).
            pose proof (ranges_wf_nonempty rs Hs _ _ Hr'). lia. }
        split; [lia|]. split; [|split].
        { intros j r' Hj Hr'.
          pose proof (ranges_wf_lt rs Hs _ _ _ _ Hj Hr' Hr). lia. }
        { intros j r' Hj Hr'.
          pose proof (ranges_wf_lt rs Hs _ _ _ _ Hj Hr Hr').
          pose proof (ranges_wf_nonempty rs Hs _ _ Hr). lia. }
        { intros r' Hr'. rewrite Hr in Hr'. inversion Hr'; subst. lia. }
      * apply lookup_ge_None in Hr. lia.
    + apply Nat.ltb_ge in E. assert (lo = hi) by lia. subst hi.
      split; [lia|]. split; [assumption|]. split.
      * intros j r Hj. apply Hhi. lia.
      * intros r Hr. specialize (Hhi lo r (Nat.le_refl _) Hr).
        pose proof (ranges_wf_nonempty rs Hs _ _ Hr). lia.
Qed.

Lemma findRange_spec (i : Interval) (p : Z) :
  ranges_wf (Interval.ranges i) = true ->
  range_search_post (Interval.ranges i) p (Interval.findRange i p).
Proof.
  intros Hs. unfold Interval.findRange.
  apply findRange_loop_spec; [assumption | lia | lia | |].
  - intros j r Hj. lia.
  - intros j r Hj Hr. apply lookup_lt_Some in Hr. lia.
Qed.

End Searches.

(** ** Covering and uses at the open end *)

Section OpenEnd.

Lemma last_lookup_Some {A} (l : list A) (x : A) :
  last l = Some x -> l !! (length l - 1)%nat = Some x.
Proof.
  intros H. rewrite last_lookup in H.
  replace (length l - 1)%nat with (Nat.pred (length l)) by lia. exact H.
Qed.

Lemma start_lt_end (i : Interval) :
  Interval.ranges i <> [] ->
  ranges_wf (Interval.ranges i) = true ->
  Interval.start i < Interval.end_ i.
Proof.
  intros Hne Hwf. unfold Interval.start, Interval.end_.
  destruct (Interval.ranges i) as [|r rs] eqn:Hrs; [congruence|].
  destruct (last (r :: rs)) as [l|] eqn:Hl.
  - apply last_lookup_Some in Hl.
    destruct (length (r :: rs) - 1)%nat as [|n] eqn:Hn.
    + simpl in Hl. inversion Hl; subst.
      eapply (ranges_wf_nonempty _ Hwf 0%nat). reflexivity.
    + assert (H0 : (r :: rs) !! 0%nat = Some r) by reflexivity.
      pose proof (ranges_wf_lt _ Hwf 0%nat (S n) r l (Nat.lt_0_succ n) H0 Hl).
      pose proof (ranges_wf_nonempty _ Hwf _ _ Hl).
      pose proof (ranges_wf_nonempty _ Hwf _ _ H0). lia.
  - rewrite last_None in Hl. discriminate.
Qed.

Lemma covers_end (i : Interval) :
  Interval.covers i (Interval.end_ i) = false.
Proof.
  unfold Interval.covers.
  replace (Interval.end_ i <=? Interval.end_ i) with true
    by (symmetry; apply Z.leb_le; lia).
  rewrite orb_true_r. reflexivity.
Qed.

Lemma usedAt_end (i : Interval) :
  Interval.ranges i <> [] ->
  ranges_wf (Interval.ranges i) = true ->
  uses_monotonic (Interval.uses i) = true ->
  (exists u, u ∈ Interval.uses i /\ pos u = Interval.end_ i) ->
  Interval.usedAt i (Interval.end_ i) = true.
Proof.
  intros Hne Hwf Hs (u & Hin & Hu).
  pose proof (start_lt_end i Hne Hwf) as Hlt.
  unfold Interval.usedAt.
  replace (Interval.end_ i <? Interval.start i) with false
    by (symmetry; apply Z.ltb_ge; lia).
  replace (Interval.end_ i <? Interval.end_ i) with false
    by (symmetry; apply Z.ltb_ge; lia).
  simpl.
  destruct (findUse_spec i (Interval.end_ i) Hs) as [_ [(u' & Hu' & Hp) | [H1 H2]]].
  - rewrite Hu'. apply Z.eqb_eq. lia.
  - exfalso. apply list_elem_of_lookup in Hin as [j Hj].
    destruct (Nat.lt_ge_cases j (Interval.findUse i (Interval.end_ i))) as [Hlo|Hhi].
    + specialize (H1 _ _ Hlo Hj). lia.
    + specialize (H2 _ _ Hhi Hj). lia.
Qed.

(** C10. Ranges are half-open, so an interval never covers its own end
    position, yet [usedAt] accepts it: with a use recorded exactly at
    [end()], [usedAt(end())] is true; hence [childAt], which selects by
    [usedAt], can return a child that does not cover the position. *)
Theorem covers_end_but_usedAt_end (i : Interval) :
  Interval.ranges i <> [] ->
  ranges_wf (Interval.ranges i) = true ->
  uses_monotonic (Interval.uses i) = true ->
  Interval.covers i (Interval.end_ i) = false
  /\ ((exists u, u ∈ Interval.uses i /\ pos u = Interval.end_ i) ->
      Interval.usedAt i (Interval.end_ i) = true)
  /\ exists (h : Heap) (root c : addr) (ci : Interval) (p : Z),
       childAt h root p = Ok (Some c)
       /\ h !! c = Some ci
       /\ Interval.covers ci p = false.
Proof.
  intros Hne Hwf Hs. split; [apply covers_end|]. split.
  - apply usedAt_end; assumption.
  - set (root :=
           Interval.mk None (Some 1%nat) [LiveRange.mk 0 4]
             [mkUse Any 0 InvalidVreg] (Virt 0) 0 kInvalidSpillSlot false
             (Reg 0) false 0).
    set (child :=
           Interval.mk (Some 0%nat) None [LiveRange.mk 4 8]
             [mkUse Any 8 InvalidVreg] (Virt 0) 0 kInvalidSpillSlot false
             (Reg 1) false 0).
    exists (<[1%nat := child]> {[0%nat := root]}), 0%nat, 1%nat, child, 8.
    split; [|split]; vm_compute; reflexivity.
Qed.

Lemma covers_end_but_usedAt_end_witness :
  let i := Interval.mk None None [LiveRange.mk 0 4]
             [mkUse Any 0 InvalidVreg; mkUse Any 4 InvalidVreg]
             (Virt 0) 0 kInvalidSpillSlot false (Reg 0) false 0 in
  Interval.covers i 4 = false /\ Interval.usedAt i 4 = true.
Proof.
  intros i.
  destruct (covers_end_but_usedAt_end i) as (H1 & H2 & _).
  - discriminate.
  - reflexivity.
  - reflexivity.
  - split; [exact H1|]. apply H2.
    exists (mkUse Any 4 InvalidVreg). split; [|reflexivity].
    apply list_elem_of_In. simpl. right. left. reflexivity.
Defined.

End OpenEnd.

(** ** The effect of an instruction on the stack pointer *)

Section SpEffect.

Lemma forallb_negb_defines (inst : Vinstr) (r : Vreg) :
  forallb (fun d => negb (bool_decide (d = r))) (visitDefs inst)
  = negb (defines inst r).
Proof.
  unfold defines. induction (visitDefs inst) as [|d ds IH]; [reflexivity|].
  simpl. rewrite IH. destruct (bool_decide (d = r)); reflexivity.
Qed.

Lemma wrap_int_small (z : Z) : is_int z -> wrap_int z = z.
Proof.
  unfold is_int, wrap_int. intros H.
  rewrite Z.mod_small by lia. lia.
Qed.

(** An [addqi] to [sp] whose source is not [sp] does not return its
    immediate: the assertion of the debug build fires first. *)
Lemma spEffect_addqi_foreign_source :
  let inst := Vinstr.mk (Vinstr.addqi 8 (Phys 0) (Phys 4)) [] [] [] [] in
  spEffect inst (Reg 4) = Fail AssertFailed
  /\ spEffect inst (Reg 4) <> Ok 8.
Proof. split; [reflexivity | discriminate]. Qed.

(** C7, as amended. [spEffect] returns -8 for [push] and 8 for [pop]; for
    an [addqi]/[subqi] whose destination and source are both [sp] the
    immediate, respectively its [int] negation; for a [lea] whose
    destination is [sp], whose base is [sp] and which has no index, the
    displacement; 0 for an [addqi]/[subqi]/[lea] with another
    destination and for any other instruction that does not define
    [sp]. An [addqi]/[subqi]/[lea] to [sp] of another shape and any
    other instruction that defines [sp] fail an assertion. *)
Theorem spEffect_cases (inst : Vinstr) (sp : PhysReg) :
  match Vinstr.op inst with
  | Vinstr.push => spEffect inst sp = Ok (-8)
  | Vinstr.pop => spEffect inst sp = Ok 8
  | Vinstr.addqi s0 s1 d =>
    (d = Vreg_of sp -> s1 = Vreg_of sp -> spEffect inst sp = Ok s0)
    /\ (d = Vreg_of sp -> s1 <> Vreg_of sp ->
        spEffect inst sp = Fail AssertFailed)
    /\ (d <> Vreg_of sp -> spEffect inst sp = Ok 0)
  | Vinstr.subqi s0 s1 d =>
    (d = Vreg_of sp -> s1 = Vreg_of sp ->
     spEffect inst sp = Ok (wrap_int (- s0))
     /\ (is_int (- s0) -> spEffect inst sp = Ok (- s0)))
    /\ (d = Vreg_of sp -> s1 <> Vreg_of sp ->
        spEffect inst sp = Fail AssertFailed)
    /\ (d <> Vreg_of sp -> spEffect inst sp = Ok 0)
  | Vinstr.lea base index disp d =>
    (d = Vreg_of sp -> base = d -> isValid index = false ->
     spEffect inst sp = Ok disp)
    /\ (d = Vreg_of sp -> base <> d \/ isValid index = true ->
        spEffect inst sp = Fail AssertFailed)
    /\ (d <> Vreg_of sp -> spEffect inst sp = Ok 0)
  | _ =>
    (defines inst (Vreg_of sp) = false -> spEffect inst sp = Ok 0)
    /\ (defines inst (Vreg_of sp) = true ->
        spEffect inst sp = Fail AssertFailed)
  end.
Proof.
  unfold spEffect.
  destruct (Vinstr.op inst) as
    [ | | s0 s1 d | s0 s1 d | base index disp d | | | | | | | | ];
    try reflexivity;
    try (rewrite forallb_negb_defines; cbn [debug];
         split; intros ->; reflexivity).
  - split; [|split].
    + intros -> ->. rewrite !bool_decide_eq_true_2 by reflexivity.
      reflexivity.
    + intros -> Hne. rewrite bool_decide_eq_true_2 by reflexivity.
      rewrite bool_decide_eq_false_2 by assumption. reflexivity.
    + intros Hne. rewrite bool_decide_eq_false_2 by assumption.
      reflexivity.
  - split; [|split].
    + intros -> ->. rewrite !bool_decide_eq_true_2 by reflexivity.
      simpl. split; [reflexivity|].
      intros Hi. rewrite wrap_int_small by assumption. reflexivity.
    + intros -> Hne. rewrite bool_decide_eq_true_2 by reflexivity.
      rewrite bool_decide_eq_false_2 by assumption. reflexivity.
    + intros Hne. rewrite bool_decide_eq_false_2 by assumption.
      reflexivity.
  - split; [|split].
    + intros -> -> Hi. rewrite !bool_decide_eq_true_2 by reflexivity.
      rewrite Hi. reflexivity.
    + intros -> [Hne | Hi].
      * rewrite bool_decide_eq_true_2 by reflexivity.
        rewrite (bool_decide_eq_false_2 _ Hne). reflexivity.
      * rewrite bool_decide_eq_true_2 by reflexivity.
        rewrite Hi, andb_false_r. reflexivity.
    + intros Hne. rewrite bool_decide_eq_false_2 by assumption.
      reflexivity.
Qed.

Lemma spEffect_cases_witness :
  spEffect (Vinstr.mk (Vinstr.subqi 16 (Phys 4) (Phys 4)) [] [] [] [])
           (Reg 4) = Ok (-16)
  /\ spEffect (Vinstr.mk (Vinstr.lea (Phys 4) InvalidVreg 24 (Phys 4))
                 [] [] [] []) (Reg 4) = Ok 24
  /\ spEffect (Vinstr.mk Vinstr.other
                 [Vinstr.ODef (Phys 4) Gpr InvalidVreg false] [] [] [])
              (Reg 4) = Fail AssertFailed.
Proof.
  split; [|split].
  - pose proof (spEffect_cases
                  (Vinstr.mk (Vinstr.subqi 16 (Phys 4) (Phys 4)) [] [] [] [])
                  (Reg 4)) as H.
    cbn [Vinstr.op] in H. destruct H as (H & _ & _).
    destruct (H eq_refl eq_refl) as [_ H2]. apply H2.
    unfold is_int. lia.
  - pose proof (spEffect_cases
                  (Vinstr.mk (Vinstr.lea (Phys 4) InvalidVreg 24 (Phys 4))
                     [] [] [] []) (Reg 4)) as H.
    cbn [Vinstr.op] in H. destruct H as (H & _ & _).
    apply H; reflexivity.
  - pose proof (spEffect_cases
                  (Vinstr.mk Vinstr.other
                     [Vinstr.ODef (Phys 4) Gpr InvalidVreg false] [] [] [])
                  (Reg 4)) as H.
    cbn [Vinstr.op] in H. destruct H as (_ & H).
    apply H. reflexivity.
Defined.

End SpEffect.

(** ** Spilling: slots, registers and the capacity failures *)

Section Spilling.

Lemma find_slot_None (ss : list Z) (s : Z) (k : nat) :
  (forall j w, ss !! j = Some w -> s < w) -> find_slot ss s k = None.
Proof.
  revert k. induction ss as [|w ss IH]; intros k H; [reflexivity|].
  simpl. pose proof (H 0%nat w eq_refl) as Hw.
  replace (w <=? s) with false by (symmetry; apply Z.leb_gt; lia).
  apply IH. intros j w' Hj. apply (H (S j)). exact Hj.
Qed.

Lemma find_wide_slot_None (ss : list Z) (s : Z) :
  forall n k,
    (length ss <= n)%nat ->
    (forall j w0 w1, Nat.Even j -> ss !! j = Some w0 -> ss !! S j = Some w1 ->
                     s < w0 \/ s < w1) ->
    find_wide_slot ss s k = None.
Proof.
  intros n. revert ss. induction n as [|n IH]; intros ss k Hl H.
  - destruct ss; [reflexivity | simpl in Hl; lia].
  - destruct ss as [|w0 [|w1 ss]]; [reflexivity | reflexivity |].
    cbn [find_wide_slot].
    assert (H0 : s < w0 \/ s < w1).
    { apply (H 0%nat); [exists 0%nat; reflexivity | reflexivity | reflexivity]. }
    replace ((w0 <=? s) && (w1 <=? s)) with false.
    + apply IH; [simpl in Hl; lia|].
      intros j a b Hj Ha Hb. apply (H (S (S j))); [|exact Ha | exact Hb].
      destruct Hj as [m ->]. exists (S m). lia.
    + symmetry. apply andb_false_iff.
      destruct H0; [left | right]; apply Z.leb_gt; lia.
Qed.

(** When no spill slot has a high water mark that the leader's start
    has reached (for a wide interval: no even slot does together with its
    successor), [assignSpill] punts with [LinearScan_TooManySpills]. *)
Lemma assignSpill_punts (st : Vxls) (ivl la : addr) (i ldr : Interval) :
  heap st !! ivl = Some i ->
  Interval.fixed i = false ->
  Interval.parent i = Some la ->
  heap st !! la = Some ldr ->
  Interval.slot ldr = kInvalidSpillSlot ->
  (if Interval.wide i
   then forall j w0 w1,
       Nat.Even j -> spill_slots st !! j = Some w0 ->
       spill_slots st !! S j = Some w1 ->
       Interval.start ldr < w0 \/ Interval.start ldr < w1
   else forall j w, spill_slots st !! j = Some w ->
                    Interval.start ldr < w) ->
  assignSpill st ivl = Fail (Punt LinearScan_TooManySpills).
Proof.
  intros Hi Hfix Hpar Hl Hslot Hfull.
  unfold assignSpill. rewrite Hi. simpl. rewrite Hfix, Hpar. simpl.
  rewrite Hl. simpl. rewrite Hslot. simpl.
  destruct (Interval.wide i); simpl.
  - rewrite (find_wide_slot_None _ _ (length (spill_slots st)) 0%nat
               (Nat.le_refl _) Hfull). reflexivity.
  - rewrite (find_slot_None _ _ 0%nat Hfull). reflexivity.
Qed.

(** When the first register use lies within the interval but
    [nearestSplitBefore] of it is at or before the interval's start,
    [spill] punts with [RegSpill]. *)
Lemma spill_punts (ctx : VxlsContext) (st : Vxls) (ivl : addr)
    (i : Interval) (split_pos : Z) :
  heap st !! ivl = Some i ->
  Interval.firstUse i <= Interval.end_ i ->
  nearestSplitBefore ctx (Interval.firstUse i) = Ok split_pos ->
  split_pos <= Interval.start i ->
  spill ctx st ivl = Fail (Punt RegSpill).
Proof.
  intros Hi Hfu Hn Hle.
  unfold spill. rewrite Hi. simpl.
  replace (Interval.firstUse i <=? Interval.end_ i) with true
    by (symmetry; apply Z.leb_le; lia).
  rewrite Hn. simpl.
  replace (split_pos <=? Interval.start i) with true
    by (symmetry; apply Z.leb_le; lia).
  reflexivity.
Qed.

(** [assignSpill] leaves the active list and the register of the
    interval alone, and on success the interval has a slot. *)
Lemma assignSpill_Ok (st st' : Vxls) (ivl : addr) (i : Interval) :
  heap st !! ivl = Some i ->
  assignSpill st ivl = Ok st' ->
  active st' = active st
  /\ inactive st' = inactive st
  /\ pending st' = pending st
  /\ exists i', heap st' !! ivl = Some i'
                /\ Interval.reg i' = Interval.reg i
                /\ Interval.slot i' <> kInvalidSpillSlot.
Proof.
  intros Hi H. unfold assignSpill in H. rewrite Hi in H. simpl in H.
  apply result_bind_Ok in H as ([] & Ha & H).
  apply result_bind_Ok in H as (la & Hla & H).
  apply result_bind_Ok in H as (ldr & Hldr & H).
  destruct (Interval.slot ldr =? kInvalidSpillSlot) eqn:E; simpl in H.
  - destruct (if negb (Interval.wide i) then _ else _) as [slot|] eqn:Ef;
      [|discriminate].
    inversion H; subst st'; clear H. unfold assign_slot.
    destruct (negb (Interval.wide i)); simpl;
      (split; [reflexivity|]; split; [reflexivity|]; split; [reflexivity|];
       eexists; split; [apply lookup_insert_eq|];
       split; [reflexivity|]; simpl; unfold kInvalidSpillSlot; lia).
  - inversion H; subst st'; clear H. simpl.
    split; [reflexivity|]. split; [reflexivity|]. split; [reflexivity|].
    eexists. split; [apply lookup_insert_eq|]. split; [reflexivity|].
    simpl. apply Z.eqb_neq in E. exact E.
Qed.

(** C9. When [assignReg] is invoked on a non-fixed interval without
    uses, the interval does not get the offered register: its [reg] is
    [InvalidReg], it receives a spill slot from [assignSpill] unless it
    is a constant, and it is not added to the active list. *)
Theorem assignReg_no_uses (st : Vxls) (ivl : addr) (r : PhysReg)
    (i : Interval) :
  heap st !! ivl = Some i ->
  Interval.fixed i = false ->
  Interval.uses i = [] ->
  let st1 := set_heap (<[ivl := set_reg InvalidReg i]> (heap st)) st in
  assignReg st ivl r
  = (if Interval.constant i then Ok st1 else assignSpill st1 ivl)
  /\ forall st',
      assignReg st ivl r = Ok st' ->
      active st' = active st
      /\ exists i', heap st' !! ivl = Some i'
                    /\ Interval.reg i' = InvalidReg
                    /\ (Interval.constant i = false ->
                        Interval.slot i' <> kInvalidSpillSlot)
                    /\ (Interval.constant i = true ->
                        Interval.slot i' = Interval.slot i).
Proof.
  intros Hi Hfix Huses st1.
  assert (Heq : assignReg st ivl r
                = (if Interval.constant i then Ok st1 else assignSpill st1 ivl)).
  { unfold assignReg. rewrite Hi. simpl. rewrite Hfix, Huses. simpl.
    destruct (Interval.constant i); reflexivity. }
  split; [exact Heq|].
  intros st' H. rewrite Heq in H.
  assert (Hi1 : heap st1 !! ivl = Some (set_reg InvalidReg i)).
  { subst st1. simpl. apply lookup_insert_eq. }
  destruct (Interval.constant i) eqn:Ec.
  - inversion H; subst st'. split; [reflexivity|].
    exists (set_reg InvalidReg i). split; [exact Hi1|].
    split; [reflexivity|]. split; [discriminate | reflexivity].
  - destruct (assignSpill_Ok _ _ _ _ Hi1 H) as (Ha & _ & _ & i' & Hi' & Hr & Hs).
    split; [rewrite Ha; reflexivity|].
    exists i'. split; [exact Hi'|]. split; [rewrite Hr; reflexivity|].
    split; [intros _; exact Hs | discriminate].
Qed.

Lemma assignReg_no_uses_witness :
  let leader := Interval.mk None (Some 1%nat) [LiveRange.mk 2 6]
                  [mkUse Gpr 2 InvalidVreg] (Virt 0) 2 kInvalidSpillSlot
                  false (Reg 0) false 0 in
  let child := Interval.mk (Some 0%nat) None [LiveRange.mk 7 12]
                 [] (Virt 0) 0 kInvalidSpillSlot false InvalidReg false 0 in
  let st := mkVxls (<[1%nat := child]> {[0%nat := leader]}) [] [0%nat] []
              [kMaxPos; 1] (mkSpillInfo 1 1) in
  exists st', assignReg st 1%nat (Reg 3) = Ok st'
              /\ active st' = [0%nat]
              /\ (Interval.reg <$> heap st' !! 1%nat) = Some InvalidReg
              /\ (Interval.slot <$> heap st' !! 1%nat) = Some 1.
Proof.
  intros leader child st.
  destruct (assignReg_no_uses st 1%nat (Reg 3) child eq_refl eq_refl eq_refl)
    as [Heq _].
  eexists. split; [rewrite Heq; reflexivity|].
  split; [reflexivity|]. split; reflexivity.
Defined.

End Spilling.

(** ** Intersection of two intervals *)

Section Intersection.

Lemma covered_cons (r : LiveRange) (rs : list LiveRange) (q : Z) :
  covered (r :: rs) q = LiveRange.contains r q || covered rs q.
Proof. reflexivity. Qed.

Lemma covered_lookup (rs : list LiveRange) (q : Z) :
  covered rs q = true <->
  exists j r, rs !! j = Some r /\ LiveRange.contains r q = true.
Proof.
  unfold covered. rewrite existsb_exists. split.
  - intros (r & Hin & Hc). apply list_elem_of_In in Hin.
    apply list_elem_of_lookup in Hin as [j Hj]. eauto.
  - intros (j & r & Hj & Hc). exists r. split; [|exact Hc].
    apply list_elem_of_In. eapply list_elem_of_lookup_2. exact Hj.
Qed.

(** Every covered position is at or after the start of the first
    range. *)
Lemma covered_ge_start (r : LiveRange) (rs : list LiveRange) (q : Z) :
  ranges_wf (r :: rs) = true ->
  covered (r :: rs) q = true ->
  LiveRange.start r <= q.
Proof.
  intros Hwf Hc. apply covered_lookup in Hc as (j & r' & Hj & Hc).
  unfold LiveRange.contains in Hc. apply andb_prop in Hc as [Hc1 Hc2].
  destruct j as [|j].
  - simpl in Hj. inversion Hj; subst. lia.
  - assert (H0 : (r :: rs) !! 0%nat = Some r) by reflexivity.
    pose proof (ranges_wf_lt _ Hwf 0%nat (S j) r r' (Nat.lt_0_succ j) H0 Hj).
    pose proof (ranges_wf_nonempty _ Hwf _ _ H0). lia.
Qed.

Lemma ranges_wf_tail (r : LiveRange) (rs : list LiveRange) :
  ranges_wf (r :: rs) = true -> ranges_wf rs = true.
Proof. intros H. apply ranges_wf_cons in H as (_ & H & _). exact H. Qed.

Lemma contains_start (r : LiveRange) :
  LiveRange.start r < LiveRange.end_ r ->
  LiveRange.contains r (LiveRange.start r) = true.
Proof.
  intros H. unfold LiveRange.contains.
  apply andb_true_intro. split; [apply Z.leb_le | apply Z.ltb_lt]; lia.
Qed.

Lemma first_common_skip_l (r1 : LiveRange) (t1 l2 : list LiveRange)
    (res : result Z) :
  (forall q, LiveRange.contains r1 q = true -> covered l2 q = true -> False) ->
  first_common t1 l2 res -> first_common (r1 :: t1) l2 res.
Proof.
  intros Hno [(p & Hres & H1 & H2 & Hmin) | (Hres & Hnone)].
  - left. exists p. split; [exact Hres|].
    split; [rewrite covered_cons, H1; apply orb_true_r|].
    split; [exact H2|].
    intros q Hq1 Hq2. rewrite covered_cons in Hq1.
    apply orb_prop in Hq1 as [Hq1|Hq1]; [exfalso; eauto | eauto].
  - right. split; [exact Hres|].
    intros q Hq1 Hq2. rewrite covered_cons in Hq1.
    apply orb_prop in Hq1 as [Hq1|Hq1]; eauto.
Qed.

Lemma first_common_skip_r (l1 : list LiveRange) (r2 : LiveRange)
    (t2 : list LiveRange) (res : result Z) :
  (forall q, covered l1 q = true -> LiveRange.contains r2 q = true -> False) ->
  first_common l1 t2 res -> first_common l1 (r2 :: t2) res.
Proof.
  intros Hno [(p & Hres & H1 & H2 & Hmin) | (Hres & Hnone)].
  - left. exists p. split; [exact Hres|]. split; [exact H1|].
    split; [rewrite covered_cons, H2; apply orb_true_r|].
    intros q Hq1 Hq2. rewrite covered_cons in Hq2.
    apply orb_prop in Hq2 as [Hq2|Hq2]; [exfalso; eauto | eauto].
  - right. split; [exact Hres|].
    intros q Hq1 Hq2. rewrite covered_cons in Hq2.
    apply orb_prop in Hq2 as [Hq2|Hq2]; eauto.
Qed.

Lemma nextIntersect_loop_spec (l1 : list LiveRange) :
  ranges_wf l1 = true -> l1 <> [] ->
  forall l2, ranges_wf l2 = true -> l2 <> [] ->
             first_common l1 l2 (nextIntersect_loop l1 l2).
Proof.
  induction l1 as [|r1 t1 IH1]; intros Hwf1 Hne1; [congruence|].
  induction l2 as [|r2 t2 IH2]; intros Hwf2 Hne2; [congruence|].
  pose proof (ranges_wf_cons _ _ Hwf1) as (Hr1 & Ht1 & _).
  pose proof (ranges_wf_cons _ _ Hwf2) as (Hr2 & Ht2 & _).
  cbn [nextIntersect_loop].
  destruct (LiveRange.start r1 <? LiveRange.start r2) eqn:E.
  - apply Z.ltb_lt in E.
    destruct (LiveRange.start r2 <? LiveRange.end_ r1) eqn:E1.
    + apply Z.ltb_lt in E1. left. exists (LiveRange.start r2).
      split; [reflexivity|]. split; [|split].
      * rewrite covered_cons. apply orb_true_intro. left.
        unfold LiveRange.contains. apply andb_true_intro.
        split; [apply Z.leb_le | apply Z.ltb_lt]; lia.
      * rewrite covered_cons, contains_start by exact Hr2. reflexivity.
      * intros q _ Hq. apply (covered_ge_start _ _ _ Hwf2 Hq).
    + apply Z.ltb_ge in E1.
      assert (Hno : forall q, LiveRange.contains r1 q = true ->
                              covered (r2 :: t2) q = true -> False).
      { intros q Hq1 Hq2. pose proof (covered_ge_start _ _ _ Hwf2 Hq2).
        unfold LiveRange.contains in Hq1. apply andb_prop in Hq1 as [_ Hq1].
        lia. }
      destruct t1 as [|r1' t1'].
      * right. split; [reflexivity|].
        intros q Hq1 Hq2. rewrite covered_cons in Hq1. simpl in Hq1.
        rewrite orb_false_r in Hq1. eauto.
      * apply first_common_skip_l; [exact Hno|].
        apply IH1; [exact Ht1 | discriminate | exact Hwf2 | discriminate].
  - apply Z.ltb_ge in E.
    destruct (LiveRange.start r1 <? LiveRange.end_ r2) eqn:E1.
    + apply Z.ltb_lt in E1. left. exists (LiveRange.start r1).
      split; [reflexivity|]. split; [|split].
      * rewrite covered_cons, contains_start by exact Hr1. reflexivity.
      * rewrite covered_cons. apply orb_true_intro. left.
        unfold LiveRange.contains. apply andb_true_intro.
        split; [apply Z.leb_le | apply Z.ltb_lt]; lia.
      * intros q Hq _. apply (covered_ge_start _ _ _ Hwf1 Hq).
    + apply Z.ltb_ge in E1.
      assert (Hno : forall q, covered (r1 :: t1) q = true ->
                              LiveRange.contains r2 q = true -> False).
      { intros q Hq1 Hq2. pose proof (covered_ge_start _ _ _ Hwf1 Hq1).
        unfold LiveRange.contains in Hq2. apply andb_prop in Hq2 as [_ Hq2].
        lia. }
      destruct t2 as [|r2' t2'].
      * right. split; [reflexivity|].
        intros q Hq1 Hq2. rewrite covered_cons in Hq2. simpl in Hq2.
        rewrite orb_false_r in Hq2. eauto.
      * apply first_common_skip_r; [exact Hno|].
        apply IH2; [exact Ht2 | discriminate].
Qed.

End Intersection.

Section NextIntersect.

Lemma ranges_wf_drop (rs : list LiveRange) (k : nat) :
  ranges_wf rs = true -> ranges_wf (drop k rs) = true.
Proof.
  revert rs. induction k as [|k IH]; intros rs H; [rewrite drop_0; exact H|].
  destruct rs as [|r rs]; [reflexivity|].
  simpl. apply IH. eapply ranges_wf_tail. exact H.
Qed.

Lemma covered_drop (rs : list LiveRange) (k : nat) (q : Z) :
  covered (drop k rs) q = true -> covered rs q = true.
Proof.
  rewrite !covered_lookup. intros (j & r & Hj & Hc).
  rewrite lookup_drop in Hj. eauto.
Qed.

Lemma covered_drop_above (rs : list LiveRange) (k : nat) (p q : Z) :
  (forall j r, (j < k)%nat -> rs !! j = Some r -> LiveRange.end_ r <= p) ->
  p <= q ->
  covered rs q = true -> covered (drop k rs) q = true.
Proof.
  intros Hlow Hpq. rewrite !covered_lookup. intros (j & r & Hj & Hc).
  destruct (Nat.lt_ge_cases j k) as [Hlt|Hge].
  - specialize (Hlow _ _ Hlt Hj).
    unfold LiveRange.contains in Hc. apply andb_prop in Hc as [_ Hc]. lia.
  - exists (j - k)%nat, r. split; [|exact Hc].
    rewrite lookup_drop. replace (k + (j - k))%nat with j by lia. exact Hj.
Qed.

Lemma covered_within (i : Interval) (q : Z) :
  Interval.ranges i <> [] ->
  ranges_wf (Interval.ranges i) = true ->
  covered (Interval.ranges i) q = true ->
  Interval.start i <= q < Interval.end_ i.
Proof.
  intros Hne Hwf Hc. unfold Interval.start, Interval.end_.
  destruct (Interval.ranges i) as [|r rs] eqn:Hrs; [congruence|].
  split; [apply (covered_ge_start _ _ _ Hwf Hc)|].
  apply covered_lookup in Hc as (j & r' & Hj & Hc).
  unfold LiveRange.contains in Hc. apply andb_prop in Hc as [_ Hc].
  destruct (last (r :: rs)) as [l|] eqn:Hl;
    [|rewrite last_None in Hl; discriminate].
  apply last_lookup_Some in Hl.
  pose proof (lookup_lt_Some _ _ _ Hj) as Hjl.
  destruct (Nat.eq_dec j (length (r :: rs) - 1)%nat) as [->|Hne'].
  - rewrite Hl in Hj. inversion Hj; subst. lia.
  - assert (Hlt : (j < length (r :: rs) - 1)%nat) by lia.
    pose proof (ranges_wf_lt _ Hwf _ _ _ _ Hlt Hj Hl).
    pose proof (ranges_wf_nonempty _ Hwf _ _ Hl). lia.
Qed.

(** Two unsplit intervals of which one is a fixed interval that has a
    hole at the other's start: the result is their first common
    position, not infinity; and two unsplit virtual intervals that do
    overlap: the result is infinity although position 6 is common. *)
Lemma nextIntersect_unsplit_counterexample :
  let a := Interval.mk None None [LiveRange.mk 4 10]
             [mkUse Gpr 4 InvalidVreg] (Virt 0) 4 kInvalidSpillSlot false
             InvalidReg false 0 in
  let b_fixed := Interval.mk None None [LiveRange.mk 0 2; LiveRange.mk 6 8]
                   [] (Phys 1) 0 kInvalidSpillSlot false (Reg 1) false 0 in
  let b_virt := Interval.mk None None [LiveRange.mk 0 2; LiveRange.mk 6 8]
                  [] (Virt 1) 0 kInvalidSpillSlot false (Reg 1) false 0 in
  (Interval.covers b_fixed (Interval.start a) = false
   /\ nextIntersect a b_fixed = Ok 6
   /\ nextIntersect a b_fixed <> Ok kMaxPos)
  /\ (covered (Interval.ranges a) 6 = true
      /\ covered (Interval.ranges b_virt) 6 = true
      /\ nextIntersect a b_virt = Ok kMaxPos).
Proof.
  repeat split; try reflexivity. discriminate.
Qed.

(** C3, as amended. For a non-fixed [current] and an [other] that has
    not expired at [current]'s start: if both are unsplit and [other] is
    not fixed, [nextIntersect] is [kMaxPos] whatever the ranges are;
    otherwise it is the smallest position covered by both, or [kMaxPos]
    if no position is covered by both. *)
Theorem nextIntersect_spec (current other : Interval) :
  Interval.fixed current = false ->
  Interval.ranges current <> [] ->
  Interval.ranges other <> [] ->
  ranges_wf (Interval.ranges current) = true ->
  ranges_wf (Interval.ranges other) = true ->
  Interval.start current < Interval.end_ other ->
  (Interval.parent current = None /\ Interval.parent other = None
   /\ Interval.fixed other = false ->
   nextIntersect current other = Ok kMaxPos)
  /\ (~ (Interval.parent current = None /\ Interval.parent other = None
         /\ Interval.fixed other = false) ->
      first_common (Interval.ranges current) (Interval.ranges other)
                   (nextIntersect current other)).
Proof.
  intros Hfix Hne1 Hne2 Hwf1 Hwf2 Hlive.
  unfold nextIntersect. rewrite Hfix. simpl.
  split.
  - intros (Hp1 & Hp2 & Hf2). rewrite Hp1, Hp2, Hf2. reflexivity.
  - intros Hnot.
    destruct (negb (bool_decide (is_Some (Interval.parent current)))
              && negb (bool_decide (is_Some (Interval.parent other)))
              && negb (Interval.fixed other)) eqn:E.
    { exfalso. apply Hnot.
      apply andb_prop in E as [E E3]. apply andb_prop in E as [E1 E2].
      apply negb_true_iff in E1, E2, E3.
      apply bool_decide_eq_false in E1, E2.
      split; [|split; [|exact E3]].
      - destruct (Interval.parent current); [exfalso; eauto | reflexivity].
      - destruct (Interval.parent other); [exfalso; eauto | reflexivity]. }
    destruct (Interval.end_ current <=? Interval.start other) eqn:E1.
    + apply Z.leb_le in E1. right. split; [reflexivity|].
      intros q Hq1 Hq2.
      pose proof (covered_within _ _ Hne1 Hwf1 Hq1).
      pose proof (covered_within _ _ Hne2 Hwf2 Hq2). lia.
    + destruct (findRange_spec other (Interval.start current) Hwf2)
        as (Hk & Hlow & _ & _).
      set (k := Interval.findRange other (Interval.start current)) in *.
      assert (Hdne : drop k (Interval.ranges other) <> []).
      { intros Hd. apply drop_nil_inv in Hd.
        unfold Interval.end_ in Hlive.
        destruct (last (Interval.ranges other)) as [l|] eqn:Hl;
          [|rewrite last_None in Hl; congruence].
        apply last_lookup_Some in Hl.
        assert (Hlt : (length (Interval.ranges other) - 1 < k)%nat).
        { destruct (Interval.ranges other); [congruence | simpl in *; lia]. }
        specialize (Hlow _ _ Hlt Hl). lia. }
      pose proof (nextIntersect_loop_spec _ Hwf1 Hne1 _
                    (ranges_wf_drop _ k Hwf2) Hdne) as Hspec.
      destruct Hspec as [(p & Hres & H1 & H2 & Hmin) | (Hres & Hnone)].
      * left. exists p. split; [exact Hres|]. split; [exact H1|].
        split; [eapply covered_drop; exact H2|].
        intros q Hq1 Hq2. apply Hmin; [exact Hq1|].
        pose proof (covered_within _ _ Hne1 Hwf1 Hq1).
        eapply covered_drop_above; [exact Hlow | | exact Hq2]. lia.
      * right. split; [exact Hres|].
        intros q Hq1 Hq2. apply (Hnone q Hq1).
        pose proof (covered_within _ _ Hne1 Hwf1 Hq1).
        eapply covered_drop_above; [exact Hlow | | exact Hq2]. lia.
Qed.

Lemma nextIntersect_spec_witness :
  let a := Interval.mk (Some 7%nat) None [LiveRange.mk 4 10]
             [mkUse Gpr 4 InvalidVreg] (Virt 0) 4 kInvalidSpillSlot false
             InvalidReg false 0 in
  let b := Interval.mk None None [LiveRange.mk 0 2; LiveRange.mk 6 8]
             [] (Virt 1) 0 kInvalidSpillSlot false (Reg 1) false 0 in
  first_common (Interval.ranges a) (Interval.ranges b) (nextIntersect a b).
Proof.
  intros a b.
  apply (nextIntersect_spec a b); try reflexivity; try discriminate.
  intros (H & _). discriminate.
Defined.

End NextIntersect.

(** ** Splitting an interval *)

Section Split.

Lemma omap_id_on {A} (f : A -> option A) (l : list A) :
  (forall x, x ∈ l -> f x = Some x) -> omap f l = l.
Proof.
  induction l as [|x l IH]; intros H; [reflexivity|].
  simpl. rewrite (H x) by (left). simpl. f_equal.
  apply IH. intros y Hy. apply H. right. exact Hy.
Qed.

Lemma omap_none_on {A B} (f : A -> option B) (l : list A) :
  (forall x, x ∈ l -> f x = None) -> omap f l = [].
Proof.
  induction l as [|x l IH]; intros H; [reflexivity|].
  simpl. rewrite (H x) by (left). simpl.
  apply IH. intros y Hy. apply H. right. exact Hy.
Qed.

Lemma elem_of_take_lookup {A} (l : list A) (k : nat) (x : A) :
  x ∈ take k l -> exists j, (j < k)%nat /\ l !! j = Some x.
Proof.
  intros H. apply list_elem_of_lookup in H as [j Hj].
  pose proof (lookup_lt_Some _ _ _ Hj) as Hlt.
  rewrite length_take in Hlt.
  rewrite lookup_take_lt in Hj by lia. exists j. split; [lia | exact Hj].
Qed.

Lemma elem_of_drop_lookup {A} (l : list A) (k : nat) (x : A) :
  x ∈ drop k l -> exists j, (k <= j)%nat /\ l !! j = Some x.
Proof.
  intros H. apply list_elem_of_lookup in H as [j Hj].
  rewrite lookup_drop in Hj. exists (k + j)%nat. split; [lia | exact Hj].
Qed.

(** The index found for [p] inside the interval is a valid one. *)
Lemma findRange_inside (i : Interval) (p : Z) :
  Interval.ranges i <> [] ->
  ranges_wf (Interval.ranges i) = true ->
  p < Interval.end_ i ->
  exists r1, Interval.ranges i !! Interval.findRange i p = Some r1
             /\ p < LiveRange.end_ r1.
Proof.
  intros Hne Hwf Hp.
  destruct (findRange_spec i p Hwf) as (Hk & Hlow & Hhigh & Hat).
  destruct (Interval.ranges i !! Interval.findRange i p) as [r1|] eqn:E.
  - exists r1. split; [reflexivity | apply Hat; reflexivity].
  - exfalso. apply lookup_ge_None in E.
    unfold Interval.end_ in Hp.
    destruct (last (Interval.ranges i)) as [l|] eqn:Hl;
      [|rewrite last_None in Hl; congruence].
    apply last_lookup_Some in Hl.
    pose proof (lookup_lt_Some _ _ _ Hl) as Hlt.
    assert (Hlt' : (length (Interval.ranges i) - 1 <
                    Interval.findRange i p)%nat) by lia.
    specialize (Hlow _ _ Hlt' Hl). lia.
Qed.

Lemma LiveRange_eta (r : LiveRange) :
  LiveRange.mk (LiveRange.start r) (LiveRange.end_ r) = r.
Proof. destruct r; reflexivity. Qed.

(** The ranges computed by [split] are the two portions of the
    original ranges. *)
Lemma split_ranges_spec (rs : list LiveRange) (k : nat) (p : Z)
    (r1 : LiveRange) :
  ranges_wf rs = true ->
  range_search_post rs p k ->
  rs !! k = Some r1 ->
  split_ranges rs k p = Ok (ranges_below p rs, ranges_from p rs).
Proof.
  intros Hwf (Hk & Hlow & Hhigh & Hat) Hr1.
  pose proof (Hat _ Hr1) as Hend.
  unfold split_ranges. rewrite Hr1. simpl.
  assert (Hb1 : ranges_below p (take k rs) = take k rs).
  { apply omap_id_on. intros x Hx.
    apply elem_of_take_lookup in Hx as (j & Hj & Hx).
    pose proof (Hlow _ _ Hj Hx). pose proof (ranges_wf_nonempty _ Hwf _ _ Hx).
    replace (p <=? LiveRange.start x) with false
      by (symmetry; apply Z.leb_gt; lia).
    rewrite Z.min_l by lia. rewrite LiveRange_eta. reflexivity. }
  assert (Hb2 : ranges_below p (drop (S k) rs) = []).
  { apply omap_none_on. intros x Hx.
    apply elem_of_drop_lookup in Hx as (j & Hj & Hx).
    pose proof (Hhigh j x ltac:(lia) Hx).
    replace (p <=? LiveRange.start x) with true
      by (symmetry; apply Z.leb_le; lia). reflexivity. }
  assert (Hf1 : ranges_from p (take k rs) = []).
  { apply omap_none_on. intros x Hx.
    apply elem_of_take_lookup in Hx as (j & Hj & Hx).
    pose proof (Hlow _ _ Hj Hx).
    replace (LiveRange.end_ x <=? p) with true
      by (symmetry; apply Z.leb_le; lia). reflexivity. }
  assert (Hf2 : ranges_from p (drop (S k) rs) = drop (S k) rs).
  { apply omap_id_on. intros x Hx.
    apply elem_of_drop_lookup in Hx as (j & Hj & Hx).
    pose proof (Hhigh j x ltac:(lia) Hx).
    pose proof (ranges_wf_nonempty _ Hwf _ _ Hx).
    replace (LiveRange.end_ x <=? p) with false
      by (symmetry; apply Z.leb_gt; lia).
    rewrite Z.max_l by lia. rewrite LiveRange_eta. reflexivity. }
  assert (Hd : rs = take k rs ++ [r1] ++ drop (S k) rs).
  { symmetry. apply (take_drop_middle rs k r1 Hr1). }
  assert (HB : ranges_below p rs
               = take k rs ++ ranges_below p [r1]).
  { rewrite Hd at 1. unfold ranges_below in *.
    rewrite !omap_app, Hb1, Hb2, app_nil_r. reflexivity. }
  assert (HF : ranges_from p rs
               = ranges_from p [r1] ++ drop (S k) rs).
  { rewrite Hd at 1. unfold ranges_from in *.
    rewrite !omap_app, Hf1, Hf2. reflexivity. }
  rewrite HB, HF. unfold ranges_below, ranges_from. cbn [omap list_omap].
  replace (LiveRange.end_ r1 <=? p) with false
    by (symmetry; apply Z.leb_gt; lia).
  destruct (LiveRange.start r1 <? p) eqn:E.
  - apply Z.ltb_lt in E.
    replace (p <=? LiveRange.start r1) with false
      by (symmetry; apply Z.leb_gt; lia).
    simpl. rewrite Z.min_r by lia. rewrite Z.max_r by lia. reflexivity.
  - apply Z.ltb_ge in E.
    replace (p <=? LiveRange.start r1) with true
      by (symmetry; apply Z.leb_le; lia).
    simpl. rewrite Z.max_l by lia. rewrite LiveRange_eta.
    rewrite app_nil_r.
    rewrite (drop_S rs r1 k Hr1). reflexivity.
Qed.

Lemma advance_spec (f : Z -> bool) (l : list Use) :
  (advance f l <= length l)%nat
  /\ (forall j u, (j < advance f l)%nat -> l !! j = Some u ->
                  f (pos u) = true)
  /\ (forall u, l !! advance f l = Some u -> f (pos u) = false).
Proof.
  induction l as [|x l (IH1 & IH2 & IH3)]; simpl.
  - split; [lia|]. split; [intros j u Hj; lia | intros u H; discriminate].
  - destruct (f (pos x)) eqn:E.
    + split; [lia|]. split.
      * intros j u Hj Hu. destruct j as [|j]; simpl in Hu.
        { inversion Hu; subst. exact E. }
        { apply (IH2 j); [lia | exact Hu]. }
      * intros u Hu. simpl in Hu. apply IH3. exact Hu.
    + split; [lia|]. split.
      * intros j u Hj. lia.
      * intros u Hu. simpl in Hu. inversion Hu; subst. exact E.
Qed.

(** A vector whose first [n] elements satisfy [P] and whose others do
    not is cut by [take]/[drop] exactly as by filtering. *)
Lemma take_drop_filter (P : Use -> bool) (us : list Use) :
  forall n,
    (forall j u, (j < n)%nat -> us !! j = Some u -> P u = true) ->
    (forall j u, (n <= j)%nat -> us !! j = Some u -> P u = false) ->
    take n us = List.filter P us
    /\ drop n us = List.filter (fun u => negb (P u)) us.
Proof.
  induction us as [|x us IH]; intros n H1 H2.
  - rewrite take_nil, drop_nil. split; reflexivity.
  - destruct n as [|n].
    + simpl. rewrite (H2 0%nat x (Nat.le_refl _) eq_refl). simpl.
      destruct (IH 0%nat) as [IHa IHb].
      * intros j u Hj. lia.
      * intros j u Hj Hu. apply (H2 (S j)); [lia | exact Hu].
      * rewrite take_0 in IHa. rewrite drop_0 in IHb.
        split; [exact IHa | f_equal; exact IHb].
    + simpl. rewrite (H1 0%nat x (Nat.lt_0_succ _) eq_refl). simpl.
      destruct (IH n) as [IHa IHb].
      * intros j u Hj Hu. apply (H1 (S j)); [lia | exact Hu].
      * intros j u Hj Hu. apply (H2 (S j)); [lia | exact Hu].
      * split; [f_equal; exact IHa | exact IHb].
Qed.

(** Two different indices holding a use at [p] make at least two uses
    at [p]. *)
Lemma uses_at_two (us : list Use) (p : Z) :
  forall i j u u',
    (i < j)%nat -> us !! i = Some u -> us !! j = Some u' ->
    pos u = p -> pos u' = p -> (2 <= uses_at us p)%nat.
Proof.
  unfold uses_at. induction us as [|x us IH]; intros i j u u' Hij Hi Hj Hu Hu'.
  - destruct i; discriminate.
  - destruct i as [|i]; simpl in Hi.
    + inversion Hi; subst x. destruct j as [|j]; [lia|]. simpl in Hj.
      simpl. replace (pos u =? p) with true by (symmetry; apply Z.eqb_eq; lia).
      simpl. apply le_n_S.
      apply list_elem_of_lookup_2 in Hj. apply list_elem_of_In in Hj.
      assert (Hin : In u' (List.filter (fun u0 => pos u0 =? p) us)).
      { apply filter_In. split; [exact Hj | apply Z.eqb_eq; lia]. }
      destruct (List.filter (fun u0 => pos u0 =? p) us); [contradiction|].
      simpl. lia.
    + destruct j as [|j]; [lia|]. simpl in Hj.
      specialize (IH i j u u' ltac:(lia) Hi Hj Hu Hu').
      simpl. destruct (pos x =? p); simpl; lia.
Qed.

(** The cut of the use vector made by [split]: with [u0] the index
    found for the end [E] of the first part, and the iterator advanced
    while [f] holds, the uses kept are those satisfying [f]. *)
Lemma split_uses_spec (us : list Use) (E S : Z) (keep_uses : bool)
    (u0 : nat) :
  uses_monotonic us = true ->
  use_search_post us E u0 ->
  E <= S ->
  (keep_uses = false -> E = S -> (uses_at us E <= 1)%nat) ->
  let f := if keep_uses then (fun q => q <=? E) else (fun q => q <? S) in
  let u1 := (u0 + advance f (drop u0 us))%nat in
  take u1 us = List.filter (fun u => f (pos u)) us
  /\ drop u1 us = List.filter (fun u => negb (f (pos u))) us.
Proof.
  intros Hs (Hu0 & Hpost) HES Hdup f u1.
  destruct (advance_spec f (drop u0 us)) as (Ha1 & Ha2 & Ha3).
  assert (Hanti : forall q q', q <= q' -> f q = false -> f q' = false).
  { intros q q' Hq. subst f. destruct keep_uses.
    - rewrite !Z.leb_gt. lia.
    - rewrite !Z.ltb_ge. lia. }
  apply (take_drop_filter (fun u => f (pos u))).
  - intros j u Hj Hu.
    destruct (Nat.lt_ge_cases j u0) as [Hlt|Hge].
    + destruct Hpost as [(x & Hx & Hpx) | [Hlo _]].
      * pose proof (uses_monotonic_le us Hs j u0 u x ltac:(lia) Hu Hx) as Hle.
        subst f. destruct keep_uses; [apply Z.leb_le; lia|].
        apply Z.ltb_lt.
        destruct (Z.eq_dec (pos u) E) as [Heq|Hne]; [|lia].
        destruct (Z.eq_dec E S) as [HeqS|HneS]; [|lia].
        pose proof (uses_at_two us E j u0 u x Hlt Hu Hx Heq Hpx).
        specialize (Hdup eq_refl HeqS). lia.
      * specialize (Hlo _ _ Hlt Hu).
        subst f. destruct keep_uses; [apply Z.leb_le | apply Z.ltb_lt]; lia.
    + apply (Ha2 (j - u0)%nat); [subst u1; lia|].
      rewrite lookup_drop. replace (u0 + (j - u0))%nat with j by lia. exact Hu.
  - intros j u Hj Hu.
    destruct (us !! u1) as [x|] eqn:Hx.
    + assert (Hfx : f (pos x) = false).
      { apply Ha3. rewrite lookup_drop. exact Hx. }
      pose proof (uses_monotonic_le us Hs u1 j x u Hj Hx Hu) as Hle.
      eapply Hanti; eassumption.
    + apply lookup_ge_None in Hx. apply lookup_lt_Some in Hu. lia.
Qed.

Lemma last_take_lookup {A} (l : list A) (k : nat) :
  (0 < k <= length l)%nat -> last (take k l) = l !! (k - 1)%nat.
Proof.
  intros Hk. rewrite last_lookup, length_take.
  rewrite Nat.min_l by lia.
  rewrite lookup_take_lt by lia.
  replace (Nat.pred k) with (k - 1)%nat by lia. reflexivity.
Qed.

Lemma last_snoc_Some {A} (l : list A) (x : A) : last (l ++ [x]) = Some x.
Proof. apply last_snoc. Qed.

(** An interval built with a use at the end of a range that is followed
    by a hole, split at that position: the use at 6 is at or after the
    split position and yet it stays with the first part. *)
Lemma split_use_at_hole_counterexample :
  let this := Interval.mk None None [LiveRange.mk 0 6; LiveRange.mk 10 12]
                [mkUse Any 0 InvalidVreg; mkUse Any 6 InvalidVreg;
                 mkUse Any 12 InvalidVreg]
                (Virt 0) 0 kInvalidSpillSlot false InvalidReg false 0 in
  exists h' c,
    split {[0%nat := this]} 0%nat 6 false = Ok (h', c)
    /\ (Interval.uses <$> h' !! c) = Some [mkUse Any 12 InvalidVreg]
    /\ (Interval.uses <$> h' !! 0%nat)
       = Some [mkUse Any 0 InvalidVreg; mkUse Any 6 InvalidVreg].
Proof.
  intros this. eexists _, _. split; [vm_compute; reflexivity|].
  split; vm_compute; reflexivity.
Qed.

(** C2, as amended. For an interval with [start() < pos < end()],
    [split(pos, keep_uses)] makes a new child that holds exactly the
    portion of the ranges at positions [>= pos] (a range straddling
    [pos] is cut into [old_start, pos), kept by the first part, and
    [pos, old_end), given to the child) and the uses whose positions are
    at or after the child's start when [keep_uses] is false, or strictly
    after the first part's resulting end when [keep_uses] is true; the
    first part keeps all the other ranges and uses, and both parts are
    non-empty. When [keep_uses] is false this is stated for intervals
    with at most one use recorded at [pos]. *)
Theorem split_spec (h : Heap) (self : addr) (this ldr : Interval) (p : Z)
    (keep_uses : bool) :
  h !! self = Some this ->
  h !! leader self this = Some ldr ->
  ranges_wf (Interval.ranges this) = true ->
  uses_monotonic (Interval.uses this) = true ->
  Interval.start this < p < Interval.end_ this ->
  (keep_uses = false -> (uses_at (Interval.uses this) p <= 1)%nat) ->
  exists h' c this' child,
    split h self p keep_uses = Ok (h', c)
    /\ h !! c = None
    /\ h' !! self = Some this'
    /\ h' !! c = Some child
    /\ (forall a, a <> self -> a <> c -> h' !! a = h !! a)
    /\ Interval.ranges this' = ranges_below p (Interval.ranges this)
    /\ Interval.ranges child = ranges_from p (Interval.ranges this)
    /\ Interval.ranges this' <> []
    /\ Interval.ranges child <> []
    /\ Interval.end_ this' <= p <= Interval.start child
    /\ Interval.uses child
       = List.filter
           (fun u => if keep_uses then Interval.end_ this' <? pos u
                     else Interval.start child <=? pos u)
           (Interval.uses this)
    /\ Interval.uses this'
       = List.filter
           (fun u => negb (if keep_uses then Interval.end_ this' <? pos u
                           else Interval.start child <=? pos u))
           (Interval.uses this)
    /\ Interval.next this' = Some c
    /\ Interval.next child = Interval.next this
    /\ Interval.parent child = Some (leader self this)
    /\ Interval.parent this' = Interval.parent this.
Proof.
  intros Hself Hldr Hwf Hs Hp Hdup.
  assert (Hne : Interval.ranges this <> []).
  { intros Hnil. unfold Interval.start, Interval.end_ in Hp.
    rewrite Hnil in Hp. simpl in Hp. lia. }
  destruct (findRange_inside this p Hne Hwf ltac:(lia)) as (r1 & Hr1 & Hend).
  pose proof (findRange_spec this p Hwf) as Hpost.
  pose proof (split_ranges_spec _ _ _ _ Hwf Hpost Hr1) as Hsr.
  destruct Hpost as (Hk & Hlow & Hhigh & _).
  set (k := Interval.findRange this p) in *.
  set (rs := Interval.ranges this) in *.
  (* the two range vectors, their ends *)
  assert (Hparts :
    ranges_below p rs <> [] /\ ranges_from p rs <> []
    /\ (exists l, last (ranges_below p rs) = Some l
                  /\ LiveRange.end_ l <= p)
    /\ (exists c, head (ranges_from p rs) = Some c
                  /\ p <= LiveRange.start c)).
  { unfold split_ranges in Hsr. rewrite Hr1 in Hsr. simpl in Hsr.
    destruct (LiveRange.start r1 <? p) eqn:E; inversion Hsr as [[Hb Hf]].
    - split; [intros H; apply app_eq_nil in H as [_ H]; discriminate|].
      split; [discriminate|]. split.
      + eexists. split; [apply last_snoc_Some|]. simpl. lia.
      + eexists. split; [reflexivity|]. simpl. lia.
    - apply Z.ltb_ge in E.
      assert (Hk0 : (0 < k)%nat).
      { destruct k as [|k']; [|lia]. exfalso.
        unfold Interval.start in Hp. fold rs in Hp.
        destruct rs as [|r0 rs']; [congruence|].
        simpl in Hr1. inversion Hr1; subst. lia. }
      pose proof (lookup_lt_Some _ _ _ Hr1) as Hklen.
      destruct (rs !! (k - 1)%nat) as [l|] eqn:Hl;
        [|apply lookup_ge_None in Hl; lia].
      assert (Hlast : last (take k rs) = Some l).
      { rewrite last_take_lookup by lia. exact Hl. }
      assert (Hdrop : drop k rs = r1 :: drop (S k) rs).
      { apply drop_S. exact Hr1. }
      split; [intros H; rewrite H in Hlast; discriminate|].
      split; [rewrite Hdrop; discriminate|]. split.
      + exists l. split; [exact Hlast|].
        apply (Hlow (k - 1)%nat l); [lia | exact Hl].
      + exists r1. rewrite Hdrop. split; [reflexivity | lia]. }
  destruct Hparts as (Hne1 & Hne2 & (l & Hl & Hle) & (c0 & Hc0 & Hge)).
  set (c := fresh (dom h)).
  assert (Hfresh : h !! c = None).
  { apply not_elem_of_dom. apply is_fresh. }
  set (this1 := set_ranges (ranges_below p rs) this).
  set (child1 := set_ranges (ranges_from p rs)
                   (set_next (Interval.next this)
                      (Interval.make_child (leader self this) ldr))).
  assert (HE : Interval.end_ this1 = LiveRange.end_ l).
  { unfold Interval.end_, this1. simpl. rewrite Hl. reflexivity. }
  assert (HS : Interval.start child1 = LiveRange.start c0).
  { unfold Interval.start, child1. simpl.
    destruct (ranges_from p rs); [discriminate|].
    simpl in Hc0. inversion Hc0; subst. reflexivity. }
  pose proof (findUse_spec this1 (Interval.end_ this1) Hs) as Hu0.
  set (u0 := Interval.findUse this1 (Interval.end_ this1)) in *.
  assert (Hd : keep_uses = false ->
               Interval.end_ this1 = Interval.start child1 ->
               (uses_at (Interval.uses this) (Interval.end_ this1) <= 1)%nat).
  { intros Hk' Heq. rewrite HE, HS in Heq.
    assert (HEp : LiveRange.end_ l = p) by lia.
    rewrite HE, HEp. apply Hdup. exact Hk'. }
  destruct (split_uses_spec (Interval.uses this) (Interval.end_ this1)
              (Interval.start child1) keep_uses u0 Hs Hu0
              ltac:(rewrite HE, HS; lia) Hd) as [Htake Hdrop].
  set (f := if keep_uses then (fun q => q <=? Interval.end_ this1)
            else (fun q => q <? Interval.start child1)) in *.
  set (u1 := (u0 + advance f (drop u0 (Interval.uses this)))%nat) in *.
  exists (<[c := set_uses (drop u1 (Interval.uses this)) child1]>
            (<[self := set_uses (take u1 (Interval.uses this))
                         (set_next (Some c) this1)]> h)),
         c,
         (set_uses (take u1 (Interval.uses this)) (set_next (Some c) this1)),
         (set_uses (drop u1 (Interval.uses this)) child1).
  assert (Hcs : c <> self).
  { intros Heq. rewrite Heq in Hfresh. congruence. }
  split.
  { unfold split. rewrite Hself. simpl.
    replace ((Interval.start this <? p) && (p <? Interval.end_ this))
      with true
      by (symmetry; apply andb_true_intro;
          split; [apply Z.ltb_lt | apply Z.ltb_lt]; lia).
    simpl. rewrite Hldr. simpl. fold rs k. rewrite Hsr. simpl.
    reflexivity. }
  split; [exact Hfresh|].
  split; [rewrite lookup_insert_ne by exact Hcs; apply lookup_insert_eq|].
  split; [apply lookup_insert_eq|].
  split.
  { intros a Ha1 Ha2. rewrite !lookup_insert_ne by congruence. reflexivity. }
  split; [reflexivity|]. split; [reflexivity|].
  split; [exact Hne1|]. split; [exact Hne2|].
  split.
  { change (Interval.end_ this1 <= p <= Interval.start child1).
    rewrite HE, HS. lia. }
  split.
  { change (drop u1 (Interval.uses this)
            = List.filter
                (fun u => if keep_uses then Interval.end_ this1 <? pos u
                          else Interval.start child1 <=? pos u)
                (Interval.uses this)).
    rewrite Hdrop. apply filter_ext. intros u. subst f.
    destruct keep_uses.
    - rewrite Z.ltb_antisym. reflexivity.
    - rewrite Z.leb_antisym. reflexivity. }
  split.
  { change (take u1 (Interval.uses this)
            = List.filter
                (fun u => negb (if keep_uses
                                then Interval.end_ this1 <? pos u
                                else Interval.start child1 <=? pos u))
                (Interval.uses this)).
    rewrite Htake. apply filter_ext. intros u. subst f.
    destruct keep_uses.
    - rewrite Z.ltb_antisym, negb_involutive. reflexivity.
    - rewrite Z.leb_antisym, negb_involutive. reflexivity. }
  repeat split; reflexivity.
Qed.

Lemma split_spec_witness :
  let this := Interval.mk None None [LiveRange.mk 0 8; LiveRange.mk 12 16]
                [mkUse Gpr 0 InvalidVreg; mkUse Gpr 4 InvalidVreg;
                 mkUse Gpr 14 InvalidVreg]
                (Virt 0) 0 kInvalidSpillSlot false InvalidReg false 0 in
  exists h' c this' child,
    split {[0%nat := this]} 0%nat 5 false = Ok (h', c)
    /\ h' !! 0%nat = Some this'
    /\ h' !! c = Some child
    /\ Interval.ranges this' = [LiveRange.mk 0 5]
    /\ Interval.ranges child = [LiveRange.mk 5 8; LiveRange.mk 12 16].
Proof.
  intros this.
  destruct (split_spec {[0%nat := this]} 0%nat this this 5 false)
    as (h' & c & this' & child & H1 & _ & H3 & H4 & _ & H6 & H7 & _).
  - reflexivity.
  - reflexivity.
  - reflexivity.
  - reflexivity.
  - vm_compute. split; reflexivity.
  - intros _. vm_compute. lia.
  - exists h', c, this', child.
    split; [exact H1|]. split; [exact H3|]. split; [exact H4|].
    split; [rewrite H6; reflexivity | rewrite H7; reflexivity].
Defined.

End Split.

(** ** Spill stores recorded by the resolution *)

Section ResolveSplits.

Lemma record_at_Ok (plans plans' : gmap Z CopyPlan) (p : Z) (r : PhysReg)
    (a : addr) :
  record_at plans p r a = Ok plans' ->
  plans' = record_store plans (p, r, a).
Proof.
  unfold record_at, record_store. destruct r; [|discriminate].
  intros H. inversion H. reflexivity.
Qed.

Lemma insertSpill_Ok (ctx : VxlsContext) (h : Heap) (r r' : ResolutionPlan)
    (a : addr) (i : Interval) :
  h !! a = Some i ->
  insertSpill ctx h r a = Ok r' ->
  spills r' = record_store (spills r)
                (wrap (Interval.def_pos i + 1), Interval.reg i, a)
  /\ copies r' = copies r
  /\ edge_copies r' = edge_copies r.
Proof.
  intros Hi H. unfold insertSpill in H. rewrite Hi in H. simpl in H.
  apply result_bind_Ok in H as (u & _ & H).
  apply result_bind_Ok in H as (sp' & Hsp & H).
  inversion H; subst r'. simpl.
  apply record_at_Ok in Hsp. subst sp'. repeat split; reflexivity.
Qed.



Lemma plan_at_record_same (plans : gmap Z CopyPlan) (s : Z * PhysReg * addr) :
  plan_at (record_store plans s) s.1.1 s.1.2 = Some s.2.
Proof.
  unfold plan_at, record_store. rewrite lookup_insert_eq. simpl.
  apply lookup_insert_eq.
Qed.

Lemma plan_at_record_other (plans : gmap Z CopyPlan)
    (s : Z * PhysReg * addr) (p : Z) (r : PhysReg) :
  (p, r) <> store_key s ->
  plan_at (record_store plans s) p r = plan_at plans p r.
Proof.
  unfold plan_at, record_store, store_key. intros Hne.
  destruct s as [[p' r'] a]; simpl in *.
  destruct (Z.eq_dec p' p) as [->|Hp].
  - rewrite lookup_insert_eq. simpl.
    rewrite lookup_insert_ne by congruence.
    destruct (plans !! p); simpl; [reflexivity | apply lookup_empty].
  - rewrite lookup_insert_ne by exact Hp. reflexivity.
Qed.










End ResolveSplits.

(** ** Reuse of spill slots *)

Section SlotTable.

Lemma find_slot_Some (ss : list Z) (s : Z) :
  forall k0 k,
    find_slot ss s k0 = Some k ->
    (k0 <= k)%nat
    /\ exists w, ss !! (k - k0)%nat = Some w /\ w <= s.
Proof.
  induction ss as [|w ss IH]; intros k0 k H; simpl in H; [discriminate|].
  destruct (w <=? s) eqn:E.
  - inversion H; subst k. split; [lia|].
    rewrite Nat.sub_diag. exists w. split; [reflexivity | lia].
  - apply IH in H as (Hle & w' & Hw' & Hs). split; [lia|].
    exists w'. split; [|exact Hs].
    replace (k - k0)%nat with (S (k - S k0)) by lia. exact Hw'.
Qed.

Lemma find_wide_slot_Some (ss : list Z) (s : Z) :
  forall n k0 k,
    (length ss <= n)%nat ->
    find_wide_slot ss s k0 = Some k ->
    (k0 <= k)%nat
    /\ Nat.Even (k - k0)
    /\ exists w0 w1, ss !! (k - k0)%nat = Some w0
                     /\ ss !! S (k - k0) = Some w1
                     /\ w0 <= s /\ w1 <= s.
Proof.
  intros n. revert ss. induction n as [|n IH]; intros ss k0 k Hl H.
  - destruct ss; [discriminate | simpl in Hl; lia].
  - destruct ss as [|w0 [|w1 ss]]; [discriminate | discriminate |].
    cbn [find_wide_slot] in H.
    destruct ((w0 <=? s) && (w1 <=? s)) eqn:E.
    + inversion H; subst k. apply andb_prop in E as [E0 E1].
      split; [lia|]. rewrite Nat.sub_diag.
      split; [exists 0%nat; reflexivity|].
      exists w0, w1. repeat split; try reflexivity; lia.
    + apply IH in H as (Hle & Hev & w0' & w1' & H0 & H1 & Hs0 & Hs1);
        [|simpl in Hl; lia].
      split; [lia|].
      replace (k - k0)%nat with (S (S (k - S (S k0)))) by lia.
      split.
      * destruct Hev as [m Hm]. exists (S m). lia.
      * exists w0', w1'. repeat split; assumption.
Qed.

(** A slot found by the scan has a high water mark that the leader's
    start has reached; for a wide interval so has the next slot, and the
    slot is even. *)
Lemma find_free_Some (ss : list Z) (s : Z) (wide : bool) (k : nat) :
  find_free ss s wide = Some k ->
  (wide = true -> Nat.Even k)
  /\ forall j, occupies k wide j -> exists w, ss !! j = Some w /\ w <= s.
Proof.
  unfold find_free. destruct wide; simpl; intros H.
  - apply (find_wide_slot_Some _ _ (length ss)) in H
      as (_ & Hev & w0 & w1 & H0 & H1 & Hs0 & Hs1); [|lia].
    rewrite Nat.sub_0_r in *.
    split; [intros _; exact Hev|].
    intros j [->|[_ ->]]; eauto.
  - apply find_slot_Some in H as (_ & w & Hw & Hs).
    rewrite Nat.sub_0_r in *.
    split; [discriminate|].
    intros j [->|[Hc _]]; [eauto | discriminate].
Qed.

#[local] Instance occupies_dec (k : nat) (wide : bool) (j : nat) :
  Decision (occupies k wide j).
Proof. unfold occupies. apply _. Defined.

Lemma own_slots_occupied (ss : list Z) (k : nat) (wide : bool) (j : nat) :
  (j < length ss)%nat ->
  occupies k wide j -> own_slots ss k wide !! j = Some kMaxPos.
Proof.
  intros Hj Ho. unfold own_slots. destruct wide; simpl.
  - destruct Ho as [->|[_ ->]].
    + rewrite list_lookup_insert_ne by lia.
      apply list_lookup_insert_eq. exact Hj.
    + apply list_lookup_insert_eq. rewrite length_insert. exact Hj.
  - destruct Ho as [->|[Hc _]]; [|discriminate].
    apply list_lookup_insert_eq. exact Hj.
Qed.

Lemma own_slots_other (ss : list Z) (k : nat) (wide : bool) (j : nat) :
  ~ occupies k wide j -> own_slots ss k wide !! j = ss !! j.
Proof.
  intros Ho. unfold own_slots, occupies in *. destruct wide; simpl.
  - rewrite !list_lookup_insert_ne; [reflexivity | |];
      intros Heq; apply Ho; rewrite <- Heq; auto.
  - rewrite list_lookup_insert_ne; [reflexivity|].
    intros Heq; apply Ho; rewrite <- Heq; auto.
Qed.

(** [own_slots] only ever writes [kMaxPos]. *)
Lemma own_slots_lookup (ss : list Z) (k : nat) (wide : bool) (j : nat)
    (w : Z) :
  ss !! j = Some w ->
  own_slots ss k wide !! j = Some kMaxPos
  \/ own_slots ss k wide !! j = Some w.
Proof.
  intros Hj. destruct (decide (occupies k wide j)) as [Ho|Ho].
  - left. apply own_slots_occupied; [|exact Ho].
    eapply lookup_lt_Some. exact Hj.
  - right. rewrite own_slots_other by exact Ho. exact Hj.
Qed.

Lemma release_slot_Ok (ss t : list Z) (k : nat) (e : Z) :
  release_slot ss k e = Ok t ->
  (k < length ss)%nat /\ t = <[k := e]> ss.
Proof.
  unfold release_slot. intros H.
  apply result_bind_Ok in H as (w & Hw & H). apply deref_Ok in Hw.
  apply result_bind_Ok in H as (u & _ & H). inversion H; subst t.
  split; [eapply lookup_lt_Some; exact Hw | reflexivity].
Qed.

Lemma release_slots_Ok (ss t : list Z) (k : nat) (wide : bool) (e : Z) :
  release_slots ss k wide e = Ok t ->
  (forall j, occupies k wide j -> t !! j = Some e)
  /\ (forall j, ~ occupies k wide j -> t !! j = ss !! j).
Proof.
  unfold release_slots. intros H.
  apply result_bind_Ok in H as (ss1 & H1 & H).
  apply release_slot_Ok in H as [Hk ->].
  destruct wide.
  - apply release_slot_Ok in H1 as [Hk1 ->].
    rewrite length_insert in Hk. split.
    + intros j [->|[_ ->]].
      * apply list_lookup_insert_eq. rewrite length_insert. exact Hk.
      * rewrite list_lookup_insert_ne by lia.
        apply list_lookup_insert_eq. exact Hk1.
    + intros j Ho. unfold occupies in Ho.
      rewrite !list_lookup_insert_ne; [reflexivity | |];
        intros Heq; apply Ho; rewrite <- Heq; auto.
  - inversion H1; subst ss1. split.
    + intros j [->|[Hc _]]; [|discriminate].
      apply list_lookup_insert_eq. exact Hk.
    + intros j Ho. unfold occupies in Ho.
      rewrite list_lookup_insert_ne; [reflexivity|].
      intros Heq; apply Ho; rewrite <- Heq; auto.
Qed.

End SlotTable.

Section SlotMechanism.

(** [assignSpill] on a chain that has no slot yet: the slot is the one
    the scan finds, and the table is marked as owned. *)
Lemma assignSpill_fresh (st st' : Vxls) (ivl la : addr) (i ldr : Interval) :
  heap st !! ivl = Some i ->
  Interval.parent i = Some la ->
  heap st !! la = Some ldr ->
  Interval.slot ldr = kInvalidSpillSlot ->
  assignSpill st ivl = Ok st' ->
  exists k,
    find_free (spill_slots st) (Interval.start ldr) (Interval.wide i) = Some k
    /\ spill_slots st' = own_slots (spill_slots st) k (Interval.wide i)
    /\ (Interval.slot <$> heap st' !! la) = Some (Z.of_nat k)
    /\ (Interval.slot <$> heap st' !! ivl) = Some (Z.of_nat k).
Proof.
  intros Hi Hpar Hl Hslot H. unfold assignSpill in H.
  rewrite Hi in H. simpl in H.
  apply result_bind_Ok in H as ([] & _ & H).
  rewrite Hpar in H. simpl in H. rewrite Hl in H. simpl in H.
  rewrite Hslot in H. simpl in H.
  fold (find_free (spill_slots st) (Interval.start ldr) (Interval.wide i)) in H.
  destruct (find_free (spill_slots st) (Interval.start ldr) (Interval.wide i))
    as [k|] eqn:Hf; [|discriminate].
  inversion H; subst st'; clear H.
  exists k. split; [reflexivity|].
  unfold assign_slot, own_slots.
  destruct (negb (Interval.wide i)); simpl.
  - split; [reflexivity|]. split.
    + destruct (decide (ivl = la)) as [->|Hne].
      * rewrite lookup_insert_eq. reflexivity.
      * rewrite lookup_insert_ne by exact Hne.
        rewrite lookup_insert_eq. reflexivity.
    + rewrite lookup_insert_eq. reflexivity.
  - split; [reflexivity|]. split.
    + destruct (decide (ivl = la)) as [->|Hne].
      * rewrite lookup_insert_eq. reflexivity.
      * rewrite lookup_insert_ne by exact Hne.
        rewrite lookup_insert_eq. reflexivity.
    + rewrite lookup_insert_eq. reflexivity.
Qed.

(** [assignSpill] on a chain that has a slot: the table is not
    touched and the interval shares the leader's slot. *)
Lemma assignSpill_shared (st st' : Vxls) (ivl la : addr) (i ldr : Interval) :
  heap st !! ivl = Some i ->
  Interval.parent i = Some la ->
  heap st !! la = Some ldr ->
  Interval.slot ldr <> kInvalidSpillSlot ->
  assignSpill st ivl = Ok st' ->
  spill_slots st' = spill_slots st
  /\ (Interval.slot <$> heap st' !! ivl) = Some (Interval.slot ldr).
Proof.
  intros Hi Hpar Hl Hslot H. unfold assignSpill in H.
  rewrite Hi in H. simpl in H.
  apply result_bind_Ok in H as ([] & _ & H).
  rewrite Hpar in H. simpl in H. rewrite Hl in H. simpl in H.
  apply Z.eqb_neq in Hslot. rewrite Hslot in H. simpl in H.
  inversion H; subst st'. simpl. split; [reflexivity|].
  rewrite lookup_insert_eq. reflexivity.
Qed.

(** [free_spill_slot] writes the end of the expiring interval into the
    slot (both slots for a wide one) of its chain. *)
Lemma free_spill_slot_Ok (st st' : Vxls) (ivl : addr) (i ldr : Interval) :
  heap st !! ivl = Some i ->
  heap st !! leader ivl i = Some ldr ->
  free_spill_slot st ivl = Ok st' ->
  heap st' = heap st
  /\ active st' = active st /\ inactive st' = inactive st
  /\ pending st' = pending st
  /\ Interval.next i = None
  /\ (Interval.slot ldr = kInvalidSpillSlot ->
      spill_slots st' = spill_slots st)
  /\ (Interval.slot ldr <> kInvalidSpillSlot ->
      0 <= Interval.slot ldr
      /\ release_slots (spill_slots st) (Z.to_nat (Interval.slot ldr))
                       (Interval.wide i) (Interval.end_ i)
         = Ok (spill_slots st')).
Proof.
  intros Hi Hl H. unfold free_spill_slot in H.
  rewrite Hi in H. simpl in H.
  apply result_bind_Ok in H as ([] & Ha & H). apply assertx_Ok in Ha.
  rewrite Hl in H. simpl in H.
  assert (Hnext : Interval.next i = None).
  { apply negb_true_iff, bool_decide_eq_false in Ha.
    destruct (Interval.next i); [exfalso; eauto | reflexivity]. }
  destruct (Interval.slot ldr =? kInvalidSpillSlot) eqn:E; simpl in H.
  - inversion H; subst st'. apply Z.eqb_eq in E.
    split; [reflexivity|]. split; [reflexivity|]. split; [reflexivity|].
    split; [reflexivity|]. split; [exact Hnext|].
    split; [reflexivity | intros Hc; congruence].
  - apply Z.eqb_neq in E.
    apply result_bind_Ok in H as (k & Hk & H).
    unfold slot_index in Hk.
    destruct (0 <=? Interval.slot ldr) eqn:E0; [|discriminate].
    inversion Hk; subst k; clear Hk.
    apply result_bind_Ok in H as (ss1 & H1 & H).
    apply result_bind_Ok in H as (ss2 & H2 & H).
    inversion H; subst st'. simpl.
    split; [reflexivity|]. split; [reflexivity|]. split; [reflexivity|].
    split; [reflexivity|]. split; [exact Hnext|].
    split; [intros Hc; congruence|].
    intros _. split; [lia|].
    unfold release_slots. rewrite H1. simpl. exact H2.
Qed.

Lemma swap_remove_subset (w : list addr) (x : addr) :
  x ∈ swap_remove w -> x ∈ w.
Proof.
  unfold swap_remove. destruct (last w) as [y|] eqn:Hl; [|intros H; inversion H].
  intros H. apply elem_of_cons in H as [->|H].
  - apply last_Some_elem_of. exact Hl.
  - apply list_elem_of_In in H. apply list_elem_of_In.
    revert H. clear. induction w as [|a w IH]; simpl; [tauto|].
    destruct w as [|b w]; simpl in *; [tauto|].
    intros [->|H]; [left; reflexivity | right; apply IH; exact H].
Qed.

(** [update_list] touches the state only through [free_spill_slot],
    invoked on intervals of the list that ended at or before [pos] and
    have no next. *)
Lemma update_list_frees (p : Z) (is_active : bool) :
  forall fuel st done window moved st' done' moved',
    update_list fuel p is_active st done window moved
    = Ok (st', done', moved') ->
    exists freed,
      foldM free_spill_slot st freed = Ok st'
      /\ forall x, x ∈ freed ->
           x ∈ window
           /\ exists i, heap st !! x = Some i
                        /\ Interval.end_ i <= p
                        /\ Interval.next i = None.
Proof.
  induction fuel as [|fuel IH];
    intros st done window moved st' done' moved' H.
  - simpl in H. inversion H; subst. exists []. split; [reflexivity|].
    intros x Hx. inversion Hx.
  - simpl in H. destruct window as [|ivl w].
    { inversion H; subst. exists []. split; [reflexivity|].
      intros x Hx. inversion Hx. }
    apply result_bind_Ok in H as (i & Hi & H). apply deref_Ok in Hi.
    destruct (Interval.end_ i <=? p) eqn:E.
    + apply result_bind_Ok in H as (st1 & Hst1 & H).
      apply IH in H as (freed & Hrun & Hfreed).
      destruct (negb (bool_decide (is_Some (Interval.next i)))) eqn:En.
      * assert (Hheap : heap st1 = heap st).
        { unfold free_spill_slot in Hst1. rewrite Hi in Hst1. simpl in Hst1.
          apply result_bind_Ok in Hst1 as ([] & _ & Hst1).
          apply result_bind_Ok in Hst1 as (ldr & _ & Hst1).
          destruct (negb (Interval.slot ldr =? kInvalidSpillSlot)).
          - apply result_bind_Ok in Hst1 as (k & _ & Hst1).
            apply result_bind_Ok in Hst1 as (ss1 & _ & Hst1).
            apply result_bind_Ok in Hst1 as (ss2 & _ & Hst1).
            inversion Hst1; reflexivity.
          - inversion Hst1; reflexivity. }
        exists (ivl :: freed). split.
        { simpl. rewrite Hst1. simpl. exact Hrun. }
        intros x Hx. apply elem_of_cons in Hx as [->|Hx].
        { split; [left|]. exists i. split; [exact Hi|].
          split; [lia|].
          apply negb_true_iff, bool_decide_eq_false in En.
          destruct (Interval.next i); [exfalso; eauto | reflexivity]. }
        destruct (Hfreed x Hx) as (Hin & i' & Hi' & Hrest).
        split; [right; apply swap_remove_subset; exact Hin|].
        exists i'. rewrite <- Hheap. split; [exact Hi' | exact Hrest].
      * inversion Hst1; subst st1.
        exists freed. split; [exact Hrun|].
        intros x Hx. destruct (Hfreed x Hx) as (Hin & Hrest).
        split; [right; apply swap_remove_subset; exact Hin | exact Hrest].
    + destruct (if is_active then negb (Interval.covers i p)
                else Interval.covers i p).
      * apply IH in H as (freed & Hrun & Hfreed).
        exists freed. split; [exact Hrun|].
        intros x Hx. destruct (Hfreed x Hx) as (Hin & Hrest).
        split; [right; apply swap_remove_subset; exact Hin | exact Hrest].
      * apply IH in H as (freed & Hrun & Hfreed).
        exists freed. split; [exact Hrun|].
        intros x Hx. destruct (Hfreed x Hx) as (Hin & Hrest).
        split; [right; exact Hin | exact Hrest].
Qed.

End SlotMechanism.

(** ** Construction of the intervals *)

Section AddRange.

Lemma last_snoc_rev {A} (s : list A) (b : A) : last (rev s ++ [b]) = Some b.
Proof. apply last_snoc. Qed.

Lemma removelast_snoc {A} (l : list A) (b : A) : removelast (l ++ [b]) = l.
Proof. apply removelast_last. Qed.

Lemma pop_enclosed_rev (r : LiveRange) (s : list LiveRange) :
  forall n, (length s <= n)%nat ->
            pop_enclosed n r (rev s) = rev (pop_stack r s).
Proof.
  induction s as [|b s IH]; intros n Hn.
  - destruct n; reflexivity.
  - destruct n as [|n]; [simpl in Hn; lia|].
    cbn [pop_enclosed pop_stack rev].
    rewrite last_snoc_rev.
    destruct (LiveRange.contains_range r b); [|reflexivity].
    rewrite removelast_snoc. apply IH. simpl in Hn. lia.
Qed.

Lemma set_back_rev {A} (s : list A) (b x : A) :
  set_back (rev (b :: s)) x = rev (x :: s).
Proof.
  unfold set_back. cbn [rev].
  destruct (rev s ++ [b]) eqn:E.
  - apply app_eq_nil in E as [_ E]. discriminate.
  - rewrite <- E, removelast_snoc. reflexivity.
Qed.

Lemma last_rev_head {A} (s : list A) : last (rev s) = head s.
Proof.
  destruct s as [|b s]; [reflexivity|]. cbn [rev]. apply last_snoc.
Qed.

Lemma length_pop_stack (r : LiveRange) (s : list LiveRange) :
  (length (pop_stack r s) <= length s)%nat.
Proof.
  induction s as [|b s IH]; simpl; [lia|].
  destruct (LiveRange.contains_range r b); simpl; lia.
Qed.

(** [addRange] is [addRange_stack] on the reversed vector. *)
Lemma addRange_ranges_rev (s : list LiveRange) (r : LiveRange) :
  addRange_ranges (rev s) r = rev (addRange_stack s r).
Proof.
  unfold addRange_ranges, addRange_stack.
  rewrite length_rev, pop_enclosed_rev by lia.
  rewrite last_rev_head.
  destruct (pop_stack r s) as [|first rest] eqn:E; [reflexivity|].
  cbn [head].
  destruct (LiveRange.contains_range first r); [reflexivity|].
  destruct (LiveRange.start first <=? LiveRange.end_ r).
  - apply set_back_rev.
  - reflexivity.
Qed.

Lemma addRange_ranges_stack (v : list LiveRange) (r : LiveRange) :
  rev (addRange_ranges v r) = addRange_stack (rev v) r.
Proof.
  rewrite <- (rev_involutive v) at 1.
  rewrite addRange_ranges_rev. apply rev_involutive.
Qed.

(** All the ranges of an ascending stack start at or after the head. *)
Lemma stack_head_least (b : LiveRange) (s : list LiveRange) :
  ranges_wf (b :: s) = true ->
  forall r, r ∈ s -> LiveRange.start b < LiveRange.start r.
Proof.
  intros Hwf r Hr. apply list_elem_of_lookup in Hr as [j Hj].
  pose proof (ranges_wf_lt _ Hwf 0%nat (S j) b r (Nat.lt_0_succ j)
                eq_refl Hj).
  pose proof (ranges_wf_nonempty _ Hwf 0%nat b eq_refl). lia.
Qed.

Lemma pop_stack_spec (r : LiveRange) (s : list LiveRange) (a : Z) :
  ranges_wf s = true ->
  (forall b, head s = Some b -> a <= LiveRange.start b) ->
  ranges_wf (pop_stack r s) = true
  /\ (forall b, head (pop_stack r s) = Some b ->
                a <= LiveRange.start b
                /\ LiveRange.contains_range r b = false)
  /\ (forall q, within_or_at_end s q = true ->
                within_or_at_end (pop_stack r s) q = true
                \/ LiveRange.start r <= q <= LiveRange.end_ r).
Proof.
  induction s as [|b s IH]; intros Hwf Hhd.
  - simpl. split; [reflexivity|]. split; [discriminate|]. intros q Hq.
    discriminate.
  - cbn [pop_stack].
    destruct (LiveRange.contains_range r b) eqn:E.
    + pose proof (ranges_wf_tail _ _ Hwf) as Hwf'.
      destruct IH as (I1 & I2 & I3); [exact Hwf'| |].
      { intros b' Hb'. destruct s as [|b0 s0]; [discriminate|].
        simpl in Hb'. inversion Hb'; subst b0.
        pose proof (stack_head_least _ _ Hwf b' ltac:(left)).
        specialize (Hhd b eq_refl). lia. }
      split; [exact I1|]. split; [exact I2|].
      intros q Hq. unfold within_or_at_end in Hq. cbn [existsb] in Hq.
      apply orb_prop in Hq as [Hq|Hq].
      * right. unfold LiveRange.contains_range in E.
        apply andb_prop in E as [E1 E2]. apply andb_prop in Hq as [Hq1 Hq2].
        lia.
      * apply I3. exact Hq.
    + split; [exact Hwf|]. split.
      * intros b' Hb'. simpl in Hb'. inversion Hb'; subst b'.
        split; [apply Hhd; reflexivity | exact E].
      * intros q Hq. left. exact Hq.
Qed.

(** What [addRange] does to an ascending stack whose head starts at or
    after the start of the added range [a, b): the result is ascending
    again, its head starts at [a] and reaches [b], and nothing that was
    within a range or at an end of one is lost. *)
Lemma addRange_stack_spec (s : list LiveRange) (a b : Z) :
  ranges_wf s = true ->
  (forall f, head s = Some f -> a <= LiveRange.start f) ->
  a < b ->
  exists X rest,
    addRange_stack s (LiveRange.mk a b) = LiveRange.mk a X :: rest
    /\ b <= X
    /\ ranges_wf (LiveRange.mk a X :: rest) = true
    /\ (forall q, within_or_at_end s q = true ->
                  within_or_at_end (LiveRange.mk a X :: rest) q = true).
Proof.
  intros Hwf Hhd Hab.
  destruct (pop_stack_spec (LiveRange.mk a b) s a Hwf Hhd) as (P1 & P2 & P3).
  unfold addRange_stack.
  destruct (pop_stack (LiveRange.mk a b) s) as [|first rest] eqn:E.
  - exists b, []. split; [reflexivity|]. split; [lia|]. split.
    + simpl. rewrite andb_true_r. apply andb_true_intro.
      split; [apply Z.ltb_lt; lia | reflexivity].
    + intros q Hq. destruct (P3 q Hq) as [Hc|Hc]; [discriminate|].
      simpl in Hc. unfold within_or_at_end. simpl.
      rewrite orb_false_r. apply andb_true_intro.
      split; apply Z.leb_le; lia.
  - destruct (P2 first eq_refl) as [Hfa Hnc].
    pose proof (ranges_wf_cons _ _ P1) as (Hfne & Hrest & Hsep).
    unfold LiveRange.contains_range in Hnc. simpl in Hnc.
    destruct (LiveRange.contains_range first (LiveRange.mk a b)) eqn:Ec.
    + unfold LiveRange.contains_range in Ec. simpl in Ec.
      apply andb_prop in Ec as [Ec1 Ec2].
      assert (Hsa : LiveRange.start first = a) by lia.
      exists (LiveRange.end_ first), rest.
      rewrite <- Hsa, LiveRange_eta.
      split; [reflexivity|]. split; [lia|]. split; [exact P1|].
      intros q Hq. destruct (P3 q Hq) as [Hc|Hc]; [exact Hc|].
      simpl in Hc. unfold within_or_at_end. cbn [existsb].
      apply orb_true_intro. left. apply andb_true_intro.
      split; apply Z.leb_le; lia.
    + unfold LiveRange.contains_range in Ec. simpl in Ec.
      cbn [LiveRange.start LiveRange.end_].
      destruct (LiveRange.start first <=? b) eqn:Em.
      * apply Z.leb_le in Em.
        assert (Hend : b < LiveRange.end_ first).
        { apply andb_false_iff in Hnc.
          destruct Hnc as [Hnc|Hnc]; [apply Z.leb_gt in Hnc; lia|].
          apply Z.leb_gt in Hnc. lia. }
        exists (LiveRange.end_ first), rest.
        split; [reflexivity|]. split; [lia|]. split.
        { cbn [ranges_wf]. cbn [ranges_wf] in P1.
          apply andb_prop in P1 as [P1a P1b].
          apply andb_prop in P1a as [_ P1c].
          apply andb_true_intro. split; [|exact P1b].
          apply andb_true_intro. split; [|exact P1c].
          simpl. apply Z.ltb_lt. lia. }
        intros q Hq. unfold within_or_at_end. cbn [existsb].
        cbn [LiveRange.start LiveRange.end_].
        destruct (P3 q Hq) as [Hc|Hc].
        { unfold within_or_at_end in Hc. cbn [existsb] in Hc.
          apply orb_prop in Hc as [Hc|Hc].
          - apply orb_true_intro. left.
            apply andb_prop in Hc as [Hc1 Hc2].
            apply andb_true_intro. split; apply Z.leb_le; lia.
          - apply orb_true_intro. right. exact Hc. }
        { simpl in Hc. apply orb_true_intro. left.
          apply andb_true_intro. split; apply Z.leb_le; lia. }
      * apply Z.leb_gt in Em.
        exists b, (first :: rest).
        split; [reflexivity|]. split; [lia|]. split.
        { cbn [ranges_wf]. cbn [ranges_wf] in P1. rewrite P1.
          rewrite andb_true_r. simpl. apply andb_true_intro.
          split; apply Z.ltb_lt; lia. }
        intros q Hq. unfold within_or_at_end. cbn [existsb].
        destruct (P3 q Hq) as [Hc|Hc].
        { apply orb_true_intro. right. exact Hc. }
        { simpl in Hc. apply orb_true_intro. left.
          simpl. apply andb_true_intro. split; apply Z.leb_le; lia. }
Qed.

End AddRange.

Section BuildInvariants.

Lemma uses_monotonic_push (x : Use) (l : list Use) :
  uses_monotonic l = true ->
  (forall u, u ∈ l -> pos x <= pos u) ->
  uses_monotonic (x :: l) = true.
Proof.
  intros Hl Hx. destruct l as [|y l]; [reflexivity|].
  cbn [uses_monotonic]. apply andb_true_intro. split; [|exact Hl].
  apply Z.leb_le. apply Hx. left.
Qed.

Lemma elem_of_rev_iff {A} (l : list A) (x : A) : x ∈ rev l <-> x ∈ l.
Proof. rewrite !list_elem_of_In. symmetry. apply in_rev. Qed.

Lemma within_or_at_end_cons (f : LiveRange) (s : list LiveRange) (q : Z) :
  within_or_at_end (f :: s) q
  = ((LiveRange.start f <=? q) && (q <=? LiveRange.end_ f))
    || within_or_at_end s q.
Proof. reflexivity. Qed.

Lemma pre_ok_weaken (lo lo' : Z) (ivl : Interval) :
  lo' <= lo -> pre_ok lo ivl -> pre_ok lo' ivl.
Proof.
  intros Hle (H1 & H2 & H3 & H4). split; [exact H1|]. split.
  - intros f Hf. specialize (H2 f Hf). lia.
  - split; [exact H3|]. intros u Hu. destruct (H4 u Hu). split; [lia|assumption].
Qed.

Lemma building_ok_weaken (lo lo' : Z) (ivl : Interval) :
  lo' <= lo -> building_ok lo ivl -> building_ok lo' ivl.
Proof. intros Hle [H1 H2]. split; [exact H1 | eapply pre_ok_weaken; eauto]. Qed.

Lemma pre_ok_make (lo : Z) (r : Vreg) : pre_ok lo (Interval.make r).
Proof.
  split; [reflexivity|]. split; [discriminate|]. split; [reflexivity|].
  intros u Hu. inversion Hu.
Qed.

Lemma ranges_rev_nonempty {A} (l : list A) : l <> [] <-> rev l <> [].
Proof.
  split; intros H Hn; apply H.
  - apply (f_equal (@rev A)) in Hn. rewrite rev_involutive in Hn. exact Hn.
  - rewrite Hn. reflexivity.
Qed.

(** [addRange] keeps an interval in shape: afterwards its lowest range
    starts at the start of the added range and reaches its end. *)
Lemma addRange_pre_ok (lo a b : Z) (ivl : Interval) :
  pre_ok lo ivl -> a <= lo -> a < b ->
  exists X rest,
    rev (Interval.ranges (addRange ivl (LiveRange.mk a b)))
    = LiveRange.mk a X :: rest
    /\ b <= X
    /\ Interval.uses (addRange ivl (LiveRange.mk a b)) = Interval.uses ivl
    /\ Interval.vreg (addRange ivl (LiveRange.mk a b)) = Interval.vreg ivl
    /\ building_ok a (addRange ivl (LiveRange.mk a b)).
Proof.
  intros (H1 & H2 & H3 & H4) Hlo Hab.
  destruct (addRange_stack_spec (rev (Interval.ranges ivl)) a b H1) as
    (X & rest & Hs & HX & Hwf & Hkeep); [|exact Hab|].
  { intros f Hf. specialize (H2 f Hf). lia. }
  assert (Hrev : rev (Interval.ranges (addRange ivl (LiveRange.mk a b)))
                 = LiveRange.mk a X :: rest).
  { unfold addRange. simpl. rewrite addRange_ranges_stack. exact Hs. }
  exists X, rest. split; [exact Hrev|]. split; [exact HX|].
  split; [reflexivity|]. split; [reflexivity|].
  split.
  - apply ranges_rev_nonempty. rewrite Hrev. discriminate.
  - split; [rewrite Hrev; exact Hwf|]. split.
    + intros f Hf. rewrite Hrev in Hf. inversion Hf; subst f. simpl. lia.
    + split; [exact H3|]. intros u Hu. destruct (H4 u Hu) as [Hu1 Hu2].
      split; [lia|]. rewrite Hrev. apply Hkeep. exact Hu2.
Qed.

(** Moving the start of the lowest range. *)
Lemma set_start_wf (f : LiveRange) (s : list LiveRange) (q : Z) :
  ranges_wf (f :: s) = true ->
  q < LiveRange.end_ f ->
  ranges_wf (LiveRange.mk q (LiveRange.end_ f) :: s) = true.
Proof.
  intros Hwf Hq. cbn [ranges_wf] in *.
  apply andb_prop in Hwf as [Ha Hb]. apply andb_prop in Ha as [_ Hc].
  apply andb_true_intro. split; [|exact Hb].
  apply andb_true_intro. split; [|exact Hc].
  simpl. apply Z.ltb_lt. exact Hq.
Qed.

Lemma set_start_within (f : LiveRange) (s : list LiveRange) (q u : Z) :
  within_or_at_end (f :: s) u = true ->
  q <= u ->
  within_or_at_end (LiveRange.mk q (LiveRange.end_ f) :: s) u = true.
Proof.
  intros H Hq. rewrite within_or_at_end_cons in *.
  apply orb_prop in H as [H|H]; apply orb_true_intro; [left | right; exact H].
  apply andb_prop in H as [H1 H2]. simpl.
  apply andb_true_intro. split; apply Z.leb_le; lia.
Qed.

Lemma rev_set_back (v : list LiveRange) (f x : LiveRange)
    (s : list LiveRange) :
  rev v = f :: s -> rev (set_back v x) = x :: s.
Proof.
  intros H. apply (f_equal (@rev LiveRange)) in H.
  rewrite rev_involutive in H. subst v.
  rewrite set_back_rev. apply rev_involutive.
Qed.

Lemma last_Some_rev {A} (v : list A) (b : A) :
  last v = Some b -> exists s, rev v = b :: s.
Proof.
  intros H. rewrite <- (rev_involutive v), last_rev_head in H.
  destruct (rev v) as [|f s]; [discriminate|].
  simpl in H. inversion H; subst. eauto.
Qed.

(** Recording a use at [q] on an interval whose uses are all at or
    after [q] and whose ranges reach [q]. *)
Lemma push_use_ok (lo q : Z) (ivl : Interval) (x : Use) :
  building_ok lo ivl ->
  lo <= q ->
  pos x = q ->
  (forall u, u ∈ Interval.uses ivl -> q <= pos u) ->
  within_or_at_end (rev (Interval.ranges ivl)) q = true ->
  building_ok lo (set_uses (Interval.uses ivl ++ [x]) ivl).
Proof.
  intros [Hne (H1 & H2 & H3 & H4)] Hlo Hx Hus Hin.
  split; [exact Hne|]. split; [exact H1|]. split; [exact H2|]. split.
  - simpl. rewrite rev_app_distr. simpl.
    apply uses_monotonic_push; [exact H3|].
    intros u Hu. rewrite elem_of_rev_iff in Hu.
    specialize (Hus u Hu). lia.
  - simpl. intros u Hu. apply elem_of_app in Hu as [Hu|Hu].
    + apply H4. exact Hu.
    + apply list_elem_of_singleton in Hu. subst u. rewrite Hx.
      split; [lia | exact Hin].
Qed.

Lemma building_ok_same_vectors (lo : Z) (ivl ivl' : Interval) :
  Interval.ranges ivl' = Interval.ranges ivl ->
  Interval.uses ivl' = Interval.uses ivl ->
  building_ok lo ivl -> building_ok lo ivl'.
Proof.
  unfold building_ok, pre_ok. intros -> ->. tauto.
Qed.

(** The result of [def] on one register. *)
Lemma def_walk_inv (bs q : Z) (st st' : BuildState) (r : Vreg)
    (k : Constraint) (h : Vreg) (w : bool) :
  bs <= q -> 0 <= q -> q + 1 <= kMaxPos ->
  walk_inv bs q true st ->
  def_ q st r k h w = Ok st' ->
  walk_inv bs q true st'.
Proof.
  intros Hbs Hq0 Hqmax Inv H. destruct st as [ivs live].
  destruct Inv as [Hlive Hall]. simpl in Hlive, Hall.
  unfold def_ in H.
  assert (Hwrap : wrap (q + 1) = q + 1).
  { unfold wrap, kMaxPos in *. apply Z.mod_small. lia. }
  (* the interval after the range update, and the live set *)
  assert (Hmid : exists ivl0 live',
             (if bool_decide (r ∈ live) then
                ivl ← deref (ivs !! r);
                b ← deref (last (Interval.ranges ivl));
                Ok (set_ranges
                      (set_back (Interval.ranges ivl)
                                (LiveRange.mk q (LiveRange.end_ b))) ivl,
                    live ∖ {[r]})
              else
                Ok (addRange (default (Interval.make r) (ivs !! r))
                             (LiveRange.mk q (wrap (q + 1))), live))
             = Ok (ivl0, live')
             /\ building_ok q ivl0
             /\ (exists X rest, rev (Interval.ranges ivl0)
                                = LiveRange.mk q X :: rest /\ q < X)
             /\ r ∉ live'
             /\ (forall r', r' <> r -> (r' ∈ live' <-> r' ∈ live))).
  { destruct (bool_decide (r ∈ live)) eqn:El.
    - apply bool_decide_eq_true in El.
      destruct (Hlive r El) as [ivl Hivl]. rewrite Hivl. simpl.
      destruct (Hall r ivl Hivl) as ([Hne (H1 & H2 & H3 & H4)] & Hus & Hhd).
      destruct (last (Interval.ranges ivl)) as [b|] eqn:Hb;
        [|rewrite last_None in Hb; congruence].
      simpl. destruct (last_Some_rev _ _ Hb) as [s Hs].
      specialize (Hhd b ltac:(rewrite Hs; reflexivity)).
      rewrite bool_decide_eq_true_2 in Hhd by exact El.
      destruct Hhd as [Hsb Hend].
      eexists _, _. split; [reflexivity|].
      assert (Hrev : rev (set_back (Interval.ranges ivl)
                            (LiveRange.mk q (LiveRange.end_ b)))
                     = LiveRange.mk q (LiveRange.end_ b) :: s).
      { eapply rev_set_back. exact Hs. }
      split; [|split; [|split]].
      + split.
        * simpl. apply ranges_rev_nonempty. rewrite Hrev. discriminate.
        * split; [simpl; rewrite Hrev; apply set_start_wf;
                  [rewrite <- Hs; exact H1 | exact Hend]|].
          split; [simpl; rewrite Hrev; intros f Hf; inversion Hf; simpl; lia|].
          split; [exact H3|].
          simpl. intros u Hu. specialize (Hus u Hu).
          destruct (H4 u Hu) as [_ Hw]. split; [exact Hus|].
          rewrite Hrev. apply set_start_within; [rewrite <- Hs; exact Hw|].
          exact Hus.
      + simpl. rewrite Hrev. eauto.
      + set_solver.
      + intros r' Hne'. set_solver.
    - apply bool_decide_eq_false in El.
      eexists _, _. split; [reflexivity|].
      assert (Hpre : pre_ok q (default (Interval.make r) (ivs !! r))).
      { destruct (ivs !! r) as [ivl|] eqn:Hivl; simpl; [|apply pre_ok_make].
        destruct (Hall r ivl Hivl) as ([Hne (H1 & H2 & H3 & H4)] & Hus & Hhd).
        split; [exact H1|]. split.
        - intros f Hf. specialize (Hhd f Hf).
          rewrite bool_decide_eq_false_2 in Hhd by exact El. exact Hhd.
        - split; [exact H3|]. intros u Hu. destruct (H4 u Hu).
          split; [apply Hus; exact Hu | assumption]. }
      rewrite Hwrap.
      destruct (addRange_pre_ok q q (q + 1) _ Hpre ltac:(lia) ltac:(lia))
        as (X & rest & Hrev & HX & _ & _ & Hok).
      split; [exact Hok|]. split; [exists X, rest; split; [exact Hrev | lia]|].
      split; [exact El|]. intros r' _. reflexivity. }
  destruct Hmid as (ivl0 & live' & Hmid & Hok0 & (X & rest & Hrev0 & HX)
                    & Hnl & Hlive').
  rewrite Hmid in H. simpl in H. inversion H; subst st'; clear H.
  set (ivl' := if negb (Interval.fixed ivl0)
               then set_def_pos q
                      (set_wide (Interval.wide ivl0 || w)
                         (set_uses (Interval.uses ivl0 ++ [mkUse k q h])
                                   ivl0))
               else ivl0).
  assert (Hok' : building_ok q ivl'
                 /\ rev (Interval.ranges ivl') = LiveRange.mk q X :: rest).
  { subst ivl'. destruct (negb (Interval.fixed ivl0)).
    - split; [|exact Hrev0].
      eapply (building_ok_same_vectors q
                (set_uses (Interval.uses ivl0 ++ [mkUse k q h]) ivl0));
        [reflexivity | reflexivity |].
      apply (push_use_ok q q); [exact Hok0 | lia | reflexivity | |].
      { intros u Hu. destruct Hok0 as [_ (_ & _ & _ & H4)].
        destruct (H4 u Hu). assumption. }
      rewrite Hrev0, within_or_at_end_cons. simpl.
      apply orb_true_intro. left. apply andb_true_intro.
      split; apply Z.leb_le; lia.
    - split; [exact Hok0 | exact Hrev0]. }
  destruct Hok' as [Hok' Hrev'].
  split; simpl.
  - intros r' Hr'. destruct (decide (r' = r)) as [->|Hne]; [contradiction|].
    rewrite lookup_insert_ne by congruence. apply Hlive.
    apply Hlive'; assumption.
  - intros r' ivl'' Hl. destruct (decide (r' = r)) as [->|Hne].
    + rewrite lookup_insert_eq in Hl. inversion Hl; subst ivl''.
      split; [eapply building_ok_weaken; [exact Hbs | exact Hok']|].
      split.
      * intros u Hu. destruct Hok' as [_ (_ & _ & _ & H4)].
        destruct (H4 u Hu). assumption.
      * intros f Hf. rewrite Hrev' in Hf. inversion Hf; subst f.
        rewrite bool_decide_eq_false_2 by exact Hnl. simpl. lia.
    + rewrite lookup_insert_ne in Hl by congruence.
      destruct (Hall r' ivl'' Hl) as (Ha & Hb & Hc).
      split; [exact Ha|]. split; [exact Hb|].
      intros f Hf. specialize (Hc f Hf).
      destruct (bool_decide (r' ∈ live)) eqn:E1.
      * apply bool_decide_eq_true in E1.
        rewrite bool_decide_eq_true_2 by (apply Hlive'; assumption).
        exact Hc.
      * apply bool_decide_eq_false in E1.
        rewrite bool_decide_eq_false_2; [exact Hc|].
        intros Hin. apply E1. apply Hlive'; assumption.
Qed.

(** The result of [use] on one register: [e] is the end of the added
    range, [q] for a use and [q + 1] for a use-across. *)
Lemma use_walk_inv (bs q e : Z) (st : BuildState) (inst : Vinstr)
    (r : Vreg) (k : Constraint) (h : Vreg) :
  bs <= q ->
  (e = q /\ bs < q) \/ e = q + 1 ->
  walk_inv bs q false st ->
  walk_inv bs q false (use_ inst (LiveRange.mk bs q) st r k e h).
Proof.
  intros Hbs He Inv. destruct st as [ivs live].
  destruct Inv as [Hlive Hall]. simpl in Hlive, Hall.
  unfold use_. cbn [LiveRange.start LiveRange.end_].
  assert (Hpre : pre_ok bs (default (Interval.make r) (ivs !! r))
                 /\ forall u, u ∈ Interval.uses
                                   (default (Interval.make r) (ivs !! r)) ->
                              q <= pos u).
  { destruct (ivs !! r) as [ivl|] eqn:Hivl; simpl.
    - destruct (Hall r ivl Hivl) as ([_ Hp] & Hus & _). split; assumption.
    - split; [apply pre_ok_make|]. intros u Hu. inversion Hu. }
  destruct Hpre as [Hpre Hus].
  destruct (addRange_pre_ok bs bs e _ Hpre ltac:(lia) ltac:(lia))
    as (X & rest & Hrev & HX & Huses & _ & Hok).
  set (ivl1 := addRange (default (Interval.make r) (ivs !! r))
                        (LiveRange.mk bs e)) in *.
  set (ivl2 := if negb (Interval.fixed ivl1) then _ else ivl1).
  assert (Hok2 : building_ok bs ivl2
                 /\ rev (Interval.ranges ivl2) = LiveRange.mk bs X :: rest
                 /\ forall u, u ∈ Interval.uses ivl2 -> q <= pos u).
  { subst ivl2. destruct (negb (Interval.fixed ivl1)).
    - split; [|split; [exact Hrev|]].
      + apply (push_use_ok bs q); [exact Hok | lia | reflexivity | |].
        * intros u Hu. apply Hus. rewrite <- Huses. exact Hu.
        * rewrite Hrev, within_or_at_end_cons. simpl.
          apply orb_true_intro. left. apply andb_true_intro.
          split; apply Z.leb_le; lia.
      + simpl. intros u Hu. apply elem_of_app in Hu as [Hu|Hu].
        * apply Hus. rewrite <- Huses. exact Hu.
        * apply list_elem_of_singleton in Hu. subst u. simpl. lia.
    - split; [exact Hok|]. split; [exact Hrev|].
      intros u Hu. apply Hus. rewrite <- Huses. exact Hu. }
  destruct Hok2 as (Hok2 & Hrev2 & Hus2).
  split; simpl.
  - intros r' Hr'. destruct (decide (r' = r)) as [->|Hne].
    + rewrite lookup_insert_eq. eauto.
    + rewrite lookup_insert_ne by congruence. apply Hlive. set_solver.
  - intros r' ivl'' Hl. destruct (decide (r' = r)) as [->|Hne].
    + rewrite lookup_insert_eq in Hl. inversion Hl; subst ivl''.
      split; [exact Hok2|]. split; [exact Hus2|].
      intros f Hf. rewrite Hrev2 in Hf. inversion Hf; subst f.
      rewrite bool_decide_eq_true_2 by set_solver. simpl. lia.
    + rewrite lookup_insert_ne in Hl by congruence.
      destruct (Hall r' ivl'' Hl) as (Ha & Hb & Hc).
      split; [exact Ha|]. split; [exact Hb|].
      intros f Hf. specialize (Hc f Hf).
      destruct (bool_decide (r' ∈ live)) eqn:E1.
      * apply bool_decide_eq_true in E1.
        rewrite bool_decide_eq_true_2 by set_solver. exact Hc.
      * apply bool_decide_eq_false in E1.
        rewrite bool_decide_eq_false_2 by set_solver. exact Hc.
Qed.

Lemma walk_inv_relax (bs q : Z) (st : BuildState) :
  walk_inv bs q true st -> walk_inv bs q false st.
Proof.
  intros [H1 H2]. split; [exact H1|].
  intros r ivl Hl. destruct (H2 r ivl Hl) as (Ha & Hb & Hc).
  split; [exact Ha|]. split; [exact Hb|].
  intros f Hf. specialize (Hc f Hf).
  destruct (bool_decide (r ∈ st.2)); [|exact Hc].
  destruct Hc. split; [assumption | lia].
Qed.

Lemma walk_inv_next (bs p q : Z) (st : BuildState) :
  q < p -> walk_inv bs p false st -> walk_inv bs q true st.
Proof.
  intros Hq [H1 H2]. split; [exact H1|].
  intros r ivl Hl. destruct (H2 r ivl Hl) as (Ha & Hb & Hc).
  split; [exact Ha|]. split.
  - intros u Hu. specialize (Hb u Hu). lia.
  - intros f Hf. specialize (Hc f Hf).
    destruct (bool_decide (r ∈ st.2)).
    + destruct Hc. split; [assumption | lia].
    + lia.
Qed.

Lemma visit_defs_walk_inv (sf0 : Vreg) (inst : Vinstr) (bs q : Z)
    (st st' : BuildState) :
  bs <= q -> 0 <= q -> q + 1 <= kMaxPos ->
  walk_inv bs q true st ->
  visit_defs sf0 inst q st = Ok st' ->
  walk_inv bs q true st'.
Proof.
  intros Hbs Hq0 Hqmax Inv H. unfold visit_defs in H.
  apply result_bind_Ok in H as (st1 & H1 & H2).
  assert (Inv1 : walk_inv bs q true st1).
  { clear H2. revert st Inv H1.
    induction (Vinstr.operands inst) as [|o ops IH]; intros st Inv H1.
    - simpl in H1. inversion H1; subst. exact Inv.
    - simpl in H1. apply result_bind_Ok in H1 as (st0 & H0 & H1).
      apply (IH st0); [|exact H1].
      destruct o; try (inversion H0; subst; exact Inv).
      eapply def_walk_inv; eauto. }
  clear H1. revert st1 Inv1 H2.
  induction (Vinstr.implicit_defs inst) as [|r rs IH]; intros st1 Inv1 H2.
  - simpl in H2. inversion H2; subst. exact Inv1.
  - simpl in H2. apply result_bind_Ok in H2 as (st0 & H0 & H2).
    apply (IH st0); [|exact H2].
    eapply def_walk_inv; eauto.
Qed.

Lemma foldl_inv {A B : Type} (P : A -> Prop) (f : A -> B -> A)
    (l : list B) (a : A) :
  (forall a x, x ∈ l -> P a -> P (f a x)) -> P a -> P (foldl f a l).
Proof.
  revert a. induction l as [|x l IH]; intros a Hf Ha; [exact Ha|].
  cbn [foldl]. apply IH.
  - intros a' y Hy. apply Hf. apply list_elem_of_further. exact Hy.
  - apply Hf; [apply list_elem_of_here | exact Ha].
Qed.

Lemma no_use_operands (inst : Vinstr) :
  no_use inst = true ->
  forallb (fun o => match o with
                    | Vinstr.OUse _ _ _ => false
                    | _ => true
                    end) (Vinstr.operands inst) = true
  /\ Vinstr.implicit_uses inst = [].
Proof.
  unfold no_use. intros H. apply andb_prop in H as [H1 H2].
  split; [exact H1|]. apply bool_decide_eq_true in H2. exact H2.
Qed.

Lemma visit_uses_walk_inv (sf0 : Vreg) (inst : Vinstr) (bs q : Z)
    (st : BuildState) :
  bs <= q -> q + 1 <= kMaxPos -> 0 <= q ->
  bs < q \/ no_use inst = true ->
  walk_inv bs q false st ->
  walk_inv bs q false (visit_uses sf0 inst (LiveRange.mk bs q) st).
Proof.
  intros Hbs Hqmax Hq0 Hfront Inv. unfold visit_uses.
  cbn [LiveRange.end_].
  assert (Hwrap : wrap (q + 1) = q + 1).
  { unfold wrap, kMaxPos in *. apply Z.mod_small. lia. }
  rewrite Hwrap.
  assert (Hops : bs < q
                 \/ forallb (fun o => match o with
                                      | Vinstr.OUse _ _ _ => false
                                      | _ => true
                                      end) (Vinstr.operands inst) = true).
  { destruct Hfront as [H|H]; [left; exact H|].
    right. apply no_use_operands in H as [H _]. exact H. }
  assert (Himp : bs < q \/ Vinstr.implicit_uses inst = []).
  { destruct Hfront as [H|H]; [left; exact H|].
    right. apply no_use_operands in H as [_ H]. exact H. }
  clear Hfront.
  apply (foldl_inv (fun st => walk_inv bs q false st)).
  { intros st0 r _ Inv0.
    apply use_walk_inv; [exact Hbs | right; reflexivity | exact Inv0]. }
  apply (foldl_inv (fun st => walk_inv bs q false st)).
  { intros st0 r Hin Inv0.
    destruct Himp as [Hlt|Hnil]; [|rewrite Hnil in Hin; inversion Hin].
    apply use_walk_inv; [exact Hbs | left; split; [reflexivity | exact Hlt]
                         | exact Inv0]. }
  revert st Inv.
  induction (Vinstr.operands inst) as [|o ops IH]; intros st Inv;
    [exact Inv|].
  cbn [foldl]. apply IH.
  - destruct Hops as [H|H]; [left; exact H|].
    right. simpl in H. apply andb_prop in H as [_ H]. exact H.
  - destruct o as [r k h w | r k h | r k].
    + exact Inv.
    + apply use_walk_inv; [exact Hbs | | exact Inv].
      left. split; [reflexivity|].
      destruct Hops as [H|H]; [exact H|]. simpl in H. discriminate.
    + apply use_walk_inv; [exact Hbs | right; reflexivity | exact Inv].
Qed.

(** One instruction of the bottom-up walk. *)
Lemma build_inst_walk_inv (sf0 : Vreg) (bs be p0 : Z) (st : BuildState)
    (inst : Vinstr) (acc' : BuildState * Z) :
  0 <= bs -> bs <= p0 - 2 -> p0 <= kMaxPos ->
  bs < p0 - 2 \/ no_use inst = true ->
  walk_inv bs p0 false st ->
  build_inst sf0 (LiveRange.mk bs be) (st, p0) inst = Ok acc' ->
  acc'.2 = p0 - 2 /\ walk_inv bs (p0 - 2) false acc'.1.
Proof.
  intros Hbs0 Hbs Hmax Hfront Inv H. unfold build_inst in H.
  assert (Hwrap : wrap (p0 - 2) = p0 - 2).
  { unfold wrap, kMaxPos in *. apply Z.mod_small. lia. }
  rewrite Hwrap in H. cbn [LiveRange.start] in H.
  apply result_bind_Ok in H as (st1 & H1 & H2).
  inversion H2; subst acc'. clear H2. split; [reflexivity|].
  cbn [fst]. apply visit_uses_walk_inv; [lia | lia | lia | exact Hfront |].
  apply walk_inv_relax.
  apply (visit_defs_walk_inv sf0 inst bs (p0 - 2) st st1);
    [lia | lia | lia | | exact H1].
  apply (walk_inv_next bs p0); [lia | exact Inv].
Qed.

(** The instructions of a block, last to first: [l] is what is left of
    the reversed code, its last element the first instruction of the
    block. *)
Lemma build_code_walk_inv (sf0 : Vreg) (bs be : Z) (l : list Vinstr) :
  forall (st : BuildState) (p0 : Z) (acc' : BuildState * Z),
    0 <= bs -> p0 = bs + 2 * Z.of_nat (length l) -> p0 <= kMaxPos ->
    (forall inst, last l = Some inst -> no_use inst = true) ->
    walk_inv bs p0 false st ->
    foldM (build_inst sf0 (LiveRange.mk bs be)) (st, p0) l = Ok acc' ->
    walk_inv bs bs false acc'.1.
Proof.
  induction l as [|inst l IH]; intros st p0 acc' Hbs0 Hp Hmax Hfront Inv H.
  - simpl in H. inversion H; subst acc'. simpl in Hp.
    replace bs with p0 at 2 by lia. exact Inv.
  - cbn [foldM] in H. apply result_bind_Ok in H as ([st1 p1] & H1 & H2).
    cbn [length] in Hp.
    apply (build_inst_walk_inv sf0 bs be p0 st inst (st1, p1)) in H1;
      [| lia | lia | lia | | exact Inv].
    + cbn [fst snd] in H1. destruct H1 as [Hp1 Inv1]. subst p1.
      apply (IH st1 (p0 - 2) acc'); [lia | lia | lia | | exact Inv1 | exact H2].
      intros i Hi. apply Hfront. destruct l; [discriminate|]. exact Hi.
    + destruct l as [|i l'].
      * right. apply Hfront. reflexivity.
      * left. cbn [length] in Hp. lia.
Qed.

(** The ranges added for the registers live out of a block. *)
Lemma live_ranges_lookup (ivs : Intervals) (live : LiveSet)
    (br : LiveRange) (r : Vreg) :
  set_fold (fun r (m : Intervals) =>
              <[r := addRange (default (Interval.make r) (m !! r)) br]> m)
           ivs live !! r
  = if bool_decide (r ∈ live)
    then Some (addRange (default (Interval.make r) (ivs !! r)) br)
    else ivs !! r.
Proof.
  pose (P := fun (m : Intervals) (X : LiveSet) =>
               forall r : Vreg,
                 m !! r
                 = if bool_decide (r ∈ X)
                   then Some (addRange
                                (default (Interval.make r) (ivs !! r)) br)
                   else ivs !! r).
  assert (H : P (set_fold
                   (fun r (m : Intervals) =>
                      <[r := addRange (default (Interval.make r) (m !! r))
                                      br]> m) ivs live) live);
    [|exact (H r)].
  apply (set_fold_ind_L P); unfold P; clear r.
  - intros r. rewrite bool_decide_eq_false_2; [reflexivity | set_solver].
  - intros x X m Hx IH r. destruct (decide (x = r)) as [->|Hne].
    + rewrite lookup_insert_eq.
      rewrite bool_decide_eq_true_2 by set_solver.
      rewrite (IH r). rewrite bool_decide_eq_false_2 by exact Hx.
      reflexivity.
    + rewrite lookup_insert_ne by exact Hne. rewrite (IH r).
      destruct (bool_decide (r ∈ X)) eqn:E.
      * apply bool_decide_eq_true in E.
        rewrite bool_decide_eq_true_2 by set_solver. reflexivity.
      * apply bool_decide_eq_false in E.
        rewrite bool_decide_eq_false_2 by set_solver. reflexivity.
Qed.

(** At the bottom of a block the intervals built from the later blocks
    satisfy the invariant of the walk. *)
Lemma block_start_walk_inv (bs be lo : Z) (ivs : Intervals)
    (live : LiveSet) :
  bs < be -> be <= lo -> all_ok lo ivs ->
  walk_inv bs be false
    (set_fold (fun r (m : Intervals) =>
                 <[r := addRange (default (Interval.make r) (m !! r))
                                 (LiveRange.mk bs be)]> m) ivs live,
     live).
Proof.
  intros Hlt Hle Hall. split; cbn [fst snd].
  - intros r Hr. rewrite live_ranges_lookup.
    rewrite bool_decide_eq_true_2 by exact Hr. eauto.
  - intros r ivl Hl. rewrite live_ranges_lookup in Hl.
    destruct (bool_decide (r ∈ live)) eqn:E.
    + inversion Hl; subst ivl. clear Hl.
      assert (Hpre : pre_ok lo (default (Interval.make r) (ivs !! r))).
      { destruct (ivs !! r) as [i0|] eqn:E0; simpl.
        - apply (Hall r i0 E0).
        - apply pre_ok_make. }
      assert (Huse0 : forall u,
                 u ∈ Interval.uses (default (Interval.make r) (ivs !! r)) ->
                 lo <= pos u).
      { intros u Hu. destruct Hpre as (_ & _ & _ & H4).
        destruct (H4 u Hu). assumption. }
      destruct (addRange_pre_ok lo bs be _ Hpre) as
        (X & rest & Hrev & HX & Huses & _ & Hok); [lia | lia |].
      split; [exact Hok|]. split.
      * intros u Hu. rewrite Huses in Hu. specialize (Huse0 u Hu). lia.
      * intros f Hf. rewrite Hrev in Hf. simpl in Hf.
        inversion Hf; subst f. simpl. split; [reflexivity | lia].
    + pose proof (Hall r ivl Hl) as Hok.
      split; [apply (building_ok_weaken lo bs); [lia | exact Hok]|].
      destruct Hok as [_ (_ & H2 & _ & H4)]. split.
      * intros u Hu. destruct (H4 u Hu). lia.
      * intros f Hf. specialize (H2 f Hf). lia.
Qed.

(** One block: the intervals afterwards start no earlier than the
    block. *)
Lemma build_block_all_ok (sf0 : Vreg) (vunit : Vunit) (ctx : VxlsContext)
    (ivs ivs' : Intervals) (b : Vlabel) (blk : Vblock) (br : LiveRange)
    (lo : Z) :
  unit_blocks vunit !! b = Some blk ->
  block_ranges ctx !! b = Some br ->
  0 <= LiveRange.start br ->
  LiveRange.end_ br
  = LiveRange.start br + 2 * Z.of_nat (length (code blk)) ->
  no_front_use blk = true ->
  LiveRange.end_ br <= lo -> LiveRange.end_ br <= kMaxPos ->
  all_ok lo ivs ->
  build_block sf0 vunit ctx ivs b = Ok ivs' ->
  all_ok (LiveRange.start br) ivs'.
Proof.
  intros Hblk Hbr Hs0 Hend Hfront Hlo Hmax Hall H. unfold build_block in H.
  rewrite Hblk, Hbr in H. cbn [deref] in H.
  apply result_bind_Ok in H as (blk' & Hb' & H).
  inversion Hb'; subst blk'. clear Hb'.
  apply result_bind_Ok in H as (live & _ & H).
  apply result_bind_Ok in H as (br' & Hb' & H).
  inversion Hb'; subst br'. clear Hb'.
  apply result_bind_Ok in H as ([[ivs2 live2] p2] & Hfold & H).
  apply result_bind_Ok in H as (lin & _ & H).
  apply result_bind_Ok in H as (u & _ & H).
  inversion H; subst ivs'. clear H.
  destruct br as [bs be]. cbn [LiveRange.start LiveRange.end_] in *.
  assert (Hne : code blk <> []).
  { unfold no_front_use in Hfront. destruct (code blk); [discriminate|].
    discriminate. }
  assert (Hlen : (0 < length (code blk))%nat).
  { destruct (code blk); [congruence | simpl; lia]. }
  apply (build_code_walk_inv sf0 bs be) in Hfold.
  - destruct Hfold as [_ Hx]. intros r ivl Hl.
    destruct (Hx r ivl Hl) as (Hok & _). exact Hok.
  - exact Hs0.
  - rewrite length_rev. exact Hend.
  - exact Hmax.
  - intros inst Hi. unfold no_front_use in Hfront.
    rewrite last_rev_head in Hi.
    destruct (code blk) as [|i0 c]; [discriminate|].
    simpl in Hi. inversion Hi; subst. exact Hfront.
  - apply (block_start_walk_inv bs be lo); [lia | exact Hlo | exact Hall].
Qed.

Lemma foldM_app {A B} (f : A -> B -> result A) (l1 l2 : list B) (a : A) :
  foldM f a (l1 ++ l2) = (a' ← foldM f a l1; foldM f a' l2).
Proof.
  revert a. induction l1 as [|x l1 IH]; intros a; [reflexivity|].
  simpl. destruct (f a x) as [a'|e]; simpl; [apply IH | reflexivity].
Qed.

Lemma layout_end_le (vunit : Vunit) (ctx : VxlsContext) (bs : list Vlabel) :
  forall cur e, layout_end vunit ctx cur bs = Some e -> cur <= e.
Proof.
  induction bs as [|b bs IH]; intros cur e H.
  - simpl in H. inversion H. lia.
  - cbn [layout_end] in H.
    destruct (unit_blocks vunit !! b) as [blk|]; [|discriminate].
    destruct (block_ranges ctx !! b) as [r|]; [|discriminate].
    cbn in H.
    destruct ((LiveRange.start r =? cur)
              && (LiveRange.end_ r =? cur + 2 * Z.of_nat (length (code blk)))
              && no_front_use blk) eqn:E; [|discriminate].
    apply andb_prop in E as [E _]. apply andb_prop in E as [E1 E2].
    apply Z.eqb_eq in E1, E2. apply IH in H. lia.
Qed.

(** The blocks, last to first. *)
Lemma build_blocks_all_ok (sf0 : Vreg) (vunit : Vunit) (ctx : VxlsContext)
    (bs : list Vlabel) :
  forall (cur e : Z) (ivs ivs' : Intervals),
    layout_end vunit ctx cur bs = Some e ->
    0 <= cur -> e <= kMaxPos ->
    all_ok e ivs ->
    foldM (build_block sf0 vunit ctx) ivs (rev bs) = Ok ivs' ->
    all_ok cur ivs'.
Proof.
  induction bs as [|b bs IH]; intros cur e ivs ivs' Hl Hcur He Hall H.
  - simpl in Hl, H. inversion Hl; subst. inversion H; subst. exact Hall.
  - cbn [layout_end] in Hl.
    destruct (unit_blocks vunit !! b) as [blk|] eqn:Eb; [|discriminate].
    destruct (block_ranges ctx !! b) as [r|] eqn:Er; [|discriminate].
    cbn in Hl.
    destruct ((LiveRange.start r =? cur)
              && (LiveRange.end_ r =? cur + 2 * Z.of_nat (length (code blk)))
              && no_front_use blk) eqn:E; [|discriminate].
    apply andb_prop in E as [E E3]. apply andb_prop in E as [E1 E2].
    apply Z.eqb_eq in E1, E2.
    pose proof (layout_end_le _ _ _ _ _ Hl) as Hle.
    cbn [rev] in H. rewrite foldM_app in H.
    apply result_bind_Ok in H as (mid & Hmid & H).
    cbn [foldM] in H. apply result_bind_Ok in H as (ivs1 & H1 & H2).
    inversion H2; subst ivs1. clear H2.
    assert (Hmid_ok : all_ok (LiveRange.end_ r) mid).
    { apply (IH (LiveRange.end_ r) e ivs mid); [exact Hl | lia | exact He
                                                 | exact Hall | exact Hmid]. }
    rewrite <- E1.
    apply (build_block_all_ok sf0 vunit ctx mid ivs' b blk r
                              (LiveRange.end_ r));
      [exact Eb | exact Er | lia | lia | exact E3 | lia | lia
       | exact Hmid_ok | exact H1].
Qed.

(** Extending the first range of a constant down to position 0. *)
Lemma finish_constant_all_ok (ivs ivs' : Intervals) (c : Vconst * Vreg) :
  all_ok 0 ivs -> finish_constant ivs c = Ok ivs' -> all_ok 0 ivs'.
Proof.
  intros Hall H. unfold finish_constant in H.
  destruct (ivs !! c.2) as [ivl|] eqn:E; [|inversion H; subst; exact Hall].
  apply result_bind_Ok in H as (b & Hb & H). apply deref_Ok in Hb.
  inversion H; subst ivs'. clear H.
  intros r i Hl. destruct (decide (c.2 = r)) as [Heq|Hne].
  - rewrite Heq in Hl. rewrite lookup_insert_eq in Hl.
    inversion Hl; subst i. clear Hl.
    destruct (Hall _ _ E) as [Hne (H1 & H2 & H3 & H4)].
    destruct (last_Some_rev _ _ Hb) as (s & Hrev).
    assert (Hrev' : rev (set_back (Interval.ranges ivl)
                                  (LiveRange.mk 0 (LiveRange.end_ b)))
                    = LiveRange.mk 0 (LiveRange.end_ b) :: s).
    { apply (rev_set_back _ b). exact Hrev. }
    assert (Hb0 : 0 <= LiveRange.start b).
    { apply H2. rewrite Hrev. reflexivity. }
    assert (Hbe : LiveRange.start b < LiveRange.end_ b).
    { rewrite Hrev in H1. cbn [ranges_wf] in H1.
      apply andb_prop in H1 as [H1 _]. apply andb_prop in H1 as [H1 _].
      apply Z.ltb_lt in H1. exact H1. }
    split.
    + simpl. intros Hnil. rewrite Hnil in Hrev'. discriminate.
    + split; [|split; [|split]].
      * simpl. rewrite Hrev'. apply set_start_wf; [|lia].
        rewrite <- Hrev. exact H1.
      * simpl. rewrite Hrev'. intros f Hf. inversion Hf; subst f.
        simpl. lia.
      * simpl. exact H3.
      * simpl. intros u Hu. destruct (H4 u Hu) as [Hu0 Hw].
        split; [exact Hu0|]. rewrite Hrev'.
        apply set_start_within; [|exact Hu0].
        rewrite <- Hrev. exact Hw.
  - rewrite lookup_insert_ne in Hl by exact Hne. apply (Hall r i Hl).
Qed.

Lemma finish_constants_all_ok (cs : list (Vconst * Vreg)) :
  forall ivs ivs' : Intervals,
    all_ok 0 ivs -> foldM finish_constant ivs cs = Ok ivs' -> all_ok 0 ivs'.
Proof.
  induction cs as [|c cs IH]; intros ivs ivs' Hall H.
  - inversion H; subst. exact Hall.
  - cbn [foldM] in H. apply result_bind_Ok in H as (ivs1 & H1 & H2).
    apply (IH ivs1); [|exact H2].
    apply (finish_constant_all_ok ivs ivs1 c Hall H1).
Qed.

(** Putting the vectors in ascending order gives a well-formed
    interval. *)
Lemma unreverse_wf (lo : Z) (ivl : Interval) :
  building_ok lo ivl -> interval_wf (unreverse ivl) = true.
Proof.
  intros [Hne (H1 & _ & H3 & H4)]. unfold interval_wf, unreverse. simpl.
  apply andb_true_intro. split; [apply andb_true_intro; split;
                                 [apply andb_true_intro; split|]|].
  - apply negb_true_iff. apply bool_decide_eq_false.
    intros Hnil. apply Hne. apply (f_equal (@rev LiveRange)) in Hnil.
    rewrite rev_involutive in Hnil. exact Hnil.
  - exact H1.
  - exact H3.
  - apply forallb_forall. intros u Hu. apply in_rev in Hu.
    apply list_elem_of_In in Hu. destruct (H4 u Hu). assumption.
Qed.

(** The intervals of a unit laid out block after block. *)
Lemma buildIntervals_all_ok (sf0 : Vreg) (vunit : Vunit)
    (ctx : VxlsContext) (ivs1 ivs2 : Intervals) :
  layout_ok vunit ctx = true ->
  foldM (build_block sf0 vunit ctx) ∅ (rev (blocks ctx)) = Ok ivs1 ->
  foldM finish_constant ivs1 (constToReg vunit) = Ok ivs2 ->
  forall r i, (unreverse <$> ivs2) !! r = Some i -> interval_wf i = true.
Proof.
  intros Hlay H1 H2 r i Hl. unfold layout_ok in Hlay.
  destruct (layout_end vunit ctx 0 (blocks ctx)) as [e|] eqn:E;
    [|discriminate].
  apply Z.ltb_lt in Hlay.
  assert (Hall1 : all_ok 0 ivs1).
  { apply (build_blocks_all_ok sf0 vunit ctx (blocks ctx) 0 e ∅ ivs1);
      [exact E | lia | lia | | exact H1].
    intros r0 i0 Hl0. rewrite lookup_empty in Hl0. discriminate. }
  pose proof (finish_constants_all_ok _ _ _ Hall1 H2) as Hall2.
  rewrite lookup_fmap in Hl.
  destruct (ivs2 !! r) as [i2|] eqn:E2; [|discriminate].
  simpl in Hl. inversion Hl; subst i.
  apply (unreverse_wf 0). apply (Hall2 r i2 E2).
Qed.

End BuildInvariants.


(** ** The intervals built by [buildIntervals] *)

Section BuildIntervals.

(** C1. On this unit the code does not build a well-formed interval. A
    register is defined in block 0 and used in the middle of each of the
    two successors of block 0: [buildIntervals] gives it the ranges
    [0, 6) and [10, 12) and the uses 0, 6 and 12. The use at 6 ends the
    range [0, 6), which is not the last one, so it lies in no range and
    is not at the end of the last range, against the specification and
    against the comment on [struct Interval]. *)
Theorem buildIntervals_use_at_inner_end :
  let v := Virt 0 in
  let ins := fun ops => Vinstr.mk Vinstr.other ops [] [] [] in
  let b0 := mkBlock [ins [Vinstr.ODef v Any InvalidVreg false]; ins []]
                    [1%nat; 2%nat] in
  let b1 := mkBlock [ins [Vinstr.OUse v Any InvalidVreg]; ins []] [] in
  let b1' := mkBlock [Vinstr.mk Vinstr.nop [] [] [] [];
                      ins [Vinstr.OUse v Any InvalidVreg]; ins []] [] in
  let vunit := mkUnit [b0; b1'; b1'] [] 0%nat in
  let ctx := mkContext (Reg 4) [0; 1; 2]%nat
               [LiveRange.mk 0 4; LiveRange.mk 4 10; LiveRange.mk 10 16]
               [0; 0; 0] [Some ∅; Some {[v]}; Some {[v]}] in
  computePositions (mkUnit [b0; b1; b1] [] 0%nat) (blocks ctx)
  = Ok (vunit, block_ranges ctx)
  /\ exists m i,
       buildIntervals (Phys 99) vunit ctx = Ok m
       /\ m !! v = Some i
       /\ Interval.ranges i = [LiveRange.mk 0 6; LiveRange.mk 10 12]
       /\ pos <$> Interval.uses i = [0; 6; 12]
       /\ within_or_at_final_end (Interval.ranges i) 6 = false
       /\ interval_wf_final i = false.
Proof.
  intros v ins b0 b1 b1' vunit ctx. split; [vm_compute; reflexivity|].
  eexists _, _. split; [vm_compute; reflexivity|].
  split; [vm_compute; reflexivity|].
  repeat split; vm_compute; reflexivity.
Qed.

(** What [buildIntervals] does establish. Every interval it produces has
    at least one range; the ranges are sorted ascending, each one
    non-empty ([start < end]) and starting strictly after the end of the
    previous one; the use positions are monotonically non-decreasing; and
    every use position lies within some range or exactly at the end of
    some range, not necessarily the final one. This is stated for units
    in which the blocks follow each other from position 0, two positions
    per instruction, below [kMaxPos], and the first instruction of a
    block has no use, as an operand or implicit. *)
Theorem buildIntervals_wf (sf0 : Vreg) (vunit : Vunit) (ctx : VxlsContext)
    (m : Intervals) :
  layout_ok vunit ctx = true ->
  buildIntervals sf0 vunit ctx = Ok m ->
  forall r i, m !! r = Some i -> interval_wf i = true.
Proof.
  intros Hlay H. unfold buildIntervals in H.
  apply result_bind_Ok in H as (ivs1 & H1 & H).
  apply result_bind_Ok in H as (ivs2 & H2 & H).
  apply result_bind_Ok in H as (u & _ & H).
  apply result_bind_Ok in H as (u' & _ & H).
  inversion H; subst m. clear H.
  apply (buildIntervals_all_ok sf0 vunit ctx ivs1 ivs2 Hlay H1 H2).
Qed.

Lemma buildIntervals_wf_witness :
  let v := Virt 0 in
  let ins := fun ops => Vinstr.mk Vinstr.other ops [] [] [] in
  let b0 := mkBlock [ins [Vinstr.ODef v Any InvalidVreg false]; ins []]
                    [1%nat; 2%nat] in
  let b1 := mkBlock [Vinstr.mk Vinstr.nop [] [] [] [];
                     ins [Vinstr.OUse v Any InvalidVreg]; ins []] [] in
  let vunit := mkUnit [b0; b1; b1] [] 0%nat in
  let ctx := mkContext (Reg 4) [0; 1; 2]%nat
               [LiveRange.mk 0 4; LiveRange.mk 4 10; LiveRange.mk 10 16]
               [0; 0; 0] [Some ∅; Some {[v]}; Some {[v]}] in
  exists m i,
    buildIntervals (Phys 99) vunit ctx = Ok m
    /\ m !! v = Some i
    /\ interval_wf i = true.
Proof.
  intros v ins b0 b1 vunit ctx.
  assert (Hlay : layout_ok vunit ctx = true) by (vm_compute; reflexivity).
  destruct (buildIntervals (Phys 99) vunit ctx) as [m|f] eqn:Hb;
    [|vm_compute in Hb; discriminate].
  destruct (m !! v) as [i|] eqn:Hi.
  - exists m, i. split; [reflexivity|]. split; [exact Hi|].
    exact (buildIntervals_wf (Phys 99) vunit ctx m Hlay Hb v i Hi).
  - exfalso. vm_compute in Hb. inversion Hb; subst m.
    vm_compute in Hi. discriminate.
Defined.

(** The condition on implicit uses cannot be dropped: an implicit use by
    the first instruction of a block gives the physical register the
    range from the start of the block to the position of the
    instruction, which is empty. *)
Lemma buildIntervals_implicit_use_at_head :
  let vunit :=
    mkUnit [mkBlock [Vinstr.mk Vinstr.other [] [Phys 0] [] [];
                     Vinstr.mk Vinstr.other [] [] [] []] []] [] 0%nat in
  let ctx := mkContext (Reg 4) [0%nat] [LiveRange.mk 0 4] [0]
               [Some {[Phys 0]}] in
  computePositions vunit [0%nat] = Ok (vunit, block_ranges ctx)
  /\ exists m i,
       buildIntervals (Phys 99) vunit ctx = Ok m
       /\ m !! Phys 0 = Some i
       /\ Interval.ranges i = [LiveRange.mk 0 0]
       /\ interval_wf i = false.
Proof.
  intros vunit ctx. split; [vm_compute; reflexivity|].
  eexists _, _. split; [vm_compute; reflexivity|].
  split; [vm_compute; reflexivity|].
  split; vm_compute; reflexivity.
Qed.

End BuildIntervals.

(** ** The queries of an interval *)

Section Queries.

(** [findRange(pos)] on ascending, separated ranges: the index of the
    range that contains [pos] if a range does; otherwise the index of the
    first range that starts after [pos], the number of ranges if there is
    none, which is what the assertion closing the search states. *)
Theorem findRange_index (i : Interval) (p : Z) :
  ranges_wf (Interval.ranges i) = true ->
  (Interval.findRange i p <= length (Interval.ranges i))%nat
  /\ (covered (Interval.ranges i) p = true ->
      exists r, Interval.ranges i !! Interval.findRange i p = Some r
                /\ LiveRange.contains r p = true)
  /\ (covered (Interval.ranges i) p = false ->
      (forall j r, (j < Interval.findRange i p)%nat ->
                   Interval.ranges i !! j = Some r -> LiveRange.end_ r <= p)
      /\ (forall j r, (Interval.findRange i p <= j)%nat ->
                      Interval.ranges i !! j = Some r ->
                      p < LiveRange.start r)).
Proof.
  intros Hwf.
  destruct (findRange_spec i p Hwf) as (Hk & Hlo & Hhi & Hat).
  split; [exact Hk|]. split.
  - intros Hc. apply covered_lookup in Hc as (j & r & Hj & Hr).
    unfold LiveRange.contains in Hr. apply andb_prop in Hr as [Hr1 Hr2].
    apply Z.leb_le in Hr1. apply Z.ltb_lt in Hr2.
    destruct (Nat.lt_trichotomy j (Interval.findRange i p)) as [Hlt|[Heq|Hgt]].
    + specialize (Hlo _ _ Hlt Hj). lia.
    + subst j. exists r. split; [exact Hj|].
      unfold LiveRange.contains. apply andb_true_intro.
      split; [apply Z.leb_le | apply Z.ltb_lt]; lia.
    + specialize (Hhi _ _ Hgt Hj). lia.
  - intros Hc. split; [exact Hlo|].
    intros j r Hj Hr.
    destruct (Nat.eq_dec j (Interval.findRange i p)) as [->|Hne].
    + specialize (Hat _ Hr).
      destruct (Z.lt_ge_cases p (LiveRange.start r)) as [Hlt|Hge];
        [exact Hlt|].
      exfalso.
      assert (Hcov : covered (Interval.ranges i) p = true).
      { apply covered_lookup. exists (Interval.findRange i p), r.
        split; [exact Hr|]. unfold LiveRange.contains.
        apply andb_true_intro.
        split; [apply Z.leb_le | apply Z.ltb_lt]; lia. }
      congruence.
    + apply (Hhi j r); [lia | exact Hr].
Qed.

Lemma findRange_index_witness :
  let i := Interval.mk None None [LiveRange.mk 0 6; LiveRange.mk 10 12]
             [] (Virt 0) 0 kInvalidSpillSlot false InvalidReg false 0 in
  Interval.findRange i 11 = 1%nat /\ Interval.findRange i 7 = 1%nat
  /\ exists r, Interval.ranges i !! Interval.findRange i 11 = Some r
               /\ LiveRange.contains r 11 = true.
Proof.
  intros i. split; [reflexivity|]. split; [reflexivity|].
  apply (findRange_index i 11); reflexivity.
Defined.

(** [covers(pos)] on a non-empty interval with ascending, separated
    ranges holds exactly when one of the ranges contains [pos]. *)
Theorem covers_iff_covered (i : Interval) (p : Z) :
  Interval.ranges i <> [] ->
  ranges_wf (Interval.ranges i) = true ->
  Interval.covers i p = covered (Interval.ranges i) p.
Proof.
  intros Hne Hwf. unfold Interval.covers.
  destruct (covered (Interval.ranges i) p) eqn:Hc.
  - pose proof (covered_within i p Hne Hwf Hc) as Hin.
    replace (p <? Interval.start i) with false
      by (symmetry; apply Z.ltb_ge; lia).
    replace (Interval.end_ i <=? p) with false
      by (symmetry; apply Z.leb_gt; lia).
    cbn [orb].
    destruct (findRange_index i p Hwf) as (_ & Hfound & _).
    destruct (Hfound Hc) as (r & Hr & Hcr). rewrite Hr. exact Hcr.
  - destruct ((p <? Interval.start i) || (Interval.end_ i <=? p));
      [reflexivity|].
    destruct (Interval.ranges i !! Interval.findRange i p) as [r|] eqn:Hr;
      [|reflexivity].
    destruct (LiveRange.contains r p) eqn:Hcr; [|reflexivity].
    assert (covered (Interval.ranges i) p = true); [|congruence].
    apply covered_lookup. eauto.
Qed.

Lemma covers_iff_covered_witness :
  let i := Interval.mk None None [LiveRange.mk 0 6; LiveRange.mk 10 12]
             [] (Virt 0) 0 kInvalidSpillSlot false InvalidReg false 0 in
  Interval.covers i 7 = covered (Interval.ranges i) 7
  /\ Interval.covers i 7 = false.
Proof.
  intros i. split; [|reflexivity].
  apply (covers_iff_covered i 7); [discriminate | reflexivity].
Defined.

(** [findUse(pos)] on uses in non-decreasing order: the index of a use
    at [pos] if there is one; otherwise the index of the first use above
    [pos], the number of uses if there is none. *)
Theorem findUse_index (i : Interval) (p : Z) :
  uses_monotonic (Interval.uses i) = true ->
  (Interval.findUse i p <= length (Interval.uses i))%nat
  /\ ((exists u, u ∈ Interval.uses i /\ pos u = p) ->
      exists u, Interval.uses i !! Interval.findUse i p = Some u
                /\ pos u = p)
  /\ ((forall u, u ∈ Interval.uses i -> pos u <> p) ->
      (forall j u, (j < Interval.findUse i p)%nat ->
                   Interval.uses i !! j = Some u -> pos u < p)
      /\ (forall j u, (Interval.findUse i p <= j)%nat ->
                      Interval.uses i !! j = Some u -> p < pos u)).
Proof.
  intros Hs. destruct (findUse_spec i p Hs) as (Hk & Hpost).
  split; [exact Hk|]. split.
  - intros (u & Hin & Hu).
    destruct Hpost as [Hfound | [Hlo Hhi]]; [exact Hfound|].
    exfalso. apply list_elem_of_lookup in Hin as [j Hj].
    destruct (Nat.lt_ge_cases j (Interval.findUse i p)) as [Hlt|Hge].
    + specialize (Hlo _ _ Hlt Hj). lia.
    + specialize (Hhi _ _ Hge Hj). lia.
  - intros Hnone.
    destruct Hpost as [(u & Hu & Hp) | Hpost]; [|exact Hpost].
    exfalso. apply (Hnone u); [|exact Hp].
    apply list_elem_of_lookup. eauto.
Qed.

Lemma findUse_index_witness :
  let i := Interval.mk None None [LiveRange.mk 0 12]
             [mkUse Any 0 InvalidVreg; mkUse Gpr 6 InvalidVreg;
              mkUse Gpr 12 InvalidVreg]
             (Virt 0) 0 kInvalidSpillSlot false InvalidReg false 0 in
  exists u, Interval.uses i !! Interval.findUse i 6 = Some u /\ pos u = 6.
Proof.
  intros i. apply (findUse_index i 6); [reflexivity|].
  exists (mkUse Gpr 6 InvalidVreg). split; [|reflexivity].
  apply list_elem_of_further, list_elem_of_here.
Defined.

(** [usedAt(pos)] on an interval with uses in non-decreasing order holds
    exactly when [pos] lies between [start()] and [end()], both included,
    and some use is recorded at [pos]. *)
Theorem usedAt_iff (i : Interval) (p : Z) :
  uses_monotonic (Interval.uses i) = true ->
  Interval.usedAt i p = true
  <-> Interval.start i <= p <= Interval.end_ i
      /\ exists u, u ∈ Interval.uses i /\ pos u = p.
Proof.
  intros Hs. destruct (findUse_index i p Hs) as (_ & Hfound & _).
  unfold Interval.usedAt. split.
  - intros H.
    destruct ((p <? Interval.start i) || (Interval.end_ i <? p)) eqn:E;
      [discriminate|].
    apply orb_false_elim in E as [E1 E2].
    apply Z.ltb_ge in E1, E2. split; [lia|].
    destruct (Interval.uses i !! Interval.findUse i p) as [u|] eqn:Hu;
      [|discriminate].
    apply Z.eqb_eq in H. exists u. split; [|lia].
    apply list_elem_of_lookup. eauto.
  - intros (Hin & Hex).
    replace (p <? Interval.start i) with false
      by (symmetry; apply Z.ltb_ge; lia).
    replace (Interval.end_ i <? p) with false
      by (symmetry; apply Z.ltb_ge; lia).
    cbn [orb]. destruct (Hfound Hex) as (u & Hu & Hp).
    rewrite Hu. apply Z.eqb_eq. lia.
Qed.

Lemma usedAt_iff_witness :
  let i := Interval.mk None None [LiveRange.mk 0 12]
             [mkUse Any 0 InvalidVreg; mkUse Gpr 6 InvalidVreg;
              mkUse Gpr 12 InvalidVreg]
             (Virt 0) 0 kInvalidSpillSlot false InvalidReg false 0 in
  Interval.usedAt i 12 = true.
Proof.
  intros i. apply (usedAt_iff i 12); [reflexivity|].
  split; [vm_compute; split; discriminate|].
  exists (mkUse Gpr 12 InvalidVreg). split; [|reflexivity].
  do 2 apply list_elem_of_further. apply list_elem_of_here.
Defined.

(** [firstUseAfter(pos)] is the position of the first use, in vector
    order, that needs a register and lies at or after [pos]; with the
    uses in non-decreasing order it is the lowest such position. It is
    [kMaxPos] exactly when there is no such use or the use is at
    [kMaxPos]. [firstUse()] is the same search from position 0. *)
Theorem firstUseAfter_least (i : Interval) (p : Z) :
  uses_monotonic (Interval.uses i) = true ->
  ((exists u, u ∈ Interval.uses i /\ kind u <> CopySrc /\ p <= pos u) ->
   (exists u, u ∈ Interval.uses i /\ kind u <> CopySrc
              /\ pos u = Interval.firstUseAfter i p)
   /\ p <= Interval.firstUseAfter i p
   /\ forall u, u ∈ Interval.uses i -> kind u <> CopySrc -> p <= pos u ->
                Interval.firstUseAfter i p <= pos u)
  /\ ((forall u, u ∈ Interval.uses i -> kind u <> CopySrc -> pos u < p) ->
      Interval.firstUseAfter i p = kMaxPos)
  /\ ((forall u, u ∈ Interval.uses i -> 0 <= pos u) ->
      Interval.firstUse i = Interval.firstUseAfter i 0).
Proof.
  intros Hs. unfold Interval.firstUseAfter, Interval.firstUse.
  induction (Interval.uses i) as [|u us IH].
  - split; [|split].
    + intros (u & Hu & _). inversion Hu.
    + reflexivity.
    + reflexivity.
  - destruct (uses_monotonic_cons _ _ Hs) as [Hs' Hle].
    destruct (IH Hs') as (IH1 & IH2 & IH3). clear IH.
    cbn [Interval.firstUseAfter_loop Interval.firstUse_loop].
    split; [|split].
    + intros (w & Hw & Hk & Hp).
      destruct (bool_decide (kind u = CopySrc)) eqn:Ek.
      * apply bool_decide_eq_true in Ek.
        apply elem_of_cons in Hw as [->|Hw]; [congruence|].
        destruct IH1 as ((x & Hx & Hxk & Hxp) & Hge & Hmin); [eauto|].
        split; [exists x; split; [apply list_elem_of_further; exact Hx|auto]|].
        split; [exact Hge|].
        intros y Hy Hyk Hyp.
        apply elem_of_cons in Hy as [->|Hy]; [congruence|].
        apply Hmin; assumption.
      * apply bool_decide_eq_false in Ek.
        destruct (p <=? pos u) eqn:Ep.
        -- apply Z.leb_le in Ep.
           split; [exists u; split; [apply list_elem_of_here|auto]|].
           split; [exact Ep|].
           intros y Hy Hyk Hyp.
           apply elem_of_cons in Hy as [->|Hy]; [lia|].
           apply list_elem_of_lookup in Hy as [j Hj].
           apply (Hle j y Hj).
        -- apply Z.leb_gt in Ep.
           apply elem_of_cons in Hw as [->|Hw]; [lia|].
           destruct IH1 as ((x & Hx & Hxk & Hxp) & Hge & Hmin); [eauto|].
           split; [exists x; split; [apply list_elem_of_further; exact Hx|auto]|].
           split; [exact Hge|].
           intros y Hy Hyk Hyp.
           apply elem_of_cons in Hy as [->|Hy]; [lia|].
           apply Hmin; assumption.
    + intros Hnone.
      destruct (bool_decide (kind u = CopySrc)) eqn:Ek.
      * apply IH2. intros y Hy. apply Hnone.
        apply list_elem_of_further. exact Hy.
      * apply bool_decide_eq_false in Ek.
        pose proof (Hnone u (list_elem_of_here _ _) Ek) as Hlt.
        replace (p <=? pos u) with false by (symmetry; apply Z.leb_gt; lia).
        apply IH2. intros y Hy. apply Hnone.
        apply list_elem_of_further. exact Hy.
    + intros Hnn.
      destruct (bool_decide (kind u = CopySrc)).
      * apply IH3. intros y Hy. apply Hnn.
        apply list_elem_of_further. exact Hy.
      * pose proof (Hnn u (list_elem_of_here _ _)) as H0.
        replace (0 <=? pos u) with true by (symmetry; apply Z.leb_le; lia).
        reflexivity.
Qed.

Lemma firstUseAfter_least_witness :
  let i := Interval.mk None None [LiveRange.mk 0 12]
             [mkUse Any 0 InvalidVreg; mkUse CopySrc 4 InvalidVreg;
              mkUse Gpr 6 InvalidVreg; mkUse Gpr 12 InvalidVreg]
             (Virt 0) 0 kInvalidSpillSlot false InvalidReg false 0 in
  Interval.firstUseAfter i 2 = 6 /\ 2 <= Interval.firstUseAfter i 2.
Proof.
  intros i. split; [reflexivity|].
  apply (firstUseAfter_least i 2); [reflexivity|].
  exists (mkUse Gpr 6 InvalidVreg).
  split; [do 2 apply list_elem_of_further; apply list_elem_of_here|].
  split; [discriminate | vm_compute; discriminate].
Defined.

(** Either some use that needs a register is at or below [p], or all of
    them are above. *)
Lemma reg_use_below_dec (us : list Use) (p : Z) :
  (exists u, u ∈ us /\ kind u <> CopySrc /\ pos u <= p)
  \/ (forall u, u ∈ us -> kind u <> CopySrc -> p < pos u).
Proof.
  induction us as [|u us [IH|IH]].
  - right. intros u Hu. inversion Hu.
  - left. destruct IH as (x & Hx & H). exists x.
    split; [apply list_elem_of_further; exact Hx | exact H].
  - destruct (decide (kind u = CopySrc)) as [Hk|Hk].
    + right. intros y Hy Hyk.
      apply elem_of_cons in Hy as [->|Hy]; [congruence | auto].
    + destruct (Z.le_gt_cases (pos u) p) as [Hle|Hgt].
      * left. exists u. split; [apply list_elem_of_here | auto].
      * right. intros y Hy Hyk.
        apply elem_of_cons in Hy as [->|Hy]; [lia | auto].
Qed.

Lemma lastUseBefore_loop_spec (p : Z) (us : list Use) :
  forall prev,
    uses_monotonic us = true ->
    ((forall u, u ∈ us -> kind u <> CopySrc -> p < pos u) ->
     Interval.lastUseBefore_loop us p prev = prev)
    /\ ((exists u, u ∈ us /\ kind u <> CopySrc /\ pos u <= p) ->
        (exists u, u ∈ us /\ kind u <> CopySrc
                   /\ pos u = Interval.lastUseBefore_loop us p prev)
        /\ Interval.lastUseBefore_loop us p prev <= p
        /\ forall u, u ∈ us -> kind u <> CopySrc -> pos u <= p ->
                     pos u <= Interval.lastUseBefore_loop us p prev).
Proof.
  induction us as [|u us IH]; intros prev Hm.
  - split; [reflexivity|]. intros (u & Hu & _). inversion Hu.
  - destruct (uses_monotonic_cons _ _ Hm) as [Hm' Hle].
    cbn [Interval.lastUseBefore_loop].
    assert (Hu' : forall y, y ∈ us -> pos u <= pos y).
    { intros y Hy. apply list_elem_of_lookup in Hy as [j Hj].
      apply (Hle j y Hj). }
    destruct (bool_decide (kind u = CopySrc)) eqn:Ek.
    + apply bool_decide_eq_true in Ek.
      destruct (IH prev Hm') as [IHa IHb]. split.
      * intros Hnone. apply IHa. intros y Hy. apply Hnone.
        apply list_elem_of_further. exact Hy.
      * intros (w & Hw & Hk & Hp).
        apply elem_of_cons in Hw as [->|Hw]; [congruence|].
        destruct IHb as ((x & Hx & Hxk & Hxp) & Hge & Hmax); [eauto|].
        split; [exists x; split; [apply list_elem_of_further; exact Hx|auto]|].
        split; [exact Hge|].
        intros y Hy Hyk Hyp.
        apply elem_of_cons in Hy as [->|Hy]; [congruence|].
        apply Hmax; assumption.
    + apply bool_decide_eq_false in Ek.
      destruct (p <? pos u) eqn:Ep.
      * apply Z.ltb_lt in Ep. split; [reflexivity|].
        intros (w & Hw & Hk & Hp). exfalso.
        apply elem_of_cons in Hw as [->|Hw]; [lia|].
        specialize (Hu' w Hw). lia.
      * apply Z.ltb_ge in Ep.
        destruct (IH (pos u) Hm') as [IHa IHb]. split.
        { intros Hnone.
          pose proof (Hnone u (list_elem_of_here _ _) Ek). lia. }
        intros _.
        destruct (reg_use_below_dec us p) as [Hex|Hnone].
        -- destruct (IHb Hex) as ((x & Hx & Hxk & Hxp) & Hge & Hmax).
           split; [exists x; split; [apply list_elem_of_further; exact Hx|auto]|].
           split; [exact Hge|].
           intros y Hy Hyk Hyp.
           apply elem_of_cons in Hy as [->|Hy]; [|apply Hmax; assumption].
           rewrite <- Hxp. apply Hu'. exact Hx.
        -- rewrite (IHa Hnone).
           split; [exists u; split; [apply list_elem_of_here|auto]|].
           split; [exact Ep|].
           intros y Hy Hyk Hyp.
           apply elem_of_cons in Hy as [->|Hy]; [lia|].
           specialize (Hnone y Hy Hyk). lia.
Qed.

(** [lastUseBefore(pos)], with the uses in non-decreasing order: the
    highest position at or below [pos] of a use that needs a register,
    and 0 when no such use is at or below [pos]. *)
Theorem lastUseBefore_greatest (i : Interval) (p : Z) :
  uses_monotonic (Interval.uses i) = true ->
  ((exists u, u ∈ Interval.uses i /\ kind u <> CopySrc /\ pos u <= p) ->
   (exists u, u ∈ Interval.uses i /\ kind u <> CopySrc
              /\ pos u = Interval.lastUseBefore i p)
   /\ Interval.lastUseBefore i p <= p
   /\ forall u, u ∈ Interval.uses i -> kind u <> CopySrc -> pos u <= p ->
                pos u <= Interval.lastUseBefore i p)
  /\ ((forall u, u ∈ Interval.uses i -> kind u <> CopySrc -> p < pos u) ->
      Interval.lastUseBefore i p = 0).
Proof.
  intros Hs. unfold Interval.lastUseBefore.
  destruct (lastUseBefore_loop_spec p (Interval.uses i) 0 Hs) as [Ha Hb].
  split; [exact Hb | exact Ha].
Qed.

Lemma lastUseBefore_greatest_witness :
  let i := Interval.mk None None [LiveRange.mk 0 12]
             [mkUse Any 0 InvalidVreg; mkUse CopySrc 4 InvalidVreg;
              mkUse Gpr 6 InvalidVreg; mkUse Gpr 12 InvalidVreg]
             (Virt 0) 0 kInvalidSpillSlot false InvalidReg false 0 in
  Interval.lastUseBefore i 5 = 0 /\ Interval.lastUseBefore i 5 <= 5.
Proof.
  intros i. split; [reflexivity|].
  apply (lastUseBefore_greatest i 5); [reflexivity|].
  exists (mkUse Any 0 InvalidVreg).
  split; [apply list_elem_of_here|].
  split; [discriminate | vm_compute; discriminate].
Defined.

End Queries.
(** ** Chains *)

Section Chains.

Lemma is_chain_functional (h : Heap) (l1 : list addr) :
  forall o l2, is_chain h o l1 -> is_chain h o l2 -> l1 = l2.
Proof.
  induction l1 as [|a l1 IH]; intros o l2 H1 H2.
  - simpl in H1. subst o. destruct l2 as [|b l2]; [reflexivity|].
    destruct H2 as [H2 _]. discriminate.
  - destruct H1 as (-> & i & Hi & H1).
    destruct l2 as [|b l2]; [discriminate|].
    destruct H2 as (Hb & i' & Hi' & H2). inversion Hb; subst b.
    rewrite Hi in Hi'. inversion Hi'; subst i'.
    f_equal. apply (IH _ _ H1 H2).
Qed.

Lemma is_chain_suffix (h : Heap) (l1 : list addr) :
  forall o a l2, is_chain h o (l1 ++ a :: l2) ->
                 is_chain h (Some a) (a :: l2).
Proof.
  induction l1 as [|b l1 IH]; intros o a l2 H.
  - simpl in H. destruct H as (_ & H). split; [reflexivity | exact H].
  - simpl in H. destruct H as (_ & i & _ & H). apply (IH _ _ _ H).
Qed.

Lemma is_chain_NoDup (h : Heap) (l : list addr) :
  forall o, is_chain h o l -> NoDup l.
Proof.
  induction l as [|a l IH]; intros o H; [constructor|].
  pose proof H as H0. destruct H as (-> & i & Hi & H).
  constructor; [|apply (IH _ H)].
  intros Hin. apply list_elem_of_split in Hin as (l1 & l2 & Hl).
  assert (Hs : is_chain h (Some a) (a :: l2)).
  { apply (is_chain_suffix h l1 (Interval.next i)). rewrite <- Hl. exact H. }
  pose proof (is_chain_functional _ _ _ _ Hs H0) as Heq.
  inversion Heq as [Hl2]. rewrite Hl in Hl2.
  apply (f_equal length) in Hl2. rewrite length_app in Hl2.
  simpl in Hl2. lia.
Qed.

Lemma is_chain_stored (h : Heap) (l : list addr) :
  forall o a, is_chain h o l -> a ∈ l -> is_Some (h !! a).
Proof.
  induction l as [|b l IH]; intros o a H Ha; [inversion Ha|].
  destruct H as (_ & i & Hi & H).
  apply elem_of_cons in Ha as [->|Ha]; [eauto | apply (IH _ _ H Ha)].
Qed.

(** A chain visits every stored interval at most once. *)
Lemma is_chain_length (h : Heap) (o : option addr) (l : list addr) :
  is_chain h o l -> (length l <= size h)%nat.
Proof.
  intros H. pose proof (is_chain_NoDup _ _ _ H) as Hnd.
  rewrite <- (size_list_to_set (C := gset addr) l Hnd).
  rewrite <- (size_dom h).
  apply subseteq_size. intros a Ha.
  apply elem_of_list_to_set in Ha. apply elem_of_dom.
  apply (is_chain_stored h l o a H Ha).
Qed.

(** The walk of [childAt] over the members of the chain. *)
Lemma childAt_loop_chain (h : Heap) (p : Z) (l : list addr) :
  forall fuel o,
    is_chain h o l -> (length l < fuel)%nat ->
    (exists res, childAt_loop fuel h o p = Ok res)
    /\ (forall c, childAt_loop fuel h o p = Ok (Some c) ->
         c ∈ l /\ exists ci, h !! c = Some ci /\ Interval.usedAt ci p = true)
    /\ (forall k b ib,
          l !! k = Some b -> h !! b = Some ib ->
          Interval.usedAt ib p = true ->
          (forall j a ia, (j < k)%nat -> l !! j = Some a ->
                          h !! a = Some ia -> Interval.start ia <= p) ->
          exists c, childAt_loop fuel h o p = Ok (Some c)).
Proof.
  induction l as [|a l IH]; intros fuel o H Hfuel.
  - simpl in H. subst o. destruct fuel; [simpl in Hfuel; lia|].
    simpl. split; [eauto|]. split; [discriminate|].
    intros k b ib Hk. rewrite lookup_nil in Hk. discriminate.
  - destruct H as (-> & i & Hi & H).
    destruct fuel as [|fuel]; [simpl in Hfuel; lia|].
    cbn [childAt_loop]. rewrite Hi. simpl.
    destruct (IH fuel (Interval.next i) H) as (IHr & IHa & IHb);
      [simpl in Hfuel; lia|].
    split; [|split].
    + destruct (p <? Interval.start i); [eauto|].
      destruct (Interval.usedAt i p); [eauto | exact IHr].
    + intros c Hc.
      destruct (p <? Interval.start i); [discriminate|].
      destruct (Interval.usedAt i p) eqn:Eu.
      * inversion Hc; subst c. split; [apply list_elem_of_here | eauto].
      * destruct (IHa c Hc) as [Hin Hex].
        split; [apply list_elem_of_further; exact Hin | exact Hex].
    + intros k b ib Hk Hb Hu Hbefore.
      destruct k as [|k].
      * simpl in Hk. inversion Hk; subst b.
        rewrite Hi in Hb. inversion Hb; subst ib.
        assert (Hs : Interval.start i <= p).
        { unfold Interval.usedAt in Hu.
          destruct (p <? Interval.start i) eqn:E; [discriminate|].
          apply Z.ltb_ge in E. exact E. }
        replace (p <? Interval.start i) with false
          by (symmetry; apply Z.ltb_ge; lia).
        rewrite Hu. eauto.
      * replace (p <? Interval.start i) with false.
        2:{ symmetry. apply Z.ltb_ge.
            apply (Hbefore 0%nat a i); [lia | reflexivity | exact Hi]. }
        destruct (Interval.usedAt i p) eqn:Eu; [eauto|].
        apply (IHb k b ib Hk Hb Hu).
        intros j c ic Hj Hc Hic.
        apply (Hbefore (S j) c ic); [lia | exact Hc | exact Hic].
Qed.

(** [childAt(pos)] requires a leader: on an interval that has a parent
    the assertion fails. On the chain of a leader it returns; a child it
    returns is a member of the chain with a use at [pos]; and when the
    members are sorted by start, it returns a child whenever some member
    has a use at [pos], so a null result means that none has. *)
Theorem childAt_finds (h : Heap) (root : addr) (ri : Interval)
    (l : list addr) (p : Z) :
  is_chain h (Some root) l ->
  h !! root = Some ri ->
  (is_Some (Interval.parent ri) -> childAt h root p = Fail AssertFailed)
  /\ (Interval.parent ri = None ->
      (exists res, childAt h root p = Ok res)
      /\ (forall c, childAt h root p = Ok (Some c) ->
           c ∈ l /\ exists ci, h !! c = Some ci
                               /\ Interval.usedAt ci p = true)
      /\ (chain_sorted h l ->
          (exists a i, a ∈ l /\ h !! a = Some i
                       /\ Interval.usedAt i p = true) ->
          exists c, childAt h root p = Ok (Some c))).
Proof.
  intros H Hri. unfold childAt. rewrite Hri. simpl. split.
  - intros Hp. rewrite bool_decide_eq_true_2 by exact Hp. reflexivity.
  - intros Hp. rewrite bool_decide_eq_false_2
      by (rewrite Hp; intros [x Hx]; discriminate).
    simpl. pose proof (is_chain_length _ _ _ H) as Hlen.
    destruct (childAt_loop_chain h p l (S (size h)) (Some root) H)
      as (Hr & Ha & Hb); [lia|].
    split; [exact Hr|]. split; [exact Ha|].
    intros Hsorted (b & ib & Hin & Hib & Hu).
    apply list_elem_of_lookup in Hin as [k Hk].
    apply (Hb k b ib Hk Hib Hu).
    intros j a ia Hj Hja Hia.
    pose proof (Hsorted j k a b ia ib Hj Hja Hk Hia Hib) as Hle.
    unfold Interval.usedAt in Hu.
    destruct (p <? Interval.start ib) eqn:E; [discriminate|].
    apply Z.ltb_ge in E. lia.
Qed.

Lemma childAt_finds_witness :
  let root := Interval.mk None (Some 1%nat) [LiveRange.mk 0 4]
                [mkUse Any 0 InvalidVreg] (Virt 0) 0 kInvalidSpillSlot false
                (Reg 0) false 0 in
  let child := Interval.mk (Some 0%nat) None [LiveRange.mk 4 8]
                 [mkUse Any 8 InvalidVreg] (Virt 0) 0 kInvalidSpillSlot false
                 (Reg 1) false 0 in
  let h : Heap := <[1%nat := child]> {[0%nat := root]} in
  childAt h 0%nat 8 = Ok (Some 1%nat)
  /\ childAt h 1%nat 8 = Fail AssertFailed
  /\ exists ci, h !! 1%nat = Some ci /\ Interval.usedAt ci 8 = true.
Proof.
  intros root child h. split; [reflexivity|].
  assert (Hchain : is_chain h (Some 0%nat) [0%nat; 1%nat]).
  { split; [reflexivity|]. exists root. split; [reflexivity|].
    split; [reflexivity|]. exists child. split; reflexivity. }
  assert (Hc1 : is_chain h (Some 1%nat) [1%nat]).
  { split; [reflexivity|]. exists child. split; reflexivity. }
  destruct (childAt_finds h 1%nat child [1%nat] 8 Hc1 eq_refl) as [Hfail _].
  split; [apply Hfail; eexists; reflexivity|].
  destruct (childAt_finds h 0%nat root [0%nat; 1%nat] 8 Hchain eq_refl)
    as [_ Hleader].
  destruct (Hleader eq_refl) as (_ & Hfound & _).
  destruct (Hfound 1%nat eq_refl) as [_ Hex]. exact Hex.
Defined.

End Chains.
(** ** The positions covered after [addRange] *)

Section AddRangeCovers.

Lemma covered_rev (rs : list LiveRange) (q : Z) :
  covered (rev rs) q = covered rs q.
Proof.
  unfold covered. induction rs as [|r rs IH]; [reflexivity|].
  simpl. rewrite existsb_app, IH. simpl. rewrite orb_false_r.
  apply orb_comm.
Qed.

Lemma contains_range_contains (r b : LiveRange) (q : Z) :
  LiveRange.contains_range r b = true ->
  LiveRange.contains b q = true -> LiveRange.contains r q = true.
Proof.
  unfold LiveRange.contains_range, LiveRange.contains. intros H1 H2.
  apply andb_prop in H1 as [H1a H1b]. apply andb_prop in H2 as [H2a H2b].
  apply andb_true_intro. split; [apply Z.leb_le | apply Z.ltb_lt]; lia.
Qed.

Lemma pop_stack_covered (r : LiveRange) (s : list LiveRange) (q : Z) :
  covered (pop_stack r s) q || LiveRange.contains r q
  = covered s q || LiveRange.contains r q.
Proof.
  induction s as [|b s IH]; [reflexivity|].
  cbn [pop_stack].
  destruct (LiveRange.contains_range r b) eqn:E; [|reflexivity].
  rewrite IH, covered_cons.
  destruct (LiveRange.contains b q) eqn:Eb; [|reflexivity].
  rewrite (contains_range_contains r b q E Eb).
  rewrite !orb_true_r. reflexivity.
Qed.

Lemma addRange_stack_covered (s : list LiveRange) (a b : Z) (q : Z) :
  ranges_wf s = true ->
  (forall f, head s = Some f -> a <= LiveRange.start f) ->
  a < b ->
  covered (addRange_stack s (LiveRange.mk a b)) q
  = covered s q || LiveRange.contains (LiveRange.mk a b) q.
Proof.
  intros Hwf Hhd Hab.
  destruct (pop_stack_spec (LiveRange.mk a b) s a Hwf Hhd) as (P1 & P2 & _).
  rewrite <- pop_stack_covered. unfold addRange_stack.
  destruct (pop_stack (LiveRange.mk a b) s) as [|first rest] eqn:E.
  - rewrite covered_cons. simpl. rewrite orb_false_r. reflexivity.
  - destruct (P2 first eq_refl) as [Hfa Hnc].
    pose proof (ranges_wf_cons _ _ P1) as (Hfne & _ & _).
    destruct (LiveRange.contains_range first (LiveRange.mk a b)) eqn:Ec.
    + destruct (LiveRange.contains (LiveRange.mk a b) q) eqn:Eq;
        [|rewrite orb_false_r; reflexivity].
      rewrite orb_true_r. rewrite covered_cons.
      rewrite (contains_range_contains _ _ _ Ec Eq). reflexivity.
    + cbn [LiveRange.start LiveRange.end_].
      unfold LiveRange.contains_range in Ec, Hnc.
      cbn [LiveRange.start LiveRange.end_] in Ec, Hnc.
      destruct (LiveRange.start first <=? b) eqn:Em.
      * apply Z.leb_le in Em.
        assert (Hend : b < LiveRange.end_ first).
        { apply andb_false_iff in Hnc.
          destruct Hnc as [Hnc|Hnc]; [apply Z.leb_gt in Hnc; lia|].
          apply Z.leb_gt in Hnc. lia. }
        rewrite !covered_cons. unfold LiveRange.contains.
        cbn [LiveRange.start LiveRange.end_].
        destruct (covered rest q); [rewrite !orb_true_r; reflexivity|].
        rewrite !orb_false_r.
        destruct (a <=? q) eqn:E1; destruct (q <? LiveRange.end_ first) eqn:E2;
          destruct (LiveRange.start first <=? q) eqn:E3;
          destruct (q <? b) eqn:E4; try reflexivity;
          repeat match goal with
                 | H : (_ <=? _) = true |- _ => apply Z.leb_le in H
                 | H : (_ <=? _) = false |- _ => apply Z.leb_gt in H
                 | H : (_ <? _) = true |- _ => apply Z.ltb_lt in H
                 | H : (_ <? _) = false |- _ => apply Z.ltb_ge in H
                 end; lia.
      * rewrite (covered_cons (LiveRange.mk a b)). apply orb_comm.
Qed.

(** [addRange(ivl, r)] on ranges kept in reverse order, for a non-empty
    [r] that starts at or before the range at the back: the ranges stay
    in reverse order, non-empty and separated; the positions they cover
    are those covered before together with those of [r]; and the range
    at the back now starts where [r] starts. *)
Theorem addRange_covers (ivl : Interval) (r : LiveRange) :
  ranges_wf (rev (Interval.ranges ivl)) = true ->
  (forall f, last (Interval.ranges ivl) = Some f ->
             LiveRange.start r <= LiveRange.start f) ->
  LiveRange.start r < LiveRange.end_ r ->
  ranges_wf (rev (Interval.ranges (addRange ivl r))) = true
  /\ (forall q, covered (Interval.ranges (addRange ivl r)) q
                = covered (Interval.ranges ivl) q || LiveRange.contains r q)
  /\ (exists f, last (Interval.ranges (addRange ivl r)) = Some f
                /\ LiveRange.start f = LiveRange.start r
                /\ LiveRange.end_ r <= LiveRange.end_ f)
  /\ Interval.uses (addRange ivl r) = Interval.uses ivl.
Proof.
  intros Hwf Hhd Hne. destruct r as [a b].
  cbn [LiveRange.start LiveRange.end_] in *.
  assert (Hhd' : forall f, head (rev (Interval.ranges ivl)) = Some f ->
                           a <= LiveRange.start f).
  { intros f Hf. apply Hhd. rewrite <- last_rev_head in Hf.
    rewrite rev_involutive in Hf. exact Hf. }
  destruct (addRange_stack_spec _ a b Hwf Hhd' Hne)
    as (X & rest & Hs & HX & Hwf' & _).
  unfold addRange. cbn [Interval.ranges set_ranges Interval.uses].
  rewrite addRange_ranges_stack. split; [rewrite Hs; exact Hwf'|].
  split; [|split; [|reflexivity]].
  - intros q. rewrite <- covered_rev, addRange_ranges_stack.
    rewrite (addRange_stack_covered _ a b q Hwf Hhd' Hne).
    rewrite covered_rev. reflexivity.
  - exists (LiveRange.mk a X).
    rewrite <- (rev_involutive (addRange_ranges _ _)).
    rewrite last_rev_head, addRange_ranges_stack, Hs.
    split; [reflexivity|]. split; [reflexivity | exact HX].
Qed.

Lemma addRange_covers_witness :
  let ivl := Interval.mk None None [LiveRange.mk 10 12; LiveRange.mk 4 6]
               [] (Virt 0) 0 kInvalidSpillSlot false InvalidReg false 0 in
  Interval.ranges (addRange ivl (LiveRange.mk 0 4))
  = [LiveRange.mk 10 12; LiveRange.mk 0 6]
  /\ ranges_wf (rev (Interval.ranges (addRange ivl (LiveRange.mk 0 4))))
     = true.
Proof.
  intros ivl. split; [reflexivity|].
  apply (addRange_covers ivl (LiveRange.mk 0 4)); [reflexivity | | reflexivity].
  intros f Hf. inversion Hf; subst f. simpl. lia.
Defined.

End AddRangeCovers.
(** ** The block of a position *)

Section BlockFor.

Lemma blockFor_loop_index (ctx : VxlsContext) (p : Z) (b : Vlabel) :
  forall fuel lo hi,
    blockFor_loop fuel ctx p lo hi = Ok b ->
    exists k, blocks ctx !! k = Some b.
Proof.
  induction fuel as [|fuel IH]; intros lo hi H; simpl in H; [discriminate|].
  destruct (lo <? hi)%nat; [|discriminate].
  apply result_bind_Ok in H as (b' & Hb' & H).
  apply result_bind_Ok in H as (r & Hr & H).
  apply deref_Ok in Hb'.
  destruct (p <? LiveRange.start r); [eauto|].
  destruct (LiveRange.end_ r <=? p); [eauto|].
  inversion H; subst b'. eauto.
Qed.

Lemma blockFor_loop_none (ctx : VxlsContext) (p : Z) :
  blocks_sorted ctx ->
  (forall k b r, blocks ctx !! k = Some b -> block_ranges ctx !! b = Some r ->
                 LiveRange.contains r p = false) ->
  forall fuel lo hi,
    (hi <= length (blocks ctx))%nat ->
    blockFor_loop fuel ctx p lo hi = Fail AssertFailed.
Proof.
  intros [Hhas _] Hnone.
  induction fuel as [|fuel IH]; intros lo hi Hhi; [reflexivity|].
  cbn [blockFor_loop].
  destruct (lo <? hi)%nat eqn:E; [|reflexivity].
  apply Nat.ltb_lt in E.
  set (mid := ((lo + hi) / 2)%nat).
  assert (Hmid : (lo <= mid < hi)%nat).
  { subst mid. split; [apply Nat.div_le_lower_bound; lia
                      | apply Nat.Div0.div_lt_upper_bound; lia]. }
  destruct (lookup_lt_is_Some_2 (blocks ctx) mid) as [bm Hbm]; [lia|].
  destruct (Hhas _ _ Hbm) as (rm & Hrm & Hle).
  rewrite Hbm. cbn [deref mbind result_bind]. rewrite Hrm.
  cbn [deref mbind result_bind].
  specialize (Hnone _ _ _ Hbm Hrm). unfold LiveRange.contains in Hnone.
  destruct (p <? LiveRange.start rm) eqn:E1; [apply IH; lia|].
  destruct (LiveRange.end_ rm <=? p) eqn:E2; [apply IH; lia|].
  apply Z.ltb_ge in E1. apply Z.leb_gt in E2.
  apply andb_false_iff in Hnone as [H|H];
    [apply Z.leb_gt in H | apply Z.ltb_ge in H]; lia.
Qed.

(** [blockFor(pos)] on a layout whose block ranges follow each other in
    the order of [blocks]: the block whose range contains [pos], and the
    failed [always_assert] when [pos] is in the range of no block. *)
Theorem blockFor_finds (ctx : VxlsContext) (p : Z) :
  blocks_sorted ctx ->
  (forall k b r,
     blocks ctx !! k = Some b -> block_ranges ctx !! b = Some r ->
     LiveRange.contains r p = true -> blockFor ctx p = Ok b)
  /\ ((forall k b r,
         blocks ctx !! k = Some b -> block_ranges ctx !! b = Some r ->
         LiveRange.contains r p = false) ->
      blockFor ctx p = Fail AssertFailed).
Proof.
  intros Hs. split.
  - intros k b r Hb Hr Hc.
    destruct (blockFor_complete ctx p k b r Hs Hb Hr Hc) as (b' & Hb').
    rewrite Hb'. f_equal.
    destruct (blockFor_contains _ _ _ Hb') as (r' & Hr' & Hc').
    destruct (blockFor_loop_index _ _ _ _ _ _ Hb') as (k' & Hk').
    destruct Hs as [_ Hord].
    unfold LiveRange.contains in Hc, Hc'.
    apply andb_prop in Hc as [Hc1 Hc2]. apply andb_prop in Hc' as [Hc1' Hc2'].
    apply Z.leb_le in Hc1, Hc1'. apply Z.ltb_lt in Hc2, Hc2'.
    destruct (Nat.lt_trichotomy k k') as [Hlt|[Heq|Hgt]].
    + pose proof (Hord _ _ _ _ _ _ Hlt Hb Hk' Hr Hr'). lia.
    + subst k'. congruence.
    + pose proof (Hord _ _ _ _ _ _ Hgt Hk' Hb Hr' Hr). lia.
  - intros Hnone. unfold blockFor.
    apply (blockFor_loop_none ctx p Hs Hnone). lia.
Qed.

Lemma blockFor_finds_witness :
  let ctx := mkContext (Reg 4) [0; 2; 1]%nat
               [LiveRange.mk 0 4; LiveRange.mk 10 16; LiveRange.mk 4 10]
               [0; 0; 0] [] in
  blockFor ctx 11 = Ok 1%nat /\ blockFor ctx 16 = Fail AssertFailed.
Proof.
  intros ctx.
  assert (Hs : blocks_sorted ctx).
  { split.
    - intros i bi Hi.
      destruct i as [|[|[|i]]]; inversion Hi; subst bi;
        eexists; (split; [reflexivity | simpl; lia]).
    - intros i j bi bj ri rj Hij Hi Hj Hri Hrj.
      destruct i as [|[|[|i]]]; inversion Hi; subst bi;
        destruct j as [|[|[|j]]]; inversion Hj; subst bj;
        try lia; inversion Hri; subst ri; inversion Hrj; subst rj;
        simpl; lia. }
  destruct (blockFor_finds ctx 11 Hs) as [Hfound _].
  destruct (blockFor_finds ctx 16 Hs) as [_ Hnone].
  split.
  - apply (Hfound 2%nat 1%nat (LiveRange.mk 10 16)); reflexivity.
  - apply Hnone. intros k b r Hk Hr.
    destruct k as [|[|[|k]]]; inversion Hk; subst b;
      inversion Hr; subst r; reflexivity.
Defined.

End BlockFor.
(** ** The active and inactive lists after [update] *)

Section UpdateLists.

Lemma free_spill_slot_frame (st st' : Vxls) (ivl : addr) :
  free_spill_slot st ivl = Ok st' ->
  heap st' = heap st /\ active st' = active st
  /\ inactive st' = inactive st /\ pending st' = pending st.
Proof.
  unfold free_spill_slot. intros H.
  apply result_bind_Ok in H as (i & _ & H).
  apply result_bind_Ok in H as (u & _ & H).
  apply result_bind_Ok in H as (ldr & _ & H).
  destruct (negb (Interval.slot ldr =? kInvalidSpillSlot)).
  - apply result_bind_Ok in H as (k & _ & H).
    apply result_bind_Ok in H as (ss1 & _ & H).
    apply result_bind_Ok in H as (ss2 & _ & H).
    inversion H; subst st'. repeat split; reflexivity.
  - inversion H; subst st'. repeat split; reflexivity.
Qed.

Lemma swap_remove_perm (w : list addr) : swap_remove w ≡ₚ w.
Proof.
  unfold swap_remove. destruct (last w) as [y|] eqn:Hl.
  - destruct (last_Some w y) as [H _]. destruct (H Hl) as (l' & ->).
    rewrite removelast_last.
    apply Permutation_cons_append.
  - apply last_None in Hl. subst w. reflexivity.
Qed.

(** One pass of [update_list] sorts the intervals of the list into those
    that stay, those that move to the other list and those that expired
    and are dropped. *)
Lemma update_list_partition (p : Z) (is_active : bool) :
  forall fuel st done window moved st' done' moved',
    (length window <= fuel)%nat ->
    update_list fuel p is_active st done window moved
    = Ok (st', done', moved') ->
    (heap st' = heap st /\ active st' = active st
     /\ inactive st' = inactive st /\ pending st' = pending st)
    /\ exists kept mv dropped,
         done' = done ++ kept /\ moved' = moved ++ mv
         /\ kept ++ mv ++ dropped ≡ₚ window
         /\ (forall x, x ∈ dropped ->
               exists i, heap st !! x = Some i /\ Interval.end_ i <= p)
         /\ (forall x, x ∈ kept ->
               exists i, heap st !! x = Some i /\ p < Interval.end_ i
                         /\ Interval.covers i p = is_active)
         /\ (forall x, x ∈ mv ->
               exists i, heap st !! x = Some i /\ p < Interval.end_ i
                         /\ Interval.covers i p = negb is_active).
Proof.
  induction fuel as [|fuel IH];
    intros st done window moved st' done' moved' Hfuel H.
  - destruct window; [|simpl in Hfuel; lia].
    simpl in H. inversion H; subst. split; [auto|].
    exists [], [], []. rewrite !app_nil_r.
    repeat split; try reflexivity; intros x Hx; inversion Hx.
  - cbn [update_list] in H. destruct window as [|ivl w].
    { inversion H; subst. split; [auto|].
      exists [], [], []. rewrite !app_nil_r.
      repeat split; try reflexivity; intros x Hx; inversion Hx. }
    apply result_bind_Ok in H as (i & Hi & H). apply deref_Ok in Hi.
    pose proof (swap_remove_perm w) as Hsw.
    assert (Hlen : (length (swap_remove w) <= fuel)%nat).
    { rewrite (Permutation_length Hsw). simpl in Hfuel. lia. }
    destruct (Interval.end_ i <=? p) eqn:E.
    + apply Z.leb_le in E.
      apply result_bind_Ok in H as (st1 & Hst1 & H).
      assert (Hfr : heap st1 = heap st /\ active st1 = active st
                    /\ inactive st1 = inactive st
                    /\ pending st1 = pending st).
      { destruct (negb (bool_decide (is_Some (Interval.next i)))).
        - apply (free_spill_slot_frame _ _ _ Hst1).
        - inversion Hst1; subst st1. auto. }
      destruct Hfr as (F1 & F2 & F3 & F4).
      destruct (IH _ _ _ _ _ _ _ Hlen H)
        as ((G1 & G2 & G3 & G4) & kept & mv & dropped & Hd & Hm & Hperm
            & Hdr & Hk & Hmv).
      split; [repeat split; congruence|].
      exists kept, mv, (ivl :: dropped).
      split; [exact Hd|]. split; [exact Hm|]. split.
      * rewrite <- Hsw, <- Hperm.
        rewrite !app_assoc. symmetry. apply Permutation_middle.
      * rewrite F1 in Hdr, Hk, Hmv. split; [|split; assumption].
        intros x Hx. apply elem_of_cons in Hx as [->|Hx]; [eauto | auto].
    + apply Z.leb_gt in E.
      destruct (if is_active then negb (Interval.covers i p)
                else Interval.covers i p) eqn:Ec.
      * destruct (IH _ _ _ _ _ _ _ Hlen H)
          as (Hfr & kept & mv & dropped & Hd & Hm & Hperm & Hdr & Hk & Hmv).
        split; [exact Hfr|].
        exists kept, (ivl :: mv), dropped.
        split; [exact Hd|]. split; [rewrite Hm, <- app_assoc; reflexivity|].
        split.
        -- rewrite <- Hsw, <- Hperm. cbn [app]. symmetry.
           apply Permutation_middle.
        -- split; [exact Hdr|]. split; [exact Hk|].
           intros x Hx. apply elem_of_cons in Hx as [->|Hx]; [|auto].
           exists i. split; [exact Hi|]. split; [lia|].
           destruct is_active; [apply negb_true_iff in Ec|]; exact Ec.
      * assert (Hlen' : (length w <= fuel)%nat) by (simpl in Hfuel; lia).
        destruct (IH _ _ _ _ _ _ _ Hlen' H)
          as (Hfr & kept & mv & dropped & Hd & Hm & Hperm & Hdr & Hk & Hmv).
        split; [exact Hfr|].
        exists (ivl :: kept), mv, dropped.
        split; [rewrite Hd, <- app_assoc; reflexivity|].
        split; [exact Hm|]. split.
        -- simpl. rewrite Hperm. reflexivity.
        -- split; [exact Hdr|]. split; [|exact Hmv].
           intros x Hx. apply elem_of_cons in Hx as [->|Hx]; [|auto].
           exists i. split; [exact Hi|]. split; [lia|].
           destruct is_active; [apply negb_false_iff in Ec|]; exact Ec.
Qed.

(** [update(current)], with [pos] the start of [current]: the intervals
    of the two lists are, up to order, those that were there before
    without the ones that ended at or before [pos]; afterwards every
    active interval covers [pos] and no inactive one does. The store of
    intervals and the pending queue are left alone. *)
Theorem update_partition (st st' : Vxls) (current : addr) (cur : Interval) :
  heap st !! current = Some cur ->
  update st current = Ok st' ->
  heap st' = heap st /\ pending st' = pending st
  /\ (exists dropped,
        active st' ++ inactive st' ++ dropped ≡ₚ active st ++ inactive st
        /\ forall x, x ∈ dropped ->
             exists i, heap st !! x = Some i
                       /\ Interval.end_ i <= Interval.start cur)
  /\ (forall x, x ∈ active st' ->
        exists i, heap st !! x = Some i
                  /\ Interval.start cur < Interval.end_ i
                  /\ Interval.covers i (Interval.start cur) = true)
  /\ (forall x, x ∈ inactive st' ->
        exists i, heap st !! x = Some i
                  /\ Interval.start cur < Interval.end_ i
                  /\ Interval.covers i (Interval.start cur) = false).
Proof.
  intros Hc H. unfold update in H. rewrite Hc in H.
  cbn [deref mbind result_bind] in H.
  apply result_bind_Ok in H as ([[st1 act] moved1] & H1 & H).
  apply result_bind_Ok in H as ([[st2 inact] moved2] & H2 & H).
  inversion H; subst st'. clear H.
  apply update_list_partition in H1
    as ((F1 & F2 & F3 & F4) & k1 & m1 & d1 & Hd1 & Hm1 & Hp1 & Hdr1 & Hk1
        & Hmv1); [|lia].
  apply update_list_partition in H2
    as ((G1 & G2 & G3 & G4) & k2 & m2 & d2 & Hd2 & Hm2 & Hp2 & Hdr2 & Hk2
        & Hmv2); [|lia].
  simpl in Hd1, Hm1, Hd2, Hm2. subst act moved1 inact moved2.
  rewrite F1 in Hdr2, Hk2, Hmv2.
  cbn [heap pending active inactive set_inactive set_active].
  split; [congruence|]. split; [congruence|]. split; [|split].
  - exists (d1 ++ d2). split.
    + rewrite F3 in Hp2.
      transitivity (k1 ++ d1 ++ (k2 ++ m2 ++ d2)).
      * rewrite <- !app_assoc. apply Permutation_app_head.
        rewrite (Permutation_app_swap_app m2 k2).
        rewrite (Permutation_app_swap_app m2 d1).
        rewrite (Permutation_app_swap_app k2 d1). reflexivity.
      * rewrite Hp2, <- Hp1. rewrite <- !app_assoc.
        apply Permutation_app_head.
        rewrite (app_assoc d1). apply Permutation_app_comm.
    + intros x Hx. apply elem_of_app in Hx as [Hx|Hx]; auto.
  - intros x Hx. apply elem_of_app in Hx as [Hx|Hx]; auto.
  - intros x Hx. auto.
Qed.

Lemma update_partition_witness :
  let mk := fun a b r =>
              Interval.mk None None [LiveRange.mk a b]
                [mkUse Gpr a InvalidVreg] (Virt r) a kInvalidSpillSlot false
                (Reg r) false 0 in
  let h : Heap :=
    <[2%nat := mk 0 4 2%nat]>
      (<[1%nat := mk 2 12 1%nat]> {[0%nat := mk 6 10 0%nat]}) in
  let st := mkVxls h [] [1%nat; 2%nat] [] [0; 0] (mkSpillInfo 0 0) in
  exists st', update st 0%nat = Ok st'
              /\ active st' = [1%nat] /\ inactive st' = []
              /\ heap st' = heap st.
Proof.
  intros mk h st.
  destruct (update st 0%nat) as [st'|f] eqn:E;
    [|vm_compute in E; discriminate].
  exists st'. split; [reflexivity|].
  split; [vm_compute in E; inversion E; reflexivity|].
  split; [vm_compute in E; inversion E; reflexivity|].
  apply (update_partition st st' 0%nat (mk 6 10 0%nat)); [reflexivity|exact E].
Defined.

End UpdateLists.
(** ** Copies recorded by the resolution of splits *)

Section ResolveCopies.

Lemma resolve_chain_copies (ctx : VxlsContext) (h : Heap) :
  forall fuel r r' i1 i2o,
    (exists a, h !! i1 = Some a /\ Interval.next a = i2o) ->
    resolve_chain fuel ctx h r i1 i2o = Ok r' ->
    forall p x a,
      plan_at (copies r') p x = Some a ->
      plan_at (copies r) p x = Some a \/ split_copy ctx h p x a.
Proof.
  induction fuel as [|fuel IH]; intros r r' i1 i2o Hlink H p x a Hp.
  - destruct i2o; simpl in H; [discriminate|].
    inversion H; subst. left. exact Hp.
  - destruct i2o as [i2|]; simpl in H;
      [|inversion H; subst; left; exact Hp].
    apply result_bind_Ok in H as (ia & Hia & H). apply deref_Ok in Hia.
    apply result_bind_Ok in H as (ib & Hib & H). apply deref_Ok in Hib.
    destruct Hlink as (ia' & Hia' & Hnext).
    rewrite Hia in Hia'. inversion Hia'; subst ia'. clear Hia'.
    assert (Hlink' : exists a0, h !! i2 = Some a0
                                /\ Interval.next a0 = Interval.next ib)
      by eauto.
    destruct (negb (Interval.end_ ia =? Interval.start ib)) eqn:E1;
      [apply (IH _ _ _ _ Hlink' H _ _ _ Hp)|].
    destruct (bool_decide (Interval.reg ib = InvalidReg)) eqn:E2;
      [apply (IH _ _ _ _ Hlink' H _ _ _ Hp)|].
    destruct (bool_decide (Interval.reg ib = Interval.reg ia)) eqn:E3;
      [apply (IH _ _ _ _ Hlink' H _ _ _ Hp)|].
    apply result_bind_Ok in H as (blk & Hblk & H).
    apply result_bind_Ok in H as (range & Hrange & H).
    apply deref_Ok in Hrange.
    destruct (Interval.start ib mod 2 =? 0) eqn:E4.
    { apply result_bind_Ok in H as (u & _ & H).
      apply (IH _ _ _ _ Hlink' H _ _ _ Hp). }
    apply result_bind_Ok in H as (u & Hu & H). apply assertx_Ok in Hu.
    destruct (wrap (Interval.start ib + 1) =? LiveRange.end_ range) eqn:E5;
      [apply (IH _ _ _ _ Hlink' H _ _ _ Hp)|].
    apply result_bind_Ok in H as (cp & Hcp & H).
    apply record_at_Ok in Hcp. subst cp.
    destruct (IH _ _ _ _ Hlink' H _ _ _ Hp) as [Hold|Hnew];
      [|right; exact Hnew].
    cbn [copies] in Hold.
    destruct (decide ((p, x) = (Interval.start ib, Interval.reg ib)))
      as [Heq|Hne].
    + inversion Heq; subst p x. right.
      pose proof (plan_at_record_same (copies r)
                    (Interval.start ib, Interval.reg ib, i1)) as Hs.
      cbn [fst snd] in Hs. rewrite Hs in Hold. inversion Hold; subst a.
      apply negb_false_iff, Z.eqb_eq in E1.
      apply bool_decide_eq_false in E2, E3.
      apply Z.eqb_neq in E4, E5. apply Z.ltb_lt in Hu.
      exists ia, i2, ib, blk, range.
      repeat (split; [first [assumption | reflexivity | congruence]|]).
      split; [|split; [assumption|split; [assumption|split; assumption]]].
      pose proof (Z.mod_pos_bound (Interval.start ib) 2). lia.
    + left. rewrite plan_at_record_other in Hold; [exact Hold|].
      unfold store_key. simpl. exact Hne.
Qed.

Lemma resolveSplits_copies_inv (ctx : VxlsContext) (h : Heap) :
  forall intervals r r',
    resolveSplits ctx h intervals r = Ok r' ->
    forall p x a,
      plan_at (copies r') p x = Some a ->
      plan_at (copies r) p x = Some a \/ split_copy ctx h p x a.
Proof.
  induction intervals as [|o rest IH]; intros r r' H p x a Hp.
  - simpl in H. inversion H; subst. left. exact Hp.
  - destruct o as [i1|]; simpl in H; [|apply (IH _ _ H _ _ _ Hp)].
    apply result_bind_Ok in H as (ia & Hia & H). apply deref_Ok in Hia.
    apply result_bind_Ok in H as (r1 & Hr1 & H).
    apply result_bind_Ok in H as (r2 & Hr2 & H).
    assert (Hc1 : copies r1 = copies r).
    { destruct (0 <=? Interval.slot ia).
      - destruct (insertSpill_Ok _ _ _ _ _ _ Hia Hr1) as (_ & Hc & _).
        exact Hc.
      - inversion Hr1; subst. reflexivity. }
    destruct (IH _ _ H _ _ _ Hp) as [Hold|Hnew]; [|right; exact Hnew].
    destruct (resolve_chain_copies ctx h _ _ _ _ _
                (ex_intro _ ia (conj Hia eq_refl)) Hr2 _ _ _ Hold)
      as [Hold'|Hnew]; [|right; exact Hnew].
    left. rewrite <- Hc1. exact Hold'.
Qed.

(** [resolveSplits] from an empty plan: a copy it has recorded at a
    position [pos] for a register connects an interval with its
    successor in the chain where the two touch at [pos] and hold
    different registers, the successor a valid one; [pos] is odd, inside
    its block, and not the last position of the block. *)
Theorem resolveSplits_copies (ctx : VxlsContext) (h : Heap)
    (intervals : list (option addr)) (plan' : ResolutionPlan) :
  resolveSplits ctx h intervals (mkPlan ∅ ∅ ∅) = Ok plan' ->
  forall p r a,
    plan_at (copies plan') p r = Some a -> split_copy ctx h p r a.
Proof.
  intros H p r a Hp.
  destruct (resolveSplits_copies_inv ctx h _ _ _ H _ _ _ Hp) as [Hold|Hnew];
    [|exact Hnew].
  unfold plan_at in Hold. simpl in Hold. rewrite lookup_empty in Hold.
  discriminate.
Qed.

Lemma resolveSplits_copies_witness :
  let ctx := mkContext (Reg 4) [0%nat] [LiveRange.mk 0 10] [0] [] in
  let first := Interval.mk None (Some 1%nat) [LiveRange.mk 0 5]
                 [mkUse Gpr 0 InvalidVreg] (Virt 0) 0 kInvalidSpillSlot
                 false (Reg 0) false 0 in
  let second := Interval.mk (Some 0%nat) None [LiveRange.mk 5 8]
                  [mkUse Gpr 8 InvalidVreg] (Virt 0) 0 kInvalidSpillSlot
                  false (Reg 1) false 0 in
  let h : Heap := <[1%nat := second]> {[0%nat := first]} in
  exists plan',
    resolveSplits ctx h [Some 0%nat] (mkPlan ∅ ∅ ∅) = Ok plan'
    /\ plan_at (copies plan') 5 (Reg 1) = Some 0%nat
    /\ split_copy ctx h 5 (Reg 1) 0%nat.
Proof.
  intros ctx first second h.
  destruct (resolveSplits ctx h [Some 0%nat] (mkPlan ∅ ∅ ∅))
    as [plan'|f] eqn:E; [|vm_compute in E; discriminate].
  assert (Hp : plan_at (copies plan') 5 (Reg 1) = Some 0%nat).
  { vm_compute in E. inversion E; subst plan'. reflexivity. }
  exists plan'. split; [reflexivity|]. split; [exact Hp|].
  exact (resolveSplits_copies ctx h [Some 0%nat] plan' E 5 (Reg 1) 0%nat Hp).
Defined.

End ResolveCopies.
(** ** What [buildIntervals] hands to the allocator *)

Section BuiltIntervals.

Lemma foldM_inv {A B} (P : A -> Prop) (f : A -> B -> result A)
    (l : list B) :
  (forall a x a', P a -> f a x = Ok a' -> P a') ->
  forall a a', P a -> foldM f a l = Ok a' -> P a'.
Proof.
  intros Hstep. induction l as [|x l IH]; intros a a' Ha H.
  - inversion H; subst. exact Ha.
  - cbn [foldM] in H. apply result_bind_Ok in H as (a1 & H1 & H).
    apply (IH a1 a'); [apply (Hstep a x a1 Ha H1) | exact H].
Qed.

Lemma fresh_make (r : Vreg) :
  fresh_interval r (Interval.make r)
  /\ Interval.constant (Interval.make r) = false.
Proof. repeat split; reflexivity. Qed.

Lemma fresh_default (ivs : Intervals) (r : Vreg) :
  built_ok ivs ->
  fresh_interval r (default (Interval.make r) (ivs !! r))
  /\ Interval.constant (default (Interval.make r) (ivs !! r)) = false.
Proof.
  intros H. destruct (ivs !! r) as [i|] eqn:E; simpl;
    [apply (H r i E) | apply fresh_make].
Qed.

Lemma fresh_set_ranges (r : Vreg) (i : Interval) (rs : list LiveRange) :
  fresh_interval r i /\ Interval.constant i = false ->
  fresh_interval r (set_ranges rs i)
  /\ Interval.constant (set_ranges rs i) = false.
Proof. intros [(H1 & H2 & H3 & H4 & H5 & H6) Hc]. repeat split; assumption. Qed.

Lemma built_ok_insert (ivs : Intervals) (r : Vreg) (i : Interval) :
  built_ok ivs ->
  fresh_interval r i /\ Interval.constant i = false ->
  built_ok (<[r := i]> ivs).
Proof.
  intros H Hi r' i' Hl. destruct (decide (r = r')) as [->|Hne].
  - rewrite lookup_insert_eq in Hl. inversion Hl; subst. exact Hi.
  - rewrite lookup_insert_ne in Hl by exact Hne. apply (H r' i' Hl).
Qed.

Lemma fresh_record_use (r : Vreg) (i j : Interval) :
  fresh_interval r i /\ Interval.constant i = false ->
  (Interval.vreg j = Interval.vreg i
   /\ Interval.parent j = Interval.parent i
   /\ Interval.next j = Interval.next i
   /\ Interval.slot j = Interval.slot i
   /\ Interval.reg j = Interval.reg i
   /\ Interval.constant j = Interval.constant i) ->
  fresh_interval r (if negb (Interval.fixed i) then j else i)
  /\ Interval.constant (if negb (Interval.fixed i) then j else i) = false.
Proof.
  intros [(H1 & H2 & H3 & H4 & H5 & H6) Hc] (F1 & F2 & F3 & F4 & F5 & F6).
  destruct (negb (Interval.fixed i)) eqn:E; [|repeat split; assumption].
  repeat split; try congruence.
  intros Hphys. unfold Interval.fixed in E. rewrite H1, Hphys in E.
  discriminate.
Qed.

Lemma def_built_ok (q : Z) (st st' : BuildState) (r : Vreg)
    (k : Constraint) (h : Vreg) (w : bool) :
  built_ok st.1 -> def_ q st r k h w = Ok st' -> built_ok st'.1.
Proof.
  intros Hok H. destruct st as [ivs live]. unfold def_ in H.
  apply result_bind_Ok in H as ([ivl live'] & H1 & H).
  inversion H; subst st'. clear H. cbn [fst].
  apply built_ok_insert; [exact Hok|].
  assert (Hivl : fresh_interval r ivl /\ Interval.constant ivl = false).
  { destruct (bool_decide (r ∈ live)).
    - apply result_bind_Ok in H1 as (i0 & Hi0 & H1). apply deref_Ok in Hi0.
      apply result_bind_Ok in H1 as (b & _ & H1).
      inversion H1; subst. apply fresh_set_ranges. apply (Hok r i0 Hi0).
    - inversion H1; subst. unfold addRange. apply fresh_set_ranges.
      apply fresh_default. exact Hok. }
  apply (fresh_record_use r ivl _ Hivl).
  repeat split; reflexivity.
Qed.

Lemma use_built_ok (inst : Vinstr) (range : LiveRange) (st : BuildState)
    (r : Vreg) (k : Constraint) (e : Z) (h : Vreg) :
  built_ok st.1 -> built_ok (use_ inst range st r k e h).1.
Proof.
  intros Hok. destruct st as [ivs live]. unfold use_. cbn [fst].
  apply built_ok_insert; [exact Hok|].
  apply fresh_record_use.
  - unfold addRange. apply fresh_set_ranges. apply fresh_default. exact Hok.
  - repeat split; reflexivity.
Qed.

Lemma visit_defs_built_ok (sf0 : Vreg) (inst : Vinstr) (q : Z)
    (st st' : BuildState) :
  built_ok st.1 -> visit_defs sf0 inst q st = Ok st' -> built_ok st'.1.
Proof.
  intros Hok H. unfold visit_defs in H.
  apply result_bind_Ok in H as (st1 & H1 & H2).
  apply (foldM_inv (fun s : BuildState => built_ok s.1)) in H1;
    [|intros a o a' Ha Hf; destruct o;
      try (inversion Hf; subst; exact Ha);
      apply (def_built_ok _ _ _ _ _ _ _ Ha Hf) | exact Hok].
  apply (foldM_inv (fun s : BuildState => built_ok s.1)) in H2;
    [exact H2 | | exact H1].
  intros a o a' Ha Hf. apply (def_built_ok _ _ _ _ _ _ _ Ha Hf).
Qed.

Lemma visit_uses_built_ok (sf0 : Vreg) (inst : Vinstr) (range : LiveRange)
    (st : BuildState) :
  built_ok st.1 -> built_ok (visit_uses sf0 inst range st).1.
Proof.
  intros Hok. unfold visit_uses.
  apply (foldl_inv (fun s : BuildState => built_ok s.1)).
  { intros a x _ Ha. apply use_built_ok. exact Ha. }
  apply (foldl_inv (fun s : BuildState => built_ok s.1)).
  { intros a x _ Ha. apply use_built_ok. exact Ha. }
  apply (foldl_inv (fun s : BuildState => built_ok s.1)); [|exact Hok].
  intros a o _ Ha. destruct o; [exact Ha | |]; apply use_built_ok; exact Ha.
Qed.

Lemma build_block_built_ok (sf0 : Vreg) (vunit : Vunit) (ctx : VxlsContext)
    (ivs ivs' : Intervals) (b : Vlabel) :
  built_ok ivs -> build_block sf0 vunit ctx ivs b = Ok ivs' -> built_ok ivs'.
Proof.
  intros Hok H. unfold build_block in H.
  apply result_bind_Ok in H as (blk & _ & H).
  apply result_bind_Ok in H as (live & _ & H).
  apply result_bind_Ok in H as (br & _ & H).
  apply result_bind_Ok in H as ([[ivs2 live2] p2] & Hfold & H).
  apply result_bind_Ok in H as (lin & _ & H).
  apply result_bind_Ok in H as (u & _ & H).
  inversion H; subst ivs'. clear H.
  apply (foldM_inv (fun s : BuildState * Z => built_ok s.1.1)) in Hfold;
    [exact Hfold | |].
  - intros [st p] inst [st' p'] Ha Hf. cbn [fst] in *.
    unfold build_inst in Hf.
    apply result_bind_Ok in Hf as (st1 & H1 & H2).
    inversion H2; subst. apply visit_uses_built_ok.
    apply (visit_defs_built_ok _ _ _ _ _ Ha H1).
  - cbn [fst]. intros r i Hl. rewrite live_ranges_lookup in Hl.
    destruct (bool_decide (r ∈ live)); [|apply (Hok r i Hl)].
    inversion Hl; subst i. unfold addRange. apply fresh_set_ranges.
    apply fresh_default. exact Hok.
Qed.

Lemma last_set_back {A} (v : list A) (x : A) :
  v <> [] -> last (set_back v x) = Some x.
Proof.
  intros Hne. unfold set_back. destruct v; [congruence|].
  apply last_snoc.
Qed.

Lemma finish_constant_consts_ok (all done : list (Vconst * Vreg))
    (ivs ivs' : Intervals) (c : Vconst * Vreg) :
  c ∈ all ->
  consts_ok all done ivs ->
  finish_constant ivs c = Ok ivs' ->
  consts_ok all (done ++ [c]) ivs'.
Proof.
  intros Hc Hok H. unfold finish_constant in H.
  destruct (ivs !! c.2) as [ivl|] eqn:E.
  - apply result_bind_Ok in H as (b & Hb & H). apply deref_Ok in Hb.
    inversion H; subst ivs'. clear H.
    intros r i Hl. destruct (decide (c.2 = r)) as [Heq|Hne].
    + subst r. rewrite lookup_insert_eq in Hl.
      inversion Hl; subst i. clear Hl.
      destruct (Hok _ _ E) as ((H1 & H2 & H3 & H4 & H5 & H6) & _ & _).
      split; [repeat split; assumption|].
      split.
      * intros _. exists c.1. destruct c. exact Hc.
      * intros _. split; [reflexivity|].
        exists (LiveRange.mk 0 (LiveRange.end_ b)).
        split; [|reflexivity]. cbn [Interval.ranges set_constant set_ranges].
        apply last_set_back. intros Hnil. rewrite Hnil in Hb. discriminate.
    + rewrite lookup_insert_ne in Hl by exact Hne.
      destruct (Hok r i Hl) as (Hf & Hc1 & Hc2).
      split; [exact Hf|]. split; [exact Hc1|].
      intros (c' & Hc'). apply Hc2.
      apply elem_of_app in Hc' as [Hc'|Hc']; [eauto|].
      apply list_elem_of_singleton in Hc'. subst c. simpl in Hne.
      congruence.
  - inversion H; subst ivs'. clear H.
    intros r i Hl. destruct (Hok r i Hl) as (Hf & Hc1 & Hc2).
    split; [exact Hf|]. split; [exact Hc1|].
    intros (c' & Hc'). apply Hc2.
    apply elem_of_app in Hc' as [Hc'|Hc']; [eauto|].
    apply list_elem_of_singleton in Hc'. subst c. simpl in E.
    congruence.
Qed.

Lemma finish_constants_consts_ok (all : list (Vconst * Vreg)) :
  forall (todo done : list (Vconst * Vreg)) (ivs ivs' : Intervals),
    (forall c, c ∈ todo -> c ∈ all) ->
    consts_ok all done ivs ->
    foldM finish_constant ivs todo = Ok ivs' ->
    consts_ok all (done ++ todo) ivs'.
Proof.
  induction todo as [|c todo IH]; intros done ivs ivs' Hsub Hok H.
  - inversion H; subst. rewrite app_nil_r. exact Hok.
  - cbn [foldM] in H. apply result_bind_Ok in H as (ivs1 & H1 & H).
    replace (done ++ c :: todo) with ((done ++ [c]) ++ todo)
      by (rewrite <- app_assoc; reflexivity).
    apply (IH _ ivs1 ivs'); [| |exact H].
    + intros c' Hc'. apply Hsub. apply list_elem_of_further. exact Hc'.
    + apply (finish_constant_consts_ok all done ivs ivs1 c);
        [apply Hsub, list_elem_of_here | exact Hok | exact H1].
Qed.

(** [buildIntervals] hands out parent intervals that have not been
    allocated: every interval is filed under its own Vreg, is not linked
    to other intervals, has neither a register nor a spill slot, and the
    interval of a physical register has no uses. An interval is marked
    constant exactly when its Vreg is the register of a constant of the
    unit, and such an interval starts at position 0. *)
Theorem buildIntervals_fresh (sf0 : Vreg) (vunit : Vunit)
    (ctx : VxlsContext) (m : Intervals) :
  buildIntervals sf0 vunit ctx = Ok m ->
  forall r i, m !! r = Some i ->
    fresh_interval r i
    /\ (Interval.constant i = true <-> exists c, (c, r) ∈ constToReg vunit)
    /\ (Interval.constant i = true -> Interval.start i = 0).
Proof.
  intros H r i Hl. unfold buildIntervals in H.
  apply result_bind_Ok in H as (ivs1 & H1 & H).
  apply result_bind_Ok in H as (ivs2 & H2 & H).
  apply result_bind_Ok in H as (u & Hne & H).
  apply result_bind_Ok in H as (u' & _ & H).
  inversion H; subst m. clear H.
  assert (Hok1 : built_ok ivs1).
  { apply (foldM_inv built_ok) in H1; [exact H1 | |].
    - intros a b a' Ha Hf. apply (build_block_built_ok _ _ _ _ _ _ Ha Hf).
    - intros r0 i0 Hl0. rewrite lookup_empty in Hl0. discriminate. }
  assert (Hok2 : consts_ok (constToReg vunit) ([] ++ constToReg vunit) ivs2).
  { apply (finish_constants_consts_ok _ _ [] ivs1 ivs2); [auto| |exact H2].
    intros r0 i0 Hl0. destruct (Hok1 r0 i0 Hl0) as [Hf Hc].
    split; [exact Hf|]. split; [congruence|].
    intros (c & Hc'). inversion Hc'. }
  cbn [app] in Hok2.
  rewrite lookup_fmap in Hl.
  destruct (ivs2 !! r) as [i2|] eqn:E2; [|discriminate].
  simpl in Hl. inversion Hl; subst i. clear Hl.
  destruct (Hok2 r i2 E2) as ((F1 & F2 & F3 & F4 & F5 & F6) & Hc1 & Hc2).
  split; [|split; [split|]].
  - repeat split; try assumption.
    intros Hp. cbn [unreverse Interval.uses set_ranges set_uses].
    rewrite (F6 Hp). reflexivity.
  - exact Hc1.
  - intros Hex. apply (Hc2 Hex).
  - intros Hc. destruct (Hc2 (Hc1 Hc)) as (_ & f & Hf & Hs).
    unfold Interval.start. cbn [unreverse Interval.ranges set_ranges].
    rewrite <- (rev_involutive (Interval.ranges i2)) in Hf.
    rewrite last_rev_head in Hf.
    destruct (rev (Interval.ranges i2)); [discriminate|].
    simpl in Hf. inversion Hf; subst. exact Hs.
Qed.

Lemma buildIntervals_fresh_witness :
  let v := Virt 0 in
  let c := Virt 1 in
  let ins := fun ops => Vinstr.mk Vinstr.other ops [] [] [] in
  let b0 := mkBlock [ins [Vinstr.ODef v Any InvalidVreg false];
                     ins [Vinstr.OUse c Any InvalidVreg]; ins []] [] in
  let vunit := mkUnit [b0] [(7, c)] 0%nat in
  let ctx := mkContext (Reg 4) [0%nat] [LiveRange.mk 0 6] [0]
               [Some {[c]}] in
  exists m i,
    buildIntervals (Phys 99) vunit ctx = Ok m
    /\ m !! c = Some i
    /\ fresh_interval c i
    /\ Interval.constant i = true /\ Interval.start i = 0.
Proof.
  intros v c ins b0 vunit ctx.
  destruct (buildIntervals (Phys 99) vunit ctx) as [m|f] eqn:Hb;
    [|vm_compute in Hb; discriminate].
  destruct (m !! c) as [i|] eqn:Hi.
  - exists m, i. split; [reflexivity|]. split; [exact Hi|].
    destruct (buildIntervals_fresh (Phys 99) vunit ctx m Hb c i Hi)
      as (Hf & Hc & Hs).
    assert (Hconst : Interval.constant i = true).
    { apply Hc. exists 7. apply list_elem_of_here. }
    split; [exact Hf|]. split; [exact Hconst | exact (Hs Hconst)].
  - exfalso. vm_compute in Hb. inversion Hb; subst m.
    vm_compute in Hi. discriminate.
Defined.

End BuiltIntervals.

(** ** The choice of a register *)

Section RegisterChoice.

Lemma find_farthest_loop_spec (rest : list Z) :
  forall (pre : list Z) (max : Z) (k : nat),
    (forall j y, pre !! j = Some y -> y <= max) ->
    (forall j y, (j < k)%nat -> pre !! j = Some y -> y < max) ->
    pre !! k = Some max \/ (max = 0 /\ k = 0%nat) ->
    exists k' max',
      find_farthest_loop rest (length pre) max (Reg k) = Reg k'
      /\ (forall j y, (pre ++ rest) !! j = Some y -> y <= max')
      /\ (forall j y, (j < k')%nat -> (pre ++ rest) !! j = Some y ->
                      y < max')
      /\ ((pre ++ rest) !! k' = Some max' \/ (max' = 0 /\ k' = 0%nat)).
Proof.
  induction rest as [|x rest IH]; intros pre max k Hle Hlt Hat.
  - exists k, max. rewrite app_nil_r. simpl. auto.
  - cbn [find_farthest_loop].
    replace (pre ++ x :: rest) with ((pre ++ [x]) ++ rest)
      by (rewrite <- app_assoc; reflexivity).
    replace (S (length pre)) with (length (pre ++ [x]))
      by (rewrite length_app; simpl; lia).
    destruct (max <? x) eqn:E.
    + apply Z.ltb_lt in E. apply IH.
      * intros j y Hj. apply lookup_app_Some in Hj as [Hj|[_ Hj]].
        -- specialize (Hle _ _ Hj). lia.
        -- apply list_lookup_singleton_Some in Hj as [_ ->]. lia.
      * intros j y Hj Hy. rewrite lookup_app_l in Hy by exact Hj.
        specialize (Hle _ _ Hy). lia.
      * left. rewrite lookup_app_r by lia.
        rewrite Nat.sub_diag. reflexivity.
    + apply Z.ltb_ge in E. apply IH.
      * intros j y Hj. apply lookup_app_Some in Hj as [Hj|[_ Hj]].
        -- apply (Hle _ _ Hj).
        -- apply list_lookup_singleton_Some in Hj as [_ ->]. lia.
      * intros j y Hj Hy.
        apply lookup_app_Some in Hy as [Hy|[Hge Hy]].
        -- apply (Hlt _ _ Hj Hy).
        -- exfalso. destruct Hat as [Hat|[_ ->]]; [|lia].
           apply lookup_lt_Some in Hat. lia.
      * destruct Hat as [Hat|Hat]; [left|right; exact Hat].
        apply lookup_app_l_Some. exact Hat.
Qed.

(** [find_farthest(posns)] returns the first register, in register
    order, whose position is the highest of [posns]; when all positions
    are 0 that is the first register. *)
Theorem find_farthest_max (posns : PosVec) :
  posns <> [] ->
  (forall j y, posns !! j = Some y -> 0 <= y) ->
  exists n x,
    find_farthest posns = Ok (Reg n)
    /\ posns !! n = Some x
    /\ (forall j y, posns !! j = Some y -> y <= x)
    /\ (forall j y, (j < n)%nat -> posns !! j = Some y -> y < x).
Proof.
  intros Hne Hpos.
  destruct (find_farthest_loop_spec posns [] 0 0%nat)
    as (k & max & Hr & Hle & Hlt & Hat).
  - intros j y Hj. rewrite lookup_nil in Hj. discriminate.
  - intros j y Hj. lia.
  - right. split; reflexivity.
  - simpl in Hr, Hle, Hlt, Hat. exists k, max.
    split; [unfold find_farthest; destruct posns; [congruence|];
            rewrite Hr; reflexivity|].
    split; [|split; assumption].
    destruct Hat as [Hat|[-> ->]]; [exact Hat|].
    destruct posns as [|y posns]; [congruence|].
    simpl. f_equal.
    pose proof (Hle 0%nat y eq_refl). pose proof (Hpos 0%nat y eq_refl). lia.
Qed.

Lemma find_farthest_max_witness :
  find_farthest [0; 7; 3; 7] = Ok (Reg 1)
  /\ exists n x, find_farthest [0; 7; 3; 7] = Ok (Reg n)
                 /\ [0; 7; 3; 7] !! n = Some x
                 /\ forall j y, [0; 7; 3; 7] !! j = Some y -> y <= x.
Proof.
  split; [reflexivity|].
  destruct (find_farthest_max [0; 7; 3; 7]) as (n & x & H1 & H2 & H3 & _).
  - discriminate.
  - intros j y Hj.
    destruct j as [|[|[|[|j]]]]; inversion Hj; subst; lia.
  - exists n, x. auto.
Defined.

Lemma constrain_loop_spec (abi : Abi) (us : list Use) :
  forall allow0,
    let res := constrain_loop abi allow0 us in
    res.2 ⊆ allow0
    /\ (allow0 <> ∅ -> res.2 <> ∅)
    /\ exists k,
         (forall j u, (j < k)%nat -> us !! j = Some u ->
                      res.2 ⊆ need abi (kind u))
         /\ ((k = length us /\ res.1 = kMaxPos)
             \/ exists u, us !! k = Some u /\ res.1 = wrap (pos u - 1)
                          /\ res.2 ∩ need abi (kind u) = ∅).
Proof.
  induction us as [|u us IH]; intros allow0; cbn [constrain_loop].
  - simpl. split; [reflexivity|]. split; [auto|].
    exists 0%nat. split; [intros j u Hj; lia | left; auto].
  - destruct (bool_decide (allow0 ∩ need abi (kind u) = ∅)) eqn:E.
    + apply bool_decide_eq_true in E. simpl.
      split; [reflexivity|]. split; [auto|].
      exists 0%nat. split; [intros j u' Hj; lia|]. right. exists u. auto.
    + apply bool_decide_eq_false in E.
      destruct (IH (allow0 ∩ need abi (kind u))) as (H1 & H2 & k & H3 & H4).
      cbv zeta.
      split; [set_solver|]. split; [intros _; apply H2; exact E|].
      exists (S k). split.
      * intros j u' Hj Hu'. destruct j as [|j].
        -- simpl in Hu'. inversion Hu'; subst u'. set_solver.
        -- apply (H3 j u'); [lia | exact Hu'].
      * destruct H4 as [[-> Hm]|H4]; [left; auto | right; exact H4].
Qed.

(** [constrain(ivl, allow)] leaves in [allow] a set of unreserved
    registers that is empty only if there is no unreserved register; the
    position it returns is [kMaxPos] or one less than the position of a
    use; and, with the uses in non-decreasing order at positions above
    0, every register of [allow] satisfies the kind of every use at or
    before the returned position. *)
Theorem constrain_valid (abi : Abi) (ivl : Interval) :
  uses_monotonic (Interval.uses ivl) = true ->
  (forall u, u ∈ Interval.uses ivl -> 0 < pos u <= kMaxPos) ->
  (constrain abi ivl).2 ⊆ unreserved abi
  /\ (unreserved abi <> ∅ -> (constrain abi ivl).2 <> ∅)
  /\ ((constrain abi ivl).1 = kMaxPos
      \/ exists u, u ∈ Interval.uses ivl
                   /\ (constrain abi ivl).1 = pos u - 1
                   /\ (constrain abi ivl).2 ∩ need abi (kind u) = ∅)
  /\ forall u, u ∈ Interval.uses ivl ->
               pos u <= (constrain abi ivl).1 ->
               (constrain abi ivl).2 ⊆ need abi (kind u).
Proof.
  intros Hm Hpos. unfold constrain.
  destruct (constrain_loop_spec abi (Interval.uses ivl) (unreserved abi))
    as (H1 & H2 & k & H3 & H4).
  cbv zeta in *.
  set (res := constrain_loop abi (unreserved abi) (Interval.uses ivl)) in *.
  split; [exact H1|]. split; [exact H2|].
  assert (Hwrap : forall u, u ∈ Interval.uses ivl ->
                            wrap (pos u - 1) = pos u - 1).
  { intros u Hu. specialize (Hpos u Hu). unfold wrap, kMaxPos in *.
    apply Z.mod_small. lia. }
  split.
  - destruct H4 as [[_ Hk]|(u & Hu & Hc & He)]; [left; exact Hk|].
    right. exists u. apply list_elem_of_lookup_2 in Hu.
    rewrite (Hwrap u Hu) in Hc. auto.
  - intros u Hu Hle. apply list_elem_of_lookup in Hu as [j Hj].
    apply (H3 j u); [|exact Hj].
    destruct H4 as [[-> _]|(u' & Hu' & Hc & _)].
    + apply lookup_lt_Some in Hj. exact Hj.
    + destruct (Nat.lt_ge_cases j k) as [Hlt|Hge]; [exact Hlt|].
      exfalso.
      pose proof (uses_monotonic_le _ Hm _ _ _ _ Hge Hu' Hj) as Hmono.
      rewrite (Hwrap u' (list_elem_of_lookup_2 _ _ _ Hu')) in Hc. lia.
Qed.

Lemma constrain_valid_witness :
  let abi := mkAbi {[Reg 0; Reg 1; Reg 16]} {[Reg 0; Reg 1]} {[Reg 16]} ∅ in
  let ivl := Interval.mk None None [LiveRange.mk 2 12]
               [mkUse Gpr 2 InvalidVreg; mkUse Any 6 InvalidVreg;
                mkUse Simd 12 InvalidVreg]
               (Virt 0) 2 kInvalidSpillSlot false InvalidReg false 0 in
  (constrain abi ivl).1 = 11
  /\ (constrain abi ivl).2 ⊆ need abi Gpr.
Proof.
  intros abi ivl. split; [reflexivity|].
  assert (Hpos : forall u, u ∈ Interval.uses ivl -> 0 < pos u <= kMaxPos).
  { intros u Hu. simpl in Hu.
    repeat (apply elem_of_cons in Hu as [->|Hu];
            [simpl; unfold kMaxPos; lia|]).
    inversion Hu. }
  destruct (constrain_valid abi ivl eq_refl Hpos) as (_ & _ & _ & H).
  apply (H (mkUse Gpr 2 InvalidVreg)).
  - apply list_elem_of_here.
  - vm_compute. discriminate.
Defined.

End RegisterChoice.
(** ** The positions until which registers are free *)

Section FreeUntil.

Lemma posvec_set_Ok (v v' : PosVec) (r : PhysReg) (x : Z) :
  posvec_set v r x = Ok v' ->
  exists n, r = Reg n /\ (n < length v)%nat /\ v' = <[n := x]> v.
Proof.
  destruct r as [n|]; simpl; [|discriminate].
  destruct (n <? length v)%nat eqn:E; [|discriminate].
  apply Nat.ltb_lt in E. intros H. inversion H. eauto.
Qed.

Lemma posvec_get_Ok (v : PosVec) (r : PhysReg) (x : Z) :
  posvec_get v r = Ok x -> exists n, r = Reg n /\ v !! n = Some x.
Proof.
  destruct r as [n|]; simpl; [|discriminate].
  intros H. apply deref_Ok in H. eauto.
Qed.

(** The entries after the registers of [allow] have been marked: an
    entry is 0 or belongs to a register of [allow] and is [conflict]. *)
Lemma mark_allowed (conflict : Z) (l : list PhysReg) :
  forall fu fu',
    foldM (fun fu r => posvec_set fu r conflict) fu l = Ok fu' ->
    length fu' = length fu
    /\ forall n x, fu' !! n = Some x ->
                   fu !! n = Some x \/ (Reg n ∈ l /\ x = conflict).
Proof.
  induction l as [|r l IH]; intros fu fu' H.
  - inversion H; subst. auto.
  - cbn [foldM] in H. apply result_bind_Ok in H as (fu1 & H1 & H).
    apply posvec_set_Ok in H1 as (m & -> & Hm & ->).
    destruct (IH _ _ H) as [Hlen Hent].
    split; [rewrite Hlen; apply length_insert|].
    intros n x Hn. destruct (Hent n x Hn) as [Hold|[Hin Hx]].
    + destruct (decide (m = n)) as [->|Hne].
      * rewrite list_lookup_insert_eq in Hold by exact Hm.
        inversion Hold; subst x. right.
        split; [apply list_elem_of_here | reflexivity].
      * rewrite list_lookup_insert_ne in Hold by exact Hne. left. exact Hold.
    + right. split; [apply list_elem_of_further; exact Hin | exact Hx].
Qed.

(** After the registers of the active intervals have been zeroed. *)
Lemma mark_active (h : Heap) (l : list addr) :
  forall fu fu',
    foldM (fun fu a =>
             ivl ← deref (h !! a);
             posvec_set fu (Interval.reg ivl) 0) fu l = Ok fu' ->
    length fu' = length fu
    /\ forall n x, fu' !! n = Some x ->
         x = 0
         \/ (fu !! n = Some x
             /\ forall a i, a ∈ l -> h !! a = Some i ->
                            Interval.reg i <> Reg n).
Proof.
  induction l as [|a l IH]; intros fu fu' H.
  - inversion H; subst. split; [reflexivity|].
    intros n x Hn. right. split; [exact Hn|].
    intros a i Ha. inversion Ha.
  - cbn [foldM] in H. apply result_bind_Ok in H as (fu1 & H1 & H).
    apply result_bind_Ok in H1 as (ivl & Hivl & H1). apply deref_Ok in Hivl.
    apply posvec_set_Ok in H1 as (m & Hm & Hlt & ->).
    destruct (IH _ _ H) as [Hlen Hent].
    split; [rewrite Hlen; apply length_insert|].
    intros n x Hn. destruct (Hent n x Hn) as [Hz|[Hold Hno]];
      [left; exact Hz|].
    destruct (decide (m = n)) as [->|Hne].
    + rewrite list_lookup_insert_eq in Hold by exact Hlt.
      inversion Hold. left. reflexivity.
    + rewrite list_lookup_insert_ne in Hold by exact Hne.
      right. split; [exact Hold|].
      intros a' i Ha' Hi. apply elem_of_cons in Ha' as [->|Ha'].
      * rewrite Hivl in Hi. inversion Hi; subst i. congruence.
      * apply (Hno a' i Ha' Hi).
Qed.

(** After the inactive intervals have been looked at: an entry that is
    not 0 has not grown and is at or below the next intersection of
    [current] with every inactive interval that holds the register. *)
Lemma mark_inactives (h : Heap) (current : Interval) (l : list addr) :
  forall fu fu',
    foldM (mark_inactive h current) fu l = Ok fu' ->
    length fu' = length fu
    /\ (forall n, fu !! n = Some 0 -> fu' !! n = Some 0)
    /\ forall n x, fu' !! n = Some x ->
         x = 0
         \/ ((exists x0, fu !! n = Some x0 /\ x <= x0)
             /\ forall a i, a ∈ l -> h !! a = Some i ->
                            Interval.reg i = Reg n ->
                            exists until, nextIntersect current i = Ok until
                                          /\ x <= until).
Proof.
  induction l as [|a l IH]; intros fu fu' H.
  - inversion H; subst. split; [reflexivity|]. split; [auto|].
    intros n x Hn. right. split; [exists x; split; [exact Hn | lia]|].
    intros a i Ha. inversion Ha.
  - cbn [foldM] in H. apply result_bind_Ok in H as (fu1 & H1 & H).
    destruct (IH _ _ H) as (Hlen & Hzero & Hent). clear IH.
    unfold mark_inactive in H1.
    apply result_bind_Ok in H1 as (ivl & Hivl & H1). apply deref_Ok in Hivl.
    apply result_bind_Ok in H1 as (x1 & Hx1 & H1).
    apply posvec_get_Ok in Hx1 as (m & Hm & Hx1).
    destruct (x1 =? 0) eqn:E.
    + apply Z.eqb_eq in E. subst x1. inversion H1; subst fu1. clear H1.
      split; [exact Hlen|]. split; [exact Hzero|].
      intros n x Hn. destruct (Hent n x Hn) as [Hz|[(x0 & Hx0 & Hle) Hno]];
        [left; exact Hz|].
      destruct (decide (m = n)) as [->|Hne].
      * left. rewrite (Hzero n Hx1) in Hn. inversion Hn. reflexivity.
      * right. split; [eauto|].
        intros a' i Ha' Hi Hr. apply elem_of_cons in Ha' as [->|Ha'];
          [|apply (Hno a' i Ha' Hi Hr)].
        rewrite Hivl in Hi. inversion Hi; subst i. congruence.
    + apply Z.eqb_neq in E.
      apply result_bind_Ok in H1 as (until & Hu & H1).
      apply posvec_set_Ok in H1 as (m' & Hm' & Hlt & ->).
      rewrite Hm in Hm'. inversion Hm'; subst m'. clear Hm'.
      split; [rewrite Hlen; apply length_insert|]. split.
      { intros n Hn. apply Hzero.
        destruct (decide (m = n)) as [->|Hne]; [congruence|].
        rewrite list_lookup_insert_ne by exact Hne. exact Hn. }
      intros n x Hn. destruct (Hent n x Hn) as [Hz|[(x0 & Hx0 & Hle) Hno]];
        [left; exact Hz|].
      right. destruct (decide (m = n)) as [->|Hne].
      * rewrite list_lookup_insert_eq in Hx0 by exact Hlt.
        inversion Hx0; subst x0. split; [exists x1; split; [exact Hx1|lia]|].
        intros a' i Ha' Hi Hr. apply elem_of_cons in Ha' as [->|Ha'];
          [|apply (Hno a' i Ha' Hi Hr)].
        rewrite Hivl in Hi. inversion Hi; subst i.
        exists until. split; [exact Hu | lia].
      * rewrite list_lookup_insert_ne in Hx0 by exact Hne.
        split; [eauto|].
        intros a' i Ha' Hi Hr. apply elem_of_cons in Ha' as [->|Ha'];
          [|apply (Hno a' i Ha' Hi Hr)].
        rewrite Hivl in Hi. inversion Hi; subst i. congruence.
Qed.

(** The map that [allocate] fills before it chooses a register: an
    entry that is not 0 belongs to a register that satisfies the
    constraints of [current], that no active interval holds, and it is
    at or below both the position returned by [constrain] and the next
    intersection of [current] with every inactive interval that holds
    the register. *)
Theorem free_until_sound (abi : Abi) (nregs : nat) (st : Vxls)
    (current : Interval) (fu : PosVec) (conflict : Z) (allow : RegSet) :
  free_until_of abi nregs st current = Ok (fu, conflict, allow) ->
  (conflict, allow) = constrain abi current
  /\ length fu = nregs
  /\ forall n x, fu !! n = Some x -> x <> 0 ->
       Reg n ∈ allow /\ x <= conflict
       /\ (forall a i, a ∈ active st -> heap st !! a = Some i ->
                       Interval.reg i <> Reg n)
       /\ (forall a i, a ∈ inactive st -> heap st !! a = Some i ->
                       Interval.reg i = Reg n ->
                       exists until, nextIntersect current i = Ok until
                                     /\ x <= until).
Proof.
  unfold free_until_of. intros H.
  destruct (constrain abi current) as [c al] eqn:Ec.
  apply result_bind_Ok in H as (fu1 & H1 & H).
  apply result_bind_Ok in H as (fu2 & H2 & H).
  apply result_bind_Ok in H as (fu3 & H3 & H).
  inversion H; subst fu3 c al. clear H.
  destruct (mark_allowed _ _ _ _ H1) as [L1 E1].
  destruct (mark_active _ _ _ _ H2) as [L2 E2].
  destruct (mark_inactives _ _ _ _ _ H3) as (L3 & _ & E3).
  split; [reflexivity|].
  split; [rewrite L3, L2, L1; apply length_replicate|].
  intros n x Hn Hnz.
  destruct (E3 n x Hn) as [Hz|[(x2 & Hx2 & Hle) Hin]]; [congruence|].
  destruct (E2 n x2 Hx2) as [Hz|[Hx1 Hact]].
  - subst x2. destruct (mark_inactives _ _ _ _ _ H3) as (_ & Hzero & _).
    rewrite (Hzero n Hx2) in Hn. inversion Hn. congruence.
  - destruct (E1 n x2 Hx1) as [Hrep|[Hal Hc]].
    + apply lookup_replicate in Hrep as [-> _].
      destruct (mark_active _ _ _ _ H2) as [_ _].
      destruct (mark_inactives _ _ _ _ _ H3) as (_ & Hzero & _).
      rewrite (Hzero n Hx2) in Hn. inversion Hn. congruence.
    + subst x2. split; [apply elem_of_elements; exact Hal|].
      split; [exact Hle|]. split; [exact Hact | exact Hin].
Qed.

Lemma free_until_sound_witness :
  let abi := mkAbi {[Reg 0; Reg 1]} {[Reg 0; Reg 1]} ∅ ∅ in
  let mk := fun a b v r =>
              Interval.mk None None [LiveRange.mk a b]
                [mkUse Gpr a InvalidVreg] v a kInvalidSpillSlot false
                r false 0 in
  let current := mk 4 10 (Virt 0) InvalidReg in
  let h : Heap :=
    <[2%nat := mk 8 12 (Phys 1) (Reg 1)]>
      (<[1%nat := mk 0 6 (Virt 1) (Reg 0)]> {[0%nat := current]}) in
  let st := mkVxls h [] [1%nat] [2%nat] [0; 0] (mkSpillInfo 0 0) in
  exists fu conflict allow,
    free_until_of abi 3 st current = Ok (fu, conflict, allow)
    /\ fu = [0; 8; 0]
    /\ Reg 1 ∈ allow.
Proof.
  intros abi mk current h st.
  destruct (free_until_of abi 3 st current) as [[[fu c] al]|f] eqn:E;
    [|vm_compute in E; discriminate].
  assert (Hfu : fu = [0; 8; 0]).
  { vm_compute in E. inversion E. reflexivity. }
  exists fu, c, al. split; [reflexivity|]. split; [exact Hfu|].
  destruct (free_until_sound abi 3 st current fu c al E) as (_ & _ & H).
  apply (H 1%nat 8); [rewrite Hfu; reflexivity | discriminate].
Defined.

End FreeUntil.
(** ** Spill offsets along the edges *)

Section AnalyzeSP.

Lemma analyzeSP_succs (offset : Z) (l : list Vlabel) :
  forall vis so vis' so',
    foldM (analyzeSP_succ offset) (vis, so) l = Ok (vis', so') ->
    vis' = vis ∪ list_to_set l
    /\ length so' = length so
    /\ (forall s, s ∈ vis -> so' !! s = so !! s)
    /\ (forall s, s ∈ l -> so' !! s = Some offset).
Proof.
  induction l as [|s l IH]; intros vis so vis' so' H.
  - inversion H; subst. split; [set_solver|]. split; [reflexivity|].
    split; [auto|]. intros s Hs. inversion Hs.
  - cbn [foldM] in H. apply result_bind_Ok in H as ([vis1 so1] & H1 & H).
    destruct (IH _ _ _ _ H) as (Hv & Hl & Hfr & Hset). clear IH.
    unfold analyzeSP_succ in H1.
    destruct (bool_decide (s ∈ vis)) eqn:E.
    + apply bool_decide_eq_true in E.
      apply result_bind_Ok in H1 as (cur & Hcur & H1). apply deref_Ok in Hcur.
      apply result_bind_Ok in H1 as (u & Ha & H1).
      cbn [debug] in Ha. apply assertx_Ok, Z.eqb_eq in Ha. subst cur.
      inversion H1; subst vis1 so1. clear H1.
      split; [set_solver|]. split; [exact Hl|]. split; [exact Hfr|].
      intros s' Hs'. apply elem_of_cons in Hs' as [->|Hs']; [|auto].
      rewrite (Hfr s E). exact Hcur.
    + apply bool_decide_eq_false in E.
      destruct (s <? length so)%nat eqn:Eb; [|discriminate].
      apply Nat.ltb_lt in Eb.
      inversion H1; subst vis1 so1. clear H1.
      split; [set_solver|].
      split; [rewrite Hl; apply length_insert|]. split.
      * intros s' Hs'. rewrite (Hfr s') by set_solver.
        apply list_lookup_insert_ne. intros ->. contradiction.
      * intros s' Hs'. apply elem_of_cons in Hs' as [->|Hs']; [|auto].
        rewrite (Hfr s) by set_solver.
        apply list_lookup_insert_eq. exact Eb.
Qed.

Lemma targets_snoc (vunit : Vunit) (done : list Vlabel) (b : Vlabel)
    (blk : Vblock) :
  unit_blocks vunit !! b = Some blk ->
  targets vunit (done ++ [b]) = targets vunit done ∪ list_to_set (succs blk).
Proof.
  intros Hb. unfold targets. rewrite map_app, union_list_app_L.
  simpl. rewrite Hb. set_solver.
Qed.

Lemma analyzeSP_blocks (vunit : Vunit) (sp : PhysReg) (bs : list Vlabel) :
  forall done vis so vis' so',
    vis = targets vunit done ->
    foldM (analyzeSP_block vunit sp) (vis, so) bs = Ok (vis', so') ->
    length so' = length so
    /\ (forall s, s ∈ vis -> so' !! s = so !! s)
    /\ forall k b blk s,
         bs !! k = Some b -> unit_blocks vunit !! b = Some blk ->
         s ∈ succs blk ->
         exists off,
           sp_offset_after sp
             (if bool_decide (b ∈ targets vunit (done ++ take k bs))
              then default 0 (so' !! b) else 0) (code blk) = Ok off
           /\ so' !! s = Some off.
Proof.
  induction bs as [|b0 bs IH]; intros done vis so vis' so' Hvis H.
  - inversion H; subst. split; [reflexivity|]. split; [auto|].
    intros k b blk s Hk. rewrite lookup_nil in Hk. discriminate.
  - cbn [foldM] in H. apply result_bind_Ok in H as ([vis1 so1] & H1 & H).
    unfold analyzeSP_block in H1. cbn [fst snd] in H1.
    apply result_bind_Ok in H1 as (off0 & Hoff0 & H1).
    apply result_bind_Ok in H1 as (blk0 & Hblk0 & H1).
    apply deref_Ok in Hblk0.
    apply result_bind_Ok in H1 as (off & Hoff & H1).
    destruct (analyzeSP_succs _ _ _ _ _ _ H1) as (Hv1 & Hl1 & Hfr1 & Hset1).
    assert (Hvis1 : vis1 = targets vunit (done ++ [b0])).
    { rewrite (targets_snoc _ _ _ _ Hblk0), Hv1, Hvis. reflexivity. }
    destruct (IH (done ++ [b0]) _ _ _ _ Hvis1 H) as (Hl & Hfr & Hedges).
    clear IH.
    split; [rewrite Hl, Hl1; reflexivity|]. split.
    { intros s Hs. rewrite (Hfr s) by (rewrite Hv1; set_solver).
      apply (Hfr1 s Hs). }
    intros k b blk s Hk Hb Hs. destruct k as [|k].
    + simpl in Hk. inversion Hk; subst b0. clear Hk.
      rewrite Hblk0 in Hb. inversion Hb; subst blk0. clear Hb.
      cbn [take]. rewrite app_nil_r. rewrite <- Hvis.
      exists off. split.
      * destruct (bool_decide (b ∈ vis)) eqn:E; [|inversion Hoff0; subst;
                                                   exact Hoff].
        apply bool_decide_eq_true in E. apply deref_Ok in Hoff0.
        rewrite (Hfr b) by (rewrite Hv1; set_solver).
        rewrite (Hfr1 b E), Hoff0. exact Hoff.
      * rewrite (Hfr s) by (rewrite Hv1; set_solver).
        apply (Hset1 s Hs).
    + simpl in Hk. cbn [take].
      replace (done ++ b0 :: take k bs) with ((done ++ [b0]) ++ take k bs)
        by (rewrite <- app_assoc; reflexivity).
      apply (Hedges k b blk s Hk Hb Hs).
Qed.

(** [analyzeSP] gives every block of the unit one offset, and on
    success the offsets agree along the edges: for a block of [blocks]
    and each of its successors, the offset of the successor is the
    offset the block starts with less the [spEffect] of its
    instructions. The block starts with its own offset if an earlier
    block of [blocks] has it as a successor, and with 0 otherwise. *)
Theorem analyzeSP_edges (vunit : Vunit) (blocks : list Vlabel)
    (sp : PhysReg) (offs : list Z) :
  analyzeSP vunit blocks sp = Ok offs ->
  length offs = length (unit_blocks vunit)
  /\ forall k b blk s,
       blocks !! k = Some b -> unit_blocks vunit !! b = Some blk ->
       s ∈ succs blk ->
       exists off,
         sp_offset_after sp
           (if bool_decide (b ∈ targets vunit (take k blocks))
            then default 0 (offs !! b) else 0) (code blk) = Ok off
         /\ offs !! s = Some off.
Proof.
  unfold analyzeSP. intros H.
  apply result_bind_Ok in H as ([vis so] & H & Hr).
  inversion Hr; subst offs. clear Hr. cbn [snd].
  destruct (analyzeSP_blocks vunit sp blocks [] ∅ _ vis so eq_refl H)
    as (Hl & _ & Hedges).
  split; [rewrite Hl; apply length_replicate|].
  intros k b blk s Hk Hb Hs. apply (Hedges k b blk s Hk Hb Hs).
Qed.

Lemma analyzeSP_edges_witness :
  let ins := fun o => Vinstr.mk o [] [] [] [] in
  let b0 := mkBlock [ins Vinstr.push; ins Vinstr.other] [1%nat; 2%nat] in
  let b1 := mkBlock [ins Vinstr.other; ins Vinstr.other] [2%nat] in
  let b2 := mkBlock [ins Vinstr.other] [] in
  let vunit := mkUnit [b0; b1; b2] [] 0%nat in
  exists offs,
    analyzeSP vunit [0; 1; 2]%nat (Reg 4) = Ok offs
    /\ offs = [0; 8; 8]
    /\ length offs = 3%nat.
Proof.
  intros ins b0 b1 b2 vunit.
  destruct (analyzeSP vunit [0; 1; 2]%nat (Reg 4)) as [offs|f] eqn:E;
    [|vm_compute in E; discriminate].
  exists offs. split; [reflexivity|].
  split; [vm_compute in E; inversion E; reflexivity|].
  apply (analyzeSP_edges vunit [0; 1; 2]%nat (Reg 4) offs E).
Defined.

End AnalyzeSP.
(** ** The live sets that [buildIntervals] accepts *)

Section Liveness.

Lemma def_live (q : Z) (st st' : BuildState) (r : Vreg) (k : Constraint)
    (h : Vreg) (w : bool) :
  def_ q st r k h w = Ok st' -> st'.2 = st.2 ∖ {[r]}.
Proof.
  destruct st as [ivs live]. unfold def_. intros H.
  apply result_bind_Ok in H as ([ivl live'] & H1 & H).
  inversion H; subst st'. clear H. cbn [snd].
  destruct (bool_decide (r ∈ live)) eqn:E.
  - apply result_bind_Ok in H1 as (i0 & _ & H1).
    apply result_bind_Ok in H1 as (b & _ & H1).
    inversion H1; subst. reflexivity.
  - apply bool_decide_eq_false in E. inversion H1; subst. set_solver.
Qed.

Lemma use_live (inst : Vinstr) (range : LiveRange) (st : BuildState)
    (r : Vreg) (k : Constraint) (e : Z) (h : Vreg) :
  (use_ inst range st r k e h).2 = st.2 ∪ {[r]}.
Proof. destruct st as [ivs live]. reflexivity. Qed.

Lemma visit_defs_live (sf0 : Vreg) (inst : Vinstr) (q : Z)
    (st st' : BuildState) :
  visit_defs sf0 inst q st = Ok st' -> st'.2 = live_defs sf0 inst st.2.
Proof.
  unfold visit_defs, live_defs. intros H.
  apply result_bind_Ok in H as (st1 & H1 & H2).
  assert (E1 : st1.2
               = foldl (fun l o =>
                          match o with
                          | Vinstr.ODef r k _ _ => l ∖ {[rename_sf sf0 r k]}
                          | _ => l
                          end) st.2 (Vinstr.operands inst)).
  { clear H2. revert st H1.
    induction (Vinstr.operands inst) as [|o ops IH]; intros st H1.
    - inversion H1; subst. reflexivity.
    - cbn [foldM] in H1. apply result_bind_Ok in H1 as (s0 & H0 & H1).
      cbn [foldl]. rewrite (IH _ H1). f_equal.
      destruct o; try (inversion H0; subst; reflexivity).
      apply (def_live _ _ _ _ _ _ _ H0). }
  rewrite <- E1. clear E1 H1. revert st1 H2.
  induction (Vinstr.implicit_defs inst) as [|r rs IH]; intros st1 H2.
  - inversion H2; subst. reflexivity.
  - cbn [foldM] in H2. apply result_bind_Ok in H2 as (s0 & H0 & H2).
    cbn [foldl]. rewrite (IH _ H2). f_equal.
    apply (def_live _ _ _ _ _ _ _ H0).
Qed.

Lemma visit_uses_live (sf0 : Vreg) (inst : Vinstr) (range : LiveRange)
    (st : BuildState) :
  (visit_uses sf0 inst range st).2 = live_uses sf0 inst st.2.
Proof.
  unfold visit_uses, live_uses.
  assert (Hfold : forall {B} (f : BuildState -> B -> BuildState)
                         (g : LiveSet -> B -> LiveSet) (l : list B),
             (forall s x, (f s x).2 = g s.2 x) ->
             forall s, (foldl f s l).2 = foldl g s.2 l).
  { intros B f g l Hfg. induction l as [|x l IH]; intros s; [reflexivity|].
    cbn [foldl]. rewrite IH, Hfg. reflexivity. }
  rewrite (Hfold _ _ (fun l r => l ∪ {[r]}));
    [|intros s x; apply use_live].
  rewrite (Hfold _ _ (fun l r => l ∪ {[r]}));
    [|intros s x; apply use_live].
  rewrite (Hfold _ _ (fun l o =>
                        match o with
                        | Vinstr.OUse r k _ => l ∪ {[rename_sf sf0 r k]}
                        | Vinstr.OAcross r _ => l ∪ {[r]}
                        | _ => l
                        end)); [reflexivity|].
  intros s o. destruct o; [reflexivity | apply use_live | apply use_live].
Qed.

Lemma build_code_live (sf0 : Vreg) (range : LiveRange) (l : list Vinstr) :
  forall st p acc',
    foldM (build_inst sf0 range) (st, p) l = Ok acc' ->
    acc'.1.2 = foldl (liveness_inst sf0) st.2 l.
Proof.
  induction l as [|inst l IH]; intros st p acc' H.
  - inversion H; subst. reflexivity.
  - cbn [foldM] in H. apply result_bind_Ok in H as ([st1 p1] & H1 & H).
    cbn [foldl]. rewrite (IH _ _ _ H). f_equal.
    unfold build_inst in H1.
    apply result_bind_Ok in H1 as (st0 & H0 & H1).
    inversion H1; subst st1 p1. clear H1.
    rewrite visit_uses_live. unfold liveness_inst.
    rewrite (visit_defs_live _ _ _ _ _ H0). reflexivity.
Qed.

Lemma live_out_liveness (ctx : VxlsContext) (ss : list Vlabel) :
  forall live0 live,
    foldM (fun live s =>
             l ← deref (livein ctx !! s);
             match l with
             | None => Fail AssertFailed
             | Some ls => Ok (live ∪ ls)
             end) live0 ss = Ok live ->
    foldM (fun live s =>
             l ← deref (livein ctx !! s);
             Ok (match l with
                 | Some ls => live ∪ ls
                 | None => live
                 end)) live0 ss = Ok live.
Proof.
  induction ss as [|s ss IH]; intros live0 live H; [exact H|].
  cbn [foldM] in *. apply result_bind_Ok in H as (l1 & H1 & H).
  apply result_bind_Ok in H1 as (o & Ho & H1).
  rewrite Ho. cbn [mbind result_bind].
  destruct o as [ls|]; [|discriminate].
  inversion H1; subst l1. apply (IH _ _ H).
Qed.

Lemma build_block_liveness (sf0 : Vreg) (vunit : Vunit) (ctx : VxlsContext)
    (ivs ivs' : Intervals) (b : Vlabel) :
  build_block sf0 vunit ctx ivs b = Ok ivs' ->
  exists live, liveness_block sf0 vunit (livein ctx) b = Ok live
               /\ livein ctx !! b = Some (Some live).
Proof.
  intros H. unfold build_block in H.
  apply result_bind_Ok in H as (blk & Hblk & H).
  apply result_bind_Ok in H as (live & Hlive & H).
  apply result_bind_Ok in H as (br & _ & H).
  apply result_bind_Ok in H as ([[ivs2 live2] p2] & Hfold & H).
  apply result_bind_Ok in H as (lin & Hlin & H). apply deref_Ok in Hlin.
  apply result_bind_Ok in H as (u & Ha & H).
  apply assertx_Ok, bool_decide_eq_true in Ha. subst lin.
  apply build_code_live in Hfold. cbn [fst snd] in Hfold.
  exists live2. split; [|exact Hlin].
  unfold liveness_block. rewrite Hblk. cbn [mbind result_bind].
  unfold live_out in Hlive.
  rewrite (live_out_liveness ctx _ _ _ Hlive). cbn [mbind result_bind].
  rewrite Hfold. reflexivity.
Qed.

Lemma build_blocks_liveness (sf0 : Vreg) (vunit : Vunit)
    (ctx : VxlsContext) (l : list Vlabel) :
  forall ivs ivs',
    foldM (build_block sf0 vunit ctx) ivs l = Ok ivs' ->
    forall b, b ∈ l ->
      exists live, liveness_block sf0 vunit (livein ctx) b = Ok live
                   /\ livein ctx !! b = Some (Some live).
Proof.
  induction l as [|b0 l IH]; intros ivs ivs' H b Hb; [inversion Hb|].
  cbn [foldM] in H. apply result_bind_Ok in H as (ivs1 & H1 & H).
  apply elem_of_cons in Hb as [->|Hb].
  - apply (build_block_liveness _ _ _ _ _ _ H1).
  - apply (IH _ _ H b Hb).
Qed.

(** [buildIntervals] returns only for live-in sets that solve the
    liveness equations: for every block of [ctx.blocks] the step of
    [computeLiveness] (the union of the live-in sets of the successors,
    walked backwards through the defs and uses of the block) gives again
    the live-in set of the block, so it would change nothing. *)
Theorem buildIntervals_liveness (sf0 : Vreg) (vunit : Vunit)
    (ctx : VxlsContext) (m : Intervals) :
  buildIntervals sf0 vunit ctx = Ok m ->
  forall b, b ∈ blocks ctx ->
    exists live, liveness_block sf0 vunit (livein ctx) b = Ok live
                 /\ livein ctx !! b = Some (Some live).
Proof.
  intros H b Hb. unfold buildIntervals in H.
  apply result_bind_Ok in H as (ivs1 & H1 & _).
  apply (build_blocks_liveness _ _ _ _ _ _ H1 b).
  apply elem_of_rev_iff. exact Hb.
Qed.

Lemma buildIntervals_liveness_witness :
  let v := Virt 0 in
  let ins := fun ops => Vinstr.mk Vinstr.other ops [] [] [] in
  let b0 := mkBlock [ins [Vinstr.ODef v Any InvalidVreg false]; ins []]
                    [1%nat; 2%nat] in
  let b1 := mkBlock [Vinstr.mk Vinstr.nop [] [] [] [];
                     ins [Vinstr.OUse v Any InvalidVreg]; ins []] [] in
  let vunit := mkUnit [b0; b1; b1] [] 0%nat in
  let ctx := mkContext (Reg 4) [0; 1; 2]%nat
               [LiveRange.mk 0 4; LiveRange.mk 4 10; LiveRange.mk 10 16]
               [0; 0; 0] [Some ∅; Some {[v]}; Some {[v]}] in
  exists live, liveness_block (Phys 99) vunit (livein ctx) 1%nat = Ok live
               /\ livein ctx !! 1%nat = Some (Some live).
Proof.
  intros v ins b0 b1 vunit ctx.
  destruct (buildIntervals (Phys 99) vunit ctx) as [m|f] eqn:Hb;
    [|vm_compute in Hb; discriminate].
  apply (buildIntervals_liveness (Phys 99) vunit ctx m Hb 1%nat).
  apply list_elem_of_further, list_elem_of_here.
Defined.

End Liveness.
(** ** The states of the spill space *)

Section SpillStates.

Lemma spill_walk_NoSpill (sp : PhysReg) (code : list Vinstr) :
  spill_walk sp NoSpill code
  = Ok (if existsb (fun inst => instrNeedsSpill inst sp) code
        then NeedSpill else NoSpill).
Proof.
  induction code as [|inst code IH]; [reflexivity|].
  cbn [spill_walk existsb instrInState].
  destruct (instrNeedsSpill inst sp); cbn [mbind result_bind orb].
  - reflexivity.
  - rewrite bool_decide_eq_false_2 by discriminate. exact IH.
Qed.

(** The analysis of a block in [allocateSpillSpace]: from a [NoSpill]
    in-state the out-state is [NeedSpill] exactly when some instruction
    of the block needs spill space, and [NoSpill] otherwise; a
    [NeedSpill] in-state is passed on; an uninitialized in-state is
    passed on by an empty block and stops at the failed [always_assert]
    of [instrInState] otherwise. Merging an out-state into an in-state
    never lowers the in-state, yields the higher of the two, reports a
    change exactly when the in-state went up, and merging the same state
    again changes nothing. *)
Theorem spill_state_analysis (sp : PhysReg) (code : list Vinstr) :
  block_out_state sp NoSpill code
  = Ok (if existsb (fun inst => instrNeedsSpill inst sp) code
        then NeedSpill else NoSpill)
  /\ block_out_state sp NeedSpill code = Ok NeedSpill
  /\ block_out_state sp Uninit code
     = (if bool_decide (code = []) then Ok Uninit else Fail AssertFailed)
  /\ forall dst src changed dst',
       mergeSpillStates dst src = Ok (changed, dst') ->
       src <> Uninit
       /\ dst' = spill_max dst src
       /\ (spill_rank dst <= spill_rank dst')%nat
       /\ (spill_rank src <= spill_rank dst')%nat
       /\ (changed = true <-> dst' <> dst)
       /\ mergeSpillStates dst' src = Ok (false, dst').
Proof.
  split; [apply spill_walk_NoSpill|]. split; [reflexivity|]. split.
  - destruct code; reflexivity.
  - intros dst src changed dst' H.
    destruct dst, src; vm_compute in H; inversion H; subst;
      repeat split; try discriminate; try reflexivity;
      try (simpl; lia); intros; congruence.
Qed.

Lemma spill_state_analysis_witness :
  mergeSpillStates NoSpill NeedSpill = Ok (true, NeedSpill)
  /\ mergeSpillStates NeedSpill NeedSpill = Ok (false, NeedSpill).
Proof.
  split; [reflexivity|].
  destruct (spill_state_analysis (Reg 4) []) as (_ & _ & _ & H).
  apply (H NoSpill NeedSpill true NeedSpill eq_refl).
Defined.

(** The mutation of a block with a [NoSpill] in-state: when some
    instruction needs spill space, [alloc] is put right before the first
    such instruction and nothing else changes; when none does, the code
    is left as it is. *)
Theorem insert_alloc_first (sp : PhysReg) (alloc : Vinstr)
    (code : list Vinstr) :
  (existsb (fun inst => instrNeedsSpill inst sp) code = true ->
   exists pre inst post,
     code = pre ++ inst :: post
     /\ forallb (fun i => negb (instrNeedsSpill i sp)) pre = true
     /\ instrNeedsSpill inst sp = true
     /\ insert_alloc sp alloc NoSpill code
        = Ok (pre ++ alloc :: inst :: post))
  /\ (existsb (fun inst => instrNeedsSpill inst sp) code = false ->
      insert_alloc sp alloc NoSpill code = Ok code).
Proof.
  induction code as [|inst code [IH1 IH2]].
  - split; [discriminate | reflexivity].
  - cbn [existsb insert_alloc instrInState].
    destruct (instrNeedsSpill inst sp) eqn:E; cbn [orb mbind result_bind].
    + split; [|discriminate]. intros _.
      exists [], inst, code. repeat split; try reflexivity. exact E.
    + rewrite bool_decide_eq_false_2 by discriminate. split.
      * intros Hex. destruct (IH1 Hex) as (pre & i & post & Hc & Hp & Hi & Hr).
        exists (inst :: pre), i, post. rewrite Hr. cbn [mbind result_bind].
        split; [rewrite Hc; reflexivity|].
        split; [simpl; rewrite E; exact Hp|]. split; [exact Hi|reflexivity].
      * intros Hno. rewrite (IH2 Hno). reflexivity.
Qed.

Lemma insert_alloc_first_witness :
  let sp := Reg 4 in
  let ins := fun o ops => Vinstr.mk o ops [] [] [] in
  let alloc := ins (Vinstr.lea (Phys 4) InvalidVreg (-16) (Phys 4))
                   [Vinstr.OUse (Phys 4) Gpr InvalidVreg;
                    Vinstr.ODef (Phys 4) Gpr InvalidVreg false] in
  let code := [ins Vinstr.other []; ins Vinstr.push []; ins Vinstr.other []] in
  insert_alloc sp alloc NoSpill code
  = Ok [ins Vinstr.other []; alloc; ins Vinstr.push []; ins Vinstr.other []]
  /\ exists pre inst post,
       code = pre ++ inst :: post
       /\ instrNeedsSpill inst sp = true
       /\ insert_alloc sp alloc NoSpill code
          = Ok (pre ++ alloc :: inst :: post).
Proof.
  intros sp ins alloc code. split; [reflexivity|].
  destruct (insert_alloc_first sp alloc code) as [H _].
  destruct (H eq_refl) as (pre & inst & post & H1 & _ & H2 & H3).
  exists pre, inst, post. auto.
Defined.

End SpillStates.
(** ** The layout made by [computePositions] *)

Section ComputePositions.

Lemma positioned_ext (u1 u2 u' : Vunit) (rs : list LiveRange)
    (bs : list Vlabel) :
  (forall b, b ∈ bs -> unit_blocks u1 !! b = unit_blocks u2 !! b) ->
  forall cur e, positioned u1 u' rs cur bs e -> positioned u2 u' rs cur bs e.
Proof.
  induction bs as [|b bs IH]; intros Heq cur e H; [exact H|].
  destruct H as (blk & front & H1 & H2 & H3 & H4 & H5).
  exists blk, front. rewrite <- (Heq b (list_elem_of_here _ _)).
  repeat (split; [assumption|]).
  apply IH; [|exact H5].
  intros b' Hb'. apply Heq. apply list_elem_of_further. exact Hb'.
Qed.

Lemma code_total_ext (u1 u2 : Vunit) (bs : list Vlabel) :
  (forall b, b ∈ bs -> unit_blocks u1 !! b = unit_blocks u2 !! b) ->
  code_total u1 bs = code_total u2 bs.
Proof.
  unfold code_total. induction bs as [|b bs IH]; intros Heq; [reflexivity|].
  cbn [map sum_list]. rewrite (Heq b (list_elem_of_here _ _)).
  rewrite IH; [reflexivity|].
  intros b' Hb'. apply Heq. apply list_elem_of_further. exact Hb'.
Qed.

Lemma length_positioned_code (c : list Vinstr) (front : Vinstr) :
  (length c <= length (positioned_code c front) <= S (length c))%nat.
Proof.
  unfold positioned_code. destruct (front_uses front); simpl; lia.
Qed.

Lemma computePositions_fold (bs : list Vlabel) :
  forall u rs pos u' rs' pos',
    NoDup bs ->
    length rs = length (unit_blocks u) ->
    0 <= pos ->
    pos + 2 * (Z.of_nat (code_total u bs) + Z.of_nat (length bs))
    <= kMaxPos ->
    foldM computePositions_block (u, rs, pos) bs = Ok (u', rs', pos') ->
    length rs' = length rs
    /\ length (unit_blocks u') = length (unit_blocks u)
    /\ constToReg u' = constToReg u /\ entry u' = entry u
    /\ (forall b, b ∉ bs ->
          unit_blocks u' !! b = unit_blocks u !! b /\ rs' !! b = rs !! b)
    /\ pos <= pos'
       <= pos + 2 * (Z.of_nat (code_total u bs) + Z.of_nat (length bs))
    /\ positioned u u' rs' pos bs pos'.
Proof.
  induction bs as [|b bs IH]; intros u rs pos u' rs' pos' Hnd Hlen Hpos Hmax H.
  - inversion H; subst. simpl. repeat split; try reflexivity; lia.
  - cbn [foldM] in H.
    apply result_bind_Ok in H as ([[u1 rs1] pos1] & H1 & H).
    unfold computePositions_block in H1.
    apply result_bind_Ok in H1 as (blk & Hblk & H1). apply deref_Ok in Hblk.
    apply result_bind_Ok in H1 as (front & Hfront & H1).
    apply deref_Ok in Hfront.
    inversion H1; subst u1 rs1 pos1. clear H1.
    set (code' := positioned_code (code blk) front) in *.
    pose proof (length_positioned_code (code blk) front) as Hcl.
    fold code' in Hcl.
    apply NoDup_cons in Hnd as [Hnotin Hnd].
    pose proof (lookup_lt_Some _ _ _ Hblk) as Hb.
    assert (Heq1 : forall b', b' ∈ bs ->
              unit_blocks
                (set_unit_blocks (<[b := set_code code' blk]> (unit_blocks u))
                                 u) !! b'
              = unit_blocks u !! b').
    { intros b' Hb'. cbn [unit_blocks set_unit_blocks].
      apply list_lookup_insert_ne.
      intros ->. contradiction. }
    assert (Htot : code_total u (b :: bs)
                   = (length (code blk) + code_total u bs)%nat).
    { unfold code_total. cbn [map sum_list]. rewrite Hblk. reflexivity. }
    rewrite Htot in Hmax. cbn [length] in Hmax.
    assert (Hwrap : wrap (pos + 2 * Z.of_nat (length code'))
                    = pos + 2 * Z.of_nat (length code')).
    { unfold wrap, kMaxPos in *. apply Z.mod_small. lia. }
    rewrite Hwrap in H.
    apply IH in H; [|exact Hnd
                     |cbn [unit_blocks set_unit_blocks];
                      rewrite !length_insert; exact Hlen | lia |].
    2:{ rewrite (code_total_ext _ u bs Heq1). lia. }
    destruct H as (L1 & L2 & C1 & C2 & Hother & Hrange & Hpd).
    rewrite (code_total_ext _ u bs Heq1) in Hrange.
    cbn [unit_blocks set_unit_blocks] in L2.
    rewrite length_insert in L1. rewrite length_insert in L2.
    split; [exact L1|]. split; [exact L2|].
    split; [exact C1|]. split; [exact C2|]. split.
    { intros b' Hb'. apply not_elem_of_cons in Hb' as [Hne Hb'].
      destruct (Hother b' Hb') as [O1 O2].
      cbn [unit_blocks set_unit_blocks] in O1.
      rewrite list_lookup_insert_ne in O1 by congruence.
      rewrite list_lookup_insert_ne in O2 by congruence. auto. }
    split; [rewrite Htot; cbn [length]; lia|].
    destruct (Hother b Hnotin) as [O1 O2].
    cbn [unit_blocks set_unit_blocks] in O1.
    rewrite list_lookup_insert_eq in O1 by exact Hb.
    rewrite list_lookup_insert_eq in O2 by lia.
    exists blk, front. fold code'.
    repeat (split; [assumption|]).
    apply (positioned_ext _ u u' rs' bs Heq1). exact Hpd.
Qed.

(** [computePositions] on distinct blocks whose instructions, with one
    more per block, take fewer than [kMaxPos] positions: each block
    keeps its code, with a [nop] in front if its first instruction has a
    use; the ranges of the blocks follow each other in the order of
    [blocks], from position 0, two positions per instruction; the blocks
    that are not listed, the constants and the entry of the unit are
    unchanged. *)
Theorem computePositions_layout (vunit u' : Vunit) (blocks : list Vlabel)
    (rs : list LiveRange) :
  NoDup blocks ->
  2 * (Z.of_nat (code_total vunit blocks) + Z.of_nat (length blocks))
  <= kMaxPos ->
  computePositions vunit blocks = Ok (u', rs) ->
  length rs = length (unit_blocks vunit)
  /\ constToReg u' = constToReg vunit /\ entry u' = entry vunit
  /\ (forall b, b ∉ blocks -> unit_blocks u' !! b = unit_blocks vunit !! b)
  /\ exists e,
       positioned vunit u' rs 0 blocks e
       /\ 0 <= e
          <= 2 * (Z.of_nat (code_total vunit blocks)
                  + Z.of_nat (length blocks)).
Proof.
  intros Hnd Hmax H. unfold computePositions in H.
  apply result_bind_Ok in H as ([[u1 rs1] pos1] & H & Hr).
  inversion Hr; subst u' rs. clear Hr.
  apply computePositions_fold in H;
    [|exact Hnd | apply length_replicate | lia | lia].
  destruct H as (L1 & L2 & C1 & C2 & Hother & Hrange & Hpd).
  rewrite length_replicate in L1.
  split; [exact L1|]. split; [exact C1|]. split; [exact C2|].
  split; [intros b Hb; apply (Hother b Hb)|].
  exists pos1. split; [exact Hpd | lia].
Qed.

Lemma computePositions_layout_witness :
  let ins := fun ops => Vinstr.mk Vinstr.other ops [] [] [] in
  let b0 := mkBlock [ins [Vinstr.ODef (Virt 0) Any InvalidVreg false]; ins []]
                    [1%nat] in
  let b1 := mkBlock [ins [Vinstr.OUse (Virt 0) Any InvalidVreg]; ins []] [] in
  let vunit := mkUnit [b0; b1] [] 0%nat in
  exists u' rs,
    computePositions vunit [0; 1]%nat = Ok (u', rs)
    /\ rs = [LiveRange.mk 0 4; LiveRange.mk 4 10]
    /\ length rs = length (unit_blocks vunit).
Proof.
  intros ins b0 b1 vunit.
  destruct (computePositions vunit [0; 1]%nat) as [[u' rs]|f] eqn:E;
    [|vm_compute in E; discriminate].
  exists u', rs. split; [reflexivity|].
  split; [vm_compute in E; inversion E; reflexivity|].
  apply (computePositions_layout vunit u' [0; 1]%nat rs); [| |exact E].
  - repeat constructor; set_solver.
  - vm_compute. discriminate.
Defined.

Lemma positioned_ranges (u u' : Vunit) (rs : list LiveRange)
    (bs : list Vlabel) :
  forall cur e,
    positioned u u' rs cur bs e ->
    cur <= e
    /\ forall k b, bs !! k = Some b ->
         exists r, rs !! b = Some r
                   /\ cur <= LiveRange.start r
                   /\ LiveRange.start r <= LiveRange.end_ r
                   /\ LiveRange.end_ r <= e
                   /\ forall j b' r', (k < j)%nat -> bs !! j = Some b' ->
                                      rs !! b' = Some r' ->
                                      LiveRange.end_ r <= LiveRange.start r'.
Proof.
  induction bs as [|b bs IH]; intros cur e H.
  - simpl in H. subst e. split; [lia|].
    intros k b Hk. rewrite lookup_nil in Hk. discriminate.
  - destruct H as (blk & front & H1 & H2 & H3 & H4 & H5).
    destruct (IH _ _ H5) as [Hle Hall]. split; [lia|].
    intros k b0 Hk. destruct k as [|k].
    + simpl in Hk. inversion Hk; subst b0. eexists. split; [exact H4|].
      cbn [LiveRange.start LiveRange.end_].
      split; [lia|]. split; [lia|]. split; [lia|].
      intros j b' r' Hj Hb' Hr'. destruct j as [|j]; [lia|].
      simpl in Hb'. destruct (Hall j b' Hb') as (r & Hr & Hs & _).
      rewrite Hr in Hr'. inversion Hr'; subst r'. exact Hs.
    + simpl in Hk. destruct (Hall k b0 Hk) as (r & Hr & Hs & Hne & He & Hnext).
      exists r. split; [exact Hr|]. split; [lia|]. split; [exact Hne|].
      split; [exact He|].
      intros j b' r' Hj Hb' Hr'. destruct j as [|j]; [lia|].
      simpl in Hb'. apply (Hnext j b' r'); [lia | exact Hb' | exact Hr'].
Qed.

Lemma visitUses_nil_no_use (inst : Vinstr) :
  visitUses inst = [] ->
  forallb (fun o => match o with
                    | Vinstr.OUse _ _ _ => false
                    | _ => true
                    end) (Vinstr.operands inst) = true.
Proof.
  unfold visitUses. induction (Vinstr.operands inst) as [|o ops IH];
    [reflexivity|].
  cbn [omap list_omap forallb]. destruct o; simpl; try discriminate.
  exact IH.
Qed.

Lemma positioned_layout_end (u u' : Vunit) (ctx : VxlsContext)
    (bs : list Vlabel) :
  (forall b blk front,
     b ∈ bs -> unit_blocks u !! b = Some blk ->
     head (code blk) = Some front -> front_uses front = false ->
     Vinstr.implicit_uses front = []) ->
  forall cur e,
    positioned u u' (block_ranges ctx) cur bs e ->
    layout_end u' ctx cur bs = Some e.
Proof.
  induction bs as [|b bs IH]; intros Himp cur e H.
  - simpl in H. subst e. reflexivity.
  - destruct H as (blk & front & H1 & H2 & H3 & H4 & H5).
    cbn [layout_end]. rewrite H3, H4. cbn [mbind option_bind].
    cbn [LiveRange.start LiveRange.end_ code set_code].
    rewrite Z.eqb_refl, Z.eqb_refl. cbn [andb].
    assert (Hfront : no_front_use
                       (set_code (positioned_code (code blk) front) blk)
                     = true).
    { unfold no_front_use, positioned_code. cbn [code set_code].
      destruct (front_uses front) eqn:Ef; [reflexivity|].
      destruct (code blk) as [|i0 c] eqn:Ec; [discriminate|].
      simpl in H2. inversion H2; subst i0.
      unfold no_use. apply andb_true_intro. split.
      - apply visitUses_nil_no_use. unfold front_uses in Ef.
        apply negb_false_iff, bool_decide_eq_true in Ef. exact Ef.
      - apply bool_decide_eq_true.
        apply (Himp b blk front (list_elem_of_here _ _) H1); [|exact Ef].
        rewrite Ec. reflexivity. }
    rewrite Hfront. apply IH; [|exact H5].
    intros b' blk' front' Hb'. apply Himp.
    apply list_elem_of_further. exact Hb'.
Qed.

(** The layout of [computePositions] is the one the later passes rely
    on: in the context that holds it, the block ranges follow each other
    in the order of [blocks], which is what the binary search of
    [blockFor] needs; and if no instruction at the head of a block has
    implicit uses without having a use operand, the layout is the one
    [buildIntervals] is verified for. *)
Theorem computePositions_sorted (vunit u' : Vunit) (blocks : list Vlabel)
    (rs : list LiveRange) (sp0 : PhysReg) (offs : list Z)
    (lin : list (option LiveSet)) :
  NoDup blocks ->
  2 * (Z.of_nat (code_total vunit blocks) + Z.of_nat (length blocks))
  < kMaxPos ->
  computePositions vunit blocks = Ok (u', rs) ->
  blocks_sorted (mkContext sp0 blocks rs offs lin)
  /\ ((forall b blk front,
         b ∈ blocks -> unit_blocks vunit !! b = Some blk ->
         head (code blk) = Some front -> front_uses front = false ->
         Vinstr.implicit_uses front = []) ->
      layout_ok u' (mkContext sp0 blocks rs offs lin) = true).
Proof.
  intros Hnd Hmax H. unfold computePositions in H.
  apply result_bind_Ok in H as ([[u1 rs1] pos1] & H & Hr).
  inversion Hr; subst u' rs. clear Hr.
  apply computePositions_fold in H;
    [|exact Hnd | apply length_replicate | lia | lia].
  destruct H as (_ & _ & _ & _ & _ & Hrange & Hpd).
  destruct (positioned_ranges _ _ _ _ _ _ Hpd) as [_ Hall].
  split.
  - split; simpl.
    + intros i bi Hi. destruct (Hall i bi Hi) as (r & Hr & _ & Hne & _).
      exists r. auto.
    + intros i j bi bj ri rj Hij Hi Hj Hri Hrj.
      destruct (Hall i bi Hi) as (r & Hr & _ & _ & _ & Hnext).
      rewrite Hri in Hr. inversion Hr; subst r.
      apply (Hnext j bj rj Hij Hj Hrj).
  - intros Himp. unfold layout_ok. simpl.
    rewrite (positioned_layout_end vunit u1
               (mkContext sp0 blocks rs1 offs lin) blocks Himp 0 pos1 Hpd).
    apply Z.ltb_lt. lia.
Qed.

Lemma computePositions_sorted_witness :
  let ins := fun ops => Vinstr.mk Vinstr.other ops [] [] [] in
  let b0 := mkBlock [ins [Vinstr.ODef (Virt 0) Any InvalidVreg false]; ins []]
                    [1%nat] in
  let b1 := mkBlock [ins [Vinstr.OUse (Virt 0) Any InvalidVreg]; ins []] [] in
  let vunit := mkUnit [b0; b1] [] 0%nat in
  exists u' rs,
    computePositions vunit [0; 1]%nat = Ok (u', rs)
    /\ layout_ok u' (mkContext (Reg 4) [0; 1]%nat rs [0; 0] []) = true.
Proof.
  intros ins b0 b1 vunit.
  destruct (computePositions vunit [0; 1]%nat) as [[u' rs]|f] eqn:E;
    [|vm_compute in E; discriminate].
  exists u', rs. split; [reflexivity|].
  apply (computePositions_sorted vunit u' [0; 1]%nat rs (Reg 4) [0; 0] []);
    [| |exact E|].
  - repeat constructor; set_solver.
  - vm_compute. reflexivity.
  - intros b blk front Hb Hblk Hfront _.
    destruct b as [|[|b]]; inversion Hblk; subst blk;
      inversion Hfront; subst front; reflexivity.
Defined.

End ComputePositions.

(** ** The choice of a register for an interval *)

Section Allocate.

Lemma regs_kept_refl (h : Heap) : regs_kept h h.
Proof. intros a i H. exists i. auto. Qed.

Lemma regs_kept_trans (h1 h2 h3 : Heap) :
  regs_kept h1 h2 -> regs_kept h2 h3 -> regs_kept h1 h3.
Proof.
  intros H12 H23 a i Hi.
  destruct (H12 a i Hi) as (i2 & Hi2 & Hv2 & Hr2).
  destruct (H23 a i2 Hi2) as (i3 & Hi3 & Hv3 & Hr3).
  exists i3. split; [exact Hi3|]. split; [congruence|].
  destruct Hr3 as [Hr3|Hr3]; [|right; exact Hr3].
  destruct Hr2 as [Hr2|Hr2]; [left|right]; congruence.
Qed.

Lemma regs_kept_insert (h : Heap) (a : addr) (i j : Interval) :
  h !! a = Some i ->
  Interval.vreg j = Interval.vreg i ->
  Interval.reg j = Interval.reg i \/ Interval.reg j = InvalidReg ->
  regs_kept h (<[a := j]> h).
Proof.
  intros Hi Hv Hr b k Hk. destruct (decide (a = b)) as [->|Hne].
  - rewrite Hi in Hk. inversion Hk; subst k.
    exists j. rewrite lookup_insert_eq. auto.
  - exists k. rewrite lookup_insert_ne by exact Hne. auto.
Qed.

Lemma regs_kept_step (h h' : Heap) (a : addr) (j : Interval) :
  regs_kept h h' ->
  (forall i, h !! a = Some i ->
     Interval.vreg j = Interval.vreg i
     /\ (Interval.reg j = Interval.reg i \/ Interval.reg j = InvalidReg)) ->
  regs_kept h (<[a := j]> h').
Proof.
  intros K Hj b k Hk. destruct (decide (a = b)) as [->|Hne].
  - exists j. rewrite lookup_insert_eq. destruct (Hj k Hk). auto.
  - rewrite lookup_insert_ne by exact Hne. apply (K b k Hk).
Qed.

Lemma regs_kept_fresh (h : Heap) (c : addr) (j : Interval) :
  h !! c = None -> regs_kept h (<[c := j]> h).
Proof.
  intros Hc b k Hk. exists k.
  rewrite lookup_insert_ne by congruence. auto.
Qed.

(** [split] changes the ranges, the uses and the link of [self] and
    stores one new interval. *)
Lemma split_frame (h h' : Heap) (self c : addr) (p : Z) (k : bool)
    (this : Interval) :
  h !! self = Some this ->
  split h self p k = Ok (h', c) ->
  regs_kept h h'
  /\ exists rs1 rs2 this',
       split_ranges (Interval.ranges this) (Interval.findRange this p) p
         = Ok (rs1, rs2)
       /\ Interval.start this < p
       /\ h' !! self = Some this'
       /\ Interval.ranges this' = rs1
       /\ Interval.vreg this' = Interval.vreg this
       /\ Interval.reg this' = Interval.reg this.
Proof.
  intros Hthis H. unfold split in H. rewrite Hthis in H. simpl in H.
  apply result_bind_Ok in H as ([] & Ha & H). apply assertx_Ok in Ha.
  apply andb_true_iff in Ha as [Ha _]. apply Z.ltb_lt in Ha.
  apply result_bind_Ok in H as (ldr & Hldr & H).
  apply result_bind_Ok in H as ([rs1 rs2] & Hsr & H).
  inversion H; subst h' c; clear H.
  assert (Hc : h !! fresh (dom h) = None)
    by (apply not_elem_of_dom; apply is_fresh).
  assert (Hne : fresh (dom h) <> self) by congruence.
  split.
  - intros b j Hj. assert (Hb : fresh (dom h) <> b) by congruence.
    rewrite lookup_insert_ne by exact Hb.
    destruct (decide (self = b)) as [<-|Hsb].
    + rewrite lookup_insert_eq. eexists. split; [reflexivity|].
      rewrite Hthis in Hj. inversion Hj; subst j. simpl. auto.
    + rewrite lookup_insert_ne by exact Hsb. exists j. auto.
  - exists rs1, rs2. eexists. split; [exact Hsr|]. split; [exact Ha|].
    split; [rewrite lookup_insert_ne by exact Hne; apply lookup_insert_eq|].
    simpl. auto.
Qed.

Lemma assignSpill_frame (st st' : Vxls) (ivl : addr) :
  assignSpill st ivl = Ok st' ->
  regs_kept (heap st) (heap st')
  /\ active st' = active st /\ inactive st' = inactive st.
Proof.
  intros H. unfold assignSpill in H.
  apply result_bind_Ok in H as (i & Hi & H). apply deref_Ok in Hi.
  apply result_bind_Ok in H as ([] & Ha & H).
  apply result_bind_Ok in H as (la & Hla & H).
  apply result_bind_Ok in H as (ldr & Hldr & H). apply deref_Ok in Hldr.
  destruct (Interval.slot ldr =? kInvalidSpillSlot) eqn:E; simpl in H.
  - destruct (if negb (Interval.wide i) then _ else _) as [slot|] eqn:Ef;
      [|discriminate].
    inversion H; subst st'; clear H. unfold assign_slot.
    assert (Hk : regs_kept (heap st)
              (<[ivl := set_slot (Z.of_nat slot) i]>
                 (<[la := set_slot (Z.of_nat slot) ldr]> (heap st)))).
    { apply regs_kept_step; [apply regs_kept_step; [apply regs_kept_refl|]|].
      - intros i0 Hi0. rewrite Hldr in Hi0. inversion Hi0. simpl. auto.
      - intros i0 Hi0. rewrite Hi in Hi0. inversion Hi0. simpl. auto. }
    destruct (negb (Interval.wide i)); simpl; auto.
  - inversion H; subst st'; clear H. simpl.
    split; [|auto].
    apply (regs_kept_insert _ ivl i); [exact Hi| |left]; reflexivity.
Qed.

(** [spill] leaves [ivl] without a register and touches neither list. *)
Lemma spill_frame (ctx : VxlsContext) (st st' : Vxls) (ivl : addr) :
  spill ctx st ivl = Ok st' ->
  regs_kept (heap st) (heap st')
  /\ active st' = active st /\ inactive st' = inactive st
  /\ exists i', heap st' !! ivl = Some i' /\ Interval.reg i' = InvalidReg.
Proof.
  intros H. unfold spill in H.
  apply result_bind_Ok in H as (i & Hi & H). apply deref_Ok in Hi.
  apply result_bind_Ok in H as (st1 & H1 & H).
  apply result_bind_Ok in H as (i1 & Hi1 & H). apply deref_Ok in Hi1.
  assert (F1 : regs_kept (heap st) (heap st1)
               /\ active st1 = active st /\ inactive st1 = inactive st).
  { destruct (Interval.firstUse i <=? Interval.end_ i).
    - apply result_bind_Ok in H1 as (sp0 & _ & H1).
      destruct (sp0 <=? Interval.start i); [discriminate|].
      apply result_bind_Ok in H1 as ([h' c] & Hs & H1).
      inversion H1; subst st1; clear H1. simpl.
      destruct (split_frame _ _ _ _ _ _ _ Hi Hs) as [Hk _]. auto.
    - inversion H1; subst st1. split; [apply regs_kept_refl | auto]. }
  destruct F1 as (K1 & A1 & I1).
  set (st2 := set_heap (<[ivl := set_reg InvalidReg i1]> (heap st1)) st1)
    in H.
  assert (K2 : regs_kept (heap st1) (heap st2)).
  { apply (regs_kept_insert _ ivl i1); [exact Hi1| |right]; reflexivity. }
  assert (Hst2 : heap st2 !! ivl = Some (set_reg InvalidReg i1))
    by apply lookup_insert_eq.
  destruct (negb (Interval.constant i1)).
  - destruct (assignSpill_frame _ _ _ H) as (K3 & A3 & I3).
    destruct (assignSpill_Ok _ _ _ _ Hst2 H) as (_ & _ & _ & i' & Hi' & Hr & _).
    split; [eapply regs_kept_trans; [exact K1|];
            eapply regs_kept_trans; [exact K2 | exact K3]|].
    split; [rewrite A3; exact A1|]. split; [rewrite I3; exact I1|].
    exists i'. split; [exact Hi' | exact Hr].
  - inversion H; subst st'; clear H.
    split; [eapply regs_kept_trans; [exact K1 | exact K2]|].
    split; [exact A1|]. split; [exact I1|].
    exists (set_reg InvalidReg i1). split; [exact Hst2 | reflexivity].
Qed.

Lemma spill_after_frame (ctx : VxlsContext) (cur_start : Z)
    (st st' : Vxls) (ivl : addr) :
  spill_after ctx cur_start st ivl = Ok st' ->
  regs_kept (heap st) (heap st')
  /\ active st' = active st /\ inactive st' = inactive st.
Proof.
  intros H. unfold spill_after in H.
  apply result_bind_Ok in H as (sp0 & _ & H).
  apply result_bind_Ok in H as (i & Hi & H). apply deref_Ok in Hi.
  destruct (sp0 <=? Interval.start i).
  - destruct (spill_frame _ _ _ _ H) as (K & A & I & _). auto.
  - apply result_bind_Ok in H as ([h' tail] & Hs & H).
    destruct (split_frame _ _ _ _ _ _ _ Hi Hs) as [K1 _].
    destruct (spill_frame _ _ _ _ H) as (K & A & I & _). simpl in *.
    split; [eapply regs_kept_trans; [exact K1 | exact K] | auto].
Qed.

Lemma none_holds_kept (h h' : Heap) (r : PhysReg) (l : list addr) :
  r <> InvalidReg -> regs_kept h h' ->
  none_holds h r l -> none_holds h' r l.
Proof.
  intros Hr K H a Ha. destruct (H a Ha) as (i & Hi & Hor).
  destruct (K a i Hi) as (i' & Hi' & Hv & Hreg).
  exists i'. split; [exact Hi'|].
  destruct Hor as [Hf|Hne].
  - left. unfold Interval.fixed in *. rewrite Hv. exact Hf.
  - right. destruct Hreg as [Hreg|Hreg]; congruence.
Qed.

Lemma none_holds_snoc (h : Heap) (r : PhysReg) (l : list addr) (a : addr)
    (i : Interval) :
  none_holds h r l -> h !! a = Some i ->
  Interval.fixed i || negb (bool_decide (r = Interval.reg i)) = true ->
  none_holds h r (l ++ [a]).
Proof.
  intros H Hi Hc b Hb. apply elem_of_app in Hb as [Hb|Hb]; [apply (H b Hb)|].
  apply list_elem_of_singleton in Hb. subst b.
  exists i. split; [exact Hi|].
  apply orb_true_iff in Hc as [Hc|Hc]; [left; exact Hc|].
  right. apply negb_true_iff, bool_decide_eq_false in Hc. congruence.
Qed.

Lemma spill_others_active_inv (ctx : VxlsContext) (cur_start : Z)
    (r : PhysReg) :
  r <> InvalidReg ->
  forall fuel st done window st' done',
    none_holds (heap st) r done ->
    spill_others_active fuel ctx cur_start r st done window
      = Ok (st', done') ->
    none_holds (heap st') r done'
    /\ regs_kept (heap st) (heap st')
    /\ (forall a, a ∈ done' -> a ∈ done ++ window)
    /\ active st' = active st /\ inactive st' = inactive st.
Proof.
  intros Hr. induction fuel as [|fuel IH];
    intros st done window st' done' Hd H.
  - inversion H; subst. split; [exact Hd|].
    split; [apply regs_kept_refl|].
    split; [intros a Ha; apply elem_of_app; left; exact Ha | auto].
  - cbn [spill_others_active] in H. destruct window as [|a w].
    + inversion H; subst. split; [exact Hd|].
      split; [apply regs_kept_refl|].
      split; [intros a Ha; apply elem_of_app; left; exact Ha | auto].
    + apply result_bind_Ok in H as (other & Ho & H). apply deref_Ok in Ho.
      destruct (Interval.fixed other
                || negb (bool_decide (r = Interval.reg other))) eqn:Ec.
      * destruct (IH _ _ _ _ _ (none_holds_snoc _ _ _ _ _ Hd Ho Ec) H)
          as (N & K & S & A).
        split; [exact N|]. split; [exact K|]. split; [|exact A].
        intros b Hb. specialize (S b Hb).
        rewrite <- app_assoc in S. exact S.
      * apply result_bind_Ok in H as (st1 & H1 & H).
        destruct (spill_after_frame _ _ _ _ _ H1) as (K1 & A1 & I1).
        destruct (IH _ _ _ _ _ (none_holds_kept _ _ _ _ Hr K1 Hd) H)
          as (N & K & S & A & I).
        split; [exact N|].
        split; [eapply regs_kept_trans; [exact K1 | exact K]|].
        split; [|split; congruence].
        intros b Hb. specialize (S b Hb).
        apply elem_of_app in S as [S|S]; apply elem_of_app;
          [left; exact S | right].
        apply list_elem_of_further. apply swap_remove_subset. exact S.
Qed.

Lemma spill_others_inactive_inv (ctx : VxlsContext) (current : addr)
    (cur_start : Z) (r : PhysReg) :
  forall fuel st done window st' done',
    spill_others_inactive fuel ctx current cur_start r st done window
      = Ok (st', done') ->
    regs_kept (heap st) (heap st')
    /\ (forall a, a ∈ done' -> a ∈ done ++ window)
    /\ active st' = active st /\ inactive st' = inactive st.
Proof.
  induction fuel as [|fuel IH]; intros st done window st' done' H.
  - inversion H; subst. split; [apply regs_kept_refl|].
    split; [intros a Ha; apply elem_of_app; left; exact Ha | auto].
  - cbn [spill_others_inactive] in H. destruct window as [|a w].
    + inversion H; subst. split; [apply regs_kept_refl|].
      split; [intros a Ha; apply elem_of_app; left; exact Ha | auto].
    + apply result_bind_Ok in H as (other & Ho & H).
      assert (Keep : forall st0 done0,
                spill_others_inactive fuel ctx current cur_start r st
                  (done ++ [a]) w = Ok (st0, done0) ->
                regs_kept (heap st) (heap st0)
                /\ (forall b, b ∈ done0 -> b ∈ done ++ a :: w)
                /\ active st0 = active st /\ inactive st0 = inactive st).
      { intros st0 done0 H0. destruct (IH _ _ _ _ _ H0) as (K & S & A).
        split; [exact K|]. split; [|exact A].
        intros b Hb. specialize (S b Hb).
        rewrite <- app_assoc in S. exact S. }
      destruct (Interval.fixed other
                || negb (bool_decide (r = Interval.reg other)));
        [apply Keep; exact H|].
      apply result_bind_Ok in H as (cur & _ & H).
      apply result_bind_Ok in H as (x & _ & H).
      destruct (Interval.end_ cur <=? x); [apply Keep; exact H|].
      apply result_bind_Ok in H as (st1 & H1 & H).
      destruct (spill_after_frame _ _ _ _ _ H1) as (K1 & A1 & I1).
      destruct (IH _ _ _ _ _ H) as (K & S & A & I).
      split; [eapply regs_kept_trans; [exact K1 | exact K]|].
      split; [|split; congruence].
      intros b Hb. specialize (S b Hb).
      apply elem_of_app in S as [S|S]; apply elem_of_app;
        [left; exact S | right].
      apply list_elem_of_further. apply swap_remove_subset. exact S.
Qed.

Lemma spillOthers_inv (ctx : VxlsContext) (st st' : Vxls) (current : addr)
    (r : PhysReg) :
  r <> InvalidReg ->
  spillOthers ctx st current r = Ok st' ->
  none_holds (heap st') r (active st')
  /\ regs_kept (heap st) (heap st')
  /\ (forall a, a ∈ active st' -> a ∈ active st)
  /\ (forall a, a ∈ inactive st' -> a ∈ inactive st).
Proof.
  intros Hr H. unfold spillOthers in H.
  apply result_bind_Ok in H as (cur & _ & H).
  apply result_bind_Ok in H as ([st1 act] & H1 & H).
  apply result_bind_Ok in H as ([st2 inact] & H2 & H).
  inversion H; subst st'; clear H.
  destruct (spill_others_active_inv ctx _ r Hr _ _ _ _ _ _
              (fun a (Ha : a ∈ []) => match not_elem_of_nil a Ha with end)
              H1)
    as (N1 & K1 & S1 & A1 & I1).
  destruct (spill_others_inactive_inv _ _ _ _ _ _ _ _ _ _ H2)
    as (K2 & S2 & A2 & I2).
  simpl in *.
  split; [rewrite A2; apply (none_holds_kept _ _ _ _ Hr K2 N1)|].
  split; [eapply regs_kept_trans; [exact K1 | exact K2]|].
  split.
  - intros a Ha. rewrite A2 in Ha. apply (S1 a Ha).
  - intros a Ha. specialize (S2 a Ha). rewrite I1 in S2. exact S2.
Qed.

Lemma pos_ranges_bounds (i : Interval) :
  pos_ranges i -> 0 <= Interval.start i /\ 0 < Interval.end_ i.
Proof.
  intros [Hne Hall]. unfold Interval.start, Interval.end_.
  destruct (Interval.ranges i) as [|r rs] eqn:E; [congruence|].
  split.
  - apply Forall_cons in Hall as [Hr _]. lia.
  - destruct (last (r :: rs)) as [l|] eqn:El.
    + apply last_Some_elem_of in El.
      rewrite Forall_forall in Hall. specialize (Hall l El). lia.
    + apply last_None in El. discriminate.
Qed.

Lemma split_pos_ranges (h h' : Heap) (self c : addr) (p : Z) (k : bool)
    (this : Interval) :
  h !! self = Some this -> pos_ranges this ->
  split h self p k = Ok (h', c) ->
  exists this', h' !! self = Some this' /\ pos_ranges this'.
Proof.
  intros Hthis [Hne Hall] H.
  destruct (split_frame _ _ _ _ _ _ _ Hthis H)
    as (_ & rs1 & rs2 & this' & Hsr & Hlt & Hthis' & Hrs & _).
  exists this'. split; [exact Hthis'|]. unfold pos_ranges. rewrite Hrs.
  unfold split_ranges in Hsr.
  apply result_bind_Ok in Hsr as (r1 & Hr1 & Hsr). apply deref_Ok in Hr1.
  destruct (LiveRange.start r1 <? p) eqn:E.
  - apply Z.ltb_lt in E. inversion Hsr; subst rs1 rs2; clear Hsr.
    split; [intros Hnil; apply app_eq_nil in Hnil as [_ Hnil]; discriminate|].
    apply Forall_app. split; [apply Forall_take; exact Hall|].
    apply Forall_cons. split; [|apply Forall_nil; exact I].
    simpl. apply list_elem_of_lookup_2 in Hr1.
    rewrite Forall_forall in Hall. specialize (Hall r1 Hr1). lia.
  - apply Z.ltb_ge in E. inversion Hsr; subst rs1 rs2; clear Hsr.
    split; [|apply Forall_take; exact Hall].
    destruct (Interval.findRange this p) as [|n] eqn:En.
    + exfalso. unfold Interval.start in Hlt.
      destruct (Interval.ranges this) as [|r rs]; [congruence|].
      simpl in Hr1. inversion Hr1; subst r1. lia.
    + destruct (Interval.ranges this) as [|r rs]; [congruence|].
      simpl. discriminate.
Qed.

Lemma active_fold_stored (h : Heap) (l : list addr) :
  forall fu fu',
    foldM (fun fu a =>
             ivl ← deref (h !! a);
             posvec_set fu (Interval.reg ivl) 0) fu l = Ok fu' ->
    forall a, a ∈ l -> is_Some (h !! a).
Proof.
  induction l as [|b l IH]; intros fu fu' H a Ha; [inversion Ha|].
  cbn [foldM] in H. apply result_bind_Ok in H as (fu1 & H1 & H).
  apply result_bind_Ok in H1 as (ivl & Hivl & _). apply deref_Ok in Hivl.
  apply elem_of_cons in Ha as [->|Ha]; [eauto|].
  apply (IH _ _ H a Ha).
Qed.

Lemma free_until_unheld (abi : Abi) (nregs : nat) (st : Vxls)
    (current : Interval) (fu : PosVec) (conflict : Z) (allow : RegSet) :
  free_until_of abi nregs st current = Ok (fu, conflict, allow) ->
  free_unheld (heap st) (active st) fu.
Proof.
  unfold free_until_of. intros H.
  destruct (constrain abi current) as [c al].
  apply result_bind_Ok in H as (fu1 & H1 & H).
  apply result_bind_Ok in H as (fu2 & H2 & H).
  apply result_bind_Ok in H as (fu3 & H3 & H).
  inversion H; subst fu3 c al. clear H.
  destruct (mark_active _ _ _ _ H2) as [_ E2].
  destruct (mark_inactives _ _ _ _ _ H3) as (_ & Hzero & E3).
  intros n x Hn Hnz a Ha.
  destruct (active_fold_stored _ _ _ _ H2 a Ha) as [i Hi].
  exists i. split; [exact Hi|]. right.
  destruct (E3 n x Hn) as [Hz|[(x2 & Hx2 & Hle) _]]; [congruence|].
  destruct (E2 n x2 Hx2) as [Hz|[_ Hact]].
  - subst x2. rewrite (Hzero n Hx2) in Hn. inversion Hn. congruence.
  - apply (Hact a i Ha Hi).
Qed.

Lemma assignReg_exclusive (st st' : Vxls) (current : addr) (r : PhysReg) :
  none_holds (heap st) r (active st) ->
  assignReg st current r = Ok st' ->
  exclusive st' current.
Proof.
  intros N H. unfold assignReg in H.
  apply result_bind_Ok in H as (i & Hi & H). apply deref_Ok in Hi.
  destruct (negb (Interval.fixed i) && bool_decide (Interval.uses i = [])).
  - set (st1 := set_heap (<[current := set_reg InvalidReg i]> (heap st)) st)
      in H.
    assert (H1 : heap st1 !! current = Some (set_reg InvalidReg i))
      by apply lookup_insert_eq.
    destruct (negb (Interval.constant i)).
    + destruct (assignSpill_Ok _ _ _ _ H1 H) as (_ & _ & _ & i' & Hi' & Hr & _).
      exists i'. split; [exact Hi'|]. left. exact Hr.
    + inversion H; subst st'. eexists. split; [exact H1|]. left. reflexivity.
  - inversion H; subst st'; clear H. simpl.
    exists (set_reg r i). split; [apply lookup_insert_eq|]. right.
    split; [apply elem_of_app; right; apply list_elem_of_here|].
    intros a Ha Hne. apply elem_of_app in Ha as [Ha|Ha];
      [|apply list_elem_of_singleton in Ha; congruence].
    destruct (N a Ha) as (j & Hj & Hor). exists j. simpl.
    split; [rewrite lookup_insert_ne by congruence; exact Hj | exact Hor].
Qed.

Lemma allocBlocked_exclusive (ctx : VxlsContext) (abi : Abi) (nregs : nat)
    (st st' : Vxls) (current : addr) :
  allocBlocked ctx abi nregs st current = Ok st' ->
  exclusive st' current.
Proof.
  intros H. unfold allocBlocked in H.
  apply result_bind_Ok in H as (cur & Hcur & H).
  destruct (constrain abi cur) as [conflict allow].
  apply result_bind_Ok in H as (init & _ & H).
  apply result_bind_Ok in H as (acc1 & _ & H).
  apply result_bind_Ok in H as ([used blocked] & _ & H).
  apply result_bind_Ok in H as (r & _ & H).
  apply result_bind_Ok in H as (ur & Hur & H).
  apply posvec_get_Ok in Hur as (n & -> & _).
  destruct (ur <? Interval.firstUse cur).
  - destruct (spill_frame _ _ _ _ H) as (_ & _ & _ & i' & Hi' & Hr).
    exists i'. split; [exact Hi'|]. left. exact Hr.
  - apply result_bind_Ok in H as (block_pos & _ & H).
    apply result_bind_Ok in H as (st1 & _ & H).
    apply result_bind_Ok in H as (st2 & H2 & H).
    assert (Hn : Reg n <> InvalidReg) by discriminate.
    destruct (spillOthers_inv _ _ _ _ (Reg n) Hn H2) as (N & _).
    apply (assignReg_exclusive _ _ _ _ N H).
Qed.

Lemma hint_free_true (fu : PosVec) (hn : PhysReg) (cur : Interval) :
  hint_free fu hn cur = Ok true ->
  exists n x, hn = Reg n /\ fu !! n = Some x /\ Interval.end_ cur <= x.
Proof.
  unfold hint_free. destruct (bool_decide (hn = InvalidReg));
    [discriminate|].
  intros H. apply result_bind_Ok in H as (x & Hx & H).
  apply posvec_get_Ok in Hx as (n & -> & Hx).
  inversion H as [E]. apply Z.leb_le in E. eauto.
Qed.

Lemma allocate_choose_exclusive (ctx : VxlsContext) (abi : Abi)
    (nregs : nat) (intervals : gmap Vreg addr) (pc co : bool)
    (fu : PosVec) (allow : RegSet) (st st' : Vxls) (current : addr)
    (cur : Interval) :
  heap st !! current = Some cur -> pos_ranges cur ->
  free_unheld (heap st) (active st) fu ->
  allocate_choose ctx abi nregs intervals pc co fu allow st current
    = Ok st' ->
  exclusive st' current.
Proof.
  intros Hcur Hpos Hfu H. unfold allocate_choose in H.
  rewrite Hcur in H. simpl in H.
  destruct (pos_ranges_bounds _ Hpos) as [Hs He].
  apply result_bind_Ok in H as (hn & _ & H).
  apply result_bind_Ok in H as (hf & Hhf & H).
  destruct hf.
  { apply hint_free_true in Hhf as (n & x & -> & Hx & Hle).
    apply (assignReg_exclusive _ _ _ _ (Hfu n x Hx ltac:(lia)) H). }
  apply result_bind_Ok in H as (r & _ & H).
  apply result_bind_Ok in H as (p & Hp & H).
  apply posvec_get_Ok in Hp as (n & -> & Hp).
  destruct (Interval.end_ cur <=? p) eqn:Ee.
  { apply Z.leb_le in Ee.
    apply (assignReg_exclusive _ _ _ _ (Hfu n p Hp ltac:(lia)) H). }
  apply result_bind_Ok in H as (split_here & Hsh & H).
  destruct split_here as [split_pos|];
    [|apply (allocBlocked_exclusive _ _ _ _ _ _ H)].
  assert (Hlt : Interval.start cur < p).
  { destruct (Interval.start cur <? p) eqn:E; [apply Z.ltb_lt; exact E|].
    discriminate. }
  apply result_bind_Ok in H as ([h' second] & Hsp & H).
  apply result_bind_Ok in H as (cur1 & Hcur1 & H). apply deref_Ok in Hcur1.
  apply result_bind_Ok in H as (hf1 & Hhf1 & H).
  destruct (split_frame _ _ _ _ _ _ _ Hcur Hsp) as [K _].
  destruct (split_pos_ranges _ _ _ _ _ _ _ Hcur Hpos Hsp)
    as (this' & Hthis' & Hpos').
  simpl in Hcur1. rewrite Hthis' in Hcur1. inversion Hcur1; subst this'.
  destruct (pos_ranges_bounds _ Hpos') as [_ He1].
  destruct hf1.
  - apply hint_free_true in Hhf1 as (m & x & -> & Hx & Hle).
    refine (assignReg_exclusive _ _ _ (Reg m) _ H). simpl.
    eapply none_holds_kept; [discriminate | exact K |].
    apply (Hfu m x Hx). lia.
  - refine (assignReg_exclusive _ _ _ (Reg n) _ H). simpl.
    eapply none_holds_kept; [discriminate | exact K |].
    apply (Hfu n p Hp). lia.
Qed.

(** After [allocate], [current] has no register, or it is in the active
    list and no other interval of the list that is not fixed holds its
    register. *)
Theorem allocate_exclusive (ctx : VxlsContext) (abi : Abi) (nregs : nat)
    (intervals : gmap Vreg addr) (precoloring coalescing : bool)
    (st st' : Vxls) (current : addr) (cur : Interval) :
  heap st !! current = Some cur ->
  Interval.ranges cur <> [] ->
  Forall (fun r => 0 <= LiveRange.start r < LiveRange.end_ r)
         (Interval.ranges cur) ->
  allocate ctx abi nregs intervals precoloring coalescing st current
    = Ok st' ->
  exists cur',
    heap st' !! current = Some cur'
    /\ (Interval.reg cur' = InvalidReg
        \/ (current ∈ active st'
            /\ forall a, a ∈ active st' -> a <> current ->
                 exists i, heap st' !! a = Some i
                           /\ (Interval.fixed i = true
                               \/ Interval.reg i <> Interval.reg cur'))).
Proof.
  intros Hcur Hne Hall H. assert (Hpos : pos_ranges cur) by (split; assumption).
  unfold allocate in H. rewrite Hcur in H. simpl in H.
  apply result_bind_Ok in H as ([[fu conflict] allow] & Hfu & H).
  apply free_until_unheld in Hfu.
  apply result_bind_Ok in H as (cut & Hcut & H).
  destruct cut as [st1|].
  - assert (Hst1 : exists cur1,
              heap st1 !! current = Some cur1 /\ pos_ranges cur1
              /\ regs_kept (heap st) (heap st1)
              /\ active st1 = active st).
    { destruct (1 <? length (Interval.ranges cur))%nat;
        [|inversion Hcut; subst st1; exists cur;
          auto using regs_kept_refl].
      apply result_bind_Ok in Hcut as (b & _ & Hcut).
      apply result_bind_Ok in Hcut as (blk_range & _ & Hcut).
      apply result_bind_Ok in Hcut as (r0 & _ & Hcut).
      destruct (LiveRange.end_ r0 <? LiveRange.end_ blk_range).
      - apply result_bind_Ok in Hcut as ([h' second] & Hsp & Hcut).
        inversion Hcut; subst st1; clear Hcut. simpl.
        destruct (split_frame _ _ _ _ _ _ _ Hcur Hsp) as [K _].
        destruct (split_pos_ranges _ _ _ _ _ _ _ Hcur Hpos Hsp)
          as (this' & Hthis' & Hpos').
        exists this'. auto.
      - destruct (Interval.constant cur && _); [discriminate|].
        inversion Hcut; subst st1. exists cur. auto using regs_kept_refl. }
    destruct Hst1 as (cur1 & Hcur1 & Hpos1 & K & A).
    refine (allocate_choose_exclusive _ _ _ _ _ _ _ _ _ _ _ _ Hcur1 Hpos1
              _ H).
    intros n x Hx Hnz. rewrite A.
    eapply none_holds_kept; [discriminate | exact K |].
    apply (Hfu n x Hx Hnz).
  - destruct (spill_frame _ _ _ _ H) as (_ & _ & _ & i' & Hi' & Hr).
    exists i'. split; [exact Hi'|]. left. exact Hr.
Qed.

Lemma allocate_exclusive_witness :
  let abi := mkAbi {[Reg 0; Reg 1]} {[Reg 0; Reg 1]} ∅ ∅ in
  let mk := fun a b v r =>
              Interval.mk None None [LiveRange.mk a b]
                [mkUse Gpr a InvalidVreg] v a kInvalidSpillSlot false
                r false 0 in
  let current := mk 4 10 (Virt 0) InvalidReg in
  let h : Heap := <[1%nat := mk 0 6 (Virt 1) (Reg 0)]> {[0%nat := current]} in
  let st := mkVxls h [] [1%nat] [] [0; 0] (mkSpillInfo 0 0) in
  let ctx := mkContext InvalidReg [] [] [] [] in
  exists st' cur',
    allocate ctx abi 3 ∅ false false st 0%nat = Ok st'
    /\ heap st' !! 0%nat = Some cur'
    /\ Interval.reg cur' = Reg 1
    /\ active st' = [1%nat; 0%nat]
    /\ forall a, a ∈ active st' -> a <> 0%nat ->
         exists i, heap st' !! a = Some i
                   /\ (Interval.fixed i = true
                       \/ Interval.reg i <> Interval.reg cur').
Proof.
  intros abi mk current h st ctx.
  destruct (allocate ctx abi 3 ∅ false false st 0%nat) as [st'|f] eqn:E;
    [|vm_compute in E; discriminate].
  assert (Hc : heap st !! 0%nat = Some current) by reflexivity.
  assert (Hne : Interval.ranges current <> []) by discriminate.
  assert (Hall : Forall (fun r => 0 <= LiveRange.start r < LiveRange.end_ r)
                        (Interval.ranges current)).
  { apply Forall_cons. split; [simpl; lia | apply Forall_nil; exact I]. }
  destruct (allocate_exclusive ctx abi 3 ∅ false false st st' 0%nat current
              Hc Hne Hall E) as (cur' & Hcur' & Hor).
  assert (Hst' : heap st' !! 0%nat = Some (set_reg (Reg 1) current)
                 /\ active st' = [1%nat; 0%nat]).
  { vm_compute in E. inversion E. split; reflexivity. }
  destruct Hst' as [Hh Ha].
  pose proof (eq_trans (eq_sym Hcur') Hh) as Heq. inversion Heq; subst cur'.
  exists st', (set_reg (Reg 1) current).
  split; [reflexivity|]. split; [exact Hh|]. split; [reflexivity|].
  split; [exact Ha|].
  destruct Hor as [Hinv|[_ Hex]]; [discriminate | exact Hex].
Defined.

Lemma best_hint_skip (h : Heap) (intervals : gmap Vreg addr)
    (current : Interval) (fu : PosVec) (allow : RegSet)
    (seen : list Use) (ret : PhysReg) (u : Use) :
  (forall c, ~ usable_hint h intervals current allow u c) ->
  best_hint h intervals current fu allow seen ret ->
  best_hint h intervals current fu allow (seen ++ [u]) ret.
Proof.
  intros Hno [[-> Hnone]|(n & y & -> & Hy & (u0 & Hu0 & Hus) & Hmax)].
  - left. split; [reflexivity|].
    intros v c Hv. apply elem_of_app in Hv as [Hv|Hv]; [apply (Hnone v c Hv)|].
    apply list_elem_of_singleton in Hv. subst v. apply Hno.
  - right. exists n, y. split; [reflexivity|]. split; [exact Hy|].
    split; [exists u0; split; [apply elem_of_app; left; exact Hu0 | exact Hus]|].
    intros v c Hv Hc. apply elem_of_app in Hv as [Hv|Hv];
      [apply (Hmax v c Hv Hc)|].
    apply list_elem_of_singleton in Hv. subst v. destruct (Hno c Hc).
Qed.

Lemma findHint_loop_spec (h : Heap) (intervals : gmap Vreg addr)
    (current : Interval) (fu : PosVec) (allow : RegSet) (us : list Use) :
  forall seen ret r,
    best_hint h intervals current fu allow seen ret ->
    findHint_loop h intervals current fu allow ret us = Ok r ->
    best_hint h intervals current fu allow (seen ++ us) r
    \/ exists n y,
         r = Reg n /\ fu !! n = Some y /\ Interval.end_ current <= y
         /\ exists u, u ∈ seen ++ us
                      /\ usable_hint h intervals current allow u r.
Proof.
  induction us as [|u us IH]; intros seen ret r Hb H.
  - inversion H; subst r. left. rewrite app_nil_r. exact Hb.
  - cbn [findHint_loop] in H.
    replace (seen ++ u :: us) with ((seen ++ [u]) ++ us)
      by (rewrite <- app_assoc; reflexivity).
    destruct (isValid (hint u)) eqn:Ev; simpl in H.
    2:{ apply (IH (seen ++ [u]) ret r); [|exact H].
        apply best_hint_skip; [|exact Hb].
        intros c (Hv & _). congruence. }
    apply result_bind_Ok in H as (hn & Hhn & H).
    destruct (bool_decide (hn = InvalidReg)) eqn:Ei.
    { apply bool_decide_eq_true in Ei. subst hn.
      apply (IH (seen ++ [u]) ret r); [|exact H].
      apply best_hint_skip; [|exact Hb].
      intros c (_ & Hc & Hne & _). congruence. }
    apply bool_decide_eq_false in Ei.
    destruct (bool_decide (hn ∈ allow)) eqn:Ea; simpl in H.
    2:{ apply bool_decide_eq_false in Ea.
        apply (IH (seen ++ [u]) ret r); [|exact H].
        apply best_hint_skip; [|exact Hb].
        intros c (_ & Hc & _ & Hin). congruence. }
    apply bool_decide_eq_true in Ea.
    assert (Hus : usable_hint h intervals current allow u hn)
      by (split; [exact Ev|]; split; [exact Hhn|]; split; assumption).
    apply result_bind_Ok in H as (x & Hx & H).
    destruct (Interval.end_ current <=? x) eqn:Ee.
    { apply Z.leb_le in Ee. inversion H; subst r. right.
      apply posvec_get_Ok in Hx as (n & -> & Hx).
      exists n, x. split; [reflexivity|]. split; [exact Hx|].
      split; [exact Ee|]. exists u.
      split; [|exact Hus].
      apply elem_of_app. left. apply elem_of_app. right.
      apply list_elem_of_here. }
    apply result_bind_Ok in H as (ret' & Hret' & H).
    apply (IH (seen ++ [u]) ret' r); [|exact H].
    assert (Hnew : forall y, (forall v c, v ∈ seen ->
                     usable_hint h intervals current allow v c ->
                     exists x0, posvec_get fu c = Ok x0 /\ x0 <= y) ->
                   y <= x ->
                   best_hint h intervals current fu allow (seen ++ [u]) hn).
    { intros y Hmax Hle. right.
      pose proof Hx as Hx'. apply posvec_get_Ok in Hx' as (n & -> & Hn).
      exists n, x. split; [reflexivity|]. split; [exact Hn|].
      split; [exists u; split;
              [apply elem_of_app; right; apply list_elem_of_here | exact Hus]|].
      intros v c Hv Hc. apply elem_of_app in Hv as [Hv|Hv].
      - destruct (Hmax v c Hv Hc) as (x0 & Hx0 & Hle0).
        exists x0. split; [exact Hx0 | lia].
      - apply list_elem_of_singleton in Hv. subst v.
        destruct Hc as (_ & Hc & _). rewrite Hhn in Hc.
        inversion Hc; subst c. exists x. split; [exact Hx | lia]. }
    destruct Hb as [[-> Hnone]|(n & y & -> & Hy & (u0 & Hu0 & Hus0) & Hmax)].
    + simpl in Hret'. inversion Hret'; subst ret'.
      apply (Hnew x); [|lia].
      intros v c Hv Hc. destruct (Hnone v c Hv Hc).
    + simpl in Hret'. rewrite Hy in Hret'. simpl in Hret'.
      inversion Hret'; subst ret'. clear Hret'.
      destruct (y <? x) eqn:Elt.
      * apply Z.ltb_lt in Elt. apply (Hnew y); [exact Hmax | lia].
      * apply Z.ltb_ge in Elt. right. exists n, y.
        split; [reflexivity|]. split; [exact Hy|].
        split; [exists u0; split;
                [apply elem_of_app; left; exact Hu0 | exact Hus0]|].
        intros v c Hv Hc. apply elem_of_app in Hv as [Hv|Hv];
          [apply (Hmax v c Hv Hc)|].
        apply list_elem_of_singleton in Hv. subst v.
        destruct Hc as (_ & Hc & _). rewrite Hhn in Hc.
        inversion Hc; subst c. exists x. split; [exact Hx | exact Elt].
Qed.

(** With hints enabled, [findHint] returns [InvalidReg] only when no use
    of [current] gives a usable hint. Otherwise it returns a usable hint
    of one of the uses, and that register is free until the end of
    [current] or no usable hint is free for longer. *)
Theorem findHint_best (precoloring coalescing : bool) (h : Heap)
    (intervals : gmap Vreg addr) (current : Interval) (fu : PosVec)
    (allow : RegSet) (r : PhysReg) :
  precoloring || coalescing = true ->
  findHint precoloring coalescing h intervals current fu allow = Ok r ->
  (r = InvalidReg
   /\ forall u c, u ∈ Interval.uses current ->
        ~ usable_hint h intervals current allow u c)
  \/ exists n y,
       r = Reg n /\ fu !! n = Some y
       /\ (exists u, u ∈ Interval.uses current
                     /\ usable_hint h intervals current allow u r)
       /\ (Interval.end_ current <= y
           \/ forall u c, u ∈ Interval.uses current ->
                usable_hint h intervals current allow u c ->
                exists x, posvec_get fu c = Ok x /\ x <= y).
Proof.
  intros Hon H. unfold findHint in H.
  replace (negb precoloring && negb coalescing) with false in H
    by (destruct precoloring, coalescing; simpl in *; congruence).
  destruct (findHint_loop_spec h intervals current fu allow
              (Interval.uses current) [] InvalidReg r) as [Hb|Hfree].
  - left. split; [reflexivity|]. intros u c Hu. inversion Hu.
  - exact H.
  - simpl in Hb.
    destruct Hb as [Hnone|(n & y & -> & Hy & Hex & Hmax)]; [left; exact Hnone|].
    right. exists n, y. auto.
  - simpl in Hfree. destruct Hfree as (n & y & -> & Hy & Hle & Hex).
    right. exists n, y. auto.
Qed.

Lemma findHint_best_witness :
  let mk := fun a b us v d r =>
              Interval.mk None None [LiveRange.mk a b] us v d
                kInvalidSpillSlot false r false 0 in
  let current := mk 4 10 [mkUse Gpr 4 (Virt 1)] (Virt 0) 4 InvalidReg in
  let h : Heap :=
    <[1%nat := mk 0 4 [mkUse Gpr 0 InvalidVreg] (Virt 1) 0 (Reg 0)]>
      {[0%nat := current]} in
  let intervals : gmap Vreg addr := {[Virt 1 := 1%nat]} in
  let allow : RegSet := {[Reg 0; Reg 1]} in
  findHint true false h intervals current [20; 8; 0] allow = Ok (Reg 0)
  /\ exists u, u ∈ Interval.uses current
               /\ usable_hint h intervals current allow u (Reg 0).
Proof.
  intros mk current h intervals allow.
  assert (E : findHint true false h intervals current [20; 8; 0] allow
              = Ok (Reg 0)) by (vm_compute; reflexivity).
  split; [exact E|].
  destruct (findHint_best true false h intervals current [20; 8; 0] allow
              (Reg 0) eq_refl E)
    as [[Hinv _]|(n & y & _ & _ & Hex & _)]; [discriminate | exact Hex].
Defined.

(** [spillOthers] takes intervals out of the two lists and adds none;
    afterwards every active interval is fixed or holds a register other
    than [r], and no stored interval has got another register than it
    had: it has kept its register or has none. *)
Theorem spillOthers_evicts (ctx : VxlsContext) (st st' : Vxls)
    (current : addr) (r : PhysReg) :
  r <> InvalidReg ->
  spillOthers ctx st current r = Ok st' ->
  (forall a, a ∈ active st' ->
     a ∈ active st
     /\ exists i, heap st' !! a = Some i
                  /\ (Interval.fixed i = true \/ Interval.reg i <> r))
  /\ (forall a, a ∈ inactive st' -> a ∈ inactive st)
  /\ forall a i, heap st !! a = Some i ->
       exists i', heap st' !! a = Some i'
                  /\ Interval.vreg i' = Interval.vreg i
                  /\ (Interval.reg i' = Interval.reg i
                      \/ Interval.reg i' = InvalidReg).
Proof.
  intros Hr H. destruct (spillOthers_inv _ _ _ _ _ Hr H) as (N & K & A & I).
  split; [|split; [exact I | exact K]].
  intros a Ha. split; [apply (A a Ha) | apply (N a Ha)].
Qed.

Lemma spillOthers_evicts_witness :
  let mk := fun a b v r =>
              Interval.mk None None [LiveRange.mk a b]
                [mkUse Gpr a InvalidVreg] v a kInvalidSpillSlot false
                r false 0 in
  let h : Heap :=
    <[2%nat := mk 0 20 (Phys 1) (Reg 1)]>
      (<[1%nat := mk 0 12 (Virt 1) (Reg 0)]>
         {[0%nat := mk 4 10 (Virt 0) InvalidReg]}) in
  let st := mkVxls h [] [1%nat; 2%nat] [] [0; 0] (mkSpillInfo 0 0) in
  let ctx := mkContext InvalidReg [0%nat] [LiveRange.mk 0 20] [] [] in
  exists st',
    spillOthers ctx st 0%nat (Reg 0) = Ok st'
    /\ active st' = [2%nat]
    /\ forall a, a ∈ active st' ->
         a ∈ active st
         /\ exists i, heap st' !! a = Some i
                      /\ (Interval.fixed i = true
                          \/ Interval.reg i <> Reg 0).
Proof.
  intros mk h st ctx.
  destruct (spillOthers ctx st 0%nat (Reg 0)) as [st'|f] eqn:E;
    [|vm_compute in E; discriminate].
  exists st'. split; [reflexivity|].
  split; [vm_compute in E; inversion E; reflexivity|].
  assert (Hr : Reg 0 <> InvalidReg) by discriminate.
  destruct (spillOthers_evicts ctx st st' 0%nat (Reg 0) Hr E) as (H & _).
  exact H.
Defined.

Lemma split_fresh (h h' : Heap) (self c : addr) (p : Z) (k : bool) :
  split h self p k = Ok (h', c) -> h !! c = None.
Proof.
  intros H. unfold split in H.
  apply result_bind_Ok in H as (this & _ & H).
  apply result_bind_Ok in H as ([] & _ & H).
  apply result_bind_Ok in H as (ldr & _ & H).
  apply result_bind_Ok in H as ([rs1 rs2] & _ & H).
  inversion H; subst h' c. apply not_elem_of_dom. apply is_fresh.
Qed.

(** After [spill], [ivl] has no register and, unless it is a constant,
    it has a spill slot; the active and inactive lists are as before,
    and at most one interval, a new one, has been added to [pending]. *)
Theorem spill_post (ctx : VxlsContext) (st st' : Vxls) (ivl : addr) :
  spill ctx st ivl = Ok st' ->
  (exists i', heap st' !! ivl = Some i'
              /\ Interval.reg i' = InvalidReg
              /\ (Interval.constant i' = false ->
                  Interval.slot i' <> kInvalidSpillSlot))
  /\ active st' = active st
  /\ inactive st' = inactive st
  /\ (pending st' = pending st
      \/ exists c, pending st' = c :: pending st /\ heap st !! c = None).
Proof.
  intros H. unfold spill in H.
  apply result_bind_Ok in H as (i & Hi & H). apply deref_Ok in Hi.
  apply result_bind_Ok in H as (st1 & H1 & H).
  apply result_bind_Ok in H as (i1 & Hi1 & H). apply deref_Ok in Hi1.
  assert (F1 : active st1 = active st /\ inactive st1 = inactive st
               /\ (pending st1 = pending st
                   \/ exists c, pending st1 = c :: pending st
                                /\ heap st !! c = None)).
  { destruct (Interval.firstUse i <=? Interval.end_ i).
    - apply result_bind_Ok in H1 as (sp0 & _ & H1).
      destruct (sp0 <=? Interval.start i); [discriminate|].
      apply result_bind_Ok in H1 as ([h' c] & Hs & H1).
      inversion H1; subst st1; clear H1. simpl.
      split; [reflexivity|]. split; [reflexivity|]. right.
      exists c. split; [reflexivity | apply (split_fresh _ _ _ _ _ _ Hs)].
    - inversion H1; subst st1. auto. }
  destruct F1 as (A1 & I1 & P1).
  set (st2 := set_heap (<[ivl := set_reg InvalidReg i1]> (heap st1)) st1)
    in H.
  assert (Hst2 : heap st2 !! ivl = Some (set_reg InvalidReg i1))
    by apply lookup_insert_eq.
  destruct (negb (Interval.constant i1)) eqn:Ec.
  - destruct (assignSpill_Ok _ _ _ _ Hst2 H)
      as (A3 & I3 & P3 & i' & Hi' & Hr & Hs).
    split; [exists i'; split; [exact Hi'|]; split; [exact Hr | intros _; exact Hs]|].
    split; [rewrite A3; exact A1|]. split; [rewrite I3; exact I1|].
    rewrite P3. exact P1.
  - inversion H; subst st'; clear H.
    split; [exists (set_reg InvalidReg i1); split; [exact Hst2|];
            split; [reflexivity|]|].
    + simpl. apply negb_false_iff in Ec. congruence.
    + simpl. auto.
Qed.

Lemma spill_post_witness :
  let mk := fun p a b us v =>
              Interval.mk p None [LiveRange.mk a b] us v a
                kInvalidSpillSlot false (Reg 0) false 0 in
  let h : Heap :=
    <[1%nat := mk (Some 0%nat) 3 12 [mkUse Gpr 9 InvalidVreg] (Virt 1)]>
      {[0%nat := mk None 0 3 [mkUse Gpr 0 InvalidVreg] (Virt 1)]} in
  let st := mkVxls h [] [] [] [0; 0] (mkSpillInfo 0 0) in
  let ctx := mkContext InvalidReg [0%nat] [LiveRange.mk 0 20] [] [] in
  exists st' i',
    spill ctx st 1%nat = Ok st'
    /\ heap st' !! 1%nat = Some i'
    /\ Interval.reg i' = InvalidReg
    /\ Interval.slot i' = 0
    /\ pending st' = [2%nat].
Proof.
  intros mk h st ctx.
  destruct (spill ctx st 1%nat) as [st'|f] eqn:E;
    [|vm_compute in E; discriminate].
  destruct (spill_post ctx st st' 1%nat E) as ((i' & Hi' & Hr & _) & _).
  exists st', i'. split; [reflexivity|]. split; [exact Hi'|].
  split; [exact Hr|].
  assert (Hst' : exists j, heap st' !! 1%nat = Some j /\ Interval.slot j = 0
                           /\ pending st' = [2%nat]).
  { vm_compute in E. inversion E. eexists. split; [reflexivity|].
    split; reflexivity. }
  destruct Hst' as (j & Hj & Hs & Hp).
  pose proof (eq_trans (eq_sym Hi') Hj) as Heq. inversion Heq; subst j.
  split; [exact Hs | exact Hp].
Defined.

End Allocate.

(** ** The two capacity failures *)

Section Punts.

Context (top : Top) (ctx : VxlsContext) (abi : Abi) (nregs : nat)
        (intervals : gmap Vreg addr) (precoloring coalescing : bool).

Lemma failure_of_Some {A} (m : result A) (f : Failure) :
  failure_of m = Some f <-> m = Fail f.
Proof.
  destruct m; simpl; split; intros H; inversion H; reflexivity.
Qed.

Lemma allocate_cut_eq (st : Vxls) (current : addr) :
  allocate ctx abi nregs intervals precoloring coalescing st current
  = (cur ← deref (heap st !! current);
     '(free_until, conflict, allow) ← free_until_of abi nregs st cur;
     cut ← allocate_cut ctx st current cur;
     match cut with
     | None => spill ctx st current
     | Some st1 =>
       allocate_choose ctx abi nregs intervals precoloring coalescing
                       free_until allow st1 current
     end).
Proof. reflexivity. Qed.

Lemma allocate_choose_eq (fu : PosVec) (allow : RegSet) (st : Vxls)
    (current : addr) :
  allocate_choose ctx abi nregs intervals precoloring coalescing fu allow st
                  current
  = (cur ← deref (heap st !! current);
     hn ← findHint precoloring coalescing (heap st) intervals cur fu allow;
     hf ← hint_free fu hn cur;
     if (hf : bool) then assignReg st current hn
     else
       r ← find_farthest fu;
       p ← posvec_get fu r;
       if Interval.end_ cur <=? p then assignReg st current r
       else
         split_here ← choose_split ctx cur p;
         match split_here with
         | Some split_pos =>
           '(h', second) ← split (heap st) current split_pos true;
           let st1 :=
             set_pending (second :: pending st) (set_heap h' st) in
           cur1 ← deref (heap st1 !! current);
           hf1 ← hint_free fu hn cur1;
           assignReg st1 current (if (hf1 : bool) then hn else r)
         | None => allocBlocked ctx abi nregs st current
         end).
Proof. reflexivity. Qed.

Lemma allocBlocked_eq (st : Vxls) (current : addr) :
  allocBlocked ctx abi nregs st current
  = (cur ← deref (heap st !! current);
     acc ← allocBlocked_scan abi nregs st cur;
     r ← find_farthest acc.1;
     ur ← posvec_get acc.1 r;
     if ur <? Interval.firstUse cur then spill ctx st current
     else
       block_pos ← posvec_get acc.2 r;
       st1 ← allocBlocked_split ctx st current cur block_pos;
       st2 ← spillOthers ctx st1 current r;
       assignReg st2 current r).
Proof.
  unfold allocBlocked, allocBlocked_scan.
  destruct (deref (heap st !! current)) as [cur|f]; [|reflexivity]. simpl.
  destruct (constrain abi cur) as [conflict allow].
  destruct (foldM _ (replicate nregs 0) (elements allow)) as [init|f];
    [|reflexivity]. simpl.
  destruct (foldM _ (init, init) (active st)) as [acc1|f]; [|reflexivity].
  simpl.
  destruct (foldM _ acc1 (inactive st)) as [[used blocked]|f];
    [|reflexivity]. reflexivity.
Qed.

(** A failure of the call made is the failure of the call that makes
    it: no function of the allocator handles one. *)
Lemma calls_failure (c d : Call) (f : Failure) :
  calls top ctx abi nregs intervals precoloring coalescing c d ->
  failure top ctx abi nregs intervals precoloring coalescing d = Some f ->
  failure top ctx abi nregs intervals precoloring coalescing c = Some f.
Proof.
  intros Hc. destruct Hc; cbn [failure]; rewrite ?failure_of_Some;
    intros Hd.
  - (* assignReg *)
    unfold assignReg. rewrite H. simpl. rewrite H0, H1, H2. simpl.
    exact Hd.
  - (* spill, no split *)
    unfold spill. rewrite H. simpl.
    replace (Interval.firstUse i <=? Interval.end_ i) with false
      by (symmetry; apply Z.leb_gt; lia).
    simpl. rewrite H. simpl. rewrite H1. simpl. exact Hd.
  - (* spill, split *)
    unfold spill. rewrite H. simpl.
    replace (Interval.firstUse i <=? Interval.end_ i) with true
      by (symmetry; apply Z.leb_le; lia).
    rewrite H1. simpl.
    replace (split_pos <=? Interval.start i) with false
      by (symmetry; apply Z.leb_gt; lia).
    rewrite H3. simpl. rewrite H4. simpl. rewrite H5. simpl. exact Hd.
  - (* spill_after, whole *)
    unfold spill_after. rewrite H. simpl. rewrite H0. simpl.
    replace (split_pos <=? Interval.start i) with true
      by (symmetry; apply Z.leb_le; lia).
    exact Hd.
  - (* spill_after, tail *)
    unfold spill_after. rewrite H. simpl. rewrite H0. simpl.
    replace (split_pos <=? Interval.start i) with false
      by (symmetry; apply Z.leb_gt; lia).
    rewrite H2. simpl. exact Hd.
  - (* active, keep *)
    cbn [spill_others_active]. rewrite H. simpl.
    replace (Interval.fixed other
             || negb (bool_decide (r = Interval.reg other))) with true.
    + exact Hd.
    + symmetry. apply orb_true_iff. destruct H0 as [H0|H0];
        [left; exact H0 | right].
      apply negb_true_iff, bool_decide_eq_false. exact H0.
  - (* active, spill_after *)
    cbn [spill_others_active]. rewrite H. simpl. rewrite H0.
    rewrite (bool_decide_eq_true_2 _ H1). simpl. rewrite Hd. reflexivity.
  - (* active, next *)
    cbn [spill_others_active]. rewrite H. simpl. rewrite H0.
    rewrite (bool_decide_eq_true_2 _ H1). simpl. rewrite H2. simpl.
    exact Hd.
  - (* inactive, keep *)
    cbn [spill_others_inactive]. rewrite H. simpl.
    replace (Interval.fixed other
             || negb (bool_decide (r = Interval.reg other))) with true.
    + exact Hd.
    + symmetry. apply orb_true_iff. destruct H0 as [H0|H0];
        [left; exact H0 | right].
      apply negb_true_iff, bool_decide_eq_false. exact H0.
  - (* inactive, far *)
    cbn [spill_others_inactive]. rewrite H. simpl. rewrite H0.
    rewrite (bool_decide_eq_true_2 _ H1). simpl. rewrite H2. simpl.
    rewrite H3. simpl.
    replace (Interval.end_ cur <=? x) with true
      by (symmetry; apply Z.leb_le; lia).
    exact Hd.
  - (* inactive, spill_after *)
    cbn [spill_others_inactive]. rewrite H. simpl. rewrite H0.
    rewrite (bool_decide_eq_true_2 _ H1). simpl. rewrite H2. simpl.
    rewrite H3. simpl.
    replace (Interval.end_ cur <=? x) with false
      by (symmetry; apply Z.leb_gt; lia).
    rewrite Hd. reflexivity.
  - (* inactive, next *)
    cbn [spill_others_inactive]. rewrite H. simpl. rewrite H0.
    rewrite (bool_decide_eq_true_2 _ H1). simpl. rewrite H2. simpl.
    rewrite H3. simpl.
    replace (Interval.end_ cur <=? x) with false
      by (symmetry; apply Z.leb_gt; lia).
    rewrite H5. simpl. exact Hd.
  - (* spillOthers, first loop *)
    unfold spillOthers. rewrite H. simpl. rewrite Hd. reflexivity.
  - (* spillOthers, second loop *)
    unfold spillOthers. rewrite H. simpl. rewrite H0. simpl.
    simpl in Hd. rewrite Hd. reflexivity.
  - (* allocBlocked, spill *)
    rewrite allocBlocked_eq. rewrite H. simpl. rewrite H0. simpl.
    rewrite H1. simpl. rewrite H2. simpl.
    replace (ur <? Interval.firstUse cur) with true
      by (symmetry; apply Z.ltb_lt; lia).
    exact Hd.
  - (* allocBlocked, spillOthers *)
    rewrite allocBlocked_eq. rewrite H. simpl. rewrite H0. simpl.
    rewrite H1. simpl. rewrite H2. simpl.
    replace (ur <? Interval.firstUse cur) with false
      by (symmetry; apply Z.ltb_ge; lia).
    rewrite H4. simpl. rewrite H5. simpl. rewrite Hd. reflexivity.
  - (* allocBlocked, assignReg *)
    rewrite allocBlocked_eq. rewrite H. simpl. rewrite H0. simpl.
    rewrite H1. simpl. rewrite H2. simpl.
    replace (ur <? Interval.firstUse cur) with false
      by (symmetry; apply Z.ltb_ge; lia).
    rewrite H4. simpl. rewrite H5. simpl. rewrite H6. simpl. exact Hd.
  - (* choose, hint *)
    rewrite allocate_choose_eq. rewrite H. simpl. rewrite H0. simpl.
    rewrite H1. simpl. exact Hd.
  - (* choose, farthest *)
    rewrite allocate_choose_eq. rewrite H. simpl. rewrite H0. simpl.
    rewrite H1. simpl. rewrite H2. simpl. rewrite H3. simpl.
    replace (Interval.end_ cur <=? p) with true
      by (symmetry; apply Z.leb_le; lia).
    exact Hd.
  - (* choose, split *)
    rewrite allocate_choose_eq. rewrite H. simpl. rewrite H0. simpl.
    rewrite H1. simpl. rewrite H2. simpl. rewrite H3. simpl.
    replace (Interval.end_ cur <=? p) with false
      by (symmetry; apply Z.leb_gt; lia).
    rewrite H5. simpl. rewrite H6. simpl. rewrite H7. simpl.
    rewrite H8. simpl. exact Hd.
  - (* choose, blocked *)
    rewrite allocate_choose_eq. rewrite H. simpl. rewrite H0. simpl.
    rewrite H1. simpl. rewrite H2. simpl. rewrite H3. simpl.
    replace (Interval.end_ cur <=? p) with false
      by (symmetry; apply Z.leb_gt; lia).
    rewrite H5. simpl. exact Hd.
  - (* allocate, spill *)
    rewrite allocate_cut_eq. rewrite H. simpl. rewrite H0. simpl.
    rewrite H1. simpl. exact Hd.
  - (* allocate, choose *)
    rewrite allocate_cut_eq. rewrite H. simpl. rewrite H0. simpl.
    rewrite H1. simpl. exact Hd.
  - (* loop, allocate *)
    cbn [go_loop]. rewrite H. rewrite H0. simpl. rewrite Hd. reflexivity.
  - (* loop, next *)
    cbn [go_loop]. rewrite H. rewrite H0. simpl. rewrite H1. exact Hd.
  - (* start, assignReg *)
    assert (E : go_start ctx st ivl
                = assignReg st ivl (physReg (Interval.vreg i))).
    { unfold go_start. rewrite H. simpl. rewrite H0. reflexivity. }
    cbn [foldM]. rewrite E, Hd. reflexivity.
  - (* start, spill *)
    assert (E : go_start ctx st ivl = spill ctx st ivl).
    { unfold go_start. rewrite H. simpl. rewrite H0, H1. reflexivity. }
    cbn [foldM]. rewrite E, Hd. reflexivity.
  - (* start, next *)
    cbn [foldM]. rewrite H. simpl. exact Hd.
  - (* go, first loop *)
    unfold go, go_state. rewrite Hd. reflexivity.
  - (* go, second loop *)
    unfold go, go_state. rewrite H.
    destruct (go_loop _ _ _ _ _ _ _ _ _) as [[st'|f']|]; simpl in *;
      congruence.
Qed.

Lemma calls_rtc_failure (c d : Call) (f : Failure) :
  rtc (calls top ctx abi nregs intervals precoloring coalescing) c d ->
  failure top ctx abi nregs intervals precoloring coalescing d = Some f ->
  failure top ctx abi nregs intervals precoloring coalescing c = Some f.
Proof.
  induction 1 as [|c d e Hcd _ IH]; [auto|].
  intros He. apply (calls_failure c d f Hcd). apply IH. exact He.
Qed.

(** C5. Both capacity failures abort the allocation: no function of the
    allocator handles them. Whatever call [c] of the allocator
    ([Vxls::go] itself, [allocate], [allocBlocked], [spillOthers],
    [assignReg], ...) has led, through the calls the functions make, to
    a call of [assignSpill] in a state where no spill slot has a high
    water mark that the leader's start has reached (for a wide interval:
    no even slot does together with its successor), [c] ends with the
    punt [LinearScan_TooManySpills]. Whatever call has led to a call of
    [spill] on an interval whose first register use lies within it
    while [nearestSplitBefore] of that use is at or before its start,
    ends with the punt [RegSpill]. For [go] that is its result. *)
Theorem capacity_failures_punt (c : Call) :
  (forall (st : Vxls) (ivl la : addr) (i ldr : Interval),
      rtc (calls top ctx abi nregs intervals precoloring coalescing) c
          (CAssignSpill st ivl) ->
      heap st !! ivl = Some i ->
      Interval.fixed i = false ->
      Interval.parent i = Some la ->
      heap st !! la = Some ldr ->
      Interval.slot ldr = kInvalidSpillSlot ->
      (if Interval.wide i
       then forall j w0 w1,
           Nat.Even j -> spill_slots st !! j = Some w0 ->
           spill_slots st !! S j = Some w1 ->
           Interval.start ldr < w0 \/ Interval.start ldr < w1
       else forall j w, spill_slots st !! j = Some w ->
                        Interval.start ldr < w) ->
      failure top ctx abi nregs intervals precoloring coalescing c
      = Some (Punt LinearScan_TooManySpills))
  /\ (forall (st : Vxls) (ivl : addr) (i : Interval) (split_pos : Z),
         rtc (calls top ctx abi nregs intervals precoloring coalescing) c
             (CSpill st ivl) ->
         heap st !! ivl = Some i ->
         Interval.firstUse i <= Interval.end_ i ->
         nearestSplitBefore ctx (Interval.firstUse i) = Ok split_pos ->
         split_pos <= Interval.start i ->
         failure top ctx abi nregs intervals precoloring coalescing c
         = Some (Punt RegSpill))
  /\ (forall (fuel : nat) (ivec : list (option addr)) (st : Vxls)
             (f : Failure),
         failure top ctx abi nregs intervals precoloring coalescing
                 (CGo fuel ivec st) = Some f ->
         go top fuel ctx abi nregs ivec intervals precoloring coalescing st
         = Some (Fail f)).
Proof.
  split; [|split].
  - intros st ivl la i ldr Hc Hi Hfix Hpar Hl Hslot Hfull.
    apply (calls_rtc_failure _ _ _ Hc). cbn [failure].
    apply failure_of_Some.
    apply (assignSpill_punts st ivl la i ldr); assumption.
  - intros st ivl i split_pos Hc Hi Hfu Hn Hle.
    apply (calls_rtc_failure _ _ _ Hc). cbn [failure].
    apply failure_of_Some.
    apply (spill_punts ctx st ivl i split_pos); assumption.
  - intros fuel ivec st f H. cbn [failure] in H.
    destruct (go top fuel ctx abi nregs ivec intervals precoloring
                 coalescing st) as [[info|f']|]; simpl in H;
      [discriminate | inversion H; reflexivity | discriminate].
Qed.

End Punts.

Lemma capacity_failures_punt_witness :
  let leader := Interval.mk None (Some 1%nat) [LiveRange.mk 2 6]
                  [mkUse Gpr 2 InvalidVreg] (Virt 0) 2 kInvalidSpillSlot
                  false (Reg 0) false 0 in
  let child := Interval.mk (Some 0%nat) None [LiveRange.mk 7 12]
                 [] (Virt 0) 0 kInvalidSpillSlot false InvalidReg false 0 in
  let const := Interval.mk None None [LiveRange.mk 0 10]
                 [mkUse Gpr 0 InvalidVreg] (Virt 1) 0 kInvalidSpillSlot
                 false InvalidReg true 5 in
  let st := mkVxls (<[2%nat := const]>
                      (<[1%nat := child]> {[0%nat := leader]}))
              [] [] [] [kMaxPos; 9] (mkSpillInfo 2 2) in
  let ctx := mkContext (Reg 4) [0%nat] [LiveRange.mk 0 14] [0] [Some ∅] in
  let abi := mkAbi {[Reg 0; Reg 1]} {[Reg 0; Reg 1]} ∅ ∅ in
  let top : Top := fun _ a l => (a, l) in
  allocate ctx abi 3 ∅ false false st 1%nat
  = Fail (Punt LinearScan_TooManySpills)
  /\ go top 1 ctx abi 3 [Some 2%nat] ∅ false false st
     = Some (Fail (Punt RegSpill)).
Proof.
  intros leader child const st ctx abi top.
  split.
  - apply failure_of_Some.
    apply (proj1 (capacity_failures_punt top ctx abi 3 ∅ false false
                    (CAllocate st 1%nat))
                 (set_heap (<[1%nat := set_reg InvalidReg child]> (heap st))
                           st)
                 1%nat 0%nat (set_reg InvalidReg child) leader);
      try reflexivity.
    + eapply rtc_l.
      { apply (calls_allocate_choose _ _ _ _ _ _ _ st 1%nat child
                 [kMaxPos; kMaxPos; 0] kMaxPos {[Reg 0; Reg 1]} st);
          vm_compute; reflexivity. }
      eapply rtc_l.
      { apply (calls_choose_farthest _ _ _ _ _ _ _ _ _ st 1%nat child
                 InvalidReg (Reg 0) kMaxPos);
          try (vm_compute; reflexivity).
        vm_compute. discriminate. }
      eapply rtc_l; [|apply rtc_refl].
      apply (calls_assignReg_assignSpill _ _ _ _ _ _ _ st 1%nat (Reg 0)
               child); reflexivity.
    + intros j w Hj. destruct j as [|[|j]]; simpl in Hj;
        [ | | rewrite lookup_nil in Hj; discriminate ];
        inversion Hj; vm_compute; reflexivity.
  - apply (proj2 (proj2 (capacity_failures_punt top ctx abi 3 ∅ false false
                           (CGo 1 [Some 2%nat] st)))).
    apply (proj1 (proj2 (capacity_failures_punt top ctx abi 3 ∅ false false
                           (CGo 1 [Some 2%nat] st)))
                 st 2%nat const 0);
      try reflexivity.
    + eapply rtc_l; [apply calls_go_start|].
      eapply rtc_l; [|apply rtc_refl].
      apply (calls_start_spill _ _ _ _ _ _ _ st 2%nat [] const); reflexivity.
    + vm_compute. discriminate.
Defined.

(** ** The spill slots of the chains *)

Section AllocInv.

Lemma classic_occupies (k : nat) (w : bool) (j : nat) :
  occupies k w j \/ ~ occupies k w j.
Proof.
  unfold occupies. destruct (decide (j = k)) as [->|H1]; [left; auto|].
  destruct w; [|right; intros [?|[? _]]; congruence].
  destruct (decide (j = S k)) as [->|H2]; [left; auto|].
  right. intros [?|[_ ?]]; congruence.
Qed.

Lemma submseteq_NoDup (D D' : list addr) :
  NoDup D -> D' ⊆+ D -> NoDup D'.
Proof.
  intros Hnd Hsub. apply submseteq_Permutation in Hsub as [k Hk].
  rewrite Hk in Hnd. apply NoDup_app in Hnd as [Hnd _]. exact Hnd.
Qed.

Lemma alloc_inv_sub (h : Heap) (ss : list Z) (D D' : list addr) :
  alloc_inv h ss D -> D' ⊆+ D -> alloc_inv h ss D'.
Proof.
  intros [[Hnd Hst] Hp Hl Hs Hf Ho Hd Hm] Hsub.
  assert (Hin : forall a, a ∈ D' -> a ∈ D).
  { intros a Ha. eapply elem_of_submseteq; eassumption. }
  constructor; try assumption.
  - split; [eapply submseteq_NoDup; eassumption|].
    intros a Ha. apply Hst, Hin, Ha.
  - intros j w L l x xi Hj Hw HL Hh Hx.
    destruct (Hf j w L l x xi Hj Hw HL Hh Hx) as [He Hn].
    split; [exact He|]. intros Hx'. apply Hn, Hin, Hx'.
  - intros j O o x xi L l y yi Hj HO Hho Hx HxD Hne HL Hhl Hy.
    destruct (Ho j O o x xi L l y yi Hj HO Hho Hx (Hin x HxD) Hne HL Hhl Hy)
      as [He Hn].
    split; [exact He|]. intros Hy'. apply Hn, Hin, Hy'.
Qed.

Lemma alloc_inv_perm (h : Heap) (ss : list Z) (D D' : list addr) :
  alloc_inv h ss D -> D' ≡ₚ D -> alloc_inv h ss D'.
Proof.
  intros H Hp. apply (alloc_inv_sub h ss D D' H).
  rewrite Hp. reflexivity.
Qed.

Lemma same_chains_links (h h' : Heap) : same_chains h h' -> same_links h h'.
Proof.
  intros H a. specialize (H a).
  destruct (h !! a), (h' !! a); try exact H. destruct H as [H _]. exact H.
Qed.

Lemma same_links_leader (h h' : Heap) (L : addr) (l' : Interval) :
  same_links h h' -> is_leader h' L l' ->
  exists l, is_leader h L l /\ Interval.start l = Interval.start l'
            /\ Interval.wide l = Interval.wide l'.
Proof.
  intros Hs [Hl Hp]. specialize (Hs L). rewrite Hl in Hs.
  destruct (h !! L) as [l|] eqn:E; [|destruct Hs].
  destruct Hs as (H1 & H2 & H3 & H4 & H5).
  exists l. split; [split; [exact E | congruence]|].
  split; congruence.
Qed.

Lemma same_links_leader_rev (h h' : Heap) (L : addr) (l : Interval) :
  same_links h h' -> is_leader h L l ->
  exists l', is_leader h' L l' /\ Interval.start l = Interval.start l'
             /\ Interval.wide l = Interval.wide l'.
Proof.
  intros Hs [Hl Hp]. specialize (Hs L). rewrite Hl in Hs.
  destruct (h' !! L) as [l'|] eqn:E; [|destruct Hs].
  destruct Hs as (H1 & H2 & H3 & H4 & H5).
  exists l'. split; [split; [exact E | congruence]|].
  split; congruence.
Qed.

Lemma same_links_last (h h' : Heap) (L x : addr) (xi' : Interval) :
  same_links h h' -> is_last h' L x xi' ->
  exists xi, is_last h L x xi /\ Interval.end_ xi = Interval.end_ xi'.
Proof.
  intros Hs (Hx & Hl & Hn). specialize (Hs x). rewrite Hx in Hs.
  destruct (h !! x) as [xi|] eqn:E; [|destruct Hs].
  destruct Hs as (H1 & H2 & H3 & H4 & H5).
  exists xi. split; [|congruence].
  split; [exact E|]. split; [|congruence].
  unfold leader in *. rewrite <- H1. exact Hl.
Qed.

Lemma same_links_last_rev (h h' : Heap) (L x : addr) (xi : Interval) :
  same_links h h' -> is_last h L x xi ->
  exists xi', is_last h' L x xi' /\ Interval.end_ xi = Interval.end_ xi'.
Proof.
  intros Hs (Hx & Hl & Hn). specialize (Hs x). rewrite Hx in Hs.
  destruct (h' !! x) as [xi'|] eqn:E; [|destruct Hs].
  destruct Hs as (H1 & H2 & H3 & H4 & H5).
  exists xi'. split; [|congruence].
  split; [exact E|]. split; [|congruence].
  unfold leader in *. rewrite H1. exact Hl.
Qed.

Lemma same_chains_leader (h h' : Heap) (L : addr) (l' : Interval) :
  same_chains h h' -> is_leader h' L l' ->
  exists l, is_leader h L l /\ Interval.start l = Interval.start l'
            /\ Interval.wide l = Interval.wide l'
            /\ Interval.slot l = Interval.slot l'.
Proof.
  intros Hs [Hl Hp]. specialize (Hs L). rewrite Hl in Hs.
  destruct (h !! L) as [l|] eqn:E; [|destruct Hs].
  destruct Hs as ((H1 & H2 & H3 & H4 & H5) & H6).
  exists l. split; [split; [exact E | congruence]|].
  split; [congruence|]. split; [congruence|].
  destruct H6 as [H6|H6]; [congruence|]. exfalso. apply H6. congruence.
Qed.

Lemma same_chains_leader_rev (h h' : Heap) (L : addr) (l : Interval) :
  same_chains h h' -> is_leader h L l ->
  exists l', is_leader h' L l' /\ Interval.start l = Interval.start l'
             /\ Interval.wide l = Interval.wide l'
             /\ Interval.slot l = Interval.slot l'.
Proof.
  intros Hs [Hl Hp]. specialize (Hs L). rewrite Hl in Hs.
  destruct (h' !! L) as [l'|] eqn:E; [|destruct Hs].
  destruct Hs as ((H1 & H2 & H3 & H4 & H5) & H6).
  exists l'. split; [split; [exact E | congruence]|].
  split; [congruence|]. split; [congruence|].
  destruct H6 as [H6|H6]; [congruence|]. exfalso. apply H6. exact Hp.
Qed.

Lemma same_chains_last (h h' : Heap) (L x : addr) (xi' : Interval) :
  same_chains h h' -> is_last h' L x xi' ->
  exists xi, is_last h L x xi /\ Interval.end_ xi = Interval.end_ xi'.
Proof. intros Hs. apply same_links_last, same_chains_links, Hs. Qed.

Lemma same_chains_last_rev (h h' : Heap) (L x : addr) (xi : Interval) :
  same_chains h h' -> is_last h L x xi ->
  exists xi', is_last h' L x xi' /\ Interval.end_ xi = Interval.end_ xi'.
Proof. intros Hs. apply same_links_last_rev, same_chains_links, Hs. Qed.

Lemma holds_eq (l l' : Interval) (j : nat) :
  Interval.wide l = Interval.wide l' ->
  Interval.slot l = Interval.slot l' ->
  holds l' j -> holds l j.
Proof. unfold holds. intros -> ->. auto. Qed.

(** The invariant does not depend on what the records hold besides
    their shape. *)
Lemma alloc_inv_same_chains (h h' : Heap) (ss : list Z) (D : list addr) :
  same_chains h h' -> slots_agree h' -> alloc_inv h ss D ->
  alloc_inv h' ss D.
Proof.
  intros Hs Hm' [[Hnd Hst] Hp Hl Hsl Hf Ho Hd Hm].
  constructor; [| | | | | | |exact Hm'].
  - split; [exact Hnd|]. intros a Ha. specialize (Hst a Ha) as [i Hi].
    specialize (Hs a). rewrite Hi in Hs.
    destruct (h' !! a); [eauto | destruct Hs].
  - intros a i' L Hi' Hpar. pose proof (Hs a) as Ha. rewrite Hi' in Ha.
    destruct (h !! a) as [i|] eqn:E; [|destruct Ha].
    destruct Ha as ((H1 & H2 & H3 & H4 & H5) & H6).
    destruct (Hp a i L E ltac:(congruence)) as (Hne & l & HL & Hw).
    split; [exact Hne|].
    destruct (same_chains_leader_rev _ _ _ _ Hs HL) as (l' & HL' & _ & Hw' & _).
    exists l'. split; [exact HL' | congruence].
  - intros L l' HL'.
    destruct (same_chains_leader _ _ _ _ Hs HL') as (l & HL & Hst' & _).
    destruct (Hl L l HL) as (x & xi & Hx & Hlt & Hmax & Huniq).
    destruct (same_chains_last_rev _ _ _ _ _ Hs Hx) as (xi' & Hx' & He).
    exists x, xi'. split; [exact Hx'|]. split; [lia|]. split; [lia|].
    intros y yi' Hy.
    destruct (same_chains_last _ _ _ _ _ Hs Hy) as (yi & Hy0 & _).
    apply (Huniq y yi Hy0).
  - intros L l' j HL' Hh.
    destruct (same_chains_leader _ _ _ _ Hs HL') as (l & HL & _ & Hw & Hsl').
    destruct (Hsl L l j HL (holds_eq _ _ _ Hw Hsl' Hh)) as [H0 Hj].
    split; [congruence | exact Hj].
  - intros j w L l' x xi' Hj Hw HL' Hh Hx'.
    destruct (same_chains_leader _ _ _ _ Hs HL') as (l & HL & _ & Hw' & Hsl').
    destruct (same_chains_last _ _ _ _ _ Hs Hx') as (xi & Hx & He).
    destruct (Hf j w L l x xi Hj Hw HL (holds_eq _ _ _ Hw' Hsl' Hh) Hx)
      as [Hle Hn].
    split; [lia | exact Hn].
  - intros j O o' x xi' L l' y yi' Hj HO' Hho Hx' HxD Hne HL' Hhl Hy'.
    destruct (same_chains_leader _ _ _ _ Hs HO') as (o & HO & Hso & Hwo & Hslo).
    destruct (same_chains_leader _ _ _ _ Hs HL') as (l & HL & _ & Hwl & Hsll).
    destruct (same_chains_last _ _ _ _ _ Hs Hx') as (xi & Hx & _).
    destruct (same_chains_last _ _ _ _ _ Hs Hy') as (yi & Hy & Hey).
    destruct (Ho j O o x xi L l y yi Hj HO (holds_eq _ _ _ Hwo Hslo Hho)
                 Hx HxD Hne HL (holds_eq _ _ _ Hwl Hsll Hhl) Hy) as [Hle Hn].
    split; [lia | exact Hn].
  - intros j L1 l1' x1 x1i' L2 l2' x2 x2i' Hne HL1' Hh1 Hx1' HL2' Hh2 Hx2'.
    destruct (same_chains_leader _ _ _ _ Hs HL1') as (l1 & HL1 & Hs1 & Hw1 & Hsl1).
    destruct (same_chains_leader _ _ _ _ Hs HL2') as (l2 & HL2 & Hs2 & Hw2 & Hsl2).
    destruct (same_chains_last _ _ _ _ _ Hs Hx1') as (x1i & Hx1 & He1).
    destruct (same_chains_last _ _ _ _ _ Hs Hx2') as (x2i & Hx2 & He2).
    destruct (Hd j L1 l1 x1 x1i L2 l2 x2 x2i Hne HL1
                 (holds_eq _ _ _ Hw1 Hsl1 Hh1) Hx1 HL2
                 (holds_eq _ _ _ Hw2 Hsl2 Hh2) Hx2); [left|right]; lia.
Qed.

Lemma same_chains_insert (h : Heap) (a : addr) (i i' : Interval) :
  h !! a = Some i -> same_shape i i' -> same_chains h (<[a := i']> h).
Proof.
  intros Hi Hs b. destruct (decide (a = b)) as [<-|Hne].
  - rewrite Hi, lookup_insert_eq. exact Hs.
  - rewrite lookup_insert_ne by exact Hne.
    destruct (h !! b); [|exact I].
    split; [repeat split; reflexivity | left; reflexivity].
Qed.

Lemma last_drop_lt {A} (l : list A) (n : nat) :
  (n < length l)%nat -> last (drop n l) = last l.
Proof.
  intros Hn. rewrite !last_lookup, lookup_drop, length_drop.
  f_equal. lia.
Qed.

(** The first part of a split starts where the interval started, and the
    second part ends where it ended. *)
Lemma split_ranges_bounds (rs rs1 rs2 : list LiveRange) (k : nat) (p : Z)
    (r0 : LiveRange) :
  head rs = Some r0 -> LiveRange.start r0 < p ->
  split_ranges rs k p = Ok (rs1, rs2) ->
  (exists r, head rs1 = Some r /\ LiveRange.start r = LiveRange.start r0)
  /\ exists e e', last rs = Some e /\ last rs2 = Some e'
                  /\ LiveRange.end_ e' = LiveRange.end_ e.
Proof.
  intros Hh Hlt H. unfold split_ranges in H.
  apply result_bind_Ok in H as (r1 & Hr1 & H). apply deref_Ok in Hr1.
  pose proof (lookup_lt_Some _ _ _ Hr1) as Hk.
  assert (Hlast : exists e, last rs = Some e).
  { destruct (last rs) as [e|] eqn:El; [eauto|].
    apply last_None in El. subst rs. discriminate. }
  destruct Hlast as [e He].
  assert (Htail : forall n, (n <= k)%nat ->
            drop n rs <> [] /\ last (drop n rs) = Some e).
  { intros n Hn. split.
    - intros Hd. apply (f_equal length) in Hd.
      rewrite length_drop in Hd. simpl in Hd. lia.
    - rewrite last_drop_lt by lia. exact He. }
  assert (Hhead : forall n, head (take (S n) rs) = Some r0).
  { intros n. destruct rs; [discriminate|]. exact Hh. }
  destruct (LiveRange.start r1 <? p) eqn:E.
  - inversion H; subst rs1 rs2; clear H. split.
    + destruct k as [|k].
      * rewrite head_lookup in Hh. rewrite Hh in Hr1.
        inversion Hr1; subst r1. simpl. eauto.
      * exists r0. split; [|reflexivity].
        specialize (Hhead k). destruct (take (S k) rs); [discriminate|].
        exact Hhead.
    + rewrite last_cons.
      destruct (last (drop (S k) rs)) as [y|] eqn:El.
      * exists e, y. split; [exact He|]. split; [reflexivity|].
        destruct (decide (S k < length rs)%nat) as [Hlt'|Hge].
        -- rewrite last_drop_lt in El by exact Hlt'.
           rewrite He in El. inversion El. reflexivity.
        -- rewrite drop_ge in El by lia. discriminate.
      * exists e, (LiveRange.mk p (LiveRange.end_ r1)).
        split; [exact He|]. split; [reflexivity|]. simpl.
        apply last_None in El. apply (f_equal length) in El.
        rewrite length_drop in El. simpl in El.
        rewrite last_lookup in He.
        replace (Init.Nat.pred (length rs)) with k in He by lia.
        rewrite Hr1 in He. inversion He. reflexivity.
  - apply Z.ltb_ge in E. inversion H; subst rs1 rs2; clear H.
    destruct k as [|k].
    + rewrite head_lookup in Hh. rewrite Hh in Hr1.
      inversion Hr1; subst r1. lia.
    + split; [exists r0; split; [apply Hhead | reflexivity]|].
      exists e, e. split; [exact He|]. split; [|reflexivity].
      apply (Htail (S k)). lia.
Qed.

Lemma start_head (i : Interval) (r : LiveRange) :
  head (Interval.ranges i) = Some r -> Interval.start i = LiveRange.start r.
Proof.
  unfold Interval.start. destruct (Interval.ranges i); simpl; [discriminate|].
  intros H. inversion H. reflexivity.
Qed.

Lemma end_last (i : Interval) (r : LiveRange) :
  last (Interval.ranges i) = Some r -> Interval.end_ i = LiveRange.end_ r.
Proof. unfold Interval.end_. intros ->. reflexivity. Qed.

(** What [split] does to the store. *)
Lemma split_shape (h h' : Heap) (self c : addr) (p : Z) (k : bool)
    (this : Interval) :
  h !! self = Some this ->
  split h self p k = Ok (h', c) ->
  h !! c = None
  /\ exists ldr this' child,
       h !! leader self this = Some ldr
       /\ h' = <[c := child]> (<[self := this']> h)
       /\ Interval.parent this' = Interval.parent this
       /\ Interval.next this' = Some c
       /\ Interval.start this' = Interval.start this
       /\ Interval.wide this' = Interval.wide this
       /\ Interval.slot this' = Interval.slot this
       /\ Interval.parent child = Some (leader self this)
       /\ Interval.next child = Interval.next this
       /\ Interval.end_ child = Interval.end_ this
       /\ Interval.wide child = Interval.wide ldr
       /\ Interval.slot child = kInvalidSpillSlot.
Proof.
  intros Hthis H. unfold split in H. rewrite Hthis in H. simpl in H.
  apply result_bind_Ok in H as ([] & Ha & H). apply assertx_Ok in Ha.
  apply andb_true_iff in Ha as [Ha _]. apply Z.ltb_lt in Ha.
  apply result_bind_Ok in H as (ldr & Hldr & H). apply deref_Ok in Hldr.
  apply result_bind_Ok in H as ([rs1 rs2] & Hsr & H).
  inversion H; subst h' c; clear H.
  split; [apply not_elem_of_dom; apply is_fresh|].
  destruct (head (Interval.ranges this)) as [r0|] eqn:Eh.
  2:{ unfold split_ranges in Hsr.
      destruct (Interval.ranges this); [|discriminate].
      rewrite lookup_nil in Hsr. discriminate. }
  assert (Hlt : LiveRange.start r0 < p)
    by (rewrite <- (start_head this r0 Eh); exact Ha).
  destruct (split_ranges_bounds _ _ _ _ _ _ Eh Hlt Hsr)
    as ((r & Hr & Hrs) & e & e' & He & He' & Hee).
  exists ldr. eexists _, _. split; [exact Hldr|].
  split; [reflexivity|]. simpl.
  split; [reflexivity|]. split; [reflexivity|].
  split.
  { rewrite (start_head this r0 Eh). unfold Interval.start. simpl.
    destruct rs1; simpl in Hr; [discriminate|].
    inversion Hr; subst. exact Hrs. }
  split; [reflexivity|]. split; [reflexivity|].
  split; [reflexivity|]. split; [reflexivity|].
  split; [|split; reflexivity].
  rewrite (end_last this e He). unfold Interval.end_. simpl.
  rewrite He'. exact Hee.
Qed.

(** Writing a record with the same parent and slot. *)
Lemma slots_agree_insert (h : Heap) (a : addr) (i i' : Interval) :
  slots_agree h -> h !! a = Some i ->
  Interval.parent i' = Interval.parent i ->
  Interval.slot i' = Interval.slot i ->
  slots_agree (<[a := i']> h).
Proof.
  intros Hm Hi Hp Hs b ib L l Hb Hpb HL.
  assert (Hb0 : exists ib0, h !! b = Some ib0
                  /\ Interval.parent ib0 = Interval.parent ib
                  /\ Interval.slot ib0 = Interval.slot ib).
  { destruct (decide (a = b)) as [<-|Hne].
    - rewrite lookup_insert_eq in Hb. inversion Hb; subst ib. eauto.
    - rewrite lookup_insert_ne in Hb by exact Hne. eauto. }
  assert (HL0 : exists l0, h !! L = Some l0
                  /\ Interval.slot l0 = Interval.slot l).
  { destruct (decide (a = L)) as [<-|Hne].
    - rewrite lookup_insert_eq in HL. inversion HL; subst l. eauto.
    - rewrite lookup_insert_ne in HL by exact Hne. eauto. }
  destruct Hb0 as (ib0 & Hb0 & Hp0 & Hs0), HL0 as (l0 & HL0 & Hsl).
  rewrite <- Hs0, <- Hsl. apply (Hm b ib0 L l0 Hb0); [congruence | exact HL0].
Qed.

(** Giving a member of a chain the slot of its leader. *)
Lemma slots_agree_member (h : Heap) (ss : list Z) (D : list addr)
    (a L : addr) (i l : Interval) :
  alloc_inv h ss D -> h !! a = Some i -> Interval.parent i = Some L ->
  h !! L = Some l ->
  slots_agree (<[a := set_slot (Interval.slot l) i]> h).
Proof.
  intros Inv Hi Hp HL b ib L' l' Hb Hpb HL'.
  destruct (inv_parent _ _ _ Inv a i L Hi Hp) as (Hne & _).
  destruct (decide (a = b)) as [<-|Hab].
  - rewrite lookup_insert_eq in Hb. inversion Hb; subst ib.
    simpl in Hpb. rewrite Hp in Hpb. inversion Hpb; subst L'.
    rewrite lookup_insert_ne in HL' by congruence.
    right. simpl. congruence.
  - rewrite lookup_insert_ne in Hb by exact Hab.
    destruct (inv_parent _ _ _ Inv b ib L' Hb Hpb) as (_ & l0 & [H1 H2] & _).
    assert (HaL : a <> L') by (intros <-; congruence).
    rewrite lookup_insert_ne in HL' by exact HaL.
    apply (inv_member _ _ _ Inv b ib L' l' Hb Hpb HL').
Qed.

End AllocInv.

Section SplitInv.

Context (h h' : Heap) (self c : addr) (this ldr this' child : Interval).
Hypothesis Hthis : h !! self = Some this.
Hypothesis Hc : h !! c = None.
Hypothesis Hldr : h !! leader self this = Some ldr.
Hypothesis Hh' : h' = <[c := child]> (<[self := this']> h).
Hypothesis Hpar : Interval.parent this' = Interval.parent this.
Hypothesis Hnext : Interval.next this' = Some c.
Hypothesis Hstart : Interval.start this' = Interval.start this.
Hypothesis Hwide : Interval.wide this' = Interval.wide this.
Hypothesis Hslot : Interval.slot this' = Interval.slot this.
Hypothesis Hcpar : Interval.parent child = Some (leader self this).
Hypothesis Hcnext : Interval.next child = Interval.next this.
Hypothesis Hcend : Interval.end_ child = Interval.end_ this.
Hypothesis Hcwide : Interval.wide child = Interval.wide ldr.
Hypothesis Hcslot : Interval.slot child = kInvalidSpillSlot.

Lemma split_ne : c <> self.
Proof. intros ->. rewrite Hthis in Hc. discriminate. Qed.

Lemma split_lookup_c : h' !! c = Some child.
Proof. rewrite Hh'. apply lookup_insert_eq. Qed.

Lemma split_lookup_self : h' !! self = Some this'.
Proof.
  rewrite Hh'. rewrite lookup_insert_ne by apply split_ne.
  apply lookup_insert_eq.
Qed.

Lemma split_lookup_other (a : addr) :
  a <> c -> a <> self -> h' !! a = h !! a.
Proof.
  intros H1 H2. rewrite Hh'. rewrite !lookup_insert_ne by congruence.
  reflexivity.
Qed.

Lemma split_leader_old (L : addr) (l' : Interval) :
  is_leader h' L l' ->
  exists l, is_leader h L l /\ Interval.start l = Interval.start l'
            /\ Interval.wide l = Interval.wide l'
            /\ Interval.slot l = Interval.slot l'.
Proof.
  intros [Hl Hp]. destruct (decide (L = c)) as [->|Hnc].
  { rewrite split_lookup_c in Hl. inversion Hl; subst l'. congruence. }
  destruct (decide (L = self)) as [->|Hns].
  - rewrite split_lookup_self in Hl. inversion Hl; subst l'.
    exists this. split; [split; [exact Hthis | congruence]|]. auto.
  - rewrite split_lookup_other in Hl by assumption.
    exists l'. split; [split; assumption|]. auto.
Qed.

Lemma split_leader_new (L : addr) (l : Interval) :
  is_leader h L l ->
  exists l', is_leader h' L l' /\ Interval.start l = Interval.start l'
             /\ Interval.wide l = Interval.wide l'
             /\ Interval.slot l = Interval.slot l'.
Proof.
  intros [Hl Hp]. assert (Hnc : L <> c) by (intros ->; congruence).
  destruct (decide (L = self)) as [->|Hns].
  - rewrite Hthis in Hl. inversion Hl; subst l.
    exists this'. split; [split; [apply split_lookup_self | congruence]|].
    auto.
  - exists l. split; [split; [|exact Hp]|auto].
    rewrite split_lookup_other by assumption. exact Hl.
Qed.

Lemma split_last_old (L x : addr) (xi' : Interval) :
  is_last h' L x xi' ->
  x <> self
  /\ exists x0 xi0,
       is_last h L x0 xi0 /\ Interval.end_ xi0 = Interval.end_ xi'
       /\ ((x = x0 /\ x0 <> self) \/ (x = c /\ x0 = self)).
Proof.
  intros (Hx & Hl & Hn). destruct (decide (x = c)) as [->|Hnc].
  { rewrite split_lookup_c in Hx. inversion Hx; subst xi'.
    split; [apply split_ne|].
    exists self, this. split.
    - split; [exact Hthis|]. split; [|congruence].
      unfold leader in Hl. rewrite Hcpar in Hl. simpl in Hl. exact Hl.
    - split; [congruence|]. right. auto. }
  destruct (decide (x = self)) as [->|Hns].
  { rewrite split_lookup_self in Hx. inversion Hx; subst xi'. congruence. }
  split; [exact Hns|].
  rewrite split_lookup_other in Hx by assumption.
  exists x, xi'. split; [split; [exact Hx|]; split; assumption|].
  split; [reflexivity|]. left. auto.
Qed.

Lemma split_last_new (L x : addr) (xi : Interval) :
  is_last h L x xi ->
  exists x' xi',
    is_last h' L x' xi' /\ Interval.end_ xi = Interval.end_ xi'
    /\ ((x' = x /\ x <> self) \/ (x' = c /\ x = self)).
Proof.
  intros (Hx & Hl & Hn). destruct (decide (x = self)) as [->|Hns].
  - rewrite Hthis in Hx. inversion Hx; subst xi.
    exists c, child. split.
    + split; [apply split_lookup_c|]. split; [|congruence].
      unfold leader. rewrite Hcpar. simpl. exact Hl.
    + split; [congruence|]. right. auto.
  - assert (Hnc : x <> c) by (intros ->; congruence).
    exists x, xi. split.
    + split; [rewrite split_lookup_other by assumption; exact Hx|].
      split; assumption.
    + split; [reflexivity|]. left. auto.
Qed.

Lemma split_inv (ss : list Z) (D : list addr) :
  alloc_inv h ss D -> self ∈ D -> alloc_inv h' ss (c :: D).
Proof.
  intros [[Hnd Hst] Hp Hl Hsl Hf Ho Hd Hm] HsD.
  assert (HcD : c ∉ D).
  { intros Hin. destruct (Hst c Hin) as [x Hx]. congruence. }
  constructor.
  - split; [apply NoDup_cons; split; assumption|].
    intros a Ha. apply elem_of_cons in Ha as [->|Ha].
    + rewrite split_lookup_c. eauto.
    + destruct (decide (a = self)) as [->|Hns];
        [rewrite split_lookup_self; eauto|].
      rewrite split_lookup_other; [apply Hst, Ha | | exact Hns].
      intros ->. contradiction.
  - intros a i L Hi HpL.
    assert (Hold : forall i0, h !! a = Some i0 ->
              Interval.parent i0 = Some L ->
              Interval.wide i0 = Interval.wide i ->
              L <> a /\ exists l, is_leader h' L l
                                  /\ Interval.wide l = Interval.wide i).
    { intros i0 Hi0 Hp0 Hw0.
      destruct (Hp a i0 L Hi0 Hp0) as (Hne & l & HL & Hw).
      split; [exact Hne|].
      destruct (split_leader_new L l HL) as (l' & HL' & _ & Hw' & _).
      exists l'. split; [exact HL' | congruence]. }
    destruct (decide (a = c)) as [->|Hnc].
    { rewrite split_lookup_c in Hi. inversion Hi; subst i.
      rewrite Hcpar in HpL. inversion HpL; subst L.
      split; [intros He; rewrite He in Hldr; congruence|].
      assert (HL : is_leader h (leader self this) ldr).
      { split; [exact Hldr|].
        destruct (Interval.parent this) as [L0|] eqn:Ep.
        - destruct (Hp self this L0 Hthis Ep) as (_ & l0 & [H1 H2] & _).
          unfold leader in Hldr. rewrite Ep in Hldr. simpl in Hldr.
          rewrite H1 in Hldr. inversion Hldr; subst. exact H2.
        - unfold leader in Hldr. rewrite Ep in Hldr. simpl in Hldr.
          rewrite Hthis in Hldr. inversion Hldr; subst. exact Ep. }
      destruct (split_leader_new _ _ HL) as (l' & HL' & _ & Hw' & _).
      exists l'. split; [exact HL' | congruence]. }
    destruct (decide (a = self)) as [->|Hns].
    { rewrite split_lookup_self in Hi. inversion Hi; subst i.
      apply (Hold this Hthis); congruence. }
    rewrite split_lookup_other in Hi by assumption.
    apply (Hold i Hi HpL eq_refl).
  - intros L l' HL'.
    destruct (split_leader_old L l' HL') as (l & HL & Hs & _).
    destruct (Hl L l HL) as (x & xi & Hx & Hlt & Hmax & Huniq).
    destruct (split_last_new L x xi Hx) as (x' & xi' & Hx' & He & Hor).
    exists x', xi'. split; [exact Hx'|]. split; [lia|]. split; [lia|].
    intros y yi Hy.
    destruct (split_last_old L y yi Hy) as (Hys & y0 & yi0 & Hy0 & _ & Hory).
    pose proof (Huniq y0 yi0 Hy0) as Heq. subst y0.
    destruct Hor as [[-> Hxs]|[-> ->]]; destruct Hory as [[-> _]|[-> Hxe]];
      congruence.
  - intros L l' j HL' Hh.
    destruct (split_leader_old L l' HL') as (l & HL & _ & Hw & Hs).
    destruct (Hsl L l j HL (holds_eq _ _ _ Hw Hs Hh)) as [H0 Hj].
    split; [congruence | exact Hj].
  - intros j w L l' x xi' Hj Hw HL' Hh Hx'.
    destruct (split_leader_old L l' HL') as (l & HL & _ & Hw' & Hs).
    destruct (split_last_old L x xi' Hx') as (_ & x0 & xi0 & Hx0 & He & Hor).
    destruct (Hf j w L l x0 xi0 Hj Hw HL (holds_eq _ _ _ Hw' Hs Hh) Hx0)
      as [Hle Hn].
    destruct Hor as [[-> Hxs]|[-> ->]]; [|contradiction].
    split; [lia|]. intros Hin. apply elem_of_cons in Hin as [->|Hin].
    + destruct Hx0 as (Hx0 & _). congruence.
    + contradiction.
  - intros j O o' x xi' L l' y yi' Hj HO' Hho Hx' HxD Hne HL' Hhl Hy'.
    destruct (split_leader_old O o' HO') as (o & HO & Hso & Hwo & Hslo).
    destruct (split_leader_old L l' HL') as (l & HL & _ & Hwl & Hsll).
    destruct (split_last_old O x xi' Hx') as (_ & x0 & xi0 & Hx0 & _ & Horx).
    destruct (split_last_old L y yi' Hy') as (_ & y0 & yi0 & Hy0 & Hey & Hory).
    assert (Hx0D : x0 ∈ D).
    { destruct Horx as [[-> Hxs]|[-> ->]]; [|exact HsD].
      apply elem_of_cons in HxD as [->|HxD]; [|exact HxD].
      destruct Hx0 as (Hx0 & _). congruence. }
    destruct (Ho j O o x0 xi0 L l y0 yi0 Hj HO
                 (holds_eq _ _ _ Hwo Hslo Hho) Hx0 Hx0D Hne HL
                 (holds_eq _ _ _ Hwl Hsll Hhl) Hy0) as [Hle Hn].
    split; [lia|].
    destruct Hory as [[-> Hys]|[-> ->]]; [|contradiction].
    intros Hin. apply elem_of_cons in Hin as [->|Hin]; [|contradiction].
    destruct Hy0 as (Hy0 & _). congruence.
  - intros j L1 l1' x1 x1i' L2 l2' x2 x2i' Hne HL1' Hh1 Hx1' HL2' Hh2 Hx2'.
    destruct (split_leader_old _ _ HL1') as (l1 & HL1 & Hs1 & Hw1 & Hsl1).
    destruct (split_leader_old _ _ HL2') as (l2 & HL2 & Hs2 & Hw2 & Hsl2).
    destruct (split_last_old _ _ _ Hx1') as (_ & y1 & y1i & Hy1 & He1 & _).
    destruct (split_last_old _ _ _ Hx2') as (_ & y2 & y2i & Hy2 & He2 & _).
    destruct (Hd j L1 l1 y1 y1i L2 l2 y2 y2i Hne HL1
                 (holds_eq _ _ _ Hw1 Hsl1 Hh1) Hy1 HL2
                 (holds_eq _ _ _ Hw2 Hsl2 Hh2) Hy2); [left|right]; lia.
  - intros b ib L l Hb Hpb HL.
    destruct (decide (b = c)) as [->|Hbc].
    { rewrite split_lookup_c in Hb. inversion Hb; subst ib. left.
      exact Hcslot. }
    assert (Hold : forall ib0, h !! b = Some ib0 ->
              Interval.parent ib0 = Some L ->
              Interval.slot ib0 = Interval.slot ib ->
              Interval.slot ib = kInvalidSpillSlot
              \/ Interval.slot ib = Interval.slot l).
    { intros ib0 Hb0 Hp0 Hs0.
      destruct (Hp b ib0 L Hb0 Hp0) as (_ & l0 & [HL0 _] & _).
      assert (HLc : L <> c) by (intros ->; congruence).
      destruct (decide (L = self)) as [->|HLs].
      - rewrite split_lookup_self in HL. inversion HL; subst l.
        rewrite Hslot, <- Hs0. apply (Hm b ib0 self this Hb0 Hp0 Hthis).
      - rewrite split_lookup_other in HL by assumption.
        rewrite <- Hs0. apply (Hm b ib0 L l Hb0 Hp0 HL). }
    destruct (decide (b = self)) as [->|Hbs].
    + rewrite split_lookup_self in Hb. inversion Hb; subst ib.
      apply (Hold this Hthis); congruence.
    + rewrite split_lookup_other in Hb by assumption.
      apply (Hold ib Hb Hpb eq_refl).
Qed.

End SplitInv.

Section SlotSteps.

Lemma holds_set_slot (l : Interval) (k j : nat) :
  holds (set_slot (Z.of_nat k) l) j <-> occupies k (Interval.wide l) j.
Proof.
  unfold holds. simpl. rewrite Nat2Z.id. split; [intros [_ H]; exact H|].
  intros H. split; [unfold kInvalidSpillSlot; lia | exact H].
Qed.

Lemma length_own_slots (ss : list Z) (k : nat) (w : bool) :
  length (own_slots ss k w) = length ss.
Proof.
  unfold own_slots. destruct (negb w); rewrite ?length_insert; reflexivity.
Qed.

Section Own.

Context (h : Heap) (la : addr) (ldr : Interval) (k : nat).
Hypothesis Hla : is_leader h la ldr.

Let h1 : Heap := <[la := set_slot (Z.of_nat k) ldr]> h.

Lemma own_links : same_links h h1.
Proof.
  intros a. destruct Hla as [Hl _]. subst h1.
  destruct (decide (la = a)) as [<-|Hne].
  - rewrite Hl, lookup_insert_eq. repeat split.
  - rewrite lookup_insert_ne by exact Hne.
    destruct (h !! a); [repeat split | exact I].
Qed.

Lemma own_leader_old (L : addr) (l' : Interval) :
  is_leader h1 L l' ->
  (L = la /\ l' = set_slot (Z.of_nat k) ldr) \/ (L <> la /\ is_leader h L l').
Proof.
  intros [Hl Hp]. subst h1. destruct (decide (L = la)) as [->|Hne].
  - rewrite lookup_insert_eq in Hl. inversion Hl. left. auto.
  - rewrite lookup_insert_ne in Hl by congruence. right.
    split; [exact Hne|]. split; assumption.
Qed.

Lemma own_inv (ss : list Z) (D : list addr) :
  alloc_inv h ss D ->
  Interval.slot ldr = kInvalidSpillSlot ->
  find_free ss (Interval.start ldr) (Interval.wide ldr) = Some k ->
  alloc_inv h1 (own_slots ss k (Interval.wide ldr)) D.
Proof.
  intros [[Hnd Hst] Hp Hl Hsl Hf Ho Hd Hm] Hno Hfind.
  pose proof own_links as Hs.
  destruct (find_free_Some _ _ _ _ Hfind) as [_ Hocc].
  assert (Hmax : Interval.start ldr < kMaxPos).
  { destruct (Hl la ldr Hla) as (x & xi & _ & H1 & H2 & _). lia. }
  assert (Hss : Interval.start (set_slot (Z.of_nat k) ldr)
                = Interval.start ldr) by reflexivity.
  assert (Hnh : forall j, ~ holds ldr j).
  { intros j [H _]. contradiction. }
  assert (Hown : forall j, occupies k (Interval.wide ldr) j ->
            own_slots ss k (Interval.wide ldr) !! j = Some kMaxPos
            /\ exists w, ss !! j = Some w /\ w <= Interval.start ldr).
  { intros j Hj. destruct (Hocc j Hj) as (w & Hw & Hle).
    split; [|eauto]. apply own_slots_occupied; [|exact Hj].
    apply lookup_lt_is_Some. eauto. }
  (* a leader other than [la] that holds [j], when [j] is taken *)
  assert (Hdead : forall j L l y yi,
            occupies k (Interval.wide ldr) j ->
            is_leader h L l -> holds l j -> is_last h L y yi ->
            Interval.end_ yi <= Interval.start ldr /\ y ∉ D).
  { intros j L l y yi Hj HL Hh Hy.
    destruct (Hocc j Hj) as (w & Hw & Hle).
    destruct (Hf j w L l y yi Hw ltac:(lia) HL Hh Hy) as [He Hn].
    split; [lia | exact Hn]. }
  constructor.
  - split; [exact Hnd|]. intros a Ha. specialize (Hst a Ha) as [i Hi].
    specialize (Hs a). rewrite Hi in Hs.
    destruct (h1 !! a); [eauto | destruct Hs].
  - intros a i' L Hi' Hpar. pose proof (Hs a) as Ha. rewrite Hi' in Ha.
    destruct (h !! a) as [i|] eqn:E; [|destruct Ha].
    destruct Ha as (H1 & H2 & H3 & H4 & H5).
    destruct (Hp a i L E ltac:(congruence)) as (Hne & l & HL & Hw).
    split; [exact Hne|].
    destruct (same_links_leader_rev _ _ _ _ Hs HL) as (l' & HL' & _ & Hw').
    exists l'. split; [exact HL' | congruence].
  - intros L l' HL'.
    destruct (same_links_leader _ _ _ _ Hs HL') as (l & HL & Hst' & _).
    destruct (Hl L l HL) as (x & xi & Hx & Hlt & Hmx & Huniq).
    destruct (same_links_last_rev _ _ _ _ _ Hs Hx) as (xi' & Hx' & He).
    exists x, xi'. split; [exact Hx'|]. split; [lia|]. split; [lia|].
    intros y yi' Hy.
    destruct (same_links_last _ _ _ _ _ Hs Hy) as (yi & Hy0 & _).
    apply (Huniq y yi Hy0).
  - intros L l' j HL' Hh. rewrite length_own_slots.
    destruct (own_leader_old L l' HL') as [[-> ->]|[Hne HL]].
    + apply holds_set_slot in Hh. simpl. split; [lia|].
      destruct (Hocc j Hh) as (w & Hw & _).
      apply lookup_lt_is_Some. eauto.
    + apply (Hsl L l' j HL Hh).
  - intros j w L l' x xi' Hj Hw HL' Hh Hx'.
    destruct (same_links_last _ _ _ _ _ Hs Hx') as (xi & Hx & He).
    assert (Hnocc : ~ occupies k (Interval.wide ldr) j).
    { intros Hj'. destruct (Hown j Hj') as [H1 _]. congruence. }
    rewrite own_slots_other in Hj by exact Hnocc.
    destruct (own_leader_old L l' HL') as [[-> ->]|[Hne HL]].
    + apply holds_set_slot in Hh. contradiction.
    + destruct (Hf j w L l' x xi Hj Hw HL Hh Hx) as [Hle Hn].
      split; [lia | exact Hn].
  - intros j O o' x xi' L l' y yi' Hj HO' Hho Hx' HxD Hne HL' Hhl Hy'.
    destruct (same_links_last _ _ _ _ _ Hs Hx') as (xi & Hx & Hex).
    destruct (same_links_last _ _ _ _ _ Hs Hy') as (yi & Hy & Hey).
    destruct (own_leader_old O o' HO') as [[-> ->]|[HneO HO]].
    + apply holds_set_slot in Hho.
      destruct (own_leader_old L l' HL') as [[-> _]|[_ HL]]; [congruence|].
      destruct (Hdead j L l' y yi Hho HL Hhl Hy) as [Hle Hn].
      rewrite Hss. split; [lia | exact Hn].
    + destruct (own_leader_old L l' HL') as [[-> ->]|[_ HL]].
      * apply holds_set_slot in Hhl.
        destruct (Hdead j O o' x xi Hhl HO Hho Hx) as [_ Hn]. contradiction.
      * destruct (classic_occupies k (Interval.wide ldr) j) as [Hj'|Hj'].
        { destruct (Hdead j O o' x xi Hj' HO Hho Hx) as [_ Hn].
          contradiction. }
        rewrite own_slots_other in Hj by exact Hj'.
        destruct (Ho j O o' x xi L l' y yi Hj HO Hho Hx HxD Hne HL Hhl Hy)
          as [Hle Hn].
        split; [lia | exact Hn].
  - intros j L1 l1' x1 x1i' L2 l2' x2 x2i' Hne HL1' Hh1 Hx1' HL2' Hh2 Hx2'.
    destruct (same_links_last _ _ _ _ _ Hs Hx1') as (x1i & Hx1 & He1).
    destruct (same_links_last _ _ _ _ _ Hs Hx2') as (x2i & Hx2 & He2).
    destruct (own_leader_old _ _ HL1') as [[-> ->]|[Hn1 HL1]];
      destruct (own_leader_old _ _ HL2') as [[-> ->]|[Hn2 HL2]].
    + congruence.
    + apply holds_set_slot in Hh1.
      destruct (Hdead j L2 l2' x2 x2i Hh1 HL2 Hh2 Hx2) as [Hle _].
      right. rewrite Hss. lia.
    + apply holds_set_slot in Hh2.
      destruct (Hdead j L1 l1' x1 x1i Hh2 HL1 Hh1 Hx1) as [Hle _].
      left. rewrite Hss. lia.
    + destruct (Hd j L1 l1' x1 x1i L2 l2' x2 x2i Hne HL1 Hh1 Hx1 HL2 Hh2 Hx2);
        [left|right]; lia.
  - intros b ib L l Hb Hpb HL. subst h1.
    destruct (decide (la = b)) as [<-|Hab].
    { rewrite lookup_insert_eq in Hb. inversion Hb; subst ib.
      destruct Hla as [_ Hpl]. simpl in Hpb. congruence. }
    rewrite lookup_insert_ne in Hb by exact Hab.
    destruct (decide (la = L)) as [<-|HaL].
    + destruct Hla as [Hl0 _]. left.
      destruct (Hm b ib la ldr Hb Hpb Hl0); congruence.
    + rewrite lookup_insert_ne in HL by exact HaL.
      apply (Hm b ib L l Hb Hpb HL).
Qed.

End Own.

End SlotSteps.

Section Release.

Lemma holds_dec (l : Interval) (j : nat) : holds l j \/ ~ holds l j.
Proof.
  unfold holds.
  destruct (decide (Interval.slot l = kInvalidSpillSlot)) as [E|E];
    [right; tauto|].
  destruct (classic_occupies (Z.to_nat (Interval.slot l)) (Interval.wide l) j);
    [left | right]; tauto.
Qed.

Lemma is_leader_eq (h : Heap) (L : addr) (l l' : Interval) :
  is_leader h L l -> is_leader h L l' -> l = l'.
Proof. intros [H _] [H' _]. congruence. Qed.

Lemma is_last_unique (h : Heap) (ss : list Z) (D : list addr) (L : addr)
    (l : Interval) (x y : addr) (xi yi : Interval) :
  alloc_inv h ss D -> is_leader h L l ->
  is_last h L x xi -> is_last h L y yi -> x = y /\ xi = yi.
Proof.
  intros Inv HL Hx Hy.
  destruct (inv_last _ _ _ Inv L l HL) as (z & zi & _ & _ & _ & Hu).
  pose proof (Hu x xi Hx). pose proof (Hu y yi Hy). subst x y.
  split; [reflexivity|]. destruct Hx as [Hx _], Hy as [Hy _]. congruence.
Qed.

Lemma leader_of_member (h : Heap) (ss : list Z) (D : list addr) (a : addr)
    (i ldr : Interval) :
  alloc_inv h ss D -> h !! a = Some i -> h !! leader a i = Some ldr ->
  is_leader h (leader a i) ldr /\ Interval.wide ldr = Interval.wide i.
Proof.
  intros Inv Hi Hl. unfold leader in *.
  destruct (Interval.parent i) as [L|] eqn:Ep; simpl in *.
  - destruct (inv_parent _ _ _ Inv a i L Hi Ep) as (_ & l & HL & Hw).
    destruct HL as [H1 H2]. rewrite H1 in Hl. inversion Hl; subst l.
    split; [split; assumption | exact Hw].
  - rewrite Hi in Hl. inversion Hl; subst ldr.
    split; [split; assumption | reflexivity].
Qed.

(** The last member [X] of the chain of [O] leaves the lists and the
    slots of the chain are set to its end. *)
Lemma release_inv (h : Heap) (ss ss' : list Z) (D D' : list addr)
    (X O : addr) (xi o : Interval) :
  alloc_inv h ss D -> D' ⊆+ D -> X ∈ D -> X ∉ D' ->
  is_last h O X xi -> is_leader h O o ->
  length ss' = length ss ->
  (forall j, holds o j -> ss' !! j = Some (Interval.end_ xi)) ->
  (forall j, ~ holds o j -> ss' !! j = ss !! j) ->
  alloc_inv h ss' D'.
Proof.
  intros Inv Hsub HXD HXD' HX HO Hlen Hset Hkeep.
  pose proof (alloc_inv_sub _ _ _ _ Inv Hsub) as Inv'.
  assert (Hin : forall a, a ∈ D' -> a ∈ D).
  { intros a Ha. eapply elem_of_submseteq; eassumption. }
  assert (Hbound : Interval.start o <= Interval.end_ xi
                   /\ Interval.end_ xi < kMaxPos).
  { destruct (inv_last _ _ _ Inv O o HO) as (z & zi & Hz & H1 & H2 & _).
    destruct (is_last_unique _ _ _ _ _ _ _ _ _ Inv HO HX Hz) as [-> ->].
    lia. }
  constructor.
  - apply (inv_dom _ _ _ Inv').
  - apply (inv_parent _ _ _ Inv').
  - apply (inv_last _ _ _ Inv').
  - intros L l j HL Hh. rewrite Hlen. apply (inv_slot _ _ _ Inv L l j HL Hh).
  - intros j w L l x xi0 Hj Hw HL Hh Hx.
    destruct (holds_dec o j) as [Hoj|Hoj].
    + rewrite (Hset j Hoj) in Hj. inversion Hj; subst w.
      destruct (decide (L = O)) as [->|Hne].
      * destruct (is_last_unique _ _ _ _ _ _ _ _ _ Inv HL Hx HX) as [-> ->].
        split; [lia | exact HXD'].
      * destruct (inv_slot _ _ _ Inv O o j HO Hoj) as [_ Hlt].
        apply lookup_lt_is_Some in Hlt as [w0 Hw0].
        destruct (decide (w0 = kMaxPos)) as [->|Hw0'].
        { destruct (inv_owned _ _ _ Inv j O o X xi L l x xi0 Hw0 HO Hoj HX
                      HXD Hne HL Hh Hx) as [Hle Hn].
          split; [lia|]. intros Hx'. apply Hn, Hin, Hx'. }
        destruct (inv_free _ _ _ Inv j w0 O o X xi Hw0 Hw0' HO Hoj HX)
          as [_ Hn].
        contradiction.
    + rewrite (Hkeep j Hoj) in Hj.
      destruct (inv_free _ _ _ Inv j w L l x xi0 Hj Hw HL Hh Hx) as [Hle Hn].
      split; [exact Hle|]. intros Hx'. apply Hn, Hin, Hx'.
  - intros j O' o' x xi0 L l y yi Hj HO' Hho Hx HxD Hne HL Hhl Hy.
    destruct (holds_dec o j) as [Hoj|Hoj].
    + rewrite (Hset j Hoj) in Hj. inversion Hj. lia.
    + rewrite (Hkeep j Hoj) in Hj.
      destruct (inv_owned _ _ _ Inv j O' o' x xi0 L l y yi Hj HO' Hho Hx
                  (Hin x HxD) Hne HL Hhl Hy) as [Hle Hn].
      split; [exact Hle|]. intros Hy'. apply Hn, Hin, Hy'.
  - apply (inv_disjoint _ _ _ Inv).
  - apply (inv_member _ _ _ Inv).
Qed.

(** The entries of the table below [kMaxPos] are not those of a chain
    whose last member is still in the lists. *)
Lemma release_keeps (h : Heap) (ss : list Z) (D : list addr)
    (X O : addr) (xi o : Interval) (j : nat) (w : Z) :
  alloc_inv h ss D -> X ∈ D -> is_last h O X xi -> is_leader h O o ->
  ss !! j = Some w -> w <> kMaxPos -> ~ holds o j.
Proof.
  intros Inv HXD HX HO Hj Hw Hoj.
  destruct (inv_free _ _ _ Inv j w O o X xi Hj Hw HO Hoj HX) as [_ Hn].
  contradiction.
Qed.

Lemma length_release_slot (ss t : list Z) (k : nat) (e : Z) :
  release_slot ss k e = Ok t -> length t = length ss.
Proof.
  intros H. apply release_slot_Ok in H as [_ ->]. apply length_insert.
Qed.

Lemma length_release_slots (ss t : list Z) (k : nat) (w : bool) (e : Z) :
  release_slots ss k w e = Ok t -> length t = length ss.
Proof.
  unfold release_slots. intros H.
  apply result_bind_Ok in H as (ss1 & H1 & H2).
  apply length_release_slot in H2. rewrite H2.
  destruct w; [apply length_release_slot in H1; exact H1|].
  inversion H1; reflexivity.
Qed.

(** [free_spill_slot] on the last member [ivl] of a chain, which leaves
    the lists. *)
Lemma free_spill_slot_inv (st st' : Vxls) (ivl : addr) (D D' : list addr) :
  alloc_inv (heap st) (spill_slots st) D ->
  D' ⊆+ D -> ivl ∈ D -> ivl ∉ D' ->
  free_spill_slot st ivl = Ok st' ->
  alloc_inv (heap st') (spill_slots st') D'
  /\ heap st' = heap st
  /\ (forall j w, spill_slots st !! j = Some w -> w <> kMaxPos ->
        spill_slots st' !! j = Some w)
  /\ (forall i o j,
        heap st !! ivl = Some i -> is_leader (heap st) (leader ivl i) o ->
        holds o j -> spill_slots st' !! j = Some (Interval.end_ i)).
Proof.
  intros Inv Hsub HD HD' H.
  pose proof H as H0. unfold free_spill_slot in H0.
  apply result_bind_Ok in H0 as (i & Hi & H0). apply deref_Ok in Hi.
  apply result_bind_Ok in H0 as ([] & _ & H0).
  apply result_bind_Ok in H0 as (ldr & Hl & _). apply deref_Ok in Hl.
  destruct (free_spill_slot_Ok _ _ _ _ _ Hi Hl H)
    as (Hh & _ & _ & _ & Hnext & Hnone & Hsome).
  destruct (leader_of_member _ _ _ _ _ _ Inv Hi Hl) as [HO Hw].
  assert (HX : is_last (heap st) (leader ivl i) ivl i).
  { split; [exact Hi|]. split; [reflexivity | exact Hnext]. }
  rewrite Hh.
  destruct (decide (Interval.slot ldr = kInvalidSpillSlot)) as [E|E].
  - rewrite (Hnone E). split; [eapply alloc_inv_sub; eassumption|].
    split; [reflexivity|]. split; [auto|].
    intros i' o j Hi' Ho [Hs _]. rewrite Hi in Hi'. inversion Hi'; subst i'.
    rewrite (is_leader_eq _ _ _ _ Ho HO) in Hs. contradiction.
  - destruct (Hsome E) as [H0' Hrel].
    destruct (release_slots_Ok _ _ _ _ _ Hrel) as [Hset Hkeep].
    assert (Hiff : forall j, holds ldr j <->
               occupies (Z.to_nat (Interval.slot ldr)) (Interval.wide i) j).
    { intros j. unfold holds. rewrite Hw. tauto. }
    split.
    + eapply (release_inv _ _ _ D D' ivl _ i ldr Inv Hsub HD HD' HX HO).
      * eapply length_release_slots. exact Hrel.
      * intros j Hj. apply Hset, Hiff, Hj.
      * intros j Hj. apply Hkeep. intros Hj'. apply Hj, Hiff, Hj'.
    + split; [reflexivity|]. split.
      * intros j w Hj Hw'. rewrite Hkeep; [exact Hj|].
        intros Hocc. apply Hiff in Hocc.
        apply (release_keeps _ _ _ _ _ _ _ _ _ Inv HD HX HO Hj Hw' Hocc).
      * intros i' o j Hi' Ho Hoj. rewrite Hi in Hi'. inversion Hi'; subst i'.
        rewrite (is_leader_eq _ _ _ _ Ho HO) in Hoj.
        apply Hset, Hiff, Hoj.
Qed.

End Release.

Section Assign.

Lemma split_alloc_inv (h h' : Heap) (self c : addr) (p : Z) (k : bool)
    (ss : list Z) (D : list addr) :
  alloc_inv h ss D -> self ∈ D -> split h self p k = Ok (h', c) ->
  alloc_inv h' ss (c :: D).
Proof.
  intros Inv HD H.
  destruct (proj2 (inv_dom _ _ _ Inv) self HD) as [this Hthis].
  destruct (split_shape _ _ _ _ _ _ _ Hthis H)
    as (Hc & ldr & this' & child & H1 & H2 & H3 & H4 & H5 & H6 & H7 & H8
        & H9 & H10 & H11 & H12).
  eapply (split_inv h h' self c this ldr this' child); eassumption.
Qed.

Lemma assignSpill_inv (st st' : Vxls) (ivl : addr) (D : list addr) :
  alloc_inv (heap st) (spill_slots st) D ->
  assignSpill st ivl = Ok st' ->
  alloc_inv (heap st') (spill_slots st') D
  /\ pending st' = pending st /\ active st' = active st
  /\ inactive st' = inactive st.
Proof.
  intros Inv H. unfold assignSpill in H.
  apply result_bind_Ok in H as (i & Hi & H). apply deref_Ok in Hi.
  apply result_bind_Ok in H as ([] & _ & H).
  apply result_bind_Ok in H as (la & Hpar & H). apply deref_Ok in Hpar.
  apply result_bind_Ok in H as (ldr & Hl & H). apply deref_Ok in Hl.
  destruct (inv_parent _ _ _ Inv ivl i la Hi Hpar) as (Hne & l & HL & Hw).
  assert (l = ldr) by (destruct HL as [HL _]; congruence). subst l.
  destruct (negb (Interval.slot ldr =? kInvalidSpillSlot)) eqn:Es.
  - inversion H; subst st'; clear H. simpl.
    split; [|auto].
    eapply alloc_inv_same_chains; [| |exact Inv].
    + apply same_chains_insert with (i := i); [exact Hi|].
      split; [repeat split|]. right. congruence.
    + eapply slots_agree_member; eassumption.
  - apply negb_false_iff, Z.eqb_eq in Es.
    destruct (if negb (Interval.wide i)
              then find_slot (spill_slots st) (Interval.start ldr) 0
              else find_wide_slot (spill_slots st) (Interval.start ldr) 0)
      as [k|] eqn:Ef; [|discriminate].
    inversion H; subst st'; clear H.
    assert (Hfind : find_free (spill_slots st) (Interval.start ldr)
                              (Interval.wide ldr) = Some k).
    { unfold find_free. rewrite Hw. exact Ef. }
    pose proof (own_inv _ _ _ k HL _ _ Inv Es Hfind) as Inv1.
    assert (Hst : heap (assign_slot st ivl la i ldr k)
                  = <[ivl := set_slot (Z.of_nat k) i]>
                      (<[la := set_slot (Z.of_nat k) ldr]> (heap st))
                  /\ spill_slots (assign_slot st ivl la i ldr k)
                     = own_slots (spill_slots st) k (Interval.wide ldr)
                  /\ pending (assign_slot st ivl la i ldr k) = pending st
                  /\ active (assign_slot st ivl la i ldr k) = active st
                  /\ inactive (assign_slot st ivl la i ldr k) = inactive st).
    { unfold assign_slot, own_slots. rewrite Hw.
      destruct (negb (Interval.wide i)); simpl; auto. }
    destruct Hst as (-> & -> & Hp & Ha & Hia).
    split; [|auto].
    assert (Hi1 : <[la := set_slot (Z.of_nat k) ldr]> (heap st) !! ivl
                  = Some i)
      by (rewrite lookup_insert_ne by exact Hne; exact Hi).
    eapply alloc_inv_same_chains; [| |exact Inv1].
    + apply same_chains_insert with (i := i); [exact Hi1|].
      split; [repeat split|]. right. congruence.
    + apply (slots_agree_member _ _ _ ivl la i (set_slot (Z.of_nat k) ldr)
               Inv1 Hi1 Hpar).
      apply lookup_insert_eq.
Qed.

End Assign.

Section StateSteps.

Lemma st_inv_sub (st : Vxls) (D : list addr) (E : list addr) :
  alloc_inv (heap st) (spill_slots st) D ->
  pending st ++ active st ++ inactive st ++ E ⊆+ D ->
  st_inv st E.
Proof. intros Inv Hsub. eapply alloc_inv_sub; eassumption. Qed.

Lemma st_inv_drop (st : Vxls) (a : addr) (E : list addr) :
  st_inv st (a :: E) -> st_inv st E.
Proof.
  intros Inv. eapply st_inv_sub; [exact Inv|]. solve_submseteq.
Qed.

Lemma set_reg_alloc_inv (h : Heap) (ss : list Z) (D : list addr) (a : addr)
    (i : Interval) (r : PhysReg) :
  alloc_inv h ss D -> h !! a = Some i ->
  alloc_inv (<[a := set_reg r i]> h) ss D.
Proof.
  intros Inv Hi. eapply alloc_inv_same_chains; [| |exact Inv].
  - apply same_chains_insert with (i := i); [exact Hi|].
    split; [repeat split|]. left. reflexivity.
  - eapply slots_agree_insert;
      [apply (inv_member _ _ _ Inv) | exact Hi | reflexivity | reflexivity].
Qed.

Lemma push_split (st : Vxls) (ivl c : addr) (h' : Heap) (p : Z) (k : bool)
    (E : list addr) :
  st_inv st E ->
  ivl ∈ pending st ++ active st ++ inactive st ++ E ->
  split (heap st) ivl p k = Ok (h', c) ->
  st_inv (set_pending (c :: pending st) (set_heap h' st)) E.
Proof.
  intros Inv Hin H. unfold st_inv. simpl.
  apply (split_alloc_inv _ _ _ _ _ _ _ _ Inv Hin H).
Qed.

Lemma spill_alloc_inv (ctx : VxlsContext) (st st' : Vxls) (ivl : addr)
    (E : list addr) :
  st_inv st E ->
  ivl ∈ pending st ++ active st ++ inactive st ++ E ->
  spill ctx st ivl = Ok st' ->
  st_inv st' E /\ active st' = active st /\ inactive st' = inactive st.
Proof.
  intros Inv Hin H. unfold spill in H.
  apply result_bind_Ok in H as (i & Hi & H). apply deref_Ok in Hi.
  apply result_bind_Ok in H as (st1 & H1 & H).
  assert (Inv1 : st_inv st1 E /\ active st1 = active st
                 /\ inactive st1 = inactive st).
  { destruct (Interval.firstUse i <=? Interval.end_ i).
    - apply result_bind_Ok in H1 as (sp & _ & H1).
      destruct (sp <=? Interval.start i); [discriminate|].
      apply result_bind_Ok in H1 as ([h' c] & Hs & H1).
      inversion H1; subst st1. split; [|auto].
      eapply push_split; eassumption.
    - inversion H1; subst st1. auto. }
  destruct Inv1 as (Inv1 & Ha & Hia).
  apply result_bind_Ok in H as (i1 & Hi1 & H). apply deref_Ok in Hi1.
  pose proof (set_reg_alloc_inv _ _ _ _ _ InvalidReg Inv1 Hi1) as Inv2.
  destruct (negb (Interval.constant i1)).
  - apply assignSpill_inv with (D := pending st1 ++ active st1 ++ inactive st1
                                     ++ E) in H; [|exact Inv2].
    destruct H as (Inv' & Hp' & Ha' & Hia'). simpl in *.
    split; [|split; congruence].
    unfold st_inv. rewrite Hp', Ha', Hia'. exact Inv'.
  - inversion H; subst st'. simpl. split; [exact Inv2 | auto].
Qed.

Lemma assignReg_alloc_inv (st st' : Vxls) (ivl : addr) (r : PhysReg)
    (E : list addr) :
  st_inv st (ivl :: E) -> assignReg st ivl r = Ok st' -> st_inv st' E.
Proof.
  intros Inv H. unfold assignReg in H.
  apply result_bind_Ok in H as (i & Hi & H). apply deref_Ok in Hi.
  destruct (negb (Interval.fixed i) && bool_decide (Interval.uses i = [])).
  - pose proof (set_reg_alloc_inv _ _ _ _ _ InvalidReg Inv Hi) as Inv1.
    destruct (negb (Interval.constant i)).
    + apply assignSpill_inv with (D := pending st ++ active st ++ inactive st
                                       ++ ivl :: E) in H; [|exact Inv1].
      destruct H as (Inv' & Hp' & Ha' & Hia'). simpl in *.
      eapply st_inv_sub; [exact Inv'|]. rewrite Hp', Ha', Hia'.
      solve_submseteq.
    + inversion H; subst st'.
      eapply st_inv_sub; [exact Inv1|]. simpl. solve_submseteq.
  - inversion H; subst st'; clear H.
    pose proof (set_reg_alloc_inv _ _ _ _ _ r Inv Hi) as Inv1.
    eapply alloc_inv_perm; [exact Inv1|]. simpl. solve_Permutation.
Qed.

Lemma spill_after_alloc_inv (ctx : VxlsContext) (cur_start : Z)
    (st st' : Vxls) (ivl : addr) (E : list addr) :
  st_inv st E ->
  ivl ∈ pending st ++ active st ++ inactive st ++ E ->
  spill_after ctx cur_start st ivl = Ok st' ->
  st_inv st' E /\ active st' = active st /\ inactive st' = inactive st.
Proof.
  intros Inv Hin H. unfold spill_after in H.
  apply result_bind_Ok in H as (sp & _ & H).
  apply result_bind_Ok in H as (i & Hi & H). apply deref_Ok in Hi.
  destruct (sp <=? Interval.start i).
  - eapply spill_alloc_inv; eassumption.
  - apply result_bind_Ok in H as ([h' tail] & Hs & H).
    pose proof (split_alloc_inv _ _ _ _ _ _ _ _ Inv Hin Hs) as Inv1.
    assert (Inv2 : st_inv (set_heap h' st) (tail :: E)).
    { eapply alloc_inv_perm; [exact Inv1|]. simpl. solve_Permutation. }
    apply spill_alloc_inv with (E := tail :: E) in H; [|exact Inv2|].
    + destruct H as (Inv' & Ha & Hia). simpl in *.
      split; [eapply st_inv_drop; exact Inv' | auto].
    + simpl. rewrite !elem_of_app, elem_of_cons. auto.
Qed.

Lemma sub_swap_remove (l done w : list addr) (a : addr) :
  l ⊆+ done ++ swap_remove w -> l ⊆+ done ++ a :: w.
Proof.
  intros H. etrans; [exact H|]. rewrite swap_remove_perm. solve_submseteq.
Qed.

Lemma spill_others_active_alloc_inv (ctx : VxlsContext) (cur_start : Z)
    (r : PhysReg) (E : list addr) :
  forall fuel st done window st' done',
    st_inv st E ->
    (forall a, a ∈ window -> a ∈ active st) ->
    spill_others_active fuel ctx cur_start r st done window = Ok (st', done') ->
    st_inv st' E /\ active st' = active st /\ inactive st' = inactive st
    /\ done' ⊆+ done ++ window.
Proof.
  induction fuel as [|fuel IH]; intros st done window st' done' Inv Hw H.
  - simpl in H. inversion H; subst. split; [exact Inv|].
    split; [reflexivity|]. split; [reflexivity|].
    apply submseteq_inserts_r. reflexivity.
  - simpl in H. destruct window as [|a w].
    { inversion H; subst. split; [exact Inv|].
      split; [reflexivity|]. split; [reflexivity|].
      rewrite app_nil_r. reflexivity. }
    apply result_bind_Ok in H as (other & Ho & H). apply deref_Ok in Ho.
    destruct (Interval.fixed other
              || negb (bool_decide (r = Interval.reg other))).
    + apply IH in H; [|exact Inv|].
      * destruct H as (Inv' & Ha & Hia & Hsub).
        split; [exact Inv'|]. split; [exact Ha|]. split; [exact Hia|].
        rewrite Hsub. solve_submseteq.
      * intros b Hb. apply Hw. right. exact Hb.
    + apply result_bind_Ok in H as (st1 & H1 & H).
      apply spill_after_alloc_inv with (E := E) in H1; [|exact Inv|].
      * destruct H1 as (Inv1 & Ha1 & Hia1).
        apply IH in H; [|exact Inv1|].
        { destruct H as (Inv' & Ha & Hia & Hsub).
          split; [exact Inv'|]. split; [congruence|]. split; [congruence|].
          eapply sub_swap_remove, Hsub. }
        intros b Hb. rewrite Ha1. apply Hw. right.
        apply swap_remove_subset, Hb.
      * rewrite !elem_of_app. right. left. apply Hw. left.
Qed.

Lemma spill_others_inactive_alloc_inv (ctx : VxlsContext) (current : addr)
    (cur_start : Z) (r : PhysReg) (E : list addr) :
  forall fuel st done window st' done',
    st_inv st E ->
    (forall a, a ∈ window -> a ∈ inactive st) ->
    spill_others_inactive fuel ctx current cur_start r st done window
    = Ok (st', done') ->
    st_inv st' E /\ active st' = active st /\ inactive st' = inactive st
    /\ done' ⊆+ done ++ window.
Proof.
  induction fuel as [|fuel IH]; intros st done window st' done' Inv Hw H.
  - simpl in H. inversion H; subst. split; [exact Inv|].
    split; [reflexivity|]. split; [reflexivity|].
    apply submseteq_inserts_r. reflexivity.
  - simpl in H. destruct window as [|a w].
    { inversion H; subst. split; [exact Inv|].
      split; [reflexivity|]. split; [reflexivity|].
      rewrite app_nil_r. reflexivity. }
    assert (Hskip : forall st' done',
              spill_others_inactive fuel ctx current cur_start r st
                                    (done ++ [a]) w = Ok (st', done') ->
              st_inv st' E /\ active st' = active st
              /\ inactive st' = inactive st /\ done' ⊆+ done ++ a :: w).
    { intros st2 done2 H2. apply IH in H2; [|exact Inv|].
      - destruct H2 as (Inv' & Ha & Hia & Hsub).
        split; [exact Inv'|]. split; [exact Ha|]. split; [exact Hia|].
        rewrite Hsub. solve_submseteq.
      - intros b Hb. apply Hw. right. exact Hb. }
    apply result_bind_Ok in H as (other & Ho & H). apply deref_Ok in Ho.
    destruct (Interval.fixed other
              || negb (bool_decide (r = Interval.reg other)));
      [apply Hskip, H|].
    apply result_bind_Ok in H as (cur & _ & H).
    apply result_bind_Ok in H as (x & _ & H).
    destruct (Interval.end_ cur <=? x); [apply Hskip, H|].
    apply result_bind_Ok in H as (st1 & H1 & H).
    apply spill_after_alloc_inv with (E := E) in H1; [|exact Inv|].
    + destruct H1 as (Inv1 & Ha1 & Hia1).
      apply IH in H; [|exact Inv1|].
      { destruct H as (Inv' & Ha & Hia & Hsub).
        split; [exact Inv'|]. split; [congruence|]. split; [congruence|].
        eapply sub_swap_remove, Hsub. }
      intros b Hb. rewrite Hia1. apply Hw. right.
      apply swap_remove_subset, Hb.
    + rewrite !elem_of_app. right. right. left. apply Hw. left.
Qed.

Lemma spillOthers_alloc_inv (ctx : VxlsContext) (st st' : Vxls)
    (current : addr) (r : PhysReg) (E : list addr) :
  st_inv st E -> spillOthers ctx st current r = Ok st' -> st_inv st' E.
Proof.
  intros Inv H. unfold spillOthers in H.
  apply result_bind_Ok in H as (cur & _ & H).
  apply result_bind_Ok in H as ([st1 act] & H1 & H).
  apply spill_others_active_alloc_inv with (E := E) in H1;
    [|exact Inv | auto].
  destruct H1 as (Inv1 & Ha1 & Hia1 & Hsub1). simpl in Hsub1.
  assert (Inv1' : st_inv (set_active act st1) E).
  { eapply st_inv_sub; [exact Inv1|]. simpl. rewrite Ha1.
    apply submseteq_app; [reflexivity|].
    apply submseteq_app; [exact Hsub1 | reflexivity]. }
  apply result_bind_Ok in H as ([st2 inact] & H2 & H).
  apply spill_others_inactive_alloc_inv with (E := E) in H2;
    [|exact Inv1' | auto].
  destruct H2 as (Inv2 & Ha2 & Hia2 & Hsub2). simpl in Hsub2.
  inversion H; subst st'.
  eapply st_inv_sub; [exact Inv2|]. simpl. rewrite Hia2. simpl.
  apply submseteq_app; [reflexivity|].
  apply submseteq_app; [reflexivity|].
  apply submseteq_app; [exact Hsub2 | reflexivity].
Qed.

End StateSteps.

Section Allocation.

Context (ctx : VxlsContext) (abi : Abi) (nregs : nat)
        (intervals : gmap Vreg addr) (precoloring coalescing : bool).

Lemma in_lists_current (st : Vxls) (current : addr) (E : list addr) :
  current ∈ pending st ++ active st ++ inactive st ++ current :: E.
Proof. rewrite !elem_of_app, elem_of_cons. auto. Qed.

Lemma allocBlocked_split_alloc_inv (st st1 : Vxls) (current : addr)
    (cur : Interval) (block_pos : Z) (E : list addr) :
  st_inv st (current :: E) ->
  allocBlocked_split ctx st current cur block_pos = Ok st1 ->
  st_inv st1 (current :: E).
Proof.
  intros Inv H. unfold allocBlocked_split in H.
  destruct (block_pos <? Interval.end_ cur); [|inversion H; subst; exact Inv].
  apply result_bind_Ok in H as (u & _ & H).
  apply result_bind_Ok in H as (sp & _ & H).
  destruct (Interval.start cur <? sp); [|inversion H; subst; exact Inv].
  apply result_bind_Ok in H as ([h' second] & Hs & H).
  inversion H; subst st1.
  eapply push_split; [exact Inv | apply in_lists_current | exact Hs].
Qed.

Lemma allocBlocked_alloc_inv (st st' : Vxls) (current : addr)
    (E : list addr) :
  st_inv st (current :: E) ->
  allocBlocked ctx abi nregs st current = Ok st' ->
  st_inv st' E.
Proof.
  intros Inv H. rewrite allocBlocked_eq in H.
  apply result_bind_Ok in H as (cur & _ & H).
  apply result_bind_Ok in H as (acc & _ & H).
  apply result_bind_Ok in H as (r & _ & H).
  apply result_bind_Ok in H as (ur & _ & H).
  destruct (ur <? Interval.firstUse cur).
  - apply spill_alloc_inv with (E := current :: E) in H;
      [|exact Inv | apply in_lists_current].
    destruct H as [Inv' _]. eapply st_inv_drop, Inv'.
  - apply result_bind_Ok in H as (bp & _ & H).
    apply result_bind_Ok in H as (st1 & H1 & H).
    apply result_bind_Ok in H as (st2 & H2 & H).
    eapply assignReg_alloc_inv; [|exact H].
    eapply spillOthers_alloc_inv; [|exact H2].
    eapply allocBlocked_split_alloc_inv; eassumption.
Qed.

Lemma allocate_choose_alloc_inv (fu : PosVec) (allow : RegSet)
    (st st' : Vxls) (current : addr) (E : list addr) :
  st_inv st (current :: E) ->
  allocate_choose ctx abi nregs intervals precoloring coalescing fu allow st
                  current = Ok st' ->
  st_inv st' E.
Proof.
  intros Inv H. rewrite allocate_choose_eq in H.
  apply result_bind_Ok in H as (cur & _ & H).
  apply result_bind_Ok in H as (hn & _ & H).
  apply result_bind_Ok in H as (hf & _ & H).
  destruct hf; [eapply assignReg_alloc_inv; eassumption|].
  apply result_bind_Ok in H as (r & _ & H).
  apply result_bind_Ok in H as (p & _ & H).
  destruct (Interval.end_ cur <=? p);
    [eapply assignReg_alloc_inv; eassumption|].
  apply result_bind_Ok in H as (sh & _ & H).
  destruct sh as [sp|]; [|eapply allocBlocked_alloc_inv; eassumption].
  apply result_bind_Ok in H as ([h' second] & Hs & H).
  apply result_bind_Ok in H as (cur1 & _ & H).
  apply result_bind_Ok in H as (hf1 & _ & H).
  eapply assignReg_alloc_inv; [|exact H].
  eapply push_split; [exact Inv | apply in_lists_current | exact Hs].
Qed.

Lemma allocate_cut_alloc_inv (st st1 : Vxls) (current : addr)
    (cur : Interval) (E : list addr) :
  st_inv st (current :: E) ->
  allocate_cut ctx st current cur = Ok (Some st1) ->
  st_inv st1 (current :: E).
Proof.
  intros Inv H. unfold allocate_cut in H.
  destruct (1 <? length (Interval.ranges cur))%nat;
    [|inversion H; subst; exact Inv].
  apply result_bind_Ok in H as (b & _ & H).
  apply result_bind_Ok in H as (br & _ & H).
  apply result_bind_Ok in H as (r0 & _ & H).
  destruct (LiveRange.end_ r0 <? LiveRange.end_ br).
  - apply result_bind_Ok in H as ([h' second] & Hs & H).
    inversion H; subst st1.
    eapply push_split; [exact Inv | apply in_lists_current | exact Hs].
  - destruct (Interval.constant cur
              && match Interval.uses cur with
                 | u :: _ => LiveRange.end_ br <=? pos u
                 | [] => false
                 end); inversion H; subst; exact Inv.
Qed.

Lemma allocate_alloc_inv (st st' : Vxls) (current : addr) (E : list addr) :
  st_inv st (current :: E) ->
  allocate ctx abi nregs intervals precoloring coalescing st current
  = Ok st' ->
  st_inv st' E.
Proof.
  intros Inv H. rewrite allocate_cut_eq in H.
  apply result_bind_Ok in H as (cur & _ & H).
  apply result_bind_Ok in H as ([[fu conflict] allow] & _ & H).
  apply result_bind_Ok in H as (cut & Hc & H).
  destruct cut as [st1|].
  - eapply allocate_choose_alloc_inv; [|exact H].
    eapply allocate_cut_alloc_inv; eassumption.
  - apply spill_alloc_inv with (E := current :: E) in H;
      [|exact Inv | apply in_lists_current].
    destruct H as [Inv' _]. eapply st_inv_drop, Inv'.
Qed.

End Allocation.

Section Update.

Lemma length_swap_remove (w : list addr) :
  length (swap_remove w) = length w.
Proof. apply Permutation_length, swap_remove_perm. Qed.

Lemma elem_of_swap_remove (w : list addr) (x : addr) :
  x ∈ w -> x ∈ swap_remove w.
Proof. intros H. rewrite swap_remove_perm. exact H. Qed.

(** One pass of [update_list] over [window]; [F] holds the intervals of
    the other lists. *)
Lemma update_list_alloc_inv (p : Z) (is_active : bool) (F : list addr) :
  forall fuel st done window moved st' done' moved',
    (length window <= fuel)%nat ->
    alloc_inv (heap st) (spill_slots st) (done ++ window ++ moved ++ F) ->
    update_list fuel p is_active st done window moved
    = Ok (st', done', moved') ->
    alloc_inv (heap st') (spill_slots st') (done' ++ moved' ++ F)
    /\ heap st' = heap st
    /\ (forall j w, spill_slots st !! j = Some w -> w <> kMaxPos ->
          spill_slots st' !! j = Some w)
    /\ (forall x i o j,
          x ∈ window -> heap st !! x = Some i ->
          Interval.end_ i <= p -> Interval.next i = None ->
          is_leader (heap st) (leader x i) o -> holds o j ->
          spill_slots st' !! j = Some (Interval.end_ i)).
Proof.
  induction fuel as [|fuel IH];
    intros st done window moved st' done' moved' Hlen Inv H.
  { destruct window; [|simpl in Hlen; lia].
    simpl in H. inversion H; subst. split; [exact Inv|].
    split; [reflexivity|]. split; [auto|].
    intros x i o j Hx. inversion Hx. }
  simpl in H. destruct window as [|ivl w].
  { inversion H; subst. split; [exact Inv|].
    split; [reflexivity|]. split; [auto|].
    intros x i o j Hx. inversion Hx. }
  simpl in Hlen.
  apply result_bind_Ok in H as (i & Hi & H). apply deref_Ok in Hi.
  assert (HD : done ++ (ivl :: w) ++ moved ++ F
               ≡ₚ ivl :: done ++ swap_remove w ++ moved ++ F).
  { rewrite swap_remove_perm. solve_Permutation. }
  destruct (Interval.end_ i <=? p) eqn:Ee.
  - apply Z.leb_le in Ee.
    apply result_bind_Ok in H as (st1 & H1 & H).
    assert (Hsub : done ++ swap_remove w ++ moved ++ F
                   ⊆+ done ++ (ivl :: w) ++ moved ++ F).
    { rewrite HD. apply submseteq_cons. reflexivity. }
    assert (Hin : ivl ∈ done ++ (ivl :: w) ++ moved ++ F).
    { rewrite !elem_of_app, elem_of_cons. auto. }
    assert (Hout : ivl ∉ done ++ swap_remove w ++ moved ++ F).
    { pose proof (proj1 (inv_dom _ _ _ Inv)) as Hnd. rewrite HD in Hnd.
      apply NoDup_cons in Hnd as [Hn _]. exact Hn. }
    destruct (negb (bool_decide (is_Some (Interval.next i)))) eqn:En.
    + destruct (free_spill_slot_inv _ _ _ _ _ Inv Hsub Hin Hout H1)
        as (Inv1 & Hh1 & Hkeep1 & Hset1).
      apply IH in H; [|rewrite length_swap_remove; lia | exact Inv1].
      destruct H as (Inv' & Hh' & Hkeep' & Hset').
      split; [exact Inv'|]. split; [congruence|]. split; [auto|].
      intros x i' o j Hx Hi' He Hn Ho Hoj.
      apply elem_of_cons in Hx as [->|Hx].
      * rewrite Hi in Hi'. inversion Hi'; subst i'.
        apply Hkeep'; [apply (Hset1 i o j Hi Ho Hoj)|].
        assert (HX : is_last (heap st) (leader ivl i) ivl i).
        { split; [exact Hi|]. split; [reflexivity | exact Hn]. }
        destruct (inv_last _ _ _ Inv _ _ Ho) as (z & zi & Hz & _ & Hm & _).
        destruct (is_last_unique _ _ _ _ _ _ _ _ _ Inv Ho HX Hz) as [-> ->].
        lia.
      * rewrite <- Hh1 in Hi', Ho.
        apply (Hset' x i' o j (elem_of_swap_remove _ _ Hx) Hi' He Hn Ho Hoj).
    + inversion H1; subst st1.
      apply IH in H; [|rewrite length_swap_remove; lia
                      |eapply alloc_inv_sub; eassumption].
      destruct H as (Inv' & Hh' & Hkeep' & Hset').
      split; [exact Inv'|]. split; [exact Hh'|]. split; [exact Hkeep'|].
      intros x i' o j Hx Hi' He Hn Ho Hoj.
      apply elem_of_cons in Hx as [->|Hx].
      * rewrite Hi in Hi'. inversion Hi'; subst i'.
        apply negb_false_iff, bool_decide_eq_true in En.
        rewrite Hn in En. destruct En as [? En]. discriminate.
      * apply (Hset' x i' o j (elem_of_swap_remove _ _ Hx) Hi' He Hn Ho Hoj).
  - apply Z.leb_gt in Ee.
    destruct (if is_active then negb (Interval.covers i p)
              else Interval.covers i p).
    + apply IH in H; [|rewrite length_swap_remove; lia|].
      * destruct H as (Inv' & Hh' & Hkeep' & Hset').
        split; [exact Inv'|]. split; [exact Hh'|]. split; [exact Hkeep'|].
        intros x i' o j Hx Hi' He Hn Ho Hoj.
        apply elem_of_cons in Hx as [->|Hx].
        { rewrite Hi in Hi'. inversion Hi'; subst i'. lia. }
        apply (Hset' x i' o j (elem_of_swap_remove _ _ Hx) Hi' He Hn Ho Hoj).
      * eapply alloc_inv_perm; [exact Inv|]. rewrite HD. solve_Permutation.
    + apply IH in H; [|lia|].
      * destruct H as (Inv' & Hh' & Hkeep' & Hset').
        split; [exact Inv'|]. split; [exact Hh'|]. split; [exact Hkeep'|].
        intros x i' o j Hx Hi' He Hn Ho Hoj.
        apply elem_of_cons in Hx as [->|Hx].
        { rewrite Hi in Hi'. inversion Hi'; subst i'. lia. }
        apply (Hset' x i' o j Hx Hi' He Hn Ho Hoj).
      * eapply alloc_inv_perm; [exact Inv|]. solve_Permutation.
Qed.

Lemma update_alloc_inv (st st' : Vxls) (current : addr) (cur : Interval)
    (E : list addr) :
  st_inv st E ->
  heap st !! current = Some cur ->
  update st current = Ok st' ->
  st_inv st' E
  /\ (forall j w, spill_slots st !! j = Some w -> w <> kMaxPos ->
        spill_slots st' !! j = Some w)
  /\ (forall x i o j,
        x ∈ active st ++ inactive st -> heap st !! x = Some i ->
        Interval.end_ i <= Interval.start cur -> Interval.next i = None ->
        is_leader (heap st) (leader x i) o -> holds o j ->
        spill_slots st' !! j = Some (Interval.end_ i)).
Proof.
  intros Inv Hcur H. unfold update in H. rewrite Hcur in H. simpl in H.
  apply result_bind_Ok in H as ([[st1 act] moved1] & H1 & H).
  apply result_bind_Ok in H as ([[st2 inact] moved2] & H2 & H).
  inversion H; subst st'; clear H.
  destruct (update_list_partition _ _ _ _ _ _ _ _ _ _ (le_n _) H1)
    as ((_ & Ha1 & Hia1 & Hp1) & _).
  destruct (update_list_partition _ _ _ _ _ _ _ _ _ _ (le_n _) H2)
    as ((_ & Ha2 & Hia2 & Hp2) & _).
  apply update_list_alloc_inv
    with (F := pending st ++ inactive st ++ E) in H1; [|lia|].
  2:{ eapply alloc_inv_perm; [exact Inv|]. simpl. solve_Permutation. }
  destruct H1 as (Inv1 & Hh1 & Hkeep1 & Hset1).
  apply update_list_alloc_inv
    with (F := pending st ++ act ++ E) in H2; [|lia|].
  2:{ eapply alloc_inv_perm; [exact Inv1|]. simpl. rewrite Hia1.
      solve_Permutation. }
  destruct H2 as (Inv2 & Hh2 & Hkeep2 & Hset2).
  split.
  - eapply alloc_inv_perm; [exact Inv2|]. simpl. rewrite Hp2, Hp1.
    solve_Permutation.
  - simpl. split; [auto|].
    intros x i o j Hx Hi He Hn Ho Hoj.
    apply elem_of_app in Hx as [Hx|Hx].
    + apply Hkeep2; [apply (Hset1 x i o j Hx Hi He Hn Ho Hoj)|].
      assert (HX : is_last (heap st) (leader x i) x i).
      { split; [exact Hi|]. split; [reflexivity | exact Hn]. }
      destruct (inv_last _ _ _ Inv _ _ Ho) as (z & zi & Hz & _ & Hm & _).
      destruct (is_last_unique _ _ _ _ _ _ _ _ _ Inv Ho HX Hz) as [-> ->].
      lia.
    + rewrite <- Hh1 in Hi, Ho.
      apply (Hset2 x i o j); try assumption.
      rewrite Hia1. apply elem_of_app. left. exact Hx.
Qed.

End Update.

Section Go.

Context (top : Top) (ctx : VxlsContext) (abi : Abi) (nregs : nat)
        (intervals : gmap Vreg addr) (precoloring coalescing : bool).

Lemma go_start_alloc_inv (st st' : Vxls) (ivl : addr) (E : list addr) :
  st_inv st (ivl :: E) -> go_start ctx st ivl = Ok st' -> st_inv st' E.
Proof.
  intros Inv H. unfold go_start in H.
  apply result_bind_Ok in H as (i & _ & H).
  destruct (Interval.fixed i); [eapply assignReg_alloc_inv; eassumption|].
  destruct (Interval.constant i).
  - apply spill_alloc_inv with (E := ivl :: E) in H;
      [|exact Inv | apply in_lists_current].
    destruct H as [Inv' _]. eapply st_inv_drop, Inv'.
  - inversion H; subst st'.
    eapply alloc_inv_perm; [exact Inv|]. simpl. solve_Permutation.
Qed.

Lemma go_starts_alloc_inv (l : list addr) :
  forall st st',
    st_inv st l -> foldM (go_start ctx) st l = Ok st' -> st_inv st' [].
Proof.
  induction l as [|a l IH]; intros st st' Inv H.
  - inversion H; subst. exact Inv.
  - cbn [foldM] in H. apply result_bind_Ok in H as (st1 & H1 & H).
    eapply IH; [|exact H]. eapply go_start_alloc_inv; eassumption.
Qed.

Lemma go_loop_alloc_inv :
  top_takes top ->
  forall fuel st st',
    st_inv st [] ->
    go_loop top fuel ctx abi nregs intervals precoloring coalescing st
    = Some (Ok st') ->
    st_inv st' [].
Proof.
  intros Htop. induction fuel as [|fuel IH]; intros st st' Inv H.
  - simpl in H. destruct (pending st); [|discriminate].
    inversion H; subst. exact Inv.
  - simpl in H. destruct (pending st) as [|a l] eqn:Ep.
    { inversion H; subst. exact Inv. }
    destruct (update (set_pending (top (heap st) a l).2 st)
                     (top (heap st) a l).1) as [st1|] eqn:Hu;
      simpl in H; [|discriminate].
    destruct (allocate ctx abi nregs intervals precoloring coalescing st1
                       (top (heap st) a l).1) as [st2|] eqn:Ha;
      [|discriminate].
    apply (IH st2 st'); [|exact H].
    eapply allocate_alloc_inv; [|exact Ha].
    pose proof Hu as Hu'. unfold update in Hu'.
    apply result_bind_Ok in Hu' as (cur & Hcur & _). apply deref_Ok in Hcur.
    eapply update_alloc_inv; [|exact Hcur|exact Hu].
    eapply alloc_inv_perm; [exact Inv|]. simpl. rewrite Ep.
    rewrite (Htop (heap st) a l). solve_Permutation.
Qed.

Lemma fresh_state_alloc_inv (st : Vxls) (ivec : list (option addr)) :
  fresh_state st ivec -> st_inv st (omap id ivec).
Proof.
  intros (Hp & Ha & Hia & Hnd & Hst & Hall).
  unfold st_inv. rewrite Hp, Ha, Hia. simpl.
  assert (Hno : forall L l j, is_leader (heap st) L l -> ~ holds l j).
  { intros L l j [Hl _] [Hs _]. destruct (Hall L l Hl) as (_ & _ & H & _).
    contradiction. }
  constructor.
  - split; assumption.
  - intros a i L Hi Hpar. destruct (Hall a i Hi) as (H & _). congruence.
  - intros L l [Hl Hpar]. destruct (Hall L l Hl) as (_ & Hn & _ & H1 & H2).
    exists L, l. split; [split; [exact Hl|]; split; [|exact Hn]|].
    { unfold leader. rewrite Hpar. reflexivity. }
    split; [exact H1|]. split; [exact H2|].
    intros y yi (Hy & Hly & _). destruct (Hall y yi Hy) as (Hpy & _).
    unfold leader in Hly. rewrite Hpy in Hly. simpl in Hly. congruence.
  - intros L l j HL Hh. destruct (Hno L l j HL Hh).
  - intros j w L l x xi _ _ HL Hh. destruct (Hno L l j HL Hh).
  - intros j O o x xi L l y yi _ HO Hh. destruct (Hno O o j HO Hh).
  - intros j L1 l1 x1 x1i L2 l2 x2 x2i _ HL Hh. destruct (Hno L1 l1 j HL Hh).
  - intros a i L l Hi Hpar. destruct (Hall a i Hi) as (H & _). congruence.
Qed.

Lemma go_state_alloc_inv (fuel : nat) (ivec : list (option addr))
    (st0 st : Vxls) :
  top_takes top ->
  fresh_state st0 ivec ->
  go_state top fuel ctx abi nregs ivec intervals precoloring coalescing st0
  = Some (Ok st) ->
  st_inv st [].
Proof.
  intros Htop Hf H. unfold go_state in H.
  destruct (foldM (go_start ctx) st0 (omap id ivec)) as [st1|] eqn:E;
    [|discriminate].
  eapply go_loop_alloc_inv; [exact Htop| |exact H].
  eapply go_starts_alloc_inv; [|exact E].
  apply fresh_state_alloc_inv, Hf.
Qed.

End Go.

Section BuiltState.

Lemma ranges_wf_bounds (rs : list LiveRange) :
  forall r0,
    ranges_wf rs = true -> head rs = Some r0 ->
    exists e, last rs = Some e /\ LiveRange.start r0 < LiveRange.end_ e.
Proof.
  induction rs as [|r rest IH]; intros r0 Hwf Hh; [discriminate|].
  simpl in Hh. inversion Hh; subst r0. cbn [ranges_wf] in Hwf.
  apply andb_true_iff in Hwf as [Hwf Hrest].
  apply andb_true_iff in Hwf as [Hlt Hsep]. apply Z.ltb_lt in Hlt.
  destruct rest as [|r' rest'].
  - exists r. split; [reflexivity | exact Hlt].
  - apply Z.ltb_lt in Hsep.
    destruct (IH r' Hrest eq_refl) as (e & He & Hlt').
    exists e. split; [rewrite last_cons, He; reflexivity | lia].
Qed.

(** The state in which [go] starts is as [fresh_state] asks, when the
    records of the store are intervals built by [buildIntervals] on a
    unit laid out by [computePositions] and none of them reaches
    [kMaxPos]. *)
Lemma built_fresh_state (sf0 : Vreg) (vunit : Vunit) (ctx : VxlsContext)
    (m : Intervals) (st : Vxls) (ivec : list (option addr)) :
  layout_ok vunit ctx = true ->
  buildIntervals sf0 vunit ctx = Ok m ->
  pending st = [] -> active st = [] -> inactive st = [] ->
  NoDup (omap id ivec) ->
  (forall a, a ∈ omap id ivec -> is_Some (heap st !! a)) ->
  (forall a i, heap st !! a = Some i ->
     (exists r, m !! r = Some i) /\ Interval.end_ i < kMaxPos) ->
  fresh_state st ivec.
Proof.
  intros Hlay Hb Hp Ha Hia Hnd Hst Hall.
  split; [exact Hp|]. split; [exact Ha|]. split; [exact Hia|].
  split; [exact Hnd|]. split; [exact Hst|].
  intros a i Hi. destruct (Hall a i Hi) as ((r & Hr) & Hmax).
  assert (Hfresh : interval_wf i = true
                   /\ Interval.parent i = None /\ Interval.next i = None
                   /\ Interval.slot i = kInvalidSpillSlot).
  { unfold buildIntervals in Hb.
    apply result_bind_Ok in Hb as (ivs1 & H1 & Hb).
    apply result_bind_Ok in Hb as (ivs2 & H2 & Hb).
    apply result_bind_Ok in Hb as (u & _ & Hb).
    apply result_bind_Ok in Hb as (u' & _ & Hb).
    inversion Hb; subst m. clear Hb.
    split;
      [apply (buildIntervals_all_ok sf0 vunit ctx ivs1 ivs2 Hlay H1 H2 r i Hr)|].
    assert (Hok1 : built_ok ivs1).
    { apply (foldM_inv built_ok) in H1; [exact H1 | |].
      - intros x b x' Hx Hf. apply (build_block_built_ok _ _ _ _ _ _ Hx Hf).
      - intros r0 i0 Hl0. rewrite lookup_empty in Hl0. discriminate. }
    assert (Hok2 : consts_ok (constToReg vunit) ([] ++ constToReg vunit)
                             ivs2).
    { apply (finish_constants_consts_ok _ _ [] ivs1 ivs2); [auto| |exact H2].
      intros r0 i0 Hl0. destruct (Hok1 r0 i0 Hl0) as [Hf Hc].
      split; [exact Hf|]. split; [congruence|].
      intros (c & Hc'). inversion Hc'. }
    rewrite lookup_fmap in Hr.
    destruct (ivs2 !! r) as [i2|] eqn:E2; [|discriminate].
    simpl in Hr. inversion Hr; subst i.
    destruct (Hok2 r i2 E2) as ((_ & F2 & F3 & F4 & _) & _).
    auto. }
  destruct Hfresh as (Hwf & Hpar & Hnext & Hslot).
  split; [exact Hpar|]. split; [exact Hnext|]. split; [exact Hslot|].
  split; [|exact Hmax].
  unfold interval_wf in Hwf.
  apply andb_true_iff in Hwf as [Hwf _].
  apply andb_true_iff in Hwf as [Hwf _].
  apply andb_true_iff in Hwf as [_ Hwf].
  unfold Interval.start, Interval.end_.
  destruct (Interval.ranges i) as [|r0 rs] eqn:E.
  - simpl. lia.
  - destruct (ranges_wf_bounds (r0 :: rs) r0 Hwf eq_refl) as (e & He & Hlt).
    rewrite He. lia.
Qed.

(** A queue that serves the interval with the lowest start takes one
    interval out of the bag. *)
Lemma top_least_takes (top : Top) : top_least top -> top_takes top.
Proof. intros H h a l. apply (H h a l). Qed.

End BuiltState.

Section SlotReuse.

Context (top : Top) (ctx : VxlsContext) (abi : Abi) (nregs : nat)
        (intervals : gmap Vreg addr) (precoloring coalescing : bool).

(** The chain of an interval that has slot [j] holds it. *)
Lemma member_holds (h : Heap) (ss : list Z) (D : list addr) (a : addr)
    (i : Interval) (j : nat) :
  alloc_inv h ss D -> h !! a = Some i -> holds i j ->
  exists l, is_leader h (leader a i) l /\ holds l j.
Proof.
  intros Inv Hi Hh. unfold leader.
  destruct (Interval.parent i) as [L|] eqn:Ep; simpl.
  - destruct (inv_parent _ _ _ Inv a i L Hi Ep) as (_ & l & HL & Hw).
    exists l. split; [exact HL|].
    destruct HL as [Hl _].
    destruct (inv_member _ _ _ Inv a i L l Hi Ep Hl) as [Hs|Hs].
    + destruct Hh as [Hn _]. contradiction.
    + apply (holds_eq _ _ _ Hw (eq_sym Hs) Hh).
  - exists i. split; [split; assumption | exact Hh].
Qed.

(** C6. Two intervals of distinct chains that were given a common spill
    slot belong to chains with disjoint lifetimes. [go], started on
    intervals that are unsplit and have no slot, leaves a state in which
    the invariant [st_inv] holds; in that state, if two intervals with
    different leaders have a slot [j] in common (a wide interval has its
    slot and the next one), the lifetimes of their chains, each from
    the start of the leader to the end of the last member, do not
    overlap; and the slots of a chain whose last member is still in one
    of the lists are at [kMaxPos]. The steps that keep it so are the
    allocator's: [assignSpill], for a leader without a slot, takes the
    first slot whose high water mark the leader's start has reached (for
    a wide interval an even slot together with its successor) and sets
    it to [kMaxPos]; [free_spill_slot] sets the slots of the chain to
    the end of the expiring interval, which has no next; and [update],
    in a state where the invariant holds, keeps the invariant and leaves
    the slots of every chain whose last member has expired from the
    active or inactive list at the end of that member. *)
Theorem spill_slot_reuse (fuel : nat) (ivec : list (option addr))
    (st0 st : Vxls) :
  top_takes top ->
  fresh_state st0 ivec ->
  go_state top fuel ctx abi nregs ivec intervals precoloring coalescing st0
  = Some (Ok st) ->
  st_inv st []
  /\ (forall a i b k j,
         heap st !! a = Some i -> heap st !! b = Some k ->
         leader a i <> leader b k ->
         holds i j -> holds k j ->
         exists s1 e1 s2 e2,
           chain_lifetime (heap st) (leader a i) s1 e1
           /\ chain_lifetime (heap st) (leader b k) s2 e2
           /\ (e1 <= s2 \/ e2 <= s1))
  /\ (forall L l x xi j,
         is_leader (heap st) L l -> holds l j -> is_last (heap st) L x xi ->
         x ∈ pending st ++ active st ++ inactive st ->
         spill_slots st !! j = Some kMaxPos)
  /\ (forall st1 st2 ivl la i ldr,
         heap st1 !! ivl = Some i ->
         Interval.parent i = Some la ->
         heap st1 !! la = Some ldr ->
         Interval.slot ldr = kInvalidSpillSlot ->
         assignSpill st1 ivl = Ok st2 ->
         exists k,
           find_free (spill_slots st1) (Interval.start ldr) (Interval.wide i)
           = Some k
           /\ spill_slots st2 = own_slots (spill_slots st1) k (Interval.wide i)
           /\ (Interval.slot <$> heap st2 !! la) = Some (Z.of_nat k)
           /\ (Interval.slot <$> heap st2 !! ivl) = Some (Z.of_nat k)
           /\ (Interval.wide i = true -> Nat.Even k)
           /\ forall j, occupies k (Interval.wide i) j ->
                (exists w, spill_slots st1 !! j = Some w
                           /\ w <= Interval.start ldr)
                /\ spill_slots st2 !! j = Some kMaxPos)
  /\ (forall st1 st2 ivl i ldr,
         heap st1 !! ivl = Some i ->
         heap st1 !! leader ivl i = Some ldr ->
         Interval.slot ldr <> kInvalidSpillSlot ->
         free_spill_slot st1 ivl = Ok st2 ->
         Interval.next i = None
         /\ release_slots (spill_slots st1) (Z.to_nat (Interval.slot ldr))
                          (Interval.wide i) (Interval.end_ i)
            = Ok (spill_slots st2)
         /\ forall j, occupies (Z.to_nat (Interval.slot ldr))
                               (Interval.wide i) j ->
                      spill_slots st2 !! j = Some (Interval.end_ i))
  /\ (forall st1 st2 E current cur,
         st_inv st1 E ->
         heap st1 !! current = Some cur ->
         update st1 current = Ok st2 ->
         st_inv st2 E
         /\ forall x i o j,
              x ∈ active st1 ++ inactive st1 ->
              heap st1 !! x = Some i ->
              Interval.end_ i <= Interval.start cur ->
              Interval.next i = None ->
              is_leader (heap st1) (leader x i) o -> holds o j ->
              spill_slots st2 !! j = Some (Interval.end_ i)).
Proof.
  intros Htop Hfresh Hrun.
  pose proof (go_state_alloc_inv top ctx abi nregs intervals precoloring
                coalescing fuel ivec st0 st Htop Hfresh Hrun) as Inv.
  split; [exact Inv|]. split.
  { intros a i b k j Hi Hk Hne Hhi Hhk.
    destruct (member_holds _ _ _ _ _ _ Inv Hi Hhi) as (l1 & HL1 & Hh1).
    destruct (member_holds _ _ _ _ _ _ Inv Hk Hhk) as (l2 & HL2 & Hh2).
    destruct (inv_last _ _ _ Inv _ _ HL1) as (x1 & x1i & Hx1 & _).
    destruct (inv_last _ _ _ Inv _ _ HL2) as (x2 & x2i & Hx2 & _).
    exists (Interval.start l1), (Interval.end_ x1i), (Interval.start l2),
           (Interval.end_ x2i).
    split; [exists l1, x1, x1i; auto|]. split; [exists l2, x2, x2i; auto|].
    apply (inv_disjoint _ _ _ Inv j _ l1 x1 x1i _ l2 x2 x2i Hne HL1 Hh1 Hx1
             HL2 Hh2 Hx2). }
  split.
  { intros L l x xi j HL Hh Hx HxD.
    destruct (inv_slot _ _ _ Inv L l j HL Hh) as [_ Hlt].
    apply lookup_lt_is_Some in Hlt as [w Hw]. rewrite Hw. f_equal.
    destruct (decide (w = kMaxPos)) as [E|E]; [exact E|].
    destruct (inv_free _ _ _ Inv j w L l x xi Hw E HL Hh Hx) as [_ Hn].
    exfalso. apply Hn. rewrite app_nil_r. exact HxD. }
  split.
  { intros st1 st2 ivl la i ldr Hi Hpar Hl Hslot H.
    destruct (assignSpill_fresh _ _ _ _ _ _ Hi Hpar Hl Hslot H)
      as (k & Hf & Hss & Hla & Hivl).
    destruct (find_free_Some _ _ _ _ Hf) as [Hev Hfree].
    exists k. split; [exact Hf|]. split; [exact Hss|]. split; [exact Hla|].
    split; [exact Hivl|]. split; [exact Hev|].
    intros j Ho. destruct (Hfree j Ho) as (w & Hw & Hle).
    split; [eauto|]. rewrite Hss.
    apply own_slots_occupied; [|exact Ho].
    eapply lookup_lt_Some. exact Hw. }
  split.
  { intros st1 st2 ivl i ldr Hi Hl Hslot H.
    destruct (free_spill_slot_Ok _ _ _ _ _ Hi Hl H)
      as (_ & _ & _ & _ & Hnext & _ & Hrel).
    destruct (Hrel Hslot) as [_ Hr].
    split; [exact Hnext|]. split; [exact Hr|].
    apply (release_slots_Ok _ _ _ _ _ Hr). }
  intros st1 st2 E current cur Inv1 Hcur Hu.
  destruct (update_alloc_inv _ _ _ _ _ Inv1 Hcur Hu) as (Inv2 & _ & Hset).
  split; [exact Inv2 | exact Hset].
Qed.

End SlotReuse.

(** The vector holds four intervals and there is one register; the
    fifth interval of the store is the one [go] would take next. The
    chains of 0 and of 2 are both given slot 0: the first lives from 0
    to 10, the second from 12 to 20. At the end the second still owns
    the slot, and the [update] for the fifth interval releases it. *)
Lemma spill_slot_reuse_witness :
  let mk := fun a b us v =>
              Interval.mk None None [LiveRange.mk a b]
                (map (fun p => mkUse Gpr p InvalidVreg) us) (Virt v) a
                kInvalidSpillSlot false InvalidReg false 0 in
  let h : Heap :=
    <[4%nat := mk 22 26 [22] 4%nat]>
      (<[3%nat := mk 14 16 [14] 3%nat]>
         (<[2%nat := mk 12 20 [12; 18] 2%nat]>
            (<[1%nat := mk 2 6 [2; 4] 1%nat]>
               {[0%nat := mk 0 10 [0; 8] 0%nat]}))) in
  let st0 := mkVxls h [] [] [] [0; 0] (mkSpillInfo 0 0) in
  let ctx0 := mkContext (Reg 4) [0%nat] [LiveRange.mk 0 30] [0] [Some ∅] in
  let abi0 := mkAbi {[Reg 0]} {[Reg 0]} ∅ ∅ in
  let top0 : Top := fun _ a l => (a, l) in
  let ivec := [Some 3%nat; Some 2%nat; Some 1%nat; Some 0%nat] in
  exists st st2,
    go_state top0 10 ctx0 abi0 1 ivec ∅ false false st0 = Some (Ok st)
    /\ (Interval.slot <$> heap st !! 5%nat) = Some 0
    /\ (Interval.slot <$> heap st !! 7%nat) = Some 0
    /\ chain_lifetime (heap st) 0%nat 0 10
    /\ chain_lifetime (heap st) 2%nat 12 20
    /\ (exists s1 e1 s2 e2,
          chain_lifetime (heap st) 0%nat s1 e1
          /\ chain_lifetime (heap st) 2%nat s2 e2
          /\ (e1 <= s2 \/ e2 <= s1))
    /\ active st = [8%nat]
    /\ spill_slots st !! 0%nat = Some kMaxPos
    /\ update st 4%nat = Ok st2
    /\ spill_slots st2 !! 0%nat = Some 20.
Proof.
  intros mk h st0 ctx0 abi0 top0 ivec.
  assert (H : exists st st2 i5 i7 l0 l2 x6 x8 cur,
             go_state top0 10 ctx0 abi0 1 ivec ∅ false false st0
             = Some (Ok st)
             /\ update st 4%nat = Ok st2
             /\ active st = [8%nat]
             /\ heap st !! 5%nat = Some i5 /\ heap st !! 7%nat = Some i7
             /\ heap st !! 0%nat = Some l0 /\ heap st !! 2%nat = Some l2
             /\ heap st !! 6%nat = Some x6 /\ heap st !! 8%nat = Some x8
             /\ heap st !! 4%nat = Some cur
             /\ Interval.parent i5 = Some 0%nat
             /\ Interval.parent i7 = Some 2%nat
             /\ Interval.slot i5 = 0 /\ Interval.slot i7 = 0
             /\ Interval.slot l2 = 0 /\ Interval.wide l2 = false
             /\ Interval.parent l0 = None /\ Interval.parent l2 = None
             /\ Interval.parent x6 = Some 0%nat
             /\ Interval.parent x8 = Some 2%nat
             /\ Interval.next x6 = None /\ Interval.next x8 = None
             /\ Interval.start l0 = 0 /\ Interval.end_ x6 = 10
             /\ Interval.start l2 = 12 /\ Interval.end_ x8 = 20
             /\ Interval.start cur = 22).
  { do 9 eexists. split; [vm_compute; reflexivity|].
    repeat (split; [vm_compute; reflexivity|]). vm_compute; reflexivity. }
  destruct H as (st & st2 & i5 & i7 & l0 & l2 & x6 & x8 & cur & Hrun & Hupd
                 & Hact & H5 & H7 & H0 & H2 & H6 & H8 & H4 & Hp5 & Hp7
                 & Hs5 & Hs7 & Hsl2 & Hwl2 & Hp0 & Hp2 & Hp6 & Hp8 & Hn6
                 & Hn8 & Hs0 & He6 & Hs2 & He8 & Hsc).
  exists st, st2. split; [exact Hrun|].
  split; [rewrite H5; simpl; congruence|].
  split; [rewrite H7; simpl; congruence|].
  assert (Hx6 : is_last (heap st) 0%nat 6%nat x6).
  { split; [exact H6|]. split; [unfold leader; rewrite Hp6|]; auto. }
  assert (Hx8 : is_last (heap st) 2%nat 8%nat x8).
  { split; [exact H8|]. split; [unfold leader; rewrite Hp8|]; auto. }
  assert (HL0 : chain_lifetime (heap st) 0%nat 0 10).
  { exists l0, 6%nat, x6. split; [split; assumption|].
    split; [exact Hx6 | split; congruence]. }
  assert (HL2 : chain_lifetime (heap st) 2%nat 12 20).
  { exists l2, 8%nat, x8. split; [split; assumption|].
    split; [exact Hx8 | split; congruence]. }
  split; [exact HL0|]. split; [exact HL2|].
  assert (Htop : top_takes top0) by (intros ? ? ?; reflexivity).
  assert (Hfresh : fresh_state st0 ivec).
  { split; [reflexivity|]. split; [reflexivity|]. split; [reflexivity|].
    split.
    { simpl. repeat (apply NoDup_cons; split;
                     [rewrite ?elem_of_cons, elem_of_nil; lia|]).
      apply NoDup_nil_2. }
    split.
    { intros a Ha. simpl in Ha.
      rewrite !elem_of_cons, elem_of_nil in Ha.
      destruct Ha as [->|[->|[->|[->|[]]]]]; vm_compute; eauto. }
    assert (Hall : map_Forall
              (fun _ i => Interval.parent i = None /\ Interval.next i = None
                          /\ Interval.slot i = kInvalidSpillSlot
                          /\ Interval.start i <= Interval.end_ i
                          /\ Interval.end_ i < kMaxPos) h).
    { repeat apply map_Forall_insert_2;
        try (apply map_Forall_singleton);
        try (apply map_Forall_empty);
        (split; [reflexivity|]; split; [reflexivity|];
         split; [reflexivity|]; split; vm_compute; congruence). }
    intros a i Hi. apply (Hall a i Hi). }
  destruct (spill_slot_reuse top0 ctx0 abi0 1 ∅ false false 10 ivec st0 st
              Htop Hfresh Hrun)
    as (Inv & Hdis & Hown & _ & _ & Hrel).
  assert (Hh5 : holds i5 0%nat).
  { split; [rewrite Hs5; discriminate|]. left. rewrite Hs5. reflexivity. }
  assert (Hh7 : holds i7 0%nat).
  { split; [rewrite Hs7; discriminate|]. left. rewrite Hs7. reflexivity. }
  assert (Hhl2 : holds l2 0%nat).
  { split; [rewrite Hsl2; discriminate|]. left. rewrite Hsl2. reflexivity. }
  assert (Hl5 : leader 5%nat i5 = 0%nat) by (unfold leader; rewrite Hp5; auto).
  assert (Hl7 : leader 7%nat i7 = 2%nat) by (unfold leader; rewrite Hp7; auto).
  assert (Hl8 : leader 8%nat x8 = 2%nat) by (unfold leader; rewrite Hp8; auto).
  split.
  { destruct (Hdis 5%nat i5 7%nat i7 0%nat H5 H7
                ltac:(rewrite Hl5, Hl7; discriminate) Hh5 Hh7)
      as (s1 & e1 & s2 & e2 & Hc1 & Hc2 & Hd).
    rewrite Hl5 in Hc1. rewrite Hl7 in Hc2.
    exists s1, e1, s2, e2. auto. }
  split; [exact Hact|].
  split.
  { apply (Hown 2%nat l2 8%nat x8 0%nat); [split; assumption | exact Hhl2
      | exact Hx8 |].
    rewrite Hact. rewrite !elem_of_app, !elem_of_cons. auto. }
  split; [exact Hupd|].
  destruct (Hrel st st2 [] 4%nat cur Inv H4 Hupd) as [_ Hset].
  rewrite <- He8.
  apply (Hset 8%nat x8 l2 0%nat); try assumption.
  - rewrite Hact. rewrite elem_of_app, elem_of_cons. auto.
  - lia.
  - rewrite Hl8. split; assumption.
Defined.
